(** * consteval-huffman: a shallow embedding of the codec and its decoders

    The repository ships several revisions of one header.  Two of them carry
    the code studied here:

    - [consteval_huffman.hpp], class [huffman_compress<data, data_length>]
      with its iterator [decode_info];
    - the newest header, class [huffman_compressor<raw_data>] with its
      iterator [decoder] and the accessors [data()] and [size()].

    The build pipeline ([build_node_list], [tree_count], [build_node_tree],
    [compressed_size_info], [compress], [build_decode_tree],
    [compressed_size], [bytes_saved]) is the same text in both revisions and
    is embedded once, in [Module Huffman].

    An earlier revision of [huffman_compress], whose decoder is obtained
    with [get_decoder()], is embedded in [Module huffman_compress_earlier].

    Conventions.
    - Input bytes are [Byte.byte].  The shared pipeline and the class
      [huffman_compressor] read a byte as its value in 0..255 (element type
      [unsigned char]).  The two revisions of [huffman_compress] and
      [operator ""_huffman] take plain [char]: they read a byte through
      [char_value], and a byte that is negative as a [char] cannot index the
      256 counters.
    - [int], [long] and [unsigned long] values are [Z]; array lengths and
      iterator positions are [nat]; the places where C++ narrows a value
      (stores into [unsigned char], the unsigned subtraction in
      [bytes_saved]) have the wrap-around written out.
    - An array is a [list]; a read or write outside the array, which is
      undefined behaviour in C++ (and aborts constant evaluation), is [None].
    - A loop whose trip count is not syntactically bounded takes a [fuel]
      argument; running out of fuel is [None] as well. *)

From Stdlib Require Import ZArith List Bool Lia Permutation Sorted.
From Stdlib Require Import Strings.Byte.
Import ListNotations.
Open Scope Z_scope.

Notation "x <- e ;; k" := (match e with Some x => k | None => None end)
  (at level 61, e at next level, right associativity).
Notation "' p <- e ;; k" := (match e with Some p => k | None => None end)
  (at level 61, p pattern, e at next level, right associativity).

(** ** Arrays and iterators *)

Module Arr.

(** [std::find_if(first, last, p) - first]: the distance of the first element
    satisfying [p], or the length of the range when there is none. *)
Fixpoint find_if {A} (p : A -> bool) (l : list A) : nat :=
  match l with
  | [] => O
  | x :: r => if p x then O else S (find_if p r)
  end.

(** [a[i] = x]. *)
Definition store {A} (i : nat) (x : A) (a : list A) : option (list A) :=
  if (i <? length a)%nat then Some (firstn i a ++ x :: skipn (S i) a) else None.

(** [a[i] = f(a[i])] for an index known to be in range (a no-op otherwise). *)
Fixpoint modify {A} (f : A -> A) (i : nat) (a : list A) : list A :=
  match a, i with
  | [], _ => []
  | x :: r, O => f x :: r
  | x :: r, S k => x :: modify f k r
  end.

(** [std::copy(src.begin(), src.end(), dst.begin())] for [src] no longer
    than [dst]. *)
Definition copy {A} (src dst : list A) : list A :=
  src ++ skipn (length src) dst.

(** A loop body run over the elements of [l], stopping at the first failure. *)
Fixpoint for_each {A B} (f : B -> A -> option B) (l : list A) (b : B) : option B :=
  match l with
  | [] => Some b
  | x :: r => b' <- f b x ;; for_each f r b'
  end.

End Arr.

(** ** The build pipeline shared by both revisions *)

Module Huffman.
Import Arr.

Definition byte_val (c : byte) : Z := Z.of_N (Byte.to_N c).

(** A plain [char] read as a number.  Whether plain [char] is signed is left
    to the implementation; it is signed here, as it is with gcc, the
    compiler the repository names, on x86: the bytes 0x80..0xFF are the
    values -128..-1. *)
Definition char_value (c : byte) : Z :=
  if byte_val c <? 0x80 then byte_val c else byte_val c - 0x100.

(** [list[c]] for a plain [char] [c] is one of the 256 counters. *)
Definition indexable (c : byte) : bool := 0 <=? char_value c.

(** [std::char_traits<char>::length(data)], the default of the template
    argument [data_length] of [huffman_compress]: the number of elements in
    front of the first zero.  An array without zero makes it read past the
    end. *)
Definition char_traits_length (data : list byte) : option nat :=
  let n := find_if (fun c => byte_val c =? 0) data in
  if (n <? length data)%nat then Some n else None.

(** [struct node]; [parent] is an index into the tree, [left] and [right]
    hold the [value] of the child nodes, [-1] when absent. *)
Record node := mk_node {
  value : Z;
  freq : Z;
  parent : Z;
  left : Z;
  right : Z
}.

(** [node()] *)
Definition node_default : node := mk_node 0 0 (-1) (-1) (-1).

Definition set_value (v : Z) (n : node) : node :=
  mk_node v (freq n) (parent n) (left n) (right n).
Definition incr_freq (n : node) : node :=
  mk_node (value n) (freq n + 1) (parent n) (left n) (right n).
Definition set_parent (p : Z) (n : node) : node :=
  mk_node (value n) (freq n) p (left n) (right n).

(** [std::sort] with the comparator [a.freq < b.freq].  The library
    function is not part of the repository; what the C++ standard promises
    of it is the interface below: the result is a rearrangement of the
    input, ordered by the comparator.  The order of elements with equal
    frequency is left open. *)
Class StdSort := {
  sort : list node -> list node;
  sort_permutation : forall l, Permutation (sort l) l;
  sort_ordered : forall l, StronglySorted (fun a b => freq a <= freq b) (sort l)
}.

Section Pipeline.
Context {std_sort : StdSort}.

(** [build_node_list] *)
Definition build_node_list (data : list byte) : list node :=
  let node_list := map (fun i => set_value (Z.of_nat i) node_default) (seq 0 256) in
  let node_list :=
    fold_left (fun l c => modify incr_freq (Z.to_nat (byte_val c)) l) data node_list in
  let node_list := sort node_list in
  let first_valid_node := find_if (fun n => negb (freq n =? 0)) node_list in
  let fit_size := (length node_list - first_valid_node)%nat in
  let fit_size := if (fit_size <? 2)%nat then 2%nat else fit_size in
  let fit_list := repeat node_default fit_size in
  copy (skipn first_valid_node node_list) fit_list.

(** [tree_count] *)
Definition tree_count (data : list byte) : nat :=
  (length (build_node_list data) * 2 - 1)%nat.

(** The [while (1)] loop of [build_node_tree].  [node_list] is the range
    [list.begin(), list_end); [tree] is the whole tree array and
    [tree_begin] the position of the iterator of that name. *)
Fixpoint merge_loop (fuel : nat) (node_list tree : list node) (tree_begin : nat)
    (next_parent_node_value : Z) : option (list node * list node) :=
  match fuel with
  | O => None
  | S fuel =>
    match node_list, tree_begin with
    | l0 :: l1 :: rest, S (S tb) =>
        let new_node :=
          mk_node next_parent_node_value (freq l0 + freq l1) (-1) (value l0) (value l1) in
        tree <- store (S tb) l0 tree ;;
        tree <- store tb l1 tree ;;
        match rest with
        | [] => Some ([new_node], tree)
        | _ =>
            let insertion_point := find_if (fun n => freq n >=? freq new_node) rest in
            merge_loop fuel
              (firstn insertion_point rest ++ new_node :: skipn insertion_point rest)
              tree tb (next_parent_node_value + 1)
        end
    | _, _ => None
    end
  end.

(** One turn of the loop "Connect child nodes to their parents". *)
Definition connect_parent (tree : list node) (iter : nat) : option (list node) :=
  it <- nth_error tree iter ;;
  if parent it =? -1 then
    let p := find_if (fun n => (left n =? value it) || (right n =? value it))
                     (firstn iter tree) in
    if (p =? iter)%nat then Some tree
    else store iter (set_parent (Z.of_nat p) it) tree
  else Some tree.

(** [build_node_tree] *)
Definition build_node_tree (data : list byte) : option (list node) :=
  let node_list := build_node_list data in
  let tree := repeat node_default (tree_count data) in
  '(node_list, tree) <-
    merge_loop (length node_list) node_list tree (length tree) 0x100 ;;
  root <- nth_error node_list 0 ;;
  tree <- store 0 root tree ;;
  for_each connect_parent (seq 1 (length tree - 1)) tree.

(** The inner [while (leaf->parent != -1)] loop of [compressed_size_info]. *)
Fixpoint size_walk (fuel : nat) (tree : list node) (leaf : nat) (bytes bits : Z)
    : option (Z * Z) :=
  n <- nth_error tree leaf ;;
  if parent n =? -1 then Some (bytes, bits)
  else
    match fuel with
    | O => None
    | S fuel =>
        let bits := bits + 1 in
        let '(bytes, bits) := if bits =? 8 then (bytes + 1, 0) else (bytes, bits) in
        size_walk fuel tree (Z.to_nat (parent n)) bytes bits
    end.

(** [compressed_size_info] *)
Definition compressed_size_info (data : list byte) : option (Z * Z) :=
  tree <- build_node_tree data ;;
  for_each (fun '(bytes, bits) c =>
              let leaf := find_if (fun n => value n =? byte_val c) tree in
              size_walk (length tree) tree leaf bytes bits)
           data (1, 0).

(** [compressed_data[i] |= mask], the result stored as [unsigned char]. *)
Definition or_into (i : Z) (mask : Z) (a : list Z) : option (list Z) :=
  if i <? 0 then None
  else
    old <- nth_error a (Z.to_nat i) ;;
    store (Z.to_nat i) (Z.lor old mask mod 256) a.

(** The inner [while (leaf->parent != -1)] loop of [compress]. *)
Fixpoint compress_walk (fuel : nat) (tree : list node) (leaf : nat)
    (compressed_data : list Z) (bytes bits : Z) : option (list Z * Z * Z) :=
  n <- nth_error tree leaf ;;
  if parent n =? -1 then Some (compressed_data, bytes, bits)
  else
    match fuel with
    | O => None
    | S fuel =>
        let parent_it := Z.to_nat (parent n) in
        p <- nth_error tree parent_it ;;
        compressed_data <-
          (if right p =? value n
           then or_into (bytes - 1) (Z.shiftl 1 bits) compressed_data
           else Some compressed_data) ;;
        let bits := bits + 1 in
        let '(bytes, bits) := if bits =? 8 then (bytes - 1, 0) else (bytes, bits) in
        compress_walk fuel tree parent_it compressed_data bytes bits
    end.

(** [compress], writing into the array [compressed_data]. *)
Definition compress (data : list byte) (compressed_data : list Z) : option (list Z) :=
  tree <- build_node_tree data ;;
  '(bytes, bits) <- compressed_size_info data ;;
  let '(bytes, bits) := if bits >? 0 then (bytes, 8 - bits) else (bytes - 1, 0) in
  '(compressed_data, _, _) <-
    for_each (fun '(compressed_data, bytes, bits) c =>
                let leaf := find_if (fun n => value n =? byte_val c) tree in
                compress_walk (length tree) tree leaf compressed_data bytes bits)
             (rev data) (compressed_data, bytes, bits) ;;
  Some compressed_data.

(** [for (; j < tree_count(); j++) if (child == tree[j].value) break;]
    with [count] turns left; the result is the final [j]. *)
Fixpoint find_child (count : nat) (tree : list node) (child : Z) (j : nat) : option nat :=
  match count with
  | O => Some j
  | S count =>
      n <- nth_error tree j ;;
      if child =? value n then Some j else find_child count tree child (S j)
  end.

(** The value [j < tree_count() ? j - i : 0] as it lands in an
    [unsigned char]. *)
Definition offset_byte (count i j : nat) : Z :=
  (if (j <? count)%nat then Z.of_nat j - Z.of_nat i else 0) mod 256.

(** One turn of the outer loop of [build_decode_tree]; [decode_tree] is the
    position of the table inside the array [a]. *)
Definition decode_entry (count : nat) (tree : list node) (decode_tree : nat)
    (a : list Z) (i : nat) : option (list Z) :=
  ti <- nth_error tree i ;;
  a <- store (decode_tree + i * 3) ((if value ti <=? 0xFF then value ti else 0) mod 256) a ;;
  j <- find_child (count - (i + 1)) tree (left ti) (i + 1) ;;
  a <- store (decode_tree + i * 3 + 1) (offset_byte count i j) a ;;
  j <- find_child (count - (i + 1)) tree (right ti) (i + 1) ;;
  store (decode_tree + i * 3 + 2) (offset_byte count i j) a.

(** [build_decode_tree], writing the table into [a] from position
    [decode_tree] on. *)
Definition build_decode_tree (data : list byte) (decode_tree : nat) (a : list Z)
    : option (list Z) :=
  tree <- build_node_tree data ;;
  for_each (decode_entry (tree_count data) tree decode_tree) (seq 0 (tree_count data)) a.

(** Conversions to [unsigned long] and to [long] (64 bits). *)
Definition to_unsigned_long (z : Z) : Z := z mod 2 ^ 64.
Definition to_long (z : Z) : Z := (z + 2 ^ 63) mod 2 ^ 64 - 2 ^ 63.

(** [compressed_size] *)
Definition compressed_size (data : list byte) : option Z :=
  '(first, _) <- compressed_size_info data ;;
  Some (to_unsigned_long (first + 3 * Z.of_nat (tree_count data))).

(** [uncompressed_size] *)
Definition uncompressed_size (data : list byte) : Z := Z.of_nat (length data).

(** [bytes_saved] *)
Definition bytes_saved (data : list byte) : option Z :=
  c <- compressed_size data ;;
  let diff := to_long (to_unsigned_long (uncompressed_size data - c)) in
  Some (if diff >? 0 then diff else 0).

End Pipeline.

(** The outcome of instantiating one of the two class templates. *)
Inductive construction (A : Type) : Type :=
| Constructed (object : A)
| EmptyInput              (* the [requires] clause on the length fails *)
| NotConstant             (* constant evaluation meets undefined behaviour *)
| IllFormed.              (* a class the template names fails its [requires] clause *)
Arguments Constructed {A} object.
Arguments EmptyInput {A}.
Arguments NotConstant {A}.
Arguments IllFormed {A}.

(** The range-based [for] loop: [for (it = begin; !(it == end); ++it)
    yield *it]. *)
Fixpoint range_for {I} (fuel : nat) (eq : I -> I -> bool) (deref : I -> Z)
    (next : I -> option I) (it e : I) : option (list Z) :=
  if eq it e then Some []
  else
    match fuel with
    | O => None
    | S fuel =>
        it' <- next it ;;
        out <- range_for fuel eq deref next it' e ;;
        Some (deref it :: out)
    end.

End Huffman.

(** ** The newest revision: [huffman_compressor<raw_data>] and its [decoder]

    The object owns one array, [compressed_data]: the payload followed by
    the decode table, or the raw bytes.  A pointer into it is its offset. *)

Module huffman_compressor.
Import Arr Huffman.

Section Class.
Context {std_sort : StdSort}.
Variable raw_data : list byte.

(** The constructor, behind [requires(raw_data.size() > 0)]. *)
Definition construct : construction (list Z) :=
  if (length raw_data =? 0)%nat then EmptyInput
  else
    match
      (saved <- bytes_saved raw_data ;;
       '(first, _) <- compressed_size_info raw_data ;;
       if saved >? 0 then
         let compressed_data :=
           repeat 0 (Z.to_nat (first + 3 * Z.of_nat (tree_count raw_data))) in
         compressed_data <- build_decode_tree raw_data (Z.to_nat first) compressed_data ;;
         compress raw_data compressed_data
       else
         Some (copy (map byte_val raw_data) (repeat 0 (length raw_data))))
    with
    | Some compressed_data => Constructed compressed_data
    | None => NotConstant
    end.

(** [data()] *)
Definition data (compressed_data : list Z) : option (list Z) :=
  saved <- bytes_saved raw_data ;;
  Some (if saved >? 0 then compressed_data else map byte_val raw_data).

(** [size()] *)
Definition size : option Z :=
  saved <- bytes_saved raw_data ;;
  if saved >? 0 then compressed_size raw_data else Some (uncompressed_size raw_data).

(** [class decoder]; [m_table] is [None] for [nullptr]. *)
Record decoder := mk_decoder {
  m_data : nat;
  m_table : option nat;
  m_bit : Z;
  m_current : Z
}.

(** [operator==] *)
Definition decoder_eq (a b : decoder) : bool :=
  (m_data a =? m_data b)%nat && (m_bit a =? m_bit b) && (m_current a =? m_current b).

(** The [do ... while (node[1] != 0)] loop of [decoder::get_next] over the
    array [mem]; the result is the final [node], [bit] and [m_data]. *)
Fixpoint decode_walk (fuel : nat) (mem : list Z) (node : nat) (data bit : Z)
    (m_data : nat) : option (nat * Z * nat) :=
  match fuel with
  | O => None
  | S fuel =>
      off <- (if negb (Z.land data bit =? 0)
              then nth_error mem (node + 2) else nth_error mem (node + 1)) ;;
      let node := (node + Z.to_nat (off * 3))%nat in
      let bit := Z.shiftr bit 1 in
      '(bit, data, m_data) <-
        (if bit =? 0
         then d <- nth_error mem (S m_data) ;; Some (0x80, d, S m_data)
         else Some (bit, data, m_data)) ;;
      l <- nth_error mem (node + 1) ;;
      if negb (l =? 0) then decode_walk fuel mem node data bit m_data
      else Some (node, bit, m_data)
  end.

(** The decoder runs at run time; [bytes_saved()] and
    [compressed_size_info()] are [consteval], so the run-time code holds
    their values, computed once by the compiler. *)
Section RunTime.
Variable saved : Z.             (* bytes_saved() *)
Variable size_info : Z * Z.     (* compressed_size_info() *)

(** [decoder::end] *)
Definition decoder_end (comp_data : nat) : decoder :=
  if saved >? 0 then
    let '(size_bytes, last_bits) := size_info in
    mk_decoder (comp_data + Z.to_nat (size_bytes - 1)) None
               (Z.shiftl 1 (7 - last_bits) mod 256) (-1)
  else
    mk_decoder (comp_data + length raw_data) None 0x80 (-1).

(** [decoder::get_next] on the object whose array is [mem]. *)
Definition get_next (mem : list Z) (d : decoder) : option decoder :=
  table <- m_table d ;;
  if (table <? Z.to_nat (fst size_info))%nat then None
  else
    let e := decoder_end (table - Z.to_nat (fst size_info)) in
    if (m_data d =? m_data e)%nat && (m_bit d =? m_bit e) then
      Some (mk_decoder (m_data d) (m_table d) (m_bit d) (-1))
    else if saved >? 0 then
      data <- nth_error mem (m_data d) ;;
      '(node, bit, m_data') <-
        decode_walk (8 * length mem + 8) mem table data (m_bit d) (m_data d) ;;
      current <- nth_error mem node ;;
      Some (mk_decoder m_data' (m_table d) bit current)
    else
      current <- nth_error mem (m_data d) ;;
      Some (mk_decoder (S (m_data d)) (m_table d) (m_bit d) current).

(** [begin()]: the constructor [decoder(compressed_data)]. *)
Definition begin (mem : list Z) : option decoder :=
  get_next mem (mk_decoder 0 (Some (Z.to_nat (fst size_info))) 0x80 (-1)).

(** [end()] *)
Definition end_ : decoder := decoder_end 0.

(** [for (auto c : object)], collecting every [c]. *)
Definition iterate (mem : list Z) : option (list Z) :=
  b <- begin mem ;;
  range_for (8 * length mem + 8) decoder_eq m_current (get_next mem) b end_.

End RunTime.

(** The whole program: the compiler evaluates the [consteval] functions and
    the constructor, then the loop runs over the object. *)
Definition decode_all : option (list Z) :=
  saved <- bytes_saved raw_data ;;
  size_info <- compressed_size_info raw_data ;;
  match construct with
  | Constructed compressed_data => iterate saved size_info compressed_data
  | _ => None
  end.

End Class.
End huffman_compressor.

(** ** The revision [consteval_huffman.hpp]: [huffman_compress<data,
    data_length>] and its [decode_info]

    [data] is the array of plain [char] the template argument points to and
    [data_length] the second template argument, a value of type
    [std::size_t] as the default argument is; the pipeline sees the first
    [data_length] bytes.  The object owns two arrays.

    The class of an object is part of its type: [object data_length] is an
    object of class [huffman_compress<data, data_length>].  The decoder
    [decode_info] keeps a pointer to [huffman_compress<data>], the class
    with [data_length] left to its default [std::char_traits<char>::length
    (data)], so
    - the class needs that default: the array holds a zero, and the default
      satisfies the [requires] clause;
    - [decode_info(this)], hence [begin()] and [end()], is well typed only
      in the class whose [data_length] is that default (given with the type
      of the default, or left out). *)

Module huffman_compress.
Import Arr Huffman.

Record object (data_length : nat) := mk_object {
  compressed_data : list Z;
  decode_tree : list Z
}.
Arguments mk_object {data_length} compressed_data decode_tree.
Arguments compressed_data {data_length} o.
Arguments decode_tree {data_length} o.

Section Class.
Context {std_sort : StdSort}.
Variable data : list byte.
Variable data_length : nat.

Definition input : list byte := firstn data_length data.

(** The constructor, behind [requires(data_length > 0)].  Its own
    [requires(std::forward_iterator<decode_info>)] completes [decode_info],
    which names [huffman_compress<data>]: an array without zero has no
    default length, and for an array that starts with a zero the default
    length is 0, which the [requires] clause of [huffman_compress<data>]
    refuses.  The counting loop of the pipeline indexes the counters with
    [data[i]], a plain [char]. *)
Definition construct : construction (object data_length) :=
  if (data_length =? 0)%nat then EmptyInput
  else
    match char_traits_length data with
    | None => NotConstant
    | Some O => IllFormed
    | Some (S _) =>
        if (length data <? data_length)%nat then NotConstant
        else if negb (forallb indexable input) then NotConstant
        else
          match
            (saved <- bytes_saved input ;;
             '(first, _) <- compressed_size_info input ;;
             let decode_tree := repeat 0 (3 * tree_count input) in
             if saved >? 0 then
               decode_tree <- build_decode_tree input 0 decode_tree ;;
               compressed_data <- compress input (repeat 0 (Z.to_nat first)) ;;
               Some (mk_object compressed_data decode_tree)
             else
               Some (mk_object (copy (map byte_val input) (repeat 0 data_length))
                               decode_tree))
          with
          | Some o => Constructed o
          | None => NotConstant
          end
    end.

(** [class decode_info] (the back pointer [m_data] is the object passed to
    the functions below). *)
Record decode_info := mk_decode_info {
  m_pos : nat;
  m_bit : Z;
  m_current : Z
}.

(** [operator==] *)
Definition decode_info_eq (a b : decode_info) : bool :=
  (m_bit a =? m_bit b) && (m_pos a =? m_pos b)%nat.

(** The [do ... while (node[1] != 0)] loop of [decode_info::get_next]. *)
Fixpoint decode_walk (fuel : nat) (o : object data_length) (node pos : nat) (bit : Z)
    : option (nat * nat * Z) :=
  match fuel with
  | O => None
  | S fuel =>
      c <- nth_error (compressed_data o) pos ;;
      let idx := if negb (Z.land c bit =? 0) then 2%nat else 1%nat in
      off <- nth_error (decode_tree o) (node + idx) ;;
      let node := (node + Z.to_nat (off * 3))%nat in
      let bit := Z.shiftr bit 1 in
      let '(bit, pos) := if bit =? 0 then (0x80, S pos) else (bit, pos) in
      l <- nth_error (decode_tree o) (node + 1) ;;
      if negb (l =? 0) then decode_walk fuel o node pos bit
      else Some (node, pos, bit)
  end.

(** The decoder runs at run time; [bytes_saved()] and
    [compressed_size_info()] are [consteval], so the run-time code holds
    their values, computed once by the compiler. *)
Section RunTime.
Variable saved : Z.             (* bytes_saved() *)
Variable size_info : Z * Z.     (* compressed_size_info() *)

(** [decode_info::get_next]; in raw mode [m_current], an [int], takes the
    plain [char] [data[m_pos]]. *)
Definition get_next (o : object data_length) (d : decode_info) : option decode_info :=
  if saved >? 0 then
    '(node, pos, bit) <-
      decode_walk (8 * length (compressed_data o) + 8) o 0 (m_pos d) (m_bit d) ;;
    current <- nth_error (decode_tree o) node ;;
    Some (mk_decode_info pos bit current)
  else
    current <- nth_error data (m_pos d) ;;
    Some (mk_decode_info (S (m_pos d)) (m_bit d) (char_value current)).

(** [decode_info::end] *)
Definition decode_info_end (d : decode_info) : decode_info :=
  if saved >? 0 then
    let '(size_bytes, last_bits) := size_info in
    mk_decode_info (Z.to_nat (size_bytes - 1))
                   (Z.shiftl 1 (7 - last_bits) mod 256) (m_current d)
  else
    mk_decode_info (data_length + 1) (m_bit d) (m_current d).

(** [begin()]: the constructor [decode_info(this)], which converts [this],
    a pointer to [huffman_compress<data, data_length>], to a pointer to
    [huffman_compress<data>]; there is no such conversion between two
    classes. *)
Definition begin (o : object data_length) : option decode_info :=
  match char_traits_length data with
  | Some n =>
      if (n =? data_length)%nat then get_next o (mk_decode_info 0 0x80 (-1)) else None
  | None => None
  end.

(** [end()]: [decode_info(this).end()]. *)
Definition end_ (o : object data_length) : option decode_info :=
  d <- begin o ;; Some (decode_info_end d).

(** [for (auto c : object)], collecting every [c]. *)
Definition iterate (o : object data_length) : option (list Z) :=
  b <- begin o ;;
  e <- end_ o ;;
  range_for (8 * (length (compressed_data o) + data_length) + 8)
            decode_info_eq m_current (get_next o) b e.

End RunTime.

(** The whole program: the compiler evaluates the [consteval] functions and
    the constructor, then the loop runs over the object. *)
Definition decode_all : option (list Z) :=
  saved <- bytes_saved input ;;
  size_info <- compressed_size_info input ;;
  match construct with
  | Constructed o => iterate saved size_info o
  | _ => None
  end.

End Class.

Arguments decode_walk {data_length} fuel o node pos bit.
Arguments get_next data {data_length} saved o d.
Arguments begin data {data_length} saved o.

End huffman_compress.

(** ** Two sorting routines that meet the [std::sort] interface *)

Module Sorting.
Import Huffman.

(** Insertion sort; an element goes in front of the later elements of equal
    frequency, so ties keep their order (a stable sort). *)
Fixpoint insert_stable (x : node) (l : list node) : list node :=
  match l with
  | [] => [x]
  | y :: r => if freq x <=? freq y then x :: l else y :: insert_stable x r
  end.

Definition stable_sort (l : list node) : list node := fold_right insert_stable [] l.

(** The same routine run on the reversed array: ties come out in reverse
    order. *)
Definition reverse_tie_sort (l : list node) : list node := stable_sort (rev l).

End Sorting.

(** ** Notions the properties are stated with *)

Module Spec.
Import Huffman.

(** How often the byte value [v] occurs in [data]. *)
Definition occurrences (v : Z) (data : list byte) : Z :=
  Z.of_nat (length (filter (fun c => byte_val c =? v) data)).

(** A node as [build_node_list] creates it. *)
Definition leaf_node (v f : Z) : node := mk_node v f (-1) (-1) (-1).

(** The 256 counters in scan order 0..255. *)
Definition frequency_table (data : list byte) : list node :=
  map (fun i => leaf_node (Z.of_nat i) (occurrences (Z.of_nat i) data)) (seq 0 256).

(** The symbols that occur, in scan order. *)
Definition occurring (data : list byte) : list node :=
  filter (fun n => negb (freq n =? 0)) (frequency_table data).

(** Ascending by frequency. *)
Definition ascending : list node -> Prop :=
  StronglySorted (fun a b => freq a <= freq b).

(** [L]: the number of distinct symbols, floored to 2. *)
Definition distinct_symbols (data : list byte) : nat :=
  Nat.max 2 (length (occurring data)).

(** The values a node names as its children: none for a leaf. *)
Definition child_values (n : node) : list Z :=
  if left n =? -1 then [] else [left n; right n].

(** [refers_to v m]: the test of the parent search, "[m.left == v ||
    m.right == v]". *)
Definition refers_to (v : Z) (m : node) : bool :=
  (left m =? v) || (right m =? v).

(** The indices of the nodes whose [parent] link points at index [i]. *)
Definition children (tree : list node) (i : nat) : list nat :=
  filter (fun j => match nth_error tree j with
                   | Some n => parent n =? Z.of_nat i
                   | None => false
                   end)
         (seq 0 (length tree)).

(** Sum of the frequencies of a list of nodes. *)
Definition total_freq (l : list node) : Z :=
  fold_right (fun n acc => freq n + acc) 0 l.

(** The node created by one turn of the merge loop, and the working list
    after the node went back in. *)
Definition new_parent (next : Z) (l0 l1 : node) : node :=
  mk_node next (freq l0 + freq l1) (-1) (value l0) (value l1).

Definition reinsert (new_node : node) (rest : list node) : list node :=
  let insertion_point := Arr.find_if (fun n => freq n >=? freq new_node) rest in
  firstn insertion_point rest ++ new_node :: skipn insertion_point rest.

(** A node is a leaf, or it names two neighbours of the filled part [tail]
    of the tree as its children, the right child first. *)
Definition shape (tail : list node) (n : node) : Prop :=
  (left n = -1 /\ right n = -1 /\ value n < 256) \/
  (256 <= value n /\
   exists pre post a b,
     tail = pre ++ b :: a :: post /\
     left n = value a /\ right n = value b /\ freq n = freq a + freq b).

(** The invariant of the merge loop: [nodes] is the working list, [tail] the
    filled part of the tree, [next] the next parent value; [init] and
    [total] are the working list the loop started from and its total
    frequency. *)
Record merge_inv (init : list node) (total : Z) (nodes tail : list node) (next : Z)
    : Prop := {
  inv_next : 256 <= next;
  inv_values : NoDup (map value (nodes ++ tail));
  inv_refs : NoDup (flat_map child_values (nodes ++ tail));
  inv_shape : forall n, In n (nodes ++ tail) ->
              parent n = -1 /\ 0 <= value n < next /\ shape tail n;
  inv_before : forall pre x post, tail = pre ++ x :: post ->
               In (value x) (flat_map child_values (nodes ++ pre));
  inv_total : total_freq nodes = total;
  inv_keep : incl init (nodes ++ tail)
}.

(** The node at index [j] of the tree [u] once the connecting loop has
    passed it. *)
Definition link_node (u : list node) (j : nat) (n : node) : node :=
  if (j =? 0)%nat then n
  else
    let p := Arr.find_if (refers_to (value n)) (firstn j u) in
    if (p =? j)%nat then n else set_parent (Z.of_nat p) n.

(** What the tree builder guarantees of the tree it returns for [data]. *)
Record tree_ok (data : list byte) (tree : list node) : Prop := {
  ok_length : length tree = (2 * distinct_symbols data - 1)%nat;
  ok_root : exists root,
      nth_error tree 0 = Some root /\ parent root = -1 /\
      freq root = Z.of_nat (length data) /\ 256 <= value root;
  ok_parent : forall j n, nth_error tree j = Some n -> (0 < j)%nat ->
      0 <= parent n < Z.of_nat j;
  ok_internal : forall i n, nth_error tree i = Some n -> 256 <= value n ->
      exists k b a,
        children tree i = [k; S k] /\ (i < k)%nat /\
        nth_error tree k = Some b /\ nth_error tree (S k) = Some a /\
        left n = value a /\ right n = value b /\ freq n = freq a + freq b;
  ok_leaf : forall i n, nth_error tree i = Some n -> value n < 256 ->
      children tree i = [] /\ left n = -1 /\ right n = -1 /\ 0 <= value n;
  ok_symbols : forall c, In c data ->
      exists j n, nth_error tree j = Some n /\ value n = byte_val c
}.

(** The leaf the size calculator and the encoder pick for the byte [c]:
    the first node holding its value. *)
Definition leaf_of (tree : list node) (c : byte) : nat :=
  Arr.find_if (fun n => value n =? byte_val c) tree.

(** The number of parent links between index [i] and the node without
    parent. *)
Fixpoint edges_up (fuel : nat) (tree : list node) (i : nat) : Z :=
  match fuel with
  | O => 0
  | S fuel =>
      match nth_error tree i with
      | Some n => if parent n =? -1 then 0
                  else 1 + edges_up fuel tree (Z.to_nat (parent n))
      | None => 0
      end
  end.

Definition edges_to_root (tree : list node) (i : nat) : Z :=
  edges_up (length tree) tree i.

(** The code length of the whole input. *)
Definition total_bits (tree : list node) (data : list byte) : Z :=
  fold_right (fun c acc => edges_to_root tree (leaf_of tree c) + acc) 0 data.

(** Every parent link points to a smaller index. *)
Definition decreasing (tree : list node) : Prop :=
  forall j n, nth_error tree j = Some n -> parent n = -1 \/ 0 <= parent n < Z.of_nat j.

(** The byte and bit counters of the size calculator after [k] more bits. *)
Definition advance (k : Z) (st : Z * Z) : Z * Z :=
  let c := 8 * (fst st - 1) + snd st + k in (c / 8 + 1, c mod 8).

(** The tree after the connecting loop has passed the indices below [s]. *)
Definition linked_upto (s : nat) (u t : list node) : Prop :=
  length t = length u /\
  forall j, nth_error t j =
            option_map (fun n => if (j <? s)%nat then link_node u j n else n) (nth_error u j).

(** [build_node_tree] as a function of the working list. *)
Definition tree_from (nodes : list node) : option (list node) :=
  let tree := repeat node_default (length nodes * 2 - 1) in
  '(node_list, tree) <- merge_loop (length nodes) nodes tree (length tree) 0x100 ;;
  root <- nth_error node_list 0 ;;
  tree <- Arr.store 0 root tree ;;
  Arr.for_each connect_parent (seq 1 (length tree - 1)) tree.

(** The bit slots left in front of the write cursor of the encoder. *)
Definition slots_left (bytes bits : Z) : Z := 8 * (bytes - 1) + (8 - bits).

(** [k] increments of an iterator. *)
Fixpoint advance_n {I} (next : I -> option I) (k : nat) (it : I) : option I :=
  match k with
  | O => Some it
  | S k => it' <- next it ;; advance_n next k it'
  end.

(** The frequency table as the specification words it: the occurring
    symbols under a stable sort by frequency. *)
Definition spec_node_list (data : list byte) : list node :=
  Sorting.stable_sort (occurring data).

(** Rounding up to whole bytes. *)
Definition ceil_div8 (z : Z) : Z := (z + 7) / 8.

End Spec.

(** ** Concrete inputs *)

Module Inputs.

Definition byte_of_nat (n : nat) : byte :=
  match Byte.of_N (N.of_nat n) with
  | Some b => b
  | None => x00
  end.

(** ["a"], ["ab"], ["aaaaaaaa"] and ["aaaaaaaaaaaa"]. *)
Definition a1 : list byte := [x61].
Definition ab : list byte := [x61; x62].
Definition a8 : list byte := repeat x61 8.
Definition a12 : list byte := repeat x61 12.

(** The arrays behind the string literals ["ab"] and ["aaaaaaaaaaaa"]: the
    characters and the terminating zero. *)
Definition ab_literal : list byte := ab ++ [x00].
Definition a12_literal : list byte := a12 ++ [x00].

(** "abracadabra", six copies of it, and the 256 byte values once each. *)
Definition abracadabra : list byte :=
  [x61; x62; x72; x61; x63; x61; x64; x61; x62; x72; x61].
Definition abracadabra6 : list byte :=
  abracadabra ++ abracadabra ++ abracadabra ++ abracadabra ++ abracadabra ++ abracadabra.
Definition all_bytes : list byte := map byte_of_nat (seq 0 256).

(** 174 distinct byte values, most of them rare: the bytes 3..173 twice
    each, the byte 1 once, the byte 2 twice, then 1500 zero bytes (1845
    bytes). *)
Definition wide : list byte :=
  flat_map (fun v => [byte_of_nat v; byte_of_nat v]) (seq 3 171)
  ++ [x01; x02; x02] ++ repeat x00 1500.

End Inputs.

(** ** Notions for the bit stream: codes, and the stream an array holds *)

Module Codec.
Import Huffman Spec.

(** Bit [x] of the byte array [a], the most significant bit of [a[0]]
    being bit 0. *)
Definition bit_at (a : list Z) (x : Z) : bool :=
  match nth_error a (Z.to_nat (x / 8)) with
  | Some v => Z.testbit v (7 - x mod 8)
  | None => false
  end.

(** The bits on the way from the root down to node [i]: a bit is set when
    the step goes to the node the parent names as [right]. *)
Fixpoint code_up (fuel : nat) (tree : list node) (i : nat) : list bool :=
  match fuel with
  | O => []
  | S fuel =>
      match nth_error tree i with
      | Some n =>
          if parent n =? -1 then []
          else
            match nth_error tree (Z.to_nat (parent n)) with
            | Some p => code_up fuel tree (Z.to_nat (parent n)) ++ [right p =? value n]
            | None => []
            end
      | None => []
      end
  end.

Definition code (tree : list node) (i : nat) : list bool :=
  code_up (length tree) tree i.

(** The codes of the bytes of [data], one after the other. *)
Definition stream (tree : list node) (data : list byte) : list bool :=
  flat_map (fun c => code tree (leaf_of tree c)) data.

(** The bits [l] laid out from stream position [start] on: the bit they
    put at position [x]. *)
Definition placed (start : Z) (l : list bool) (x : Z) : bool :=
  (start <=? x) && nth (Z.to_nat (x - start)) l false.

(** The cursor of a decoder that stands in front of bit [x]: the byte
    index and the mask. *)
Definition cursor_byte (x : Z) : nat := Z.to_nat (x / 8).
Definition cursor_mask (x : Z) : Z := Z.shiftl 1 (7 - x mod 8).

(** Values of parent nodes are not shared with any other node. *)
Definition internal_unique (tree : list node) : Prop :=
  forall i j ni nj,
    nth_error tree i = Some ni -> nth_error tree j = Some nj ->
    256 <= value ni -> value ni = value nj -> i = j.

(** The child the serializer finds for the value [child] behind entry
    [i] of a tree of [count] nodes: an index, or [count] when no node
    behind [i] holds the value. *)
Definition child_index (count : nat) (tree : list node) (child : Z) (i : nat) : option nat :=
  find_child (count - (i + 1)) tree child (i + 1).

(** The array [mem] holds, from position [table] on, the decode table of
    [tree]: three bytes per node. *)
Definition holds_table (tree : list node) (table : nat) (mem : list Z) : Prop :=
  forall i n, nth_error tree i = Some n ->
    exists jl jr,
      child_index (length tree) tree (left n) i = Some jl /\
      child_index (length tree) tree (right n) i = Some jr /\
      nth_error mem (table + i * 3) = Some (if value n <=? 0xFF then value n else 0) /\
      nth_error mem (table + i * 3 + 1) = Some (offset_byte (length tree) i jl) /\
      nth_error mem (table + i * 3 + 2) = Some (offset_byte (length tree) i jr).

(** The part of the invariant that speaks of frequencies and of the
    parent counter: the working list is ascending, the nodes moved to the
    tree came out in ascending order (so the tree part, filled from the
    back, is descending), none of them is more frequent than a node still
    in the list, and one parent value was used per pair moved. *)
Record order_inv (nodes tail : list node) (next : Z) : Prop := {
  oi_sorted : ascending nodes;
  oi_below : forall x n, In x tail -> In n nodes -> freq x <= freq n;
  oi_tail : StronglySorted (fun a b => freq b <= freq a) tail;
  oi_pos : forall n, In n nodes -> 0 <= freq n;
  oi_next : 2 * (next - 256) = Z.of_nat (length tail);
  oi_child : forall n, In n (nodes ++ tail) -> left n < value n /\ right n < value n
}.

(** Frequencies never grow along the tree array. *)
Definition freq_descending (tree : list node) : Prop :=
  forall i j ni nj, (i <= j)%nat ->
    nth_error tree i = Some ni -> nth_error tree j = Some nj -> freq nj <= freq ni.

End Codec.

(** ** String literals, and the ways a literal reaches the two classes *)

Module Literal.
Import Arr Huffman.

(** The array behind a string literal: its characters and the terminating
    zero. *)
Definition array_of (chars : list byte) : list byte := chars ++ [x00].

(** [detail::huffman_string_container<T, N>]: the constructor copies the
    [N] elements of the array it is given. *)
Record huffman_string_container := mk_container {
  container_data : list byte
}.

Definition make_container (s : list byte) : huffman_string_container :=
  mk_container (copy s (repeat x00 (length s))).

(** [huffman_string_container::size] *)
Definition container_size (c : huffman_string_container) : nat :=
  length (container_data c).

Section Operators.
Context {std_sort : StdSort}.

(** [operator ""_huffman]: the array of the literal, terminator included,
    becomes the template argument of [huffman_compressor].  The container
    of a string literal holds plain [char], so here the counting loop of
    the pipeline indexes the counters with a plain [char]. *)
Definition literal_huffman (chars : list byte) : construction (list Z) :=
  if forallb indexable (array_of chars)
  then huffman_compressor.construct (container_data (make_container (array_of chars)))
  else NotConstant.

(** The loop over the object [operator ""_huffman] returns. *)
Definition literal_decode_all (chars : list byte) : option (list Z) :=
  if forallb indexable (array_of chars)
  then huffman_compressor.decode_all (container_data (make_container (array_of chars)))
  else None.

(** [huffman_compress<data>] of the revision [consteval_huffman.hpp] with
    the second template argument left to its default, and the loop over
    the object. *)
Definition default_length_decode_all (data : list byte) : option (list Z) :=
  data_length <- char_traits_length data ;;
  huffman_compress.decode_all data data_length.

End Operators.

End Literal.

(** ** An earlier revision: [huffman_compress<data, data_length>] with
    [get_decoder()]

    The second header in [src/unnamed/part_000].  It has no [requires]
    clause and no raw mode; the working list lives in the 256-element
    table, the end of its valid part marked by a node of frequency 0; the
    decoder counts the bits of a byte from 8 down to 1 and is asked
    through [operator bool] whether another byte is available.  The size
    calculator, the encoder and the serializer read as in the later
    revisions; they are repeated here over the tree of this revision.

    [data] is an array of plain [char].  As in the later revision,
    [object data_length] is an object of class [huffman_compress<data,
    data_length>], and [decode_info] refers to a [huffman_compress<data>]:
    [get_decoder()] is well typed only in the class whose [data_length] is
    the default [std::char_traits<char>::length(data)]. *)

Module huffman_compress_earlier.
Import Arr Huffman.

Record object (data_length : nat) := mk_object {
  output : list Z;
  decode_tree : list Z
}.
Arguments mk_object {data_length} output decode_tree.
Arguments output {data_length} o.
Arguments decode_tree {data_length} o.

(** [std::copy_backward(a + first, a + last, a + last + 1)]: the range
    moves up by one element. *)
Definition copy_backward_by_one {A} (first last : nat) (a : list A) : option (list A) :=
  if (first =? last)%nat then Some a
  else if (first <? last)%nat && (last <? length a)%nat
       then Some (firstn (S first) a ++ firstn (last - first) (skipn first a)
                  ++ skipn (S last) a)
       else None.

(** [std::copy(a + 2, a + last, a)]: the range moves down by two
    elements. *)
Definition copy_down_by_two {A} (last : nat) (a : list A) : option (list A) :=
  if (2 <=? last)%nat && (last <=? length a)%nat
  then Some (firstn (last - 2) (skipn 2 a) ++ skipn (last - 2) a)
  else None.

(** [new node[count]]: an array whose size in bytes does not fit
    [std::size_t] is not allocated ([sizeof(node)] is 32). *)
Definition new_nodes (count : Z) : option (list node) :=
  if count * 32 <? 2 ^ 64 then Some (repeat node_default (Z.to_nat count)) else None.

(** [for (i = 0; table[i].freq != 0; i++);] *)
Fixpoint count_loop (fuel : nat) (table : list node) (i : nat) : option nat :=
  n <- nth_error table i ;;
  if freq n =? 0 then Some i
  else
    match fuel with
    | O => None
    | S fuel => count_loop fuel table (S i)
    end.

(** [while (insertion_point->freq != 0 && insertion_point->freq <
    new_node.freq) insertion_point++;] *)
Fixpoint insertion_loop (fuel : nat) (node_list : list node) (new_freq : Z)
    (insertion_point : nat) : option nat :=
  n <- nth_error node_list insertion_point ;;
  if negb (freq n =? 0) && (freq n <? new_freq) then
    match fuel with
    | O => None
    | S fuel => insertion_loop fuel node_list new_freq (S insertion_point)
    end
  else Some insertion_point.

(** The [while (list[1].freq != 0)] loop of [build_node_tree]. *)
Fixpoint merge_loop (fuel : nat) (node_list tree : list node) (list_end tree_begin : nat)
    (next_merged_node_value : Z) : option (list node * list node) :=
  l1 <- nth_error node_list 1 ;;
  if freq l1 =? 0 then Some (node_list, tree)
  else
    match fuel with
    | O => None
    | S fuel =>
        l0 <- nth_error node_list 0 ;;
        let new_node :=
          mk_node next_merged_node_value (to_unsigned_long (freq l0 + freq l1)) (-1)
                  (value l0) (value l1) in
        match tree_begin with
        | S (S tb) =>
            tree <- store (S tb) l0 tree ;;
            tree <- store tb l1 tree ;;
            insertion_point <- insertion_loop (length node_list) node_list (freq new_node) 0 ;;
            node_list <- copy_backward_by_one insertion_point list_end node_list ;;
            node_list <- store insertion_point new_node node_list ;;
            node_list <- copy_down_by_two (list_end + 1) node_list ;;
            if (list_end =? 0)%nat then None
            else
              node_list <- store (list_end - 1) node_default node_list ;;
              node_list <- store list_end node_default node_list ;;
              merge_loop fuel node_list tree (list_end - 1) tb (next_merged_node_value + 1)
        | _ => None
        end
    end.

(** [do { ... } while (node[1] != 0)] of [decode_info::get_next]. *)
Fixpoint decode_walk {data_length : nat} (fuel : nat) (o : object data_length)
    (node pos : nat) (m_bit : Z) : option (nat * nat * Z) :=
  match fuel with
  | O => None
  | S fuel =>
      c <- nth_error (output o) pos ;;
      let bit := negb (Z.land c (Z.shiftl 1 (m_bit - 1)) =? 0) in
      let m_bit := (m_bit - 1) mod 256 in
      let '(m_bit, pos) := if m_bit =? 0 then (8, S pos) else (m_bit, pos) in
      off <- nth_error (decode_tree o) (node + (if bit then 2 else 1)) ;;
      let node := (node + Z.to_nat (3 * off))%nat in
      l <- nth_error (decode_tree o) (node + 1) ;;
      if negb (l =? 0) then decode_walk fuel o node pos m_bit
      else Some (node, pos, m_bit)
  end.

(** [class decode_info] (the reference [m_data] is the object passed to
    the functions below). *)
Record decode_info := mk_decode_info {
  m_pos : nat;
  m_bit : Z;
  m_current : Z
}.

Section Class.
Context {std_sort : StdSort}.
Variable data : list byte.
Variable data_length : nat.

Definition input : list byte := firstn data_length data.

(** [build_node_list]; the counting loop reads [data[i]] for [i] below
    [data_length] and indexes the table with it, a plain [char].  Every
    other function of the class starts from this one, so where the later
    loops compare [data[i]] with node values, it is a value in 0..127. *)
Definition build_node_list : option (list node) :=
  if (length data <? data_length)%nat then None
  else if negb (forallb indexable input) then None
  else
    let table := map (fun i => set_value (Z.of_nat i) node_default) (seq 0 256) in
    let table :=
      fold_left (fun l c => modify incr_freq (Z.to_nat (byte_val c)) l) input table in
    let table := sort table in
    let first_valid_node := find_if (fun n => negb (freq n =? 0)) table in
    let table' := copy (skipn first_valid_node table) table in
    let iter := (length table - first_valid_node)%nat in
    Some (firstn iter table' ++ repeat node_default (length table' - iter)).

(** [node_count] *)
Definition node_count : option nat :=
  table <- build_node_list ;;
  count_loop 256 table 0.

(** [tree_count], in [unsigned long]. *)
Definition tree_count : option Z :=
  count <- node_count ;;
  Some (to_unsigned_long (Z.of_nat count * 2 - 1)).

(** [build_node_tree] *)
Definition build_node_tree : option (list node) :=
  node_list <- build_node_list ;;
  count <- tree_count ;;
  tree <- new_nodes count ;;
  list_end <- node_count ;;
  '(node_list, tree) <-
    merge_loop (length node_list) node_list tree list_end (length tree) 0x100 ;;
  root <- nth_error node_list 0 ;;
  tree <- store 0 root tree ;;
  for_each connect_parent (seq 1 (length tree - 1)) tree.

(** [output_size] *)
Definition output_size : option (Z * Z) :=
  tree <- build_node_tree ;;
  for_each (fun '(bytes, bits) c =>
              let leaf := find_if (fun n => value n =? byte_val c) tree in
              size_walk (length tree) tree leaf bytes bits)
           input (1, 0).

(** [compress], writing into the array [output]. *)
Definition compress (output : list Z) : option (list Z) :=
  tree <- build_node_tree ;;
  '(bytes, bitscount) <- output_size ;;
  let '(bytes, bits) :=
    if bitscount >? 0 then (bytes, 8 - bitscount) else (bytes - 1, 0) in
  '(output, _, _) <-
    for_each (fun '(output, bytes, bits) c =>
                let leaf := find_if (fun n => value n =? byte_val c) tree in
                compress_walk (length tree) tree leaf output bytes bits)
             (rev input) (output, bytes, bits) ;;
  Some output.

(** [build_decode_tree], writing into the array [decode_tree]. *)
Definition build_decode_tree (decode_tree : list Z) : option (list Z) :=
  tree <- build_node_tree ;;
  count <- tree_count ;;
  for_each (decode_entry (Z.to_nat count) tree 0) (seq 0 (Z.to_nat count)) decode_tree.

(** The constructor with the member initialisers: both arrays start out
    zeroed. *)
Definition construct : construction (object data_length) :=
  if (length data <? data_length)%nat then NotConstant
  else
    match
      ('(first, _) <- output_size ;;
       count <- tree_count ;;
       decode_tree <- build_decode_tree (repeat 0 (Z.to_nat (to_unsigned_long (3 * count)))) ;;
       output <- compress (repeat 0 (Z.to_nat first)) ;;
       Some (mk_object output decode_tree))
    with
    | Some o => Constructed o
    | None => NotConstant
    end.

(** [compressed_size], [uncompressed_size] and [bytes_saved], in
    [unsigned long]. *)
Definition compressed_size : option Z :=
  '(first, second) <- output_size ;;
  Some (to_unsigned_long (first + second)).

Definition uncompressed_size : Z := Z.of_nat data_length.

Definition bytes_saved : option Z :=
  c <- compressed_size ;;
  Some (to_unsigned_long (uncompressed_size - c)).

(** The decoder runs at run time; [output_size()] is [consteval], so the
    run-time code holds its value. *)
Section RunTime.
Variable size_info : Z * Z.     (* output_size() *)

(** [decode_info::get_next] *)
Definition get_next (o : object data_length) (d : decode_info) : option decode_info :=
  '(node, pos, bit) <-
    decode_walk (8 * length (output o) + 8) o 0 (m_pos d) (m_bit d) ;;
  current <- nth_error (decode_tree o) node ;;
  Some (mk_decode_info pos bit current).

(** [decode_info::operator bool] *)
Definition has_more (d : decode_info) : bool :=
  let '(size_bytes, last_bits_count) := size_info in
  (Z.of_nat (m_pos d) <? to_unsigned_long (size_bytes - 1))
  || (m_bit d >? to_unsigned_long (8 - last_bits_count)).

(** [get_decoder()]: the constructor of [decode_info], which binds its
    reference to [huffman_compress<data>] to the object, of class
    [huffman_compress<data, data_length>], and decodes the first byte. *)
Definition get_decoder (o : object data_length) : option decode_info :=
  match char_traits_length data with
  | Some n =>
      if (n =? data_length)%nat then get_next o (mk_decode_info 0 8 (-1)) else None
  | None => None
  end.

(** [for (auto decode = get_decoder(); decode; ++decode) yield *decode;],
    the loop the documentation of this revision gives. *)
Fixpoint decode_loop (fuel : nat) (o : object data_length) (d : decode_info)
    : option (list Z) :=
  if has_more d then
    match fuel with
    | O => None
    | S fuel =>
        d' <- get_next o d ;;
        out <- decode_loop fuel o d' ;;
        Some (m_current d :: out)
    end
  else Some [].

Definition iterate (o : object data_length) : option (list Z) :=
  d <- get_decoder o ;;
  decode_loop (8 * length (output o) + 8) o d.

End RunTime.

(** The whole program. *)
Definition decode_all : option (list Z) :=
  size_info <- output_size ;;
  match construct with
  | Constructed o => iterate size_info o
  | _ => None
  end.

End Class.

Arguments get_next {data_length} o d.
Arguments get_decoder data {data_length} o.
Arguments decode_loop {data_length} size_info fuel o d.
Arguments iterate data {data_length} size_info o.

End huffman_compress_earlier.

(** * Properties *)

(** ** The sorting routines meet the interface *)

Module SortingFacts.
Import Huffman Sorting.

Lemma insert_stable_perm x l : Permutation (insert_stable x l) (x :: l).
Proof.
  induction l as [|y r IH]; simpl; [reflexivity|].
  destruct (freq x <=? freq y); [reflexivity|].
  rewrite IH. apply perm_swap.
Qed.

Lemma stable_sort_perm l : Permutation (stable_sort l) l.
Proof.
  induction l as [|x l IH]; simpl; [constructor|].
  rewrite insert_stable_perm. now constructor.
Qed.

Lemma insert_stable_sorted x l :
  StronglySorted (fun a b => freq a <= freq b) l ->
  StronglySorted (fun a b => freq a <= freq b) (insert_stable x l).
Proof.
  induction 1 as [|y r Hr IH Hy]; simpl.
  - repeat constructor.
  - destruct (freq x <=? freq y) eqn:E.
    + apply Z.leb_le in E. constructor; [now constructor|].
      constructor; [exact E|].
      eapply Forall_impl; [|exact Hy]. simpl. intros; lia.
    + apply Z.leb_gt in E. constructor; [exact IH|].
      eapply Permutation_Forall; [symmetry; apply insert_stable_perm|].
      constructor; [lia|exact Hy].
Qed.

Lemma stable_sort_sorted l :
  StronglySorted (fun a b => freq a <= freq b) (stable_sort l).
Proof.
  induction l as [|x l IH]; simpl; [constructor|].
  now apply insert_stable_sorted.
Qed.

#[export] Instance stable_std_sort : StdSort := {|
  sort := stable_sort;
  sort_permutation := stable_sort_perm;
  sort_ordered := stable_sort_sorted
|}.

Lemma reverse_tie_sort_perm l : Permutation (reverse_tie_sort l) l.
Proof.
  unfold reverse_tie_sort. rewrite stable_sort_perm. symmetry. apply Permutation_rev.
Qed.

Definition reverse_tie_std_sort : StdSort := {|
  sort := reverse_tie_sort;
  sort_permutation := reverse_tie_sort_perm;
  sort_ordered := fun l => stable_sort_sorted (rev l)
|}.

End SortingFacts.

(** ** Arrays *)

Module ArrFacts.
Import Arr.

Lemma find_if_le {A} (p : A -> bool) l : (find_if p l <= length l)%nat.
Proof. induction l as [|x r IH]; simpl; [lia|]. destruct (p x); simpl; lia. Qed.

Lemma find_if_found {A} (p : A -> bool) l :
  (find_if p l < length l)%nat ->
  exists x, nth_error l (find_if p l) = Some x /\ p x = true.
Proof.
  induction l as [|x r IH]; simpl; [lia|].
  destruct (p x) eqn:E; simpl; intros H.
  - eauto.
  - apply IH. lia.
Qed.

Lemma find_if_first {A} (p : A -> bool) l i x :
  nth_error l i = Some x -> (i < find_if p l)%nat -> p x = false.
Proof.
  revert i. induction l as [|y r IH]; intros [|i]; simpl; try discriminate.
  - intros [= ->]. destruct (p x); [lia|reflexivity].
  - destruct (p y); [lia|]. intros H1 H2. apply (IH i); [exact H1|lia].
Qed.

Lemma find_if_In {A} (p : A -> bool) l x :
  In x l -> p x = true -> (find_if p l < length l)%nat.
Proof.
  induction l as [|y r IH]; simpl; [tauto|].
  intros [->|Hin] Hp.
  - rewrite Hp. lia.
  - destruct (p y); [lia|]. specialize (IH Hin Hp). lia.
Qed.

Lemma find_if_none {A} (p : A -> bool) l :
  (forall x, In x l -> p x = false) -> find_if p l = length l.
Proof.
  induction l as [|y r IH]; simpl; [reflexivity|].
  intros H. rewrite (H y (or_introl eq_refl)). f_equal. apply IH. auto.
Qed.

Lemma find_if_ext {A} (p q : A -> bool) l :
  (forall x, In x l -> p x = q x) -> find_if p l = find_if q l.
Proof.
  induction l as [|y r IH]; simpl; [reflexivity|].
  intros H. rewrite (H y (or_introl eq_refl)).
  destruct (q y); [reflexivity|]. f_equal. apply IH. auto.
Qed.

Lemma find_if_map {A B} (p : B -> bool) (f : A -> B) l :
  find_if p (map f l) = find_if (fun x => p (f x)) l.
Proof.
  induction l as [|y r IH]; simpl; [reflexivity|].
  destruct (p (f y)); [reflexivity|]. now rewrite IH.
Qed.

Lemma store_Some {A} i (x : A) a :
  (i < length a)%nat -> store i x a = Some (firstn i a ++ x :: skipn (S i) a).
Proof.
  intros H. unfold store. destruct (Nat.ltb_spec i (length a)); [reflexivity|lia].
Qed.

Lemma store_inv {A} i (x : A) a a' :
  store i x a = Some a' ->
  (i < length a)%nat /\ a' = firstn i a ++ x :: skipn (S i) a.
Proof.
  unfold store. destruct (Nat.ltb_spec i (length a)); [|discriminate].
  intros [= <-]. auto.
Qed.

Lemma store_length {A} i (x : A) a a' : store i x a = Some a' -> length a' = length a.
Proof.
  intros H. apply store_inv in H as [Hi ->].
  rewrite length_app, length_firstn. cbn [length]. rewrite length_skipn. lia.
Qed.

Lemma store_nth_error {A} i (x : A) a a' j :
  store i x a = Some a' ->
  nth_error a' j = if (j =? i)%nat then Some x else nth_error a j.
Proof.
  intros H. apply store_inv in H as [Hi ->].
  destruct (Nat.eqb_spec j i) as [->|Hne].
  - rewrite nth_error_app2 by (rewrite length_firstn; lia).
    rewrite length_firstn. replace (i - Nat.min i (length a))%nat with O by lia.
    reflexivity.
  - destruct (Nat.lt_ge_cases j i) as [Hlt|Hge].
    + rewrite nth_error_app1 by (rewrite length_firstn; lia).
      rewrite nth_error_firstn. destruct (Nat.ltb_spec j i); [reflexivity|lia].
    + rewrite nth_error_app2 by (rewrite length_firstn; lia).
      rewrite length_firstn. replace (Nat.min i (length a)) with i by lia.
      destruct (j - i)%nat as [|k] eqn:E; [lia|]. cbn [nth_error].
      rewrite nth_error_skipn. f_equal. lia.
Qed.

Lemma modify_length {A} (f : A -> A) i a : length (modify f i a) = length a.
Proof.
  revert i. induction a as [|x r IH]; intros [|i]; simpl; auto.
Qed.

Lemma modify_map_seq {A} (f : A -> A) (g : nat -> A) k s n :
  modify f k (map g (seq s n)) =
  map (fun i => if (i =? s + k)%nat then f (g i) else g i) (seq s n).
Proof.
  revert k s. induction n as [|n IH]; intros k s; simpl.
  - destruct k; reflexivity.
  - destruct k as [|k]; simpl.
    + rewrite Nat.add_0_r, Nat.eqb_refl. f_equal.
      apply map_ext_in. intros i Hi. apply in_seq in Hi.
      destruct (Nat.eqb_spec i s); [lia|reflexivity].
    + destruct (Nat.eqb_spec s (s + S k)); [lia|]. f_equal.
      rewrite IH. apply map_ext. intros i.
      replace (S s + k)%nat with (s + S k)%nat by lia. reflexivity.
Qed.

Lemma for_each_app {A B} (f : B -> A -> option B) l1 l2 b :
  for_each f (l1 ++ l2) b =
  match for_each f l1 b with Some b' => for_each f l2 b' | None => None end.
Proof.
  revert b. induction l1 as [|x r IH]; intros b; simpl; [reflexivity|].
  destruct (f b x); [apply IH|reflexivity].
Qed.

End ArrFacts.
(** ** Plain [char] and C strings *)

Module CharFacts.
Import Arr ArrFacts Huffman Spec.

Lemma byte_val_bounds c : 0 <= byte_val c < 256.
Proof. unfold byte_val. pose proof (Byte.to_N_bounded c). lia. Qed.

(** An indexable [char] is its byte value, below 128. *)
Lemma indexable_value c : indexable c = true -> char_value c = byte_val c /\ byte_val c < 0x80.
Proof.
  unfold indexable, char_value. pose proof (byte_val_bounds c).
  destruct (Z.ltb_spec (byte_val c) 0x80); intros Hi; [lia|].
  apply Z.leb_le in Hi. lia.
Qed.

Lemma indexable_map l : forallb indexable l = true -> map char_value l = map byte_val l.
Proof.
  induction l as [|c l IH]; cbn [forallb map]; [reflexivity|].
  intros Hl. apply andb_prop in Hl as (Hc & Hl).
  rewrite (proj1 (indexable_value c Hc)), IH by exact Hl. reflexivity.
Qed.

(** The default length lies inside the array, at its first zero. *)
Lemma char_traits_length_inside data n :
  char_traits_length data = Some n -> (n < length data)%nat.
Proof.
  unfold char_traits_length. intros H.
  destruct (Nat.ltb_spec (find_if (fun c => byte_val c =? 0) data) (length data));
    [|discriminate].
  injection H as <-. assumption.
Qed.

Lemma char_traits_length_zero data n :
  char_traits_length data = Some n ->
  exists c, nth_error data n = Some c /\ char_value c = 0.
Proof.
  unfold char_traits_length. intros H.
  destruct (Nat.ltb_spec (find_if (fun c => byte_val c =? 0) data) (length data)) as [Hlt|];
    [|discriminate].
  injection H as <-.
  destruct (find_if_found (fun c => byte_val c =? 0) data Hlt) as (c & Hc & Hz).
  exists c. split; [exact Hc|]. apply Z.eqb_eq in Hz. unfold char_value. now rewrite Hz.
Qed.

(** Input bytes that can all index the counters take at most 128 values. *)
Lemma indexable_occurrences data i :
  forallb indexable data = true -> 128 <= i -> occurrences i data = 0.
Proof.
  intros Hidx Hi. unfold occurrences.
  induction data as [|c data IH]; [reflexivity|].
  cbn [forallb] in Hidx. apply andb_prop in Hidx as (Hc & Hidx).
  cbn [filter]. destruct (indexable_value c Hc) as (_ & Hlt).
  destruct (Z.eqb_spec (byte_val c) i); [lia|]. now apply IH.
Qed.

Lemma indexable_occurring data :
  forallb indexable data = true -> (length (occurring data) <= 128)%nat.
Proof.
  intros Hidx. unfold occurring, frequency_table.
  change (seq 0 256) with (seq 0 (128 + 128)).
  rewrite seq_app, map_app, filter_app, length_app.
  set (f := fun i => leaf_node (Z.of_nat i) (occurrences (Z.of_nat i) data)).
  set (p := fun n => negb (freq n =? 0)).
  assert (Hhigh : forall l, (forall i, In i l -> (128 <= i)%nat) -> filter p (map f l) = []).
  { induction l as [|i l IH]; intros Hl; [reflexivity|].
    cbn [map filter]. unfold p at 1, f at 1. cbn [freq leaf_node].
    rewrite indexable_occurrences by (try assumption; specialize (Hl i (or_introl eq_refl)); lia).
    cbn [Z.eqb negb]. apply IH. intros j Hj. apply Hl. now right. }
  rewrite (Hhigh (seq (0 + 128) 128)).
  - pose proof (filter_length_le p (map f (seq 0 128))) as Hle.
    rewrite length_map, length_seq in Hle. cbn [length]. lia.
  - intros i Hi. apply in_seq in Hi. lia.
Qed.

End CharFacts.

(** ** The frequency table builder *)

Module NodeListFacts.
Import Arr ArrFacts Huffman Spec.

Lemma byte_val_range c : 0 <= byte_val c < 256.
Proof. unfold byte_val. pose proof (Byte.to_N_bounded c). lia. Qed.

Lemma occurrences_nonneg v data : 0 <= occurrences v data.
Proof. unfold occurrences. lia. Qed.

Lemma occurrences_cons v c data :
  occurrences v (c :: data) = (if byte_val c =? v then 1 else 0) + occurrences v data.
Proof.
  unfold occurrences. simpl. destruct (byte_val c =? v); simpl length; lia.
Qed.

Lemma occurrences_le v data : occurrences v data <= Z.of_nat (length data).
Proof.
  unfold occurrences. pose proof (filter_length_le (fun c => byte_val c =? v) data). lia.
Qed.

Lemma occurrences_In c data : In c data -> 0 < occurrences (byte_val c) data.
Proof.
  induction data as [|d r IH]; simpl; [tauto|].
  intros H. rewrite occurrences_cons. pose proof (occurrences_nonneg (byte_val c) r).
  destruct H as [->|H].
  - rewrite Z.eqb_refl. lia.
  - specialize (IH H). destruct (byte_val d =? byte_val c); lia.
Qed.

(** The counting loop leaves in slot [i] the number of occurrences of [i]. *)
Lemma counting_loop data f :
  fold_left (fun l c => modify incr_freq (Z.to_nat (byte_val c)) l) data
            (map (fun i => leaf_node (Z.of_nat i) (f i)) (seq 0 256)) =
  map (fun i => leaf_node (Z.of_nat i) (f i + occurrences (Z.of_nat i) data)) (seq 0 256).
Proof.
  revert f. induction data as [|c r IH]; intros f; cbn [fold_left].
  - apply map_ext. intros i. unfold occurrences. simpl. f_equal. lia.
  - rewrite modify_map_seq.
    rewrite (map_ext _ (fun i => leaf_node (Z.of_nat i)
                         (f i + (if byte_val c =? Z.of_nat i then 1 else 0)))).
    + rewrite IH. apply map_ext. intros i. rewrite occurrences_cons. f_equal. lia.
    + intros i. pose proof (byte_val_range c). cbn [Nat.add].
      destruct (Nat.eqb_spec i (Z.to_nat (byte_val c))) as [->|Hne].
      * rewrite Z2Nat.id by lia. rewrite Z.eqb_refl. reflexivity.
      * destruct (Z.eqb_spec (byte_val c) (Z.of_nat i)) as [E|_]; [|f_equal; lia].
        exfalso. apply Hne. rewrite E. now rewrite Nat2Z.id.
Qed.

Lemma counted data :
  fold_left (fun l c => modify incr_freq (Z.to_nat (byte_val c)) l) data
            (map (fun i => set_value (Z.of_nat i) node_default) (seq 0 256)) =
  frequency_table data.
Proof.
  exact (counting_loop data (fun _ => 0)).
Qed.

Lemma Permutation_filter {A} (p : A -> bool) l l' :
  Permutation l l' -> Permutation (filter p l) (filter p l').
Proof.
  induction 1 as [|x l l' _ IH|x y l|l l' l'' _ IH1 _ IH2]; simpl.
  - constructor.
  - destruct (p x); [now constructor|exact IH].
  - destruct (p x), (p y); try reflexivity. apply perm_swap.
  - now transitivity (filter p l').
Qed.

Lemma ascending_filter p l : ascending l -> ascending (filter p l).
Proof.
  induction 1 as [|x l Hl IH Hx]; simpl; [constructor|].
  destruct (p x); [|exact IH].
  constructor; [exact IH|].
  apply Forall_forall. intros y Hy. apply filter_In in Hy as [Hy _].
  rewrite Forall_forall in Hx. auto.
Qed.

(** In an ascending array of non-negative counters the zero counters come
    first: everything from the first non-zero one on is non-zero. *)
Lemma skip_zero_counters l :
  ascending l -> Forall (fun n => 0 <= freq n) l ->
  skipn (find_if (fun n => negb (freq n =? 0)) l) l =
  filter (fun n => negb (freq n =? 0)) l.
Proof.
  induction 1 as [|x l Hl IH Hx]; intros Hpos; [reflexivity|].
  inversion Hpos as [|? ? Hx0 Hpos']; subst. cbn [find_if filter].
  destruct (Z.eqb_spec (freq x) 0) as [E|E]; cbn [negb].
  - cbn [skipn]. now apply IH.
  - cbn [skipn]. f_equal. symmetry. apply forallb_filter_id.
    apply forallb_forall. intros y Hy. rewrite Forall_forall in Hx.
    specialize (Hx y Hy). simpl in Hx. destruct (Z.eqb_spec (freq y) 0); [lia|reflexivity].
Qed.

Lemma skipn_repeat {A} (d : A) n m : skipn n (repeat d m) = repeat d (m - n).
Proof.
  revert m. induction n as [|n IH]; intros [|m]; simpl; auto.
Qed.

Lemma frequency_table_nonneg data : Forall (fun n => 0 <= freq n) (frequency_table data).
Proof.
  apply Forall_forall. intros n Hn. apply in_map_iff in Hn as (i & <- & _).
  simpl. apply occurrences_nonneg.
Qed.

(** What [build_node_list] returns: the occurring symbols, ascending by
    frequency in whatever order [std::sort] left the ties, followed by
    default nodes when fewer than two symbols occur. *)
Lemma build_node_list_spec `{StdSort} data :
  exists occ,
    Permutation occ (occurring data) /\ ascending occ /\
    build_node_list data = occ ++ repeat node_default (2 - length occ).
Proof.
  exists (filter (fun n => negb (freq n =? 0)) (sort (frequency_table data))).
  split; [|split].
  - apply Permutation_filter, sort_permutation.
  - apply ascending_filter, sort_ordered.
  - unfold build_node_list. rewrite counted.
    set (l := sort (frequency_table data)).
    assert (Hskip : skipn (find_if (fun n => negb (freq n =? 0)) l) l =
                    filter (fun n => negb (freq n =? 0)) l).
    { apply skip_zero_counters; [apply sort_ordered|].
      eapply Permutation_Forall; [symmetry; apply sort_permutation|].
      apply frequency_table_nonneg. }
    rewrite <- (length_skipn (find_if _ l) l). rewrite Hskip.
    set (occ := filter _ l). unfold copy. f_equal.
    rewrite skipn_repeat. f_equal.
    destruct (Nat.ltb_spec (length occ) 2); lia.
Qed.

Lemma build_node_list_length `{StdSort} data :
  length (build_node_list data) = distinct_symbols data.
Proof.
  destruct (build_node_list_spec data) as (occ & Hperm & _ & ->).
  unfold distinct_symbols. rewrite <- (Permutation_length Hperm).
  rewrite length_app, repeat_length. lia.
Qed.

Lemma tree_count_spec `{StdSort} data :
  tree_count data = (2 * distinct_symbols data - 1)%nat.
Proof. unfold tree_count. rewrite build_node_list_length. lia. Qed.

End NodeListFacts.

(** ** The merge loop of the tree builder *)

Module MergeFacts.
Import Arr ArrFacts Huffman Spec NodeListFacts.

Lemma reinsert_perm new_node rest : Permutation (reinsert new_node rest) (new_node :: rest).
Proof.
  unfold reinsert. set (ip := find_if _ rest).
  rewrite <- Permutation_middle. constructor. now rewrite firstn_skipn.
Qed.

Lemma reinsert_length new_node rest : length (reinsert new_node rest) = S (length rest).
Proof. now rewrite (Permutation_length (reinsert_perm new_node rest)). Qed.

Lemma total_freq_perm l l' : Permutation l l' -> total_freq l = total_freq l'.
Proof.
  induction 1 as [|x l l' _ IH|x y l|l l' l'' _ IH1 _ IH2]; simpl; lia.
Qed.

Lemma child_values_internal n v : In v (child_values n) -> left n <> -1 /\ (v = left n \/ v = right n).
Proof.
  unfold child_values. destruct (Z.eqb_spec (left n) (-1)); simpl; [tauto|].
  intuition congruence.
Qed.

Lemma shape_child_values tail n v :
  shape tail n -> In v (child_values n) -> In v (map value tail).
Proof.
  intros [(Hl & _)|(_ & pre & post & a & b & -> & Hl & Hr & _)] Hv;
    apply child_values_internal in Hv as [Hne Hv]; [contradiction|].
  rewrite map_app, in_app_iff. right. simpl. destruct Hv as [->| ->]; auto.
Qed.

Lemma shape_cons tail n x y : shape tail n -> shape (x :: y :: tail) n.
Proof.
  intros [H|(Hv & pre & post & a & b & -> & H)]; [now left|].
  right. split; [exact Hv|]. now exists (x :: y :: pre), post, a, b.
Qed.

Section Step.
Variables (init : list node) (total : Z).

Lemma refs_in_tail nodes tail next v :
  merge_inv init total nodes tail next ->
  In v (flat_map child_values (nodes ++ tail)) -> In v (map value tail).
Proof.
  intros Inv Hv. apply in_flat_map in Hv as (n & Hn & Hv).
  destruct (inv_shape _ _ _ _ _ Inv n Hn) as (_ & _ & Hs).
  eapply shape_child_values; eauto.
Qed.

(** One turn of the loop keeps the invariant. *)
Lemma merge_step l0 l1 rest tail next :
  merge_inv init total (l0 :: l1 :: rest) tail next ->
  merge_inv init total (reinsert (new_parent next l0 l1) rest) (l1 :: l0 :: tail) (next + 1).
Proof.
  intros Inv. set (new_node := new_parent next l0 l1).
  pose proof (reinsert_perm new_node rest) as Hp.
  assert (Hall : Permutation (reinsert new_node rest ++ l1 :: l0 :: tail)
                             (new_node :: (l0 :: l1 :: rest) ++ tail)).
  { rewrite Hp. simpl. constructor.
    rewrite <- Permutation_middle. rewrite <- Permutation_middle.
    apply perm_swap. }
  destruct (inv_shape _ _ _ _ _ Inv l0 (or_introl eq_refl)) as (_ & Hv0 & _).
  pose proof (inv_values _ _ _ _ _ Inv) as Hnd. simpl in Hnd.
  assert (Hcv : child_values new_node = [value l0; value l1]).
  { unfold child_values, new_node. simpl.
    destruct (Z.eqb_spec (value l0) (-1)); [lia|reflexivity]. }
  constructor.
  - pose proof (inv_next _ _ _ _ _ Inv). lia.
  - eapply Permutation_NoDup; [symmetry; apply Permutation_map, Hall|].
    simpl. constructor; [|exact Hnd].
    intros Hin. change (In next (map value ((l0 :: l1 :: rest) ++ tail))) in Hin.
    apply in_map_iff in Hin as (n & Hvn & Hn).
    destruct (inv_shape _ _ _ _ _ Inv n Hn) as (_ & Hr & _). lia.
  - eapply Permutation_NoDup; [symmetry; apply Permutation_flat_map, Hall|].
    cbn [flat_map]. rewrite Hcv. simpl app.
    assert (Hnot : forall n, In n [l0; l1] ->
                   ~ In (value n) (flat_map child_values ((l0 :: l1 :: rest) ++ tail))).
    { intros n Hn Hin. apply (refs_in_tail _ _ _ _ Inv) in Hin.
      assert (Hsplit : exists l1' l2', l0 :: l1 :: rest = l1' ++ n :: l2').
      { destruct Hn as [<-|[<-|[]]]; [now exists [], (l1 :: rest)|now exists [l0], rest]. }
      destruct Hsplit as (l1' & l2' & E).
      pose proof (inv_values _ _ _ _ _ Inv) as Hnd'. rewrite E in Hnd'.
      rewrite <- app_assoc, map_app in Hnd'. simpl in Hnd'.
      apply NoDup_remove_2 in Hnd'. apply Hnd'.
      rewrite in_app_iff. right. rewrite map_app, in_app_iff. now right. }
    constructor; [|constructor].
    + simpl. intros [E|Hin].
      * inversion Hnd as [|? ? Hni _]. apply Hni. left. now symmetry.
      * apply (Hnot l0); simpl; auto.
    + apply (Hnot l1); simpl; auto.
    + apply (inv_refs _ _ _ _ _ Inv).
  - intros n Hn. apply (Permutation_in _ Hall) in Hn. destruct Hn as [<-|Hn].
    + split; [reflexivity|]. pose proof (inv_next _ _ _ _ _ Inv). simpl.
      split; [lia|]. right. split; [simpl; lia|].
      exists [], tail, l0, l1. simpl. auto.
    + destruct (inv_shape _ _ _ _ _ Inv n Hn) as (Hpar & Hval & Hs).
      split; [exact Hpar|]. split; [lia|]. now apply shape_cons.
  - intros pre x post E.
    assert (Hnew : forall l, In (value l0) (flat_map child_values (reinsert new_node rest ++ l)) /\
                             In (value l1) (flat_map child_values (reinsert new_node rest ++ l))).
    { intros l. split; apply in_flat_map; exists new_node;
        (split; [apply in_or_app; left; apply (Permutation_in _ (Permutation_sym Hp)); now left
                |rewrite Hcv; simpl; auto]). }
    destruct pre as [|p0 [|p1 pre]]; simpl in E.
    + injection E as <- _. apply Hnew.
    + injection E as _ <- _. apply Hnew.
    + injection E as <- <- E.
      apply (inv_before _ _ _ _ _ Inv) in E.
      apply in_flat_map in E as (n & Hn & Hv). apply in_flat_map. exists n.
      split; [|exact Hv].
      apply in_app_or in Hn as [Hn|Hn].
      * destruct Hn as [<-|[<-|Hn]].
        -- apply in_or_app. right. simpl. auto.
        -- apply in_or_app. right. simpl. auto.
        -- apply in_or_app. left. apply (Permutation_in _ (Permutation_sym Hp)). now right.
      * apply in_or_app. right. simpl. auto.
  - rewrite (total_freq_perm _ _ Hp). rewrite <- (inv_total _ _ _ _ _ Inv). simpl. lia.
  - intros n Hn. apply (inv_keep _ _ _ _ _ Inv) in Hn.
    apply (Permutation_in _ (Permutation_sym Hall)). now right.
Qed.

End Step.

Lemma repeat_snoc {A} (d : A) n : repeat d (S n) = repeat d n ++ [d].
Proof. induction n as [|n IH]; simpl; [reflexivity|]. f_equal. exact IH. Qed.

Lemma store_middle {A} (pre post : list A) x y :
  store (length pre) x (pre ++ y :: post) = Some (pre ++ x :: post).
Proof.
  rewrite store_Some by (rewrite length_app; simpl; lia). f_equal.
  induction pre as [|z pre IH]; simpl; [reflexivity|].
  f_equal. exact IH.
Qed.

Lemma store_filling {A} (d x : A) n tail :
  store n x (repeat d (S n) ++ tail) = Some (repeat d n ++ x :: tail).
Proof.
  rewrite repeat_snoc, <- app_assoc. simpl.
  rewrite <- (repeat_length d n) at 1. apply store_middle.
Qed.

(** The loop runs to its [break] and fills the tree array from the back,
    leaving exactly slot 0 free. *)
Lemma merge_loop_run init total fuel nodes tail next :
  (2 <= length nodes)%nat -> (length nodes - 1 <= fuel)%nat ->
  merge_inv init total nodes tail next ->
  exists root tail' next',
    merge_loop fuel nodes (repeat node_default (2 * length nodes - 1) ++ tail)
               (2 * length nodes - 1) next = Some ([root], node_default :: tail') /\
    merge_inv init total [root] tail' next' /\
    length tail' = (length tail + 2 * (length nodes - 1))%nat /\
    256 <= value root.
Proof.
  revert nodes tail next. induction fuel as [|fuel IH]; intros nodes tail next Hlen Hfuel Inv.
  - lia.
  - destruct nodes as [|l0 [|l1 rest]]; simpl in Hlen; try lia.
    replace (2 * length (l0 :: l1 :: rest) - 1)%nat
      with (S (S (2 * length rest + 1))) by (simpl; lia).
    cbn [merge_loop].
    rewrite store_filling, store_filling.
    pose proof (inv_next _ _ _ _ _ Inv) as Hnext.
    apply merge_step in Inv. fold (new_parent next l0 l1).
    destruct rest as [|l2 rest'].
    + exists (new_parent next l0 l1), (l1 :: l0 :: tail), (next + 1).
      split; [reflexivity|]. split; [exact Inv|]. simpl. split; [lia|exact Hnext].
    + set (rest := l2 :: rest') in *.
      fold (reinsert (new_parent next l0 l1) rest).
      pose proof (reinsert_length (new_parent next l0 l1) rest) as Hrl.
      destruct (IH (reinsert (new_parent next l0 l1) rest) (l1 :: l0 :: tail) (next + 1))
        as (root & tail' & next' & Hrun & Inv' & Hlen' & Hroot).
      * rewrite Hrl. subst rest. cbn [length]. lia.
      * rewrite Hrl. cbn [length] in Hfuel. lia.
      * exact Inv.
      * exists root, tail', next'. rewrite Hrl in Hrun, Hlen'.
        replace (2 * S (length rest) - 1)%nat with (2 * length rest + 1)%nat in Hrun by lia.
        split; [exact Hrun|]. split; [exact Inv'|]. split; [|exact Hroot].
        rewrite Hlen'. simpl. lia.
Qed.

End MergeFacts.

(** ** The loop that connects child nodes to their parents *)

Module ConnectFacts.
Import Arr ArrFacts Huffman Spec.

Lemma find_if_pointwise {A} (p : A -> bool) l l' :
  length l = length l' ->
  (forall j x y, nth_error l j = Some x -> nth_error l' j = Some y -> p x = p y) ->
  find_if p l = find_if p l'.
Proof.
  revert l'. induction l as [|x l IH]; intros [|y l'] Hlen H; simpl in *; try lia.
  rewrite (H O x y eq_refl eq_refl). destruct (p y); [reflexivity|].
  f_equal. apply IH; [lia|]. intros j. apply (H (S j)).
Qed.

Lemma link_node_fields u j n :
  value (link_node u j n) = value n /\ freq (link_node u j n) = freq n /\
  left (link_node u j n) = left n /\ right (link_node u j n) = right n.
Proof.
  unfold link_node. destruct (j =? 0)%nat; [auto|].
  destruct (_ =? j)%nat; simpl; auto.
Qed.

Lemma refers_to_link_node u j n v : refers_to v (link_node u j n) = refers_to v n.
Proof.
  unfold refers_to. destruct (link_node_fields u j n) as (_ & _ & -> & ->). reflexivity.
Qed.

Lemma connect_from u :
  Forall (fun n => parent n = -1) u ->
  forall k s t, (1 <= s)%nat -> (s + k = length u)%nat -> linked_upto s u t ->
  exists t', for_each connect_parent (seq s k) t = Some t' /\ linked_upto (s + k) u t'.
Proof.
  intros Hpar. induction k as [|k IH]; intros s t Hs Hk [Hlen Hnth].
  - exists t. split; [reflexivity|]. rewrite Nat.add_0_r. now split.
  - cbn [seq for_each].
    assert (Hsu : (s < length u)%nat) by lia.
    destruct (nth_error u s) as [n|] eqn:En; [|apply nth_error_None in En; lia].
    assert (Ent : nth_error t s = Some n).
    { rewrite Hnth, En. simpl. now rewrite Nat.ltb_irrefl. }
    assert (Hpn : parent n = -1).
    { rewrite Forall_forall in Hpar. apply Hpar. eapply nth_error_In; eauto. }
    assert (Hfind : find_if (fun m => (left m =? value n) || (right m =? value n)) (firstn s t)
                    = find_if (refers_to (value n)) (firstn s u)).
    { apply find_if_pointwise.
      - rewrite !length_firstn. lia.
      - intros j x y Hx Hy. rewrite nth_error_firstn in Hx, Hy.
        destruct (Nat.ltb_spec j s) as [Hj|]; [|discriminate].
        rewrite Hnth, Hy in Hx. simpl in Hx.
        destruct (Nat.ltb_spec j s); [|lia]. injection Hx as <-.
        apply refers_to_link_node. }
    assert (Hstep : exists t1, connect_parent t s = Some t1 /\ linked_upto (S s) u t1).
    { unfold connect_parent. rewrite Ent, Hpn. cbn [Z.eqb Pos.eqb]. rewrite Hfind.
      destruct (Nat.eqb_spec (find_if (refers_to (value n)) (firstn s u)) s) as [E|E].
      - exists t. split; [reflexivity|]. split; [exact Hlen|].
        intros j. rewrite Hnth. destruct (nth_error u j) as [m|] eqn:Em; [|reflexivity].
        simpl. destruct (Nat.eq_dec j s) as [->|Hne].
        + rewrite Nat.ltb_irrefl. destruct (Nat.ltb_spec s (S s)); [|lia].
          rewrite En in Em. injection Em as <-.
          unfold link_node. destruct (Nat.eqb_spec s 0); [reflexivity|].
          rewrite E, Nat.eqb_refl. reflexivity.
        + destruct (Nat.ltb_spec j s), (Nat.ltb_spec j (S s)); try reflexivity; lia.
      - destruct (store s (set_parent (Z.of_nat (find_if (refers_to (value n)) (firstn s u))) n) t)
          as [t1|] eqn:Est; [|unfold store in Est;
                               destruct (Nat.ltb_spec s (length t)); [discriminate|lia]].
        exists t1. split; [reflexivity|]. split.
        + rewrite (store_length _ _ _ _ Est). exact Hlen.
        + intros j. rewrite (store_nth_error _ _ _ _ j Est).
          destruct (Nat.eqb_spec j s) as [->|Hne].
          * rewrite En. simpl. destruct (Nat.ltb_spec s (S s)); [|lia].
            unfold link_node. destruct (Nat.eqb_spec s 0); [lia|].
            destruct (Nat.eqb_spec (find_if (refers_to (value n)) (firstn s u)) s); [contradiction|].
            reflexivity.
          * rewrite Hnth. destruct (nth_error u j); [|reflexivity]. simpl.
            destruct (Nat.ltb_spec j s), (Nat.ltb_spec j (S s)); try reflexivity; lia. }
    destruct Hstep as (t1 & -> & Hl1).
    destruct (IH (S s) t1) as (t' & Hrun & Hl'); [lia|lia|exact Hl1|].
    exists t'. split; [exact Hrun|]. now replace (s + S k)%nat with (S s + k)%nat by lia.
Qed.

(** The connecting loop never fails; it rewrites the parent field of every
    node but the first, and nothing else. *)
Lemma connect_all u :
  Forall (fun n => parent n = -1) u -> (1 <= length u)%nat ->
  exists t, for_each connect_parent (seq 1 (length u - 1)) u = Some t /\
            length t = length u /\
            forall j, nth_error t j = option_map (link_node u j) (nth_error u j).
Proof.
  intros Hpar Hlen.
  destruct (connect_from u Hpar (length u - 1) 1 u) as (t & Hrun & Hlt & Hnth); [lia|lia| |].
  - split; [reflexivity|]. intros j. destruct (nth_error u j) eqn:E; [|reflexivity].
    simpl. destruct (Nat.ltb_spec j 1); [|reflexivity].
    replace j with O by lia. reflexivity.
  - exists t. split; [exact Hrun|]. split; [exact Hlt|].
    intros j. rewrite Hnth. destruct (nth_error u j) eqn:E; [|reflexivity].
    cbn [option_map]. destruct (Nat.ltb_spec j (1 + (length u - 1))); [reflexivity|].
    assert (nth_error u j <> None) by congruence. apply nth_error_Some in H0. lia.
Qed.

Lemma filter_seq_none (p : nat -> bool) n :
  (forall j, (j < n)%nat -> p j = false) -> filter p (seq 0 n) = [].
Proof.
  intros H. rewrite (filter_ext_in p (fun _ => false)); [apply filter_false|].
  intros j Hj. apply in_seq in Hj. apply H. lia.
Qed.

Lemma filter_seq_pair (p : nat -> bool) n k :
  (S k < n)%nat ->
  (forall j, (j < n)%nat -> p j = ((j =? k) || (j =? S k))%nat) ->
  filter p (seq 0 n) = [k; S k].
Proof.
  intros Hk H.
  rewrite (filter_ext_in p (fun j => ((j =? k) || (j =? S k))%nat))
    by (intros j Hj; apply in_seq in Hj; apply H; lia).
  replace n with (k + (2 + (n - k - 2)))%nat by lia.
  rewrite seq_app, filter_app. cbn [Nat.add]. cbn [seq filter].
  rewrite !Nat.eqb_refl. cbn [orb].
  destruct (Nat.eqb_spec (S k) k); [lia|]. cbn [orb].
  rewrite (filter_ext_in _ (fun _ => false)), filter_false.
  - rewrite (filter_ext_in _ (fun _ => false)), filter_false; [reflexivity|].
    intros j Hj. apply in_seq in Hj.
    destruct (Nat.eqb_spec j k), (Nat.eqb_spec j (S k)); try reflexivity; lia.
  - intros j Hj. apply in_seq in Hj.
    destruct (Nat.eqb_spec j k), (Nat.eqb_spec j (S k)); try reflexivity; lia.
Qed.

Lemma NoDup_app_disjoint {A} (l1 l2 : list A) x :
  NoDup (l1 ++ l2) -> In x l1 -> In x l2 -> False.
Proof.
  induction l1 as [|y l1 IH]; simpl; [tauto|].
  intros Hnd [->|Hin] H2.
  - inversion Hnd as [|? ? Hni _]. apply Hni. apply in_or_app. now right.
  - inversion Hnd. auto.
Qed.

Lemma NoDup_flat_map_nth {A B} (f : A -> list B) l i j x y v :
  NoDup (flat_map f l) ->
  nth_error l i = Some x -> nth_error l j = Some y ->
  In v (f x) -> In v (f y) -> i = j.
Proof.
  revert i j. induction l as [|z l IH]; intros i j Hnd Hi Hj Hx Hy.
  - destruct i; discriminate.
  - simpl in Hnd. destruct i as [|i], j as [|j]; simpl in Hi, Hj.
    + reflexivity.
    + injection Hi as ->. exfalso. apply (NoDup_app_disjoint _ _ v Hnd Hx).
      apply in_flat_map. exists y. split; [eapply nth_error_In; eauto|exact Hy].
    + injection Hj as ->. exfalso. apply (NoDup_app_disjoint _ _ v Hnd Hy).
      apply in_flat_map. exists x. split; [eapply nth_error_In; eauto|exact Hx].
    + f_equal. apply IH; auto. eapply NoDup_app_remove_l; eauto.
Qed.

Lemma NoDup_map_nth {A B} (f : A -> B) l i j x y :
  NoDup (map f l) ->
  nth_error l i = Some x -> nth_error l j = Some y -> f x = f y -> i = j.
Proof.
  intros Hnd Hi Hj E. rewrite NoDup_nth_error in Hnd. apply Hnd.
  - rewrite length_map. apply nth_error_Some. congruence.
  - rewrite !nth_error_map, Hi, Hj. simpl. now f_equal.
Qed.

End ConnectFacts.

(** ** The connected tree *)

Module LinkedFacts.
Import Arr ArrFacts Huffman Spec NodeListFacts MergeFacts ConnectFacts.

Lemma nth_error_middle {A} (pre post : list A) x :
  nth_error (pre ++ x :: post) (length pre) = Some x.
Proof. rewrite nth_error_app2, Nat.sub_diag by lia. reflexivity. Qed.

Lemma firstn_prefix {A} (pre post : list A) : firstn (length pre) (pre ++ post) = pre.
Proof. induction pre as [|x pre IH]; simpl; [now destruct post|]. now rewrite IH. Qed.

Lemma in_child_values_refers v m : In v (child_values m) -> refers_to v m = true.
Proof.
  intros H. apply child_values_internal in H as [_ [->| ->]]; unfold refers_to;
    rewrite Z.eqb_refl; [reflexivity|apply orb_true_r].
Qed.

Section Linked.
Variables (init : list node) (total : Z) (root : node) (tail : list node) (next : Z).
Hypothesis Inv : merge_inv init total [root] tail next.
Local Abbreviation u := (root :: tail).

Lemma u_shape j x :
  nth_error u j = Some x -> parent x = -1 /\ 0 <= value x < next /\ shape tail x.
Proof. intros H. apply (inv_shape _ _ _ _ _ Inv). eapply nth_error_In; eauto. Qed.

Lemma u_child_values j x a b pre post :
  nth_error u j = Some x ->
  tail = pre ++ b :: a :: post -> left x = value a -> right x = value b ->
  child_values x = [value a; value b] /\
  nth_error u (S (length pre)) = Some b /\ nth_error u (S (S (length pre))) = Some a.
Proof.
  intros Hj Et Hl Hr.
  assert (Hb : nth_error u (S (length pre)) = Some b).
  { change (nth_error tail (length pre) = Some b). rewrite Et. apply nth_error_middle. }
  assert (Ha : nth_error u (S (S (length pre))) = Some a).
  { change (nth_error tail (S (length pre)) = Some a). rewrite Et.
    replace (pre ++ b :: a :: post) with ((pre ++ [b]) ++ a :: post) by (now rewrite <- app_assoc).
    replace (S (length pre)) with (length (pre ++ [b])) by (rewrite length_app; simpl; lia).
    apply nth_error_middle. }
  split; [|auto].
  destruct (u_shape _ _ Ha) as (_ & Hva & _).
  unfold child_values. rewrite Hl, Hr.
  destruct (Z.eqb_spec (value a) (-1)); [lia|reflexivity].
Qed.

Lemma u_refers p m v :
  nth_error u p = Some m -> 0 <= v -> refers_to v m = true -> In v (child_values m).
Proof.
  intros Hp Hv Hr. unfold refers_to in Hr. apply orb_prop in Hr.
  destruct (u_shape _ _ Hp) as (_ & _ & [(Hl & Hrr & _)|(_ & pre & post & a & b & Et & Hl & Hrr & _)]).
  - rewrite Hl, Hrr in Hr. destruct Hr as [Hr|Hr]; apply Z.eqb_eq in Hr; lia.
  - destruct (u_child_values _ _ _ _ _ _ Hp Et Hl Hrr) as (-> & _).
    rewrite Hl, Hrr in Hr. simpl. destruct Hr as [Hr|Hr]; apply Z.eqb_eq in Hr; auto.
Qed.

(** Every node but the first is named as a child by a node in front of it;
    the search finds that node. *)
Lemma u_before j x :
  nth_error u j = Some x -> (0 < j)%nat ->
  (find_if (refers_to (value x)) (firstn j u) < j)%nat /\
  exists m, nth_error u (find_if (refers_to (value x)) (firstn j u)) = Some m /\
            In (value x) (child_values m).
Proof.
  intros Hj Hpos. destruct j as [|j]; [lia|]. cbn [nth_error] in Hj.
  destruct (nth_error_split _ _ Hj) as (pre & post & Et & Hpre).
  pose proof (inv_before _ _ _ _ _ Inv pre x post Et) as Hin.
  apply in_flat_map in Hin as (m0 & Hm0 & Hv0).
  assert (Hfirst : firstn (S j) u = root :: pre).
  { cbn [firstn]. f_equal. rewrite Et, <- Hpre. apply firstn_prefix. }
  assert (Hlt : (find_if (refers_to (value x)) (firstn (S j) u) < length (firstn (S j) u))%nat).
  { eapply find_if_In; [|apply in_child_values_refers; exact Hv0]. rewrite Hfirst. exact Hm0. }
  assert (Hlf : length (firstn (S j) u) = S j).
  { rewrite Hfirst. simpl. lia. }
  split; [lia|].
  destruct (find_if_found _ _ Hlt) as (m & Hm & Hr).
  rewrite nth_error_firstn in Hm.
  destruct (Nat.ltb_spec (find_if (refers_to (value x)) (firstn (S j) u)) (S j)); [|lia].
  exists m. split; [exact Hm|].
  apply (u_refers _ _ _ Hm); [|exact Hr].
  assert (Hx : nth_error u (S j) = Some x) by exact Hj.
  destruct (u_shape _ _ Hx) as (_ & ? & _). lia.
Qed.

Lemma link_parent j x :
  nth_error u j = Some x ->
  parent (link_node u j x) =
  if (j =? 0)%nat then -1 else Z.of_nat (find_if (refers_to (value x)) (firstn j u)).
Proof.
  intros Hj. unfold link_node. destruct (Nat.eqb_spec j 0) as [->|Hne].
  - now destruct (u_shape _ _ Hj).
  - destruct (u_before j x Hj) as [Hlt _]; [lia|].
    destruct (Nat.eqb_spec (find_if (refers_to (value x)) (firstn j u)) j); [lia|].
    reflexivity.
Qed.

Variable t : list node.
Hypothesis Hlen : length t = length (root :: tail).
Hypothesis Hnth :
  forall j, nth_error t j = option_map (link_node (root :: tail) j) (nth_error (root :: tail) j).

Lemma t_at j x : nth_error u j = Some x -> nth_error t j = Some (link_node u j x).
Proof. intros H. now rewrite Hnth, H. Qed.

Lemma t_from j n :
  nth_error t j = Some n -> exists x, nth_error u j = Some x /\ n = link_node u j x.
Proof.
  rewrite Hnth. destruct (nth_error u j) as [x|]; [|discriminate].
  intros [= <-]. eauto.
Qed.

Lemma children_test i j :
  (j < length t)%nat ->
  exists y, nth_error u j = Some y /\
    match nth_error t j with
    | Some n => parent n =? Z.of_nat i
    | None => false
    end = (parent (link_node u j y) =? Z.of_nat i).
Proof.
  intros Hj. destruct (nth_error u j) as [y|] eqn:E.
  - exists y. split; [reflexivity|]. now rewrite (t_at _ _ E).
  - apply nth_error_None in E. lia.
Qed.

Lemma linked_internal i x :
  nth_error u i = Some x -> 256 <= value x ->
  exists k b a,
    children t i = [k; S k] /\ (i < k)%nat /\
    nth_error u k = Some b /\ nth_error u (S k) = Some a /\
    left x = value a /\ right x = value b /\ freq x = freq a + freq b.
Proof.
  intros Hi Hval.
  destruct (u_shape _ _ Hi) as (_ & _ & [(_ & _ & ?)|(_ & pre & post & a & b & Et & Hl & Hr & Hf)]);
    [lia|].
  destruct (u_child_values _ _ _ _ _ _ Hi Et Hl Hr) as (Hcv & Hb & Ha).
  set (k := S (length pre)) in *.
  assert (Htest : forall j y, nth_error u j = Some y ->
            (parent (link_node u j y) =? Z.of_nat i) = ((j =? k) || (j =? S k))%nat).
  { intros j y Hj. rewrite (link_parent _ _ Hj).
    destruct (Nat.eqb_spec j 0) as [->|Hne].
    - subst k. cbn [Nat.eqb orb]. destruct (Z.eqb_spec (-1) (Z.of_nat i)); [lia|reflexivity].
    - destruct (u_before j y Hj) as (Hlt & m & Hm & Hin); [lia|].
      set (p := find_if (refers_to (value y)) (firstn j u)) in *.
      destruct (Nat.eq_dec p i) as [E|E].
      + rewrite E, Z.eqb_refl. rewrite E, Hi in Hm. injection Hm as <-.
        rewrite Hcv in Hin. simpl in Hin. symmetry.
        destruct Hin as [Hin|[Hin|[]]].
        * assert (j = S k) as ->
            by (eapply (NoDup_map_nth value); [apply (inv_values _ _ _ _ _ Inv)| | |]; eauto).
          rewrite Nat.eqb_refl. apply orb_true_r.
        * assert (j = k) as ->
            by (eapply (NoDup_map_nth value); [apply (inv_values _ _ _ _ _ Inv)| | |]; eauto).
          now rewrite Nat.eqb_refl.
      + destruct (Z.eqb_spec (Z.of_nat p) (Z.of_nat i)); [lia|]. symmetry.
        apply orb_false_intro; apply Nat.eqb_neq; intros ->.
        * rewrite Hb in Hj. injection Hj as <-. apply E.
          eapply (NoDup_flat_map_nth child_values);
            [apply (inv_refs _ _ _ _ _ Inv)|exact Hm|exact Hi|exact Hin|].
          rewrite Hcv. simpl. auto.
        * rewrite Ha in Hj. injection Hj as <-. apply E.
          eapply (NoDup_flat_map_nth child_values);
            [apply (inv_refs _ _ _ _ _ Inv)|exact Hm|exact Hi|exact Hin|].
          rewrite Hcv. simpl. auto. }
  exists k, b, a. split; [|split; [|auto 10]].
  - unfold children. apply filter_seq_pair.
    + rewrite Hlen. apply nth_error_Some. congruence.
    + intros j Hj. destruct (children_test i j Hj) as (y & Hy & ->). now apply Htest.
  - pose proof (Htest k b Hb) as Hk. rewrite Nat.eqb_refl in Hk. simpl in Hk.
    apply Z.eqb_eq in Hk. rewrite (link_parent _ _ Hb) in Hk.
    destruct (Nat.eqb_spec k 0); [subst k; lia|].
    destruct (u_before k b Hb) as [Hlt _]; lia.
Qed.

Lemma linked_leaf i x :
  nth_error u i = Some x -> value x < 256 ->
  children t i = [] /\ left x = -1 /\ right x = -1 /\ 0 <= value x.
Proof.
  intros Hi Hval.
  destruct (u_shape _ _ Hi) as (_ & Hv & [(Hl & Hr & _)|(? & _)]); [|lia].
  split; [|split; [exact Hl|split; [exact Hr|lia]]].
  unfold children. apply filter_seq_none. intros j Hj.
  destruct (children_test i j Hj) as (y & Hy & ->).
  rewrite (link_parent _ _ Hy).
  destruct (Nat.eqb_spec j 0); [destruct (Z.eqb_spec (-1) (Z.of_nat i)); [lia|reflexivity]|].
  destruct (u_before j y Hy) as (Hlt & m & Hm & Hin); [lia|].
  apply Z.eqb_neq. intros E. apply Nat2Z.inj in E. rewrite E, Hi in Hm.
  injection Hm as <-. unfold child_values in Hin. rewrite Hl in Hin. simpl in Hin. exact Hin.
Qed.

End Linked.

End LinkedFacts.

(** ** The tree builder as a whole *)

Module TreeFacts.
Import Arr ArrFacts Huffman Spec NodeListFacts MergeFacts ConnectFacts LinkedFacts.

Lemma total_freq_app l l' : total_freq (l ++ l') = total_freq l + total_freq l'.
Proof. induction l as [|x l IH]; simpl; lia. Qed.

Lemma total_freq_default k : total_freq (repeat node_default k) = 0.
Proof. induction k as [|k IH]; simpl; lia. Qed.

Lemma total_freq_filter l :
  total_freq (filter (fun n => negb (freq n =? 0)) l) = total_freq l.
Proof.
  induction l as [|x l IH]; simpl; [reflexivity|].
  destruct (Z.eqb_spec (freq x) 0); simpl; lia.
Qed.

Lemma total_freq_map (f : nat -> Z) l :
  total_freq (map (fun i => leaf_node (Z.of_nat i) (f i)) l) =
  fold_right (fun i acc => f i + acc) 0 l.
Proof. induction l as [|x l IH]; simpl; [reflexivity|]. now rewrite IH. Qed.

Lemma sum_add (f g : nat -> Z) l :
  fold_right (fun i acc => (f i + g i) + acc) 0 l =
  fold_right (fun i acc => f i + acc) 0 l + fold_right (fun i acc => g i + acc) 0 l.
Proof. induction l as [|x l IH]; simpl; lia. Qed.

Lemma sum_ext (f g : nat -> Z) l :
  (forall i, f i = g i) ->
  fold_right (fun i acc => f i + acc) 0 l = fold_right (fun i acc => g i + acc) 0 l.
Proof. intros H. induction l as [|x l IH]; simpl; [reflexivity|]. now rewrite H, IH. Qed.

Lemma sum_indicator v n s :
  fold_right (fun i acc => (if v =? Z.of_nat i then 1 else 0) + acc) 0 (seq s n) =
  if (Z.of_nat s <=? v) && (v <? Z.of_nat (s + n)) then 1 else 0.
Proof.
  revert s. induction n as [|n IH]; intros s; simpl.
  - destruct (Z.leb_spec (Z.of_nat s) v), (Z.ltb_spec v (Z.of_nat (s + 0))); simpl; lia.
  - rewrite IH.
    destruct (Z.eqb_spec v (Z.of_nat s)), (Z.leb_spec (Z.of_nat (S s)) v),
      (Z.ltb_spec v (Z.of_nat (S s + n))), (Z.leb_spec (Z.of_nat s) v),
      (Z.ltb_spec v (Z.of_nat (s + S n))); simpl; lia.
Qed.

Lemma total_freq_table data : total_freq (frequency_table data) = Z.of_nat (length data).
Proof.
  unfold frequency_table. rewrite total_freq_map.
  induction data as [|c r IH].
  - change (Z.of_nat (length (@nil byte))) with 0.
    generalize (seq 0 256). intros l. induction l as [|i l IHl]; [reflexivity|].
    cbn [fold_right]. rewrite IHl. reflexivity.
  - rewrite (sum_ext _ (fun i => (if byte_val c =? Z.of_nat i then 1 else 0)
                                   + occurrences (Z.of_nat i) r))
      by (intros i; now rewrite occurrences_cons).
    rewrite sum_add, IH, sum_indicator. pose proof (byte_val_range c).
    destruct (Z.leb_spec (Z.of_nat 0) (byte_val c)), (Z.ltb_spec (byte_val c) (Z.of_nat (0 + 256)));
      simpl length; simpl andb; lia.
Qed.

Lemma build_node_list_total `{StdSort} data :
  total_freq (build_node_list data) = Z.of_nat (length data).
Proof.
  destruct (build_node_list_spec data) as (occ & Hperm & _ & ->).
  rewrite total_freq_app, total_freq_default, (total_freq_perm _ _ Hperm).
  unfold occurring. rewrite total_freq_filter, total_freq_table. lia.
Qed.

Lemma seq_256 i : In i (seq 0 256) -> 0 <= Z.of_nat i < 256.
Proof.
  intros Hi. apply in_seq in Hi. destruct Hi as [_ Hi].
  change (0 + 256)%nat with (Z.to_nat 256) in Hi. lia.
Qed.

Lemma table_leaf data n :
  In n (frequency_table data) ->
  parent n = -1 /\ left n = -1 /\ right n = -1 /\ 0 <= value n < 256.
Proof.
  unfold frequency_table. intros Hn.
  apply in_map_iff in Hn. destruct Hn as (i & E & Hi). apply seq_256 in Hi.
  rewrite <- E. repeat split; try reflexivity; apply Hi.
Qed.

Lemma filter_sub {A} (p : A -> bool) l x : In x (filter p l) -> In x l.
Proof. intros H. now apply filter_In in H. Qed.

Lemma occurring_sub data n : In n (occurring data) -> In n (frequency_table data).
Proof. unfold occurring. apply filter_sub. Qed.

Lemma occurring_leaf data n :
  In n (occurring data) ->
  parent n = -1 /\ left n = -1 /\ right n = -1 /\ 0 <= value n < 256.
Proof.
  intros Hn. apply (table_leaf data), occurring_sub, Hn.
Qed.

Lemma NoDup_map_filter {A B} (f : A -> B) p l :
  NoDup (map f l) -> NoDup (map f (filter p l)).
Proof.
  induction l as [|x l IH]; simpl; intros Hnd; [constructor|].
  inversion Hnd as [|? ? Hni Hnd']; subst.
  destruct (p x); simpl; [|auto]. constructor; [|auto].
  intros Hin. apply Hni. apply in_map_iff in Hin as (y & E & Hy).
  apply in_map_iff. exists y. split; [exact E|]. now apply filter_In in Hy.
Qed.

Lemma occurring_values data : NoDup (map value (occurring data)).
Proof.
  unfold occurring. apply NoDup_map_filter. unfold frequency_table.
  rewrite map_map. rewrite (map_ext _ Z.of_nat) by reflexivity.
  apply Finite.Injective_map_NoDup; [|apply seq_NoDup].
  intros x y. apply Nat2Z.inj.
Qed.

Lemma occurring_has data c :
  In c data -> exists n, In n (occurring data) /\ value n = byte_val c.
Proof.
  intros Hc. exists (leaf_node (byte_val c) (occurrences (byte_val c) data)).
  split; [|reflexivity]. apply filter_In. split.
  - apply in_map_iff. exists (Z.to_nat (byte_val c)). pose proof (byte_val_range c).
    rewrite Z2Nat.id by lia. split; [reflexivity|]. apply in_seq. lia.
  - simpl. pose proof (occurrences_In c data Hc).
    destruct (Z.eqb_spec (occurrences (byte_val c) data) 0); [lia|reflexivity].
Qed.

Lemma leaves_no_children l :
  (forall n, In n l -> left n = -1) -> flat_map child_values l = [].
Proof.
  induction l as [|x l IH]; intros H; simpl; [reflexivity|].
  unfold child_values at 1. rewrite (H x (or_introl eq_refl)). simpl. apply IH. auto with datatypes.
Qed.

(** The invariant holds when the loop starts on leaves with distinct
    values. *)
Lemma merge_inv_start nodes :
  (forall n, In n nodes ->
     parent n = -1 /\ left n = -1 /\ right n = -1 /\ 0 <= value n < 256) ->
  NoDup (map value nodes) ->
  merge_inv nodes (total_freq nodes) nodes [] 256.
Proof.
  intros Hleaf Hnd. constructor; rewrite ?app_nil_r.
  - lia.
  - exact Hnd.
  - rewrite leaves_no_children; [constructor|]. intros n Hn. now destruct (Hleaf n Hn) as (_ & ? & _).
  - intros n Hn. destruct (Hleaf n Hn) as (? & ? & ? & ?).
    split; [assumption|]. split; [lia|]. left. repeat split; try assumption; lia.
  - intros [|? ?] x post E; discriminate.
  - reflexivity.
  - intros n Hn. exact Hn.
Qed.

Lemma build_node_tree_unfold `{StdSort} data :
  build_node_tree data = tree_from (build_node_list data).
Proof. reflexivity. Qed.

(** Two nodes in the working list: one merge, a tree of three nodes. *)
Lemma tree_from_two l0 l1 :
  parent l0 = -1 -> parent l1 = -1 ->
  tree_from [l0; l1] = Some [new_parent 256 l0 l1; set_parent 0 l1; set_parent 0 l0].
Proof.
  intros H0 H1. unfold tree_from. cbn [length Nat.mul Nat.add Nat.sub repeat merge_loop].
  unfold store at 1 2. cbn. unfold connect_parent at 1. cbn [nth_error].
  rewrite H1. cbn. rewrite Z.eqb_refl, orb_true_r. cbn.
  unfold connect_parent. cbn [nth_error]. rewrite H0. cbn. rewrite Z.eqb_refl. cbn.
  reflexivity.
Qed.

End TreeFacts.

(** ** The tree returned by [build_node_tree] *)

Module BuildTreeFacts.
Import Arr ArrFacts Huffman Spec NodeListFacts MergeFacts ConnectFacts LinkedFacts TreeFacts.

(** The tree of three nodes built from a working list of two. *)
Lemma tree_ok_two data l0 l1 :
  left l0 = -1 -> right l0 = -1 -> 0 <= value l0 < 256 ->
  left l1 = -1 -> right l1 = -1 -> 0 <= value l1 < 256 ->
  freq l0 + freq l1 = Z.of_nat (length data) ->
  distinct_symbols data = 2%nat ->
  (forall c, In c data -> value l0 = byte_val c \/ value l1 = byte_val c) ->
  tree_ok data [new_parent 256 l0 l1; set_parent 0 l1; set_parent 0 l0].
Proof.
  intros Hl0 Hr0 Hv0 Hl1 Hr1 Hv1 Hf Hd Hsym. constructor.
  - rewrite Hd. reflexivity.
  - exists (new_parent 256 l0 l1). simpl. repeat split; auto; lia.
  - intros [|[|[|j]]] n Hn Hj; simpl in Hn; try lia.
    + injection Hn as <-. simpl. lia.
    + injection Hn as <-. simpl. lia.
    + destruct j; discriminate.
  - intros [|[|[|i]]] n Hn Hval; simpl in Hn.
    + injection Hn as <-. exists 1%nat, (set_parent 0 l1), (set_parent 0 l0).
      repeat split; try reflexivity. lia.
    + injection Hn as <-. simpl in Hval. lia.
    + injection Hn as <-. simpl in Hval. lia.
    + destruct i; discriminate.
  - intros [|[|[|i]]] n Hn Hval; simpl in Hn.
    + injection Hn as <-. simpl in Hval. lia.
    + injection Hn as <-. simpl. repeat split; auto; lia.
    + injection Hn as <-. simpl. repeat split; auto; lia.
    + destruct i; discriminate.
  - intros c Hc. destruct (Hsym c Hc) as [E|E].
    + exists 2%nat, (set_parent 0 l0). split; [reflexivity|exact E].
    + exists 1%nat, (set_parent 0 l1). split; [reflexivity|exact E].
Qed.

Lemma node_default_leaf :
  parent node_default = -1 /\ left node_default = -1 /\ right node_default = -1 /\
  0 <= value node_default < 256.
Proof. simpl. lia. Qed.

Section General.
Context {std_sort : StdSort}.

(** [build_node_tree] returns a tree, and the tree is well formed. *)
Lemma build_node_tree_ok data :
  exists tree, build_node_tree data = Some tree /\ tree_ok data tree.
Proof.
  rewrite build_node_tree_unfold.
  pose proof (build_node_list_total data) as Htot.
  pose proof (build_node_list_length data) as Hlen.
  destruct (build_node_list_spec data) as (occ & Hperm & _ & Hlist).
  rewrite Hlist in *. clear Hlist.
  assert (Hleaf : forall n, In n occ ->
            parent n = -1 /\ left n = -1 /\ right n = -1 /\ 0 <= value n < 256).
  { intros n Hn. apply (occurring_leaf data). eapply Permutation_in; eauto. }
  assert (Hhas : forall c, In c data -> exists n, In n occ /\ value n = byte_val c).
  { intros c Hc. destruct (occurring_has data c Hc) as (n & Hn & Hv).
    exists n. split; [|exact Hv]. eapply Permutation_in; [symmetry|]; eauto. }
  destruct occ as [|x [|y occ']].
  - (* no symbol at all *)
    simpl app in *. destruct node_default_leaf as (Hp & Hl & Hr & Hv).
    rewrite (tree_from_two _ _ Hp Hp). eexists. split; [reflexivity|].
    apply tree_ok_two; auto.
    intros c Hc. destruct (Hhas c Hc) as (n & [] & _).
  - (* one symbol and the placeholder *)
    simpl app in *. destruct node_default_leaf as (Hp & Hl & Hr & Hv).
    destruct (Hleaf x (or_introl eq_refl)) as (Hpx & Hlx & Hrx & Hvx).
    rewrite (tree_from_two _ _ Hpx Hp). eexists. split; [reflexivity|].
    apply tree_ok_two; auto.
    intros c Hc. destruct (Hhas c Hc) as (n & [<-|[]] & E). now left.
  - (* two symbols or more: the general loop *)
    set (occ := x :: y :: occ') in *.
    assert (Hocc : (2 <= length occ)%nat) by (subst occ; simpl; lia).
    clearbody occ. clear x y occ'.
    replace (2 - length occ)%nat with O in * by lia.
    simpl repeat in *. rewrite app_nil_r in *.
    assert (Hnd : NoDup (map value occ)).
    { eapply Permutation_NoDup; [symmetry; apply Permutation_map, Hperm|].
      apply occurring_values. }
    destruct (merge_loop_run occ (total_freq occ) (length occ) occ [] 256)
      as (root & tail & next & Hrun & Inv & Htail & Hroot).
    { exact Hocc. }
    { lia. }
    { now apply merge_inv_start. }
    rewrite app_nil_r in Hrun.
    unfold tree_from. rewrite repeat_length.
    replace (length occ * 2 - 1)%nat with (2 * length occ - 1)%nat by lia.
    change 0x100 with 256. rewrite Hrun. cbn [nth_error].
    change (store 0 root (node_default :: tail)) with (Some (root :: tail)).
    destruct (connect_all (root :: tail)) as (t & Hcon & Hlt & Hnth).
    { apply Forall_forall. intros n Hn.
      now destruct (inv_shape _ _ _ _ _ Inv n Hn). }
    { simpl. lia. }
    rewrite Hcon. exists t. split; [reflexivity|].
    pose proof (u_shape _ _ _ _ _ Inv) as Hshape.
    pose proof (link_parent _ _ _ _ _ Inv) as Hlp.
    pose proof (u_before _ _ _ _ _ Inv) as Hbefore.
    constructor.
    + rewrite Hlt, <- Hlen. cbn [length]. rewrite Htail. cbn [length]. lia.
    + exists root. split; [now rewrite Hnth|].
      destruct (Hshape O root eq_refl) as (Hp & _).
      split; [exact Hp|]. split; [|exact Hroot].
      pose proof (inv_total _ _ _ _ _ Inv) as Ht. simpl in Ht. lia.
    + intros j n Hn Hj. destruct (t_from _ _ _ Hnth j n Hn) as (x0 & Hx & ->).
      rewrite (Hlp j x0 Hx). destruct (Nat.eqb_spec j 0); [lia|].
      destruct (Hbefore j x0 Hx Hj) as [Hlt' _]. lia.
    + intros i n Hn Hval. destruct (t_from _ _ _ Hnth i n Hn) as (x0 & Hx & ->).
      destruct (link_node_fields (root :: tail) i x0) as (Ev & Ef & El & Er).
      rewrite Ev in Hval.
      destruct (linked_internal _ _ _ _ _ Inv t Hlt Hnth i x0 Hx Hval)
        as (k & b & a & Hch & Hik & Hb & Ha & Hl & Hr & Hfr).
      exists k, (link_node (root :: tail) k b), (link_node (root :: tail) (S k) a).
      destruct (link_node_fields (root :: tail) k b) as (Evb & Efb & _).
      destruct (link_node_fields (root :: tail) (S k) a) as (Eva & Efa & _).
      split; [exact Hch|]. split; [exact Hik|].
      split; [now apply (t_at _ _ _ Hnth)|]. split; [now apply (t_at _ _ _ Hnth)|].
      rewrite El, Er, Ef, Evb, Efb, Eva, Efa. auto.
    + intros i n Hn Hval. destruct (t_from _ _ _ Hnth i n Hn) as (x0 & Hx & ->).
      destruct (link_node_fields (root :: tail) i x0) as (Ev & Ef & El & Er).
      rewrite Ev in Hval. rewrite Ev, El, Er.
      apply (linked_leaf _ _ _ _ _ Inv t Hlt Hnth i x0 Hx Hval).
    + intros c Hc. destruct (Hhas c Hc) as (n & Hn & E).
      apply (inv_keep _ _ _ _ _ Inv) in Hn. apply In_nth_error in Hn as (j & Hj).
      exists j, (link_node (root :: tail) j n). split; [now apply (t_at _ _ _ Hnth)|].
      destruct (link_node_fields (root :: tail) j n) as (-> & _). exact E.
Qed.

Lemma build_node_tree_length data tree :
  build_node_tree data = Some tree -> length tree = tree_count data.
Proof.
  intros H. destruct (build_node_tree_ok data) as (t & Ht & Hok).
  rewrite H in Ht. injection Ht as <-.
  rewrite (ok_length _ _ Hok), tree_count_spec. reflexivity.
Qed.

End General.

End BuildTreeFacts.

(** ** The size calculator *)

Module SizeFacts.
Import Arr ArrFacts Huffman Spec NodeListFacts BuildTreeFacts.

Lemma tree_ok_decreasing data tree : tree_ok data tree -> decreasing tree.
Proof.
  intros Hok [|j] n Hn.
  - left. destruct (ok_root _ _ Hok) as (root & Hr & Hp & _). congruence.
  - right. apply (ok_parent _ _ Hok _ _ Hn). lia.
Qed.

Lemma tree_ok_leaf_of data tree c :
  tree_ok data tree -> In c data ->
  exists n, nth_error tree (leaf_of tree c) = Some n /\ value n = byte_val c.
Proof.
  intros Hok Hc. destruct (ok_symbols _ _ Hok c Hc) as (j & m & Hj & Hv).
  unfold leaf_of.
  destruct (find_if_found (fun n => value n =? byte_val c) tree) as (n & Hn & Hp).
  - eapply find_if_In; [eapply nth_error_In; eauto|]. now apply Z.eqb_eq.
  - exists n. split; [exact Hn|]. now apply Z.eqb_eq.
Qed.

(** The count of edges does not depend on the fuel once there is enough. *)
Lemma edges_up_fuel tree :
  decreasing tree ->
  forall i fuel, (i < fuel)%nat -> edges_up fuel tree i = edges_up (S i) tree i.
Proof.
  intros Hdec i. induction i as [i IH] using lt_wf_ind. intros fuel Hf.
  destruct fuel as [|fuel]; [lia|]. cbn [edges_up].
  destruct (nth_error tree i) as [n|] eqn:En; [|reflexivity].
  destruct (Z.eqb_spec (parent n) (-1)); [reflexivity|].
  destruct (Hdec i n En) as [?|Hp]; [contradiction|].
  rewrite (IH (Z.to_nat (parent n))) by lia.
  rewrite (IH (Z.to_nat (parent n)) ltac:(lia) i) by lia. reflexivity.
Qed.

Lemma edges_to_root_step tree i n :
  decreasing tree -> nth_error tree i = Some n ->
  edges_to_root tree i =
  if parent n =? -1 then 0 else 1 + edges_to_root tree (Z.to_nat (parent n)).
Proof.
  intros Hdec En. unfold edges_to_root.
  assert (Hi : (i < length tree)%nat) by (apply nth_error_Some; congruence).
  rewrite (edges_up_fuel tree Hdec i (length tree) Hi). cbn [edges_up]. rewrite En.
  destruct (Z.eqb_spec (parent n) (-1)); [reflexivity|].
  destruct (Hdec i n En) as [?|Hp]; [contradiction|].
  rewrite (edges_up_fuel tree Hdec (Z.to_nat (parent n)) i) by lia.
  rewrite (edges_up_fuel tree Hdec (Z.to_nat (parent n)) (length tree)) by lia.
  reflexivity.
Qed.

Lemma edges_to_root_nonneg tree i : decreasing tree -> 0 <= edges_to_root tree i.
Proof.
  intros Hdec. induction i as [i IH] using lt_wf_ind.
  destruct (nth_error tree i) as [n|] eqn:En.
  - rewrite (edges_to_root_step _ _ _ Hdec En).
    destruct (Z.eqb_spec (parent n) (-1)); [lia|].
    destruct (Hdec i n En) as [?|Hp]; [contradiction|].
    specialize (IH (Z.to_nat (parent n)) ltac:(lia)). lia.
  - unfold edges_to_root. destruct (length tree); simpl; [lia|]. rewrite En. lia.
Qed.

(** A walk never has more edges than the index it starts from. *)
Lemma edges_to_root_le tree i : decreasing tree -> edges_to_root tree i <= Z.of_nat i.
Proof.
  intros Hdec. induction i as [i IH] using lt_wf_ind.
  destruct (nth_error tree i) as [n|] eqn:En.
  - rewrite (edges_to_root_step _ _ _ Hdec En).
    destruct (Z.eqb_spec (parent n) (-1)); [lia|].
    destruct (Hdec i n En) as [?|Hp]; [contradiction|].
    specialize (IH (Z.to_nat (parent n)) ltac:(lia)). lia.
  - unfold edges_to_root. destruct (length tree); simpl; [lia|]. rewrite En. lia.
Qed.

Lemma advance_zero bytes bits : 0 <= bits < 8 -> advance 0 (bytes, bits) = (bytes, bits).
Proof.
  intros H. unfold advance. cbn [fst snd]. rewrite Z.add_0_r.
  replace (8 * (bytes - 1) + bits) with (bits + (bytes - 1) * 8) by lia.
  rewrite Z.div_add, Z.mod_add, Z.div_small, Z.mod_small by lia. f_equal. lia.
Qed.

Lemma advance_one bytes bits :
  0 <= bits < 8 ->
  (if bits + 1 =? 8 then (bytes + 1, 0) else (bytes, bits + 1)) = advance 1 (bytes, bits).
Proof.
  intros H. unfold advance. cbn [fst snd].
  destruct (Z.eqb_spec (bits + 1) 8) as [E|E].
  - replace (8 * (bytes - 1) + bits + 1) with (0 + bytes * 8) by lia.
    rewrite Z.div_add, Z.mod_add by lia. reflexivity.
  - replace (8 * (bytes - 1) + bits + 1) with ((bits + 1) + (bytes - 1) * 8) by lia.
    rewrite Z.div_add, Z.mod_add, Z.div_small, Z.mod_small by lia. f_equal. lia.
Qed.

Lemma advance_advance j k st :
  advance k (advance j st) = advance (j + k) st.
Proof.
  unfold advance. cbn [fst snd].
  set (c := 8 * (fst st - 1) + snd st + j).
  replace (8 * (c / 8 + 1 - 1) + c mod 8) with c by (pose proof (Z.div_mod c 8); lia).
  replace (8 * (fst st - 1) + snd st + (j + k)) with (c + k) by (subst c; lia).
  reflexivity.
Qed.

Lemma advance_bits k st : 0 <= snd (advance k st) < 8.
Proof. unfold advance. cbn [fst snd]. apply Z.mod_pos_bound. lia. Qed.

(** The inner loop of the size calculator counts the edges above the
    leaf. *)
Lemma size_walk_spec tree :
  decreasing tree ->
  forall leaf fuel bytes bits n,
    nth_error tree leaf = Some n -> (leaf <= fuel)%nat -> 0 <= bits < 8 ->
    size_walk fuel tree leaf bytes bits =
    Some (advance (edges_to_root tree leaf) (bytes, bits)).
Proof.
  intros Hdec leaf. induction leaf as [leaf IH] using lt_wf_ind.
  intros fuel bytes bits n En Hf Hb.
  rewrite (edges_to_root_step _ _ _ Hdec En).
  destruct fuel as [|fuel]; cbn [size_walk]; rewrite En.
  - destruct (Z.eqb_spec (parent n) (-1)); [now rewrite advance_zero|].
    destruct (Hdec leaf n En) as [?|Hp]; [contradiction|lia].
  - destruct (Z.eqb_spec (parent n) (-1)); [now rewrite advance_zero|].
    destruct (Hdec leaf n En) as [?|Hp]; [contradiction|].
    destruct (nth_error tree (Z.to_nat (parent n))) as [m|] eqn:Em.
    2:{ apply nth_error_None in Em.
        assert (leaf < length tree)%nat by (apply nth_error_Some; congruence). lia. }
    pose proof (advance_one bytes bits Hb) as H1.
    pose proof (advance_bits 1 (bytes, bits)) as Hb1.
    destruct (advance 1 (bytes, bits)) as [bytes1 bits1] eqn:Ea.
    rewrite H1.
    rewrite (IH (Z.to_nat (parent n)) ltac:(lia) fuel bytes1 bits1 m Em ltac:(lia) Hb1).
    rewrite <- Ea, advance_advance. reflexivity.
Qed.

Section General.
Context {std_sort : StdSort}.

(** The size calculator returns, and what it returns. *)
Lemma compressed_size_info_spec data :
  exists tree,
    build_node_tree data = Some tree /\ tree_ok data tree /\
    compressed_size_info data =
    Some (total_bits tree data / 8 + 1, total_bits tree data mod 8).
Proof.
  destruct (build_node_tree_ok data) as (tree & Ht & Hok).
  exists tree. split; [exact Ht|]. split; [exact Hok|].
  unfold compressed_size_info. rewrite Ht.
  pose proof (tree_ok_decreasing _ _ Hok) as Hdec.
  assert (Hgen : forall l st, (forall c, In c l -> In c data) -> 0 <= snd st < 8 ->
            for_each (fun '(bytes, bits) c =>
                        size_walk (length tree) tree
                          (find_if (fun n => value n =? byte_val c) tree) bytes bits)
                     l st = Some (advance (total_bits tree l) st)).
  { induction l as [|c l IH]; intros [bytes bits] Hin Hb; simpl in Hb.
    - simpl. now rewrite advance_zero.
    - cbn [for_each].
      destruct (tree_ok_leaf_of _ _ c Hok (Hin c (or_introl eq_refl))) as (n & Hn & _).
      change (find_if (fun n => value n =? byte_val c) tree) with (leaf_of tree c).
      rewrite (size_walk_spec tree Hdec _ _ bytes bits n Hn); [|
        assert (leaf_of tree c < length tree)%nat
          by (apply nth_error_Some; congruence); lia|exact Hb].
      rewrite IH; [|intros; apply Hin; now right|apply advance_bits].
      rewrite advance_advance. reflexivity. }
  rewrite Hgen; [|auto|simpl; lia].
  unfold advance. cbn [fst snd]. do 2 f_equal; f_equal; lia.
Qed.

End General.

End SizeFacts.

(** ** The encoder and the decode table serializer never leave their arrays *)

Module EncoderFacts.
Import Arr ArrFacts Huffman Spec NodeListFacts BuildTreeFacts SizeFacts.

Lemma or_into_ok i mask a :
  0 <= i < Z.of_nat (length a) ->
  exists a', or_into i mask a = Some a' /\ length a' = length a.
Proof.
  intros Hi. unfold or_into. destruct (Z.ltb_spec i 0); [lia|].
  destruct (nth_error a (Z.to_nat i)) as [old|] eqn:E;
    [|apply nth_error_None in E; lia].
  rewrite store_Some by lia. eexists. split; [reflexivity|].
  rewrite length_app, length_firstn. cbn [length]. rewrite length_skipn. lia.
Qed.

Lemma compress_walk_ok tree :
  decreasing tree ->
  forall leaf fuel a bytes bits n,
    nth_error tree leaf = Some n -> (leaf <= fuel)%nat -> 0 <= bits < 8 ->
    bytes <= Z.of_nat (length a) ->
    edges_to_root tree leaf <= slots_left bytes bits ->
    exists a' bytes' bits',
      compress_walk fuel tree leaf a bytes bits = Some (a', bytes', bits') /\
      length a' = length a /\ 0 <= bits' < 8 /\ bytes' <= bytes /\
      slots_left bytes' bits' = slots_left bytes bits - edges_to_root tree leaf.
Proof.
  intros Hdec leaf. induction leaf as [leaf IH] using lt_wf_ind.
  intros fuel a bytes bits n En Hf Hb Hlen Hslots.
  rewrite (edges_to_root_step _ _ _ Hdec En) in *.
  assert (Hdone : parent n = -1 ->
            exists a' bytes' bits',
              Some (a, bytes, bits) = Some (a', bytes', bits') /\
              length a' = length a /\ 0 <= bits' < 8 /\ bytes' <= bytes /\
              slots_left bytes' bits' = slots_left bytes bits - 0).
  { intros _. exists a, bytes, bits. repeat split; try lia. }
  destruct fuel as [|fuel]; cbn [compress_walk]; rewrite En;
    destruct (Z.eqb_spec (parent n) (-1)) as [E|E]; try (now apply Hdone).
  - destruct (Hdec leaf n En) as [?|Hp]; [contradiction|lia].
  - destruct (Hdec leaf n En) as [?|Hp]; [contradiction|].
    assert (Hleaf : (leaf < length tree)%nat) by (apply nth_error_Some; congruence).
    destruct (nth_error tree (Z.to_nat (parent n))) as [m|] eqn:Em;
      [|apply nth_error_None in Em; lia].
    pose proof (edges_to_root_nonneg tree (Z.to_nat (parent n)) Hdec) as Hnn.
    unfold slots_left in Hslots.
    assert (Hw : exists a1, (if right m =? value n
                             then or_into (bytes - 1) (Z.shiftl 1 bits) a
                             else Some a) = Some a1 /\ length a1 = length a).
    { destruct (right m =? value n); [apply or_into_ok; lia|eauto]. }
    destruct Hw as (a1 & -> & Hl1).
    set (st := if bits + 1 =? 8 then (bytes - 1, 0) else (bytes, bits + 1)).
    assert (Hst : 0 <= snd st < 8 /\ fst st <= bytes /\
                  slots_left (fst st) (snd st) = slots_left bytes bits - 1).
    { subst st. unfold slots_left. destruct (Z.eqb_spec (bits + 1) 8); cbn [fst snd]; lia. }
    destruct st as [bytes1 bits1]. cbn [fst snd] in Hst. destruct Hst as (Hb1 & Hle1 & Hs1).
    destruct (IH (Z.to_nat (parent n)) ltac:(lia) fuel a1 bytes1 bits1 m Em)
      as (a' & bytes' & bits' & Hrun & Hl' & Hb' & Hle' & Hs'); try lia.
    { rewrite Hs1. unfold slots_left. lia. }
    exists a', bytes', bits'. rewrite Hrun. repeat split; try lia.
Qed.

Lemma total_bits_app tree l l' :
  total_bits tree (l ++ l') = total_bits tree l + total_bits tree l'.
Proof. induction l as [|c l IH]; simpl; lia. Qed.

Lemma total_bits_rev tree l : total_bits tree (rev l) = total_bits tree l.
Proof.
  induction l as [|c l IH]; simpl; [reflexivity|].
  rewrite total_bits_app, IH. simpl. lia.
Qed.

Lemma total_bits_nonneg tree l : decreasing tree -> 0 <= total_bits tree l.
Proof.
  intros Hdec. induction l as [|c l IH]; simpl; [lia|].
  pose proof (edges_to_root_nonneg tree (leaf_of tree c) Hdec). lia.
Qed.

Lemma find_child_ok tree child count j :
  (j + count <= length tree)%nat ->
  exists j', find_child count tree child j = Some j' /\ (j <= j' <= j + count)%nat.
Proof.
  revert j. induction count as [|count IH]; intros j H; cbn [find_child].
  - exists j. split; [reflexivity|lia].
  - destruct (nth_error tree j) as [n|] eqn:E; [|apply nth_error_None in E; lia].
    destruct (child =? value n).
    + exists j. split; [reflexivity|lia].
    + destruct (IH (S j)) as (j' & -> & Hj'); [lia|]. exists j'. split; [reflexivity|lia].
Qed.

Lemma store_ok {A} i (x : A) a :
  (i < length a)%nat -> exists a', store i x a = Some a' /\ length a' = length a.
Proof.
  intros H. destruct (store i x a) as [a'|] eqn:E.
  - exists a'. split; [reflexivity|]. eapply store_length; eauto.
  - unfold store in E. destruct (Nat.ltb_spec i (length a)); [discriminate|lia].
Qed.

Lemma decode_entry_ok tree base a i :
  (i < length tree)%nat -> (base + 3 * length tree <= length a)%nat ->
  exists a', decode_entry (length tree) tree base a i = Some a' /\ length a' = length a.
Proof.
  intros Hi Ha. unfold decode_entry.
  destruct (nth_error tree i) as [ti|] eqn:E; [|apply nth_error_None in E; lia].
  destruct (store_ok (base + i * 3) ((if value ti <=? 255 then value ti else 0) mod 256) a)
    as (a1 & -> & H1); [lia|].
  destruct (find_child_ok tree (left ti) (length tree - (i + 1)) (i + 1)) as (jl & -> & _); [lia|].
  destruct (store_ok (base + i * 3 + 1) (offset_byte (length tree) i jl) a1)
    as (a2 & -> & H2); [lia|].
  destruct (find_child_ok tree (right ti) (length tree - (i + 1)) (i + 1)) as (jr & -> & _); [lia|].
  destruct (store_ok (base + i * 3 + 2) (offset_byte (length tree) i jr) a2)
    as (a3 & -> & H3); [lia|].
  exists a3. split; [reflexivity|lia].
Qed.

Section General.
Context {std_sort : StdSort}.

(** The encoder succeeds on any array that has room for the payload. *)
Lemma compress_ok data a :
  (forall first bits, compressed_size_info data = Some (first, bits) ->
                      first <= Z.of_nat (length a)) ->
  exists a', compress data a = Some a' /\ length a' = length a.
Proof.
  intros Hroom.
  destruct (compressed_size_info_spec data) as (tree & Ht & Hok & Hinfo).
  specialize (Hroom _ _ Hinfo).
  pose proof (tree_ok_decreasing _ _ Hok) as Hdec.
  unfold compress. rewrite Ht, Hinfo.
  set (total := total_bits tree data) in *.
  assert (Htot : 0 <= total) by (apply total_bits_nonneg; exact Hdec).
  pose proof (Z.div_mod total 8 ltac:(lia)) as Hdm.
  pose proof (Z.mod_pos_bound total 8 ltac:(lia)) as Hmod.
  set (st := if total mod 8 >? 0 then (total / 8 + 1, 8 - total mod 8)
             else (total / 8 + 1 - 1, 0)).
  assert (Hst : 0 <= snd st < 8 /\ fst st <= Z.of_nat (length a) /\
                slots_left (fst st) (snd st) = total).
  { subst st. unfold slots_left.
    destruct (Z.gtb_spec (total mod 8) 0); cbn [fst snd]; lia. }
  destruct st as [bytes bits]. cbn [fst snd] in Hst. destruct Hst as (Hb & Hlen & Hslots).
  assert (Hgen : forall l a bytes bits,
            (forall c, In c l -> In c data) -> 0 <= bits < 8 ->
            bytes <= Z.of_nat (length a) ->
            total_bits tree l <= slots_left bytes bits ->
            exists r,
              for_each (fun '(compressed_data, bytes, bits) c =>
                          compress_walk (length tree) tree
                            (find_if (fun n => value n =? byte_val c) tree)
                            compressed_data bytes bits)
                       l (a, bytes, bits) = Some r /\
              length (fst (fst r)) = length a).
  { clear - Hok Hdec. intros l. induction l as [|c l IH]; intros a bytes bits Hin Hb Hlen Hs.
    - eexists. split; [reflexivity|reflexivity].
    - cbn [for_each]. simpl in Hs.
      destruct (tree_ok_leaf_of _ _ c Hok (Hin c (or_introl eq_refl))) as (n & Hn & _).
      change (find_if (fun n => value n =? byte_val c) tree) with (leaf_of tree c).
      pose proof (total_bits_nonneg tree l Hdec).
      destruct (compress_walk_ok tree Hdec (leaf_of tree c) (length tree) a bytes bits n Hn)
        as (a1 & bytes1 & bits1 & -> & Hl1 & Hb1 & Hle1 & Hs1); try lia.
      { assert (leaf_of tree c < length tree)%nat by (apply nth_error_Some; congruence). lia. }
      destruct (IH a1 bytes1 bits1) as (r & Hr & Hlr); try lia.
      { intros; apply Hin; now right. }
      exists r. split; [exact Hr|lia]. }
  destruct (Hgen (rev data) a bytes bits) as ([[a' ?] ?] & -> & Hl'); try lia.
  - intros c Hc. now apply in_rev.
  - rewrite total_bits_rev. fold total. lia.
  - exists a'. split; [reflexivity|exact Hl'].
Qed.

(** The serializer succeeds on any array that has room for the table. *)
Lemma build_decode_tree_ok data base a :
  (base + 3 * tree_count data <= length a)%nat ->
  exists a', build_decode_tree data base a = Some a' /\ length a' = length a.
Proof.
  intros Hroom.
  destruct (build_node_tree_ok data) as (tree & Ht & Hok).
  pose proof (build_node_tree_length data tree Ht) as Hlen.
  unfold build_decode_tree. rewrite Ht, <- Hlen. rewrite <- Hlen in Hroom.
  assert (Hgen : forall l a, (forall i, In i l -> (i < length tree)%nat) ->
            (base + 3 * length tree <= length a)%nat ->
            exists a', for_each (decode_entry (length tree) tree base) l a = Some a' /\
                       length a' = length a).
  { clear - tree. intros l. induction l as [|i l IH]; intros a Hin Ha.
    - exists a. split; reflexivity.
    - cbn [for_each].
      destruct (decode_entry_ok tree base a i) as (a1 & -> & H1); [apply Hin; now left|exact Ha|].
      destruct (IH a1) as (a' & Ha' & Hl'); [intros; apply Hin; now right|lia|].
      exists a'. split; [exact Ha'|lia]. }
  apply Hgen; [|exact Hroom]. intros i Hi. apply in_seq in Hi. lia.
Qed.

End General.

End EncoderFacts.

(** ** Sizes, the fallback decision and the constructors *)

Module ObjectFacts.
Import Arr ArrFacts Huffman Spec NodeListFacts BuildTreeFacts SizeFacts EncoderFacts.

Lemma occurring_length data : (length (occurring data) <= 256)%nat.
Proof.
  unfold occurring. etransitivity; [apply filter_length_le|].
  unfold frequency_table. rewrite length_map, length_seq. lia.
Qed.

Lemma distinct_symbols_range data : (2 <= distinct_symbols data <= 256)%nat.
Proof. unfold distinct_symbols. pose proof (occurring_length data). lia. Qed.

Lemma total_bits_bound tree l :
  decreasing tree ->
  0 <= total_bits tree l <= Z.of_nat (length l) * Z.of_nat (length tree).
Proof.
  intros Hdec. induction l as [|c l IH]; [simpl; lia|].
  cbn [total_bits fold_right length]. fold (total_bits tree l).
  pose proof (edges_to_root_nonneg tree (leaf_of tree c) Hdec).
  pose proof (edges_to_root_le tree (leaf_of tree c) Hdec).
  pose proof (find_if_le (fun n => value n =? byte_val c) tree). unfold leaf_of in *.
  nia.
Qed.

Section General.
Context {std_sort : StdSort}.

(** The two sizes and the saving, for inputs of any length an array can
    have. *)
Lemma sizes_spec data :
  Z.of_nat (length data) < 2 ^ 56 ->
  exists first bits,
    compressed_size_info data = Some (first, bits) /\
    1 <= first /\
    compressed_size data = Some (first + 3 * Z.of_nat (tree_count data)) /\
    bytes_saved data =
    Some (Z.max 0 (Z.of_nat (length data) - (first + 3 * Z.of_nat (tree_count data)))).
Proof.
  intros Hn.
  destruct (compressed_size_info_spec data) as (tree & Ht & Hok & Hinfo).
  pose proof (tree_ok_decreasing _ _ Hok) as Hdec.
  pose proof (total_bits_bound tree data Hdec) as Hb.
  pose proof (ok_length _ _ Hok) as Hlen.
  pose proof (distinct_symbols_range data) as Hd.
  pose proof (tree_count_spec data) as Htc.
  set (total := total_bits tree data) in *.
  exists (total / 8 + 1), (total mod 8).
  assert (Htb : total <= 2 ^ 56 * 511) by nia.
  assert (Hdiv : 0 <= total / 8 <= 2 ^ 53 * 511).
  { split; [apply Z.div_pos; lia|apply Z.div_le_upper_bound; [lia|]].
    change (2 ^ 53) with 9007199254740992. change (2 ^ 56) with 72057594037927936 in Htb. lia. }
  change (2 ^ 53) with 9007199254740992 in Hdiv.
  split; [exact Hinfo|]. split; [lia|].
  assert (Hc : compressed_size data = Some (total / 8 + 1 + 3 * Z.of_nat (tree_count data))).
  { unfold compressed_size. rewrite Hinfo. unfold to_unsigned_long.
    rewrite Z.mod_small; [reflexivity|]. change (2 ^ 64) with 18446744073709551616.
    change (2 ^ 56) with 72057594037927936 in *. lia. }
  split; [exact Hc|].
  unfold bytes_saved. rewrite Hc. unfold uncompressed_size, to_long, to_unsigned_long.
  set (c := total / 8 + 1 + 3 * Z.of_nat (tree_count data)).
  set (n := Z.of_nat (length data)).
  assert (Hcr : 0 <= c < 2 ^ 63).
  { subst c. change (2 ^ 63) with 9223372036854775808.
    change (2 ^ 56) with 72057594037927936 in *. lia. }
  assert (Hnr : 0 <= n < 2 ^ 63).
  { subst n. change (2 ^ 63) with 9223372036854775808.
    change (2 ^ 56) with 72057594037927936 in *. lia. }
  assert (E : ((n - c) mod 2 ^ 64 + 2 ^ 63) mod 2 ^ 64 - 2 ^ 63 = n - c).
  { change (2 ^ 64) with 18446744073709551616.
    change (2 ^ 63) with 9223372036854775808 in *.
    rewrite Zplus_mod_idemp_l.
    replace (n - c + 9223372036854775808) with (n - c + 9223372036854775808 + 0 * 18446744073709551616) by lia.
    rewrite Z.mod_add, Z.mod_small by lia. lia. }
  rewrite E. f_equal. destruct (Z.gtb_spec (n - c) 0); lia.
Qed.

(** The size calculator and [bytes_saved] return for every input. *)
Lemma sizes_defined data :
  exists first bits saved,
    compressed_size_info data = Some (first, bits) /\ 1 <= first /\
    bytes_saved data = Some saved.
Proof.
  destruct (compressed_size_info_spec data) as (tree & Ht & Hok & Hinfo).
  pose proof (total_bits_bound tree data (tree_ok_decreasing _ _ Hok)) as Hb.
  do 2 eexists. exists
    (let c := to_unsigned_long (total_bits tree data / 8 + 1 + 3 * Z.of_nat (tree_count data)) in
     let diff := to_long (to_unsigned_long (uncompressed_size data - c)) in
     if diff >? 0 then diff else 0).
  split; [exact Hinfo|]. split.
  - assert (0 <= total_bits tree data / 8) by (apply Z.div_pos; lia). lia.
  - unfold bytes_saved, compressed_size. rewrite Hinfo. reflexivity.
Qed.

End General.

End ObjectFacts.

(** ** The constructors and the fallback decoder of [huffman_compressor] *)

Module ConstructFacts.
Import Arr ArrFacts Huffman Spec NodeListFacts BuildTreeFacts SizeFacts EncoderFacts ObjectFacts.

Lemma copy_exact {A} (src : list A) (d : A) : copy src (repeat d (length src)) = src.
Proof.
  unfold copy. rewrite skipn_repeat, Nat.sub_diag. simpl. apply app_nil_r.
Qed.

Section General.
Context {std_sort : StdSort}.

(** Building the payload and the table in one array, as the constructor of
    [huffman_compressor] does in compressed mode, always succeeds. *)
Lemma compressed_object_ok data first bits :
  compressed_size_info data = Some (first, bits) -> 1 <= first ->
  exists table mem,
    build_decode_tree data (Z.to_nat first)
      (repeat 0 (Z.to_nat (first + 3 * Z.of_nat (tree_count data)))) = Some table /\
    compress data table = Some mem /\
    length mem = Z.to_nat (first + 3 * Z.of_nat (tree_count data)).
Proof.
  intros Hinfo Hfirst.
  destruct (build_decode_tree_ok data (Z.to_nat first)
              (repeat 0 (Z.to_nat (first + 3 * Z.of_nat (tree_count data)))))
    as (table & Htable & Hlt); [rewrite repeat_length; lia|].
  rewrite repeat_length in Hlt.
  destruct (compress_ok data table) as (mem & Hmem & Hlm).
  - intros first' bits' H'. rewrite Hinfo in H'. injection H' as <- <-. lia.
  - exists table, mem. split; [exact Htable|]. split; [exact Hmem|]. lia.
Qed.

(** [huffman_compressor]: every non-empty input yields an object. *)
Lemma compressor_construct_total raw_data :
  (0 < length raw_data)%nat ->
  exists mem, huffman_compressor.construct raw_data = Constructed mem.
Proof.
  intros Hn. unfold huffman_compressor.construct.
  destruct (Nat.eqb_spec (length raw_data) 0); [lia|].
  destruct (sizes_defined raw_data) as (first & bits & saved & Hinfo & Hfirst & Hsaved).
  rewrite Hsaved, Hinfo.
  destruct (saved >? 0).
  - destruct (compressed_object_ok raw_data first bits Hinfo Hfirst) as (table & mem & -> & -> & _).
    now exists mem.
  - eexists. reflexivity.
Qed.

(** An input of plain [char]s that can index the counters has a tree of at
    most 255 nodes. *)
Lemma indexable_tree_count data :
  forallb indexable data = true -> (tree_count data <= 255)%nat.
Proof.
  intros Hidx. rewrite tree_count_spec. unfold distinct_symbols.
  pose proof (CharFacts.indexable_occurring data Hidx). lia.
Qed.

(** [huffman_compress]: the constructor runs when the input is not empty
    and lies inside the array, the array holds a C string that is not
    empty, and every input byte can index the counters. *)
Lemma compress_construct_runs data data_length n :
  (0 < data_length <= length data)%nat ->
  char_traits_length data = Some n -> (0 < n)%nat ->
  forallb indexable (huffman_compress.input data data_length) = true ->
  huffman_compress.construct data data_length =
  match
    (saved <- bytes_saved (huffman_compress.input data data_length) ;;
     '(first, _) <- compressed_size_info (huffman_compress.input data data_length) ;;
     let decode_tree := repeat 0 (3 * tree_count (huffman_compress.input data data_length)) in
     if saved >? 0 then
       decode_tree <- build_decode_tree (huffman_compress.input data data_length) 0 decode_tree ;;
       compressed_data <-
         compress (huffman_compress.input data data_length) (repeat 0 (Z.to_nat first)) ;;
       Some (huffman_compress.mk_object compressed_data decode_tree)
     else
       Some (huffman_compress.mk_object
               (copy (map byte_val (huffman_compress.input data data_length))
                     (repeat 0 data_length))
               decode_tree))
  with
  | Some o => Constructed o
  | None => NotConstant
  end.
Proof.
  intros Hn Hstr Hpos Hidx. unfold huffman_compress.construct.
  destruct (Nat.eqb_spec data_length 0); [lia|].
  rewrite Hstr. destruct n as [|n']; [lia|].
  destruct (Nat.ltb_spec (length data) data_length); [lia|].
  rewrite Hidx. reflexivity.
Qed.

Lemma compress_construct_total data data_length n :
  (0 < data_length <= length data)%nat ->
  char_traits_length data = Some n -> (0 < n)%nat ->
  forallb indexable (huffman_compress.input data data_length) = true ->
  exists o, huffman_compress.construct data data_length = Constructed o.
Proof.
  intros Hn Hstr Hpos Hidx.
  rewrite (compress_construct_runs data data_length n Hn Hstr Hpos Hidx).
  set (input := huffman_compress.input data data_length).
  destruct (sizes_defined input) as (first & bits & saved & Hinfo & Hfirst & Hsaved).
  rewrite Hsaved, Hinfo. cbv zeta.
  destruct (saved >? 0).
  - destruct (build_decode_tree_ok input 0 (repeat 0 (3 * tree_count input)))
      as (table & -> & _); [rewrite repeat_length; lia|].
    destruct (compress_ok input (repeat 0 (Z.to_nat first))) as (mem & -> & _).
    + intros first' bits' H'. rewrite Hinfo in H'. injection H' as <- <-.
      rewrite repeat_length. lia.
    + eexists. reflexivity.
  - eexists. reflexivity.
Qed.

(** Without a zero in the array, with a zero in front, or with an input
    byte that is negative as a [char], no object is built. *)
Lemma compress_construct_needs data data_length o :
  huffman_compress.construct data data_length = Constructed o ->
  (0 < data_length <= length data)%nat /\
  (exists n, char_traits_length data = Some (S n)) /\
  forallb indexable (huffman_compress.input data data_length) = true.
Proof.
  unfold huffman_compress.construct.
  destruct (Nat.eqb_spec data_length 0); [discriminate|].
  destruct (char_traits_length data) as [[|n']|]; try discriminate.
  destruct (Nat.ltb_spec (length data) data_length); [discriminate|].
  destruct (forallb indexable (huffman_compress.input data data_length));
    [|discriminate].
  intros _. split; [lia|]. split; [now exists n'|reflexivity].
Qed.

(** [huffman_compressor::decoder]: on the end cursor a step reads nothing
    and sets the end sentinel, in either mode. *)
Lemma compressor_get_next_at_end raw_data saved size_info mem cur :
  let e := huffman_compressor.decoder_end raw_data saved size_info 0 in
  let table := Some (Z.to_nat (fst size_info)) in
  huffman_compressor.get_next raw_data saved size_info mem
    (huffman_compressor.mk_decoder (huffman_compressor.m_data e) table
                                   (huffman_compressor.m_bit e) cur) =
  Some (huffman_compressor.mk_decoder (huffman_compressor.m_data e) table
                                      (huffman_compressor.m_bit e) (-1)).
Proof.
  intros e table. unfold huffman_compressor.get_next. subst table.
  cbn [huffman_compressor.m_table huffman_compressor.m_data huffman_compressor.m_bit].
  rewrite Nat.ltb_irrefl, Nat.sub_diag. fold e.
  now rewrite Nat.eqb_refl, Z.eqb_refl.
Qed.

End General.

(** The decoder of an object that stores the raw bytes. *)
Section Fallback.
Context {std_sort : StdSort}.
Variables (raw_data : list byte) (saved first bits : Z).
Hypothesis Hsaved : (saved >? 0) = false.

Local Abbreviation mem := (map byte_val raw_data).
Local Abbreviation table := (Z.to_nat first).
Local Abbreviation next :=
  (huffman_compressor.get_next raw_data saved (first, bits) mem).
Local Abbreviation ender := (huffman_compressor.end_ raw_data saved (first, bits)).

Lemma fallback_end :
  huffman_compressor.decoder_end raw_data saved (first, bits) 0 =
  huffman_compressor.mk_decoder (length raw_data) None 0x80 (-1).
Proof. unfold huffman_compressor.decoder_end. rewrite Hsaved. reflexivity. Qed.

(** Away from the end cursor a step hands out the stored byte under the
    cursor and moves the cursor by one. *)
Lemma fallback_get_next k bit cur x :
  nth_error mem k = Some x ->
  next (huffman_compressor.mk_decoder k (Some table) bit cur) =
  Some (huffman_compressor.mk_decoder (S k) (Some table) bit x).
Proof.
  intros Hx. unfold huffman_compressor.get_next. cbn [huffman_compressor.m_table fst].
  rewrite Nat.ltb_irrefl, Nat.sub_diag, fallback_end.
  cbn [huffman_compressor.m_data huffman_compressor.m_bit].
  assert (k < length raw_data)%nat.
  { rewrite <- (length_map byte_val). apply nth_error_Some. congruence. }
  destruct (Nat.eqb_spec k (length raw_data)); [lia|]. cbn [andb].
  rewrite Hsaved, Hx. reflexivity.
Qed.

(** At the end cursor a step only sets the end sentinel. *)
Lemma fallback_get_next_end cur :
  next (huffman_compressor.mk_decoder (length raw_data) (Some table) 0x80 cur) =
  Some (huffman_compressor.mk_decoder (length raw_data) (Some table) 0x80 (-1)).
Proof.
  unfold huffman_compressor.get_next. cbn [huffman_compressor.m_table fst].
  rewrite Nat.ltb_irrefl, Nat.sub_diag, fallback_end.
  cbn [huffman_compressor.m_data huffman_compressor.m_bit].
  rewrite Nat.eqb_refl. reflexivity.
Qed.

Lemma fallback_range_for rest :
  forall k cur fuel,
    skipn k mem = rest -> (k <= length raw_data)%nat -> 0 <= cur ->
    (length rest < fuel)%nat ->
    range_for fuel huffman_compressor.decoder_eq huffman_compressor.m_current next
      (huffman_compressor.mk_decoder k (Some table) 0x80 cur) ender = Some (cur :: rest).
Proof.
  unfold huffman_compressor.end_. rewrite fallback_end.
  induction rest as [|x rest IH]; intros k cur fuel Hskip Hk Hcur Hfuel.
  - assert (k = length raw_data) as ->.
    { apply (f_equal (@length Z)) in Hskip. rewrite length_skipn, length_map in Hskip.
      simpl in Hskip. lia. }
    destruct fuel as [|fuel]; [simpl in Hfuel; lia|]. cbn [range_for].
    unfold huffman_compressor.decoder_eq at 1. cbn [huffman_compressor.m_current].
    destruct (Z.eqb_spec cur (-1)); [lia|]. rewrite andb_false_r.
    rewrite fallback_get_next_end.
    destruct fuel; cbn [range_for]; unfold huffman_compressor.decoder_eq;
      cbn [huffman_compressor.m_data huffman_compressor.m_bit huffman_compressor.m_current];
      rewrite Nat.eqb_refl; reflexivity.
  - assert (Hx : nth_error mem k = Some x).
    { rewrite <- (Nat.add_0_r k), <- nth_error_skipn, Hskip. reflexivity. }
    assert (Hlt : (k < length raw_data)%nat).
    { rewrite <- (length_map byte_val). apply nth_error_Some. congruence. }
    destruct fuel as [|fuel]; [simpl in Hfuel; lia|]. cbn [range_for].
    unfold huffman_compressor.decoder_eq at 1. cbn [huffman_compressor.m_data].
    destruct (Nat.eqb_spec k (length raw_data)); [lia|]. cbn [andb].
    rewrite (fallback_get_next _ _ _ _ Hx).
    rewrite (IH (S k) x fuel).
    + reflexivity.
    + rewrite <- (Nat.add_1_l k), <- skipn_skipn, Hskip. reflexivity.
    + lia.
    + apply nth_error_In in Hx. apply in_map_iff in Hx as (c & <- & _).
      apply byte_val_range.
    + simpl in Hfuel. lia.
Qed.

(** The loop over an object that stores the raw bytes hands them out in
    order. *)
Lemma fallback_iterate :
  (0 < length raw_data)%nat ->
  huffman_compressor.iterate raw_data saved (first, bits) mem = Some mem.
Proof.
  intros Hn. unfold huffman_compressor.iterate, huffman_compressor.begin. cbn [fst].
  destruct raw_data as [|c rest] eqn:E; [simpl in Hn; lia|]. rewrite <- E in *.
  assert (H0 : nth_error mem 0 = Some (byte_val c)) by (rewrite E; reflexivity).
  rewrite (fallback_get_next 0 _ _ _ H0).
  rewrite (fallback_range_for (skipn 1 mem) 1).
  - rewrite E. reflexivity.
  - reflexivity.
  - lia.
  - apply byte_val_range.
  - rewrite length_skipn, !length_map. lia.
Qed.

End Fallback.

End ConstructFacts.

(** ** Codes: the way from the root to a leaf *)

Module CodeFacts.
Import Arr ArrFacts Huffman Spec Codec NodeListFacts MergeFacts ConnectFacts LinkedFacts
       TreeFacts BuildTreeFacts SizeFacts.

Lemma children_In tree i j n :
  nth_error tree j = Some n -> parent n = Z.of_nat i -> In j (children tree i).
Proof.
  intros Hn Hp. unfold children. apply filter_In. split.
  - apply in_seq. assert (j < length tree)%nat by (apply nth_error_Some; congruence). lia.
  - rewrite Hn. now apply Z.eqb_eq.
Qed.

(** The parent link of a node leads to a parent node that names it. *)
Lemma tree_ok_parent_refers data tree j n :
  tree_ok data tree -> nth_error tree j = Some n -> (0 < j)%nat ->
  exists p, nth_error tree (Z.to_nat (parent n)) = Some p /\
            refers_to (value n) p = true /\ 256 <= value p /\
            (Z.to_nat (parent n) < j)%nat.
Proof.
  intros Hok Hn Hj.
  pose proof (ok_parent _ _ Hok j n Hn Hj) as Hp.
  assert (Hlt : (j < length tree)%nat) by (apply nth_error_Some; congruence).
  destruct (nth_error tree (Z.to_nat (parent n))) as [p|] eqn:Ep;
    [|apply nth_error_None in Ep; lia].
  exists p. split; [reflexivity|].
  assert (Hin : In j (children tree (Z.to_nat (parent n)))).
  { eapply children_In; eauto. lia. }
  destruct (Z.ltb_spec (value p) 256) as [Hv|Hv].
  - destruct (ok_leaf _ _ Hok _ _ Ep Hv) as (Hc & _). rewrite Hc in Hin. destruct Hin.
  - destruct (ok_internal _ _ Hok _ _ Ep Hv) as (k & b & a & Hc & _ & Hb & Ha & Hl & Hr & _).
    rewrite Hc in Hin. unfold refers_to.
    split; [|split; [exact Hv|lia]].
    destruct Hin as [<-|[<-|[]]].
    + rewrite Hn in Hb. injection Hb as <-. rewrite Hr, Z.eqb_refl. apply orb_true_r.
    + rewrite Hn in Ha. injection Ha as <-. rewrite Hl, Z.eqb_refl. reflexivity.
Qed.

Lemma internal_unique_two l0 l1 :
  value l0 < 256 -> value l1 < 256 ->
  internal_unique [new_parent 256 l0 l1; set_parent 0 l1; set_parent 0 l0].
Proof.
  intros H0 H1 i j ni nj Hi Hj Hv E.
  destruct i as [|[|[|i]]]; simpl in Hi; try (injection Hi as <-; simpl in Hv; lia);
    [|destruct i; discriminate].
  injection Hi as <-. simpl in E.
  destruct j as [|[|[|j]]]; simpl in Hj; try reflexivity;
    try (injection Hj as <-; simpl in E; lia).
  destruct j; discriminate.
Qed.

Section General.
Context {std_sort : StdSort}.

(** The tree [build_node_tree] returns is well formed, and the values of
    its parent nodes are unique. *)
Lemma build_node_tree_unique data :
  exists tree, build_node_tree data = Some tree /\ tree_ok data tree /\
               internal_unique tree.
Proof.
  destruct (build_node_tree_ok data) as (tree & Htree & Hok).
  exists tree. split; [exact Htree|]. split; [exact Hok|].
  rewrite build_node_tree_unfold in Htree.
  destruct (build_node_list_spec data) as (occ & Hperm & _ & Hlist).
  rewrite Hlist in Htree. clear Hlist.
  assert (Hleaf : forall n, In n occ ->
            parent n = -1 /\ left n = -1 /\ right n = -1 /\ 0 <= value n < 256).
  { intros n Hn. apply (occurring_leaf data). eapply Permutation_in; eauto. }
  destruct occ as [|x [|y occ']].
  - simpl app in Htree. destruct node_default_leaf as (Hp & Hl & Hr & Hv).
    rewrite (tree_from_two _ _ Hp Hp) in Htree. injection Htree as <-.
    apply internal_unique_two; lia.
  - simpl app in Htree. destruct node_default_leaf as (Hp & Hl & Hr & Hv).
    destruct (Hleaf x (or_introl eq_refl)) as (Hpx & Hlx & Hrx & Hvx).
    rewrite (tree_from_two _ _ Hpx Hp) in Htree. injection Htree as <-.
    apply internal_unique_two; lia.
  - set (occ := x :: y :: occ') in *.
    assert (Hocc : (2 <= length occ)%nat) by (subst occ; simpl; lia).
    clearbody occ. clear x y occ'.
    replace (2 - length occ)%nat with O in * by lia.
    simpl repeat in *. rewrite app_nil_r in *.
    assert (Hnd : NoDup (map value occ)).
    { eapply Permutation_NoDup; [symmetry; apply Permutation_map, Hperm|].
      apply occurring_values. }
    destruct (merge_loop_run occ (total_freq occ) (length occ) occ [] 256)
      as (root & tail & next & Hrun & Inv & Htail & Hroot).
    { exact Hocc. }
    { lia. }
    { now apply merge_inv_start. }
    rewrite app_nil_r in Hrun.
    destruct (connect_all (root :: tail)) as (t & Hcon & Hlt & Hnth).
    { apply Forall_forall. intros n Hn.
      now destruct (inv_shape _ _ _ _ _ Inv n Hn). }
    { simpl. lia. }
    assert (Ht : tree_from occ = Some t).
    { unfold tree_from. rewrite repeat_length.
      replace (length occ * 2 - 1)%nat with (2 * length occ - 1)%nat by lia.
      change 0x100 with 256. rewrite Hrun. cbn [nth_error].
      change (store 0 root (node_default :: tail)) with (Some (root :: tail)).
      exact Hcon. }
    rewrite Ht in Htree. injection Htree as <-.
    intros i j ni nj Hi Hj _ E.
    destruct (t_from _ _ _ Hnth i ni Hi) as (xi & Hxi & ->).
    destruct (t_from _ _ _ Hnth j nj Hj) as (xj & Hxj & ->).
    destruct (link_node_fields (root :: tail) i xi) as (Evi & _).
    destruct (link_node_fields (root :: tail) j xj) as (Evj & _).
    rewrite Evi, Evj in E.
    eapply (NoDup_map_nth value (root :: tail)); eauto.
    exact (inv_values _ _ _ _ _ Inv).
Qed.

End General.

(** *** Codes *)

Lemma code_up_fuel tree :
  decreasing tree ->
  forall i fuel, (i < fuel)%nat -> code_up fuel tree i = code_up (S i) tree i.
Proof.
  intros Hdec i. induction i as [i IH] using lt_wf_ind. intros fuel Hf.
  destruct fuel as [|fuel]; [lia|]. cbn [code_up].
  destruct (nth_error tree i) as [n|] eqn:En; [|reflexivity].
  destruct (Z.eqb_spec (parent n) (-1)); [reflexivity|].
  destruct (Hdec i n En) as [?|Hp]; [contradiction|].
  destruct (nth_error tree (Z.to_nat (parent n))); [|reflexivity].
  rewrite (IH (Z.to_nat (parent n))) by lia.
  rewrite (IH (Z.to_nat (parent n)) ltac:(lia) i) by lia. reflexivity.
Qed.

Lemma code_step tree i n :
  decreasing tree -> nth_error tree i = Some n ->
  code tree i =
  if parent n =? -1 then []
  else match nth_error tree (Z.to_nat (parent n)) with
       | Some p => code tree (Z.to_nat (parent n)) ++ [right p =? value n]
       | None => []
       end.
Proof.
  intros Hdec En. unfold code.
  assert (Hi : (i < length tree)%nat) by (apply nth_error_Some; congruence).
  rewrite (code_up_fuel tree Hdec i (length tree) Hi). cbn [code_up]. rewrite En.
  destruct (Z.eqb_spec (parent n) (-1)); [reflexivity|].
  destruct (Hdec i n En) as [?|Hp]; [contradiction|].
  destruct (nth_error tree (Z.to_nat (parent n))); [|reflexivity].
  rewrite (code_up_fuel tree Hdec (Z.to_nat (parent n)) i) by lia.
  rewrite (code_up_fuel tree Hdec (Z.to_nat (parent n)) (length tree)) by lia.
  reflexivity.
Qed.

(** A code has one bit per parent link. *)
Lemma code_length tree i :
  decreasing tree -> Z.of_nat (length (code tree i)) = edges_to_root tree i.
Proof.
  intros Hdec. induction i as [i IH] using lt_wf_ind.
  destruct (nth_error tree i) as [n|] eqn:En.
  - rewrite (edges_to_root_step _ _ _ Hdec En), (code_step _ _ _ Hdec En).
    destruct (Z.eqb_spec (parent n) (-1)); [reflexivity|].
    destruct (Hdec i n En) as [?|Hp]; [contradiction|].
    assert (Hi : (i < length tree)%nat) by (apply nth_error_Some; congruence).
    destruct (nth_error tree (Z.to_nat (parent n))) as [p|] eqn:Ep;
      [|apply nth_error_None in Ep; lia].
    rewrite length_app. cbn [length].
    specialize (IH (Z.to_nat (parent n)) ltac:(lia)). lia.
  - unfold code, edges_to_root. destruct (length tree); simpl; [reflexivity|].
    rewrite En. reflexivity.
Qed.

Lemma stream_length tree data :
  decreasing tree -> Z.of_nat (length (stream tree data)) = total_bits tree data.
Proof.
  intros Hdec. induction data as [|c data IH]; [reflexivity|].
  unfold stream in *. cbn [flat_map total_bits fold_right]. rewrite length_app.
  fold (total_bits tree data). rewrite <- IH, <- (code_length tree _ Hdec). lia.
Qed.

Lemma stream_app tree l l' : stream tree (l ++ l') = stream tree l ++ stream tree l'.
Proof. unfold stream. apply flat_map_app. Qed.

(** The leaf of an input byte lies below the root: its code has a bit. *)
Lemma leaf_below_root data tree c :
  tree_ok data tree -> In c data -> 1 <= edges_to_root tree (leaf_of tree c).
Proof.
  intros Hok Hc.
  pose proof (tree_ok_decreasing _ _ Hok) as Hdec.
  destruct (tree_ok_leaf_of _ _ c Hok Hc) as (n & Hn & Hv).
  rewrite (edges_to_root_step _ _ _ Hdec Hn).
  destruct (ok_root _ _ Hok) as (root & Hr & _ & _ & Hroot).
  destruct (Z.eqb_spec (parent n) (-1)) as [E|E].
  - exfalso. destruct (leaf_of tree c) as [|j] eqn:El.
    + rewrite Hr in Hn. injection Hn as <-.
      pose proof (byte_val_range c). lia.
    + pose proof (ok_parent _ _ Hok (S j) n Hn ltac:(lia)). lia.
  - pose proof (edges_to_root_nonneg tree (Z.to_nat (parent n)) Hdec). lia.
Qed.

End CodeFacts.

(** ** What the encoder writes *)

Module PayloadFacts.
Import Arr ArrFacts Huffman Spec Codec NodeListFacts BuildTreeFacts SizeFacts EncoderFacts
       CodeFacts.

Lemma placed_nil start x : placed start [] x = false.
Proof. unfold placed. destruct (Z.to_nat (x - start)); apply andb_false_r. Qed.

Lemma placed_single start b x : placed start [b] x = b && (x =? start).
Proof.
  unfold placed. destruct (Z.eqb_spec x start).
  - subst. rewrite Z.leb_refl, Z.sub_diag. simpl. now rewrite andb_true_r.
  - rewrite andb_false_r. destruct (Z.leb_spec start x); [|reflexivity]. simpl.
    destruct (Z.to_nat (x - start)) as [|[|k]] eqn:E; try lia; reflexivity.
Qed.

Lemma placed_app start l l' x :
  placed start (l ++ l') x =
  placed start l x || placed (start + Z.of_nat (length l)) l' x.
Proof.
  unfold placed. destruct (Z.leb_spec start x); simpl.
  - destruct (Nat.ltb_spec (Z.to_nat (x - start)) (length l)) as [Hlt|Hge].
    + rewrite app_nth1 by exact Hlt.
      destruct (Z.leb_spec (start + Z.of_nat (length l)) x); [lia|]. now rewrite orb_false_r.
    + rewrite app_nth2 by exact Hge. rewrite (nth_overflow l) by exact Hge.
      destruct (Z.leb_spec (start + Z.of_nat (length l)) x); [|lia]. simpl.
      f_equal. lia.
  - destruct (Z.leb_spec (start + Z.of_nat (length l)) x); [lia|]. reflexivity.
Qed.

Lemma placed_before start l x : x < start -> placed start l x = false.
Proof. intros H. unfold placed. destruct (Z.leb_spec start x); [lia|reflexivity]. Qed.

Lemma placed_zero l x : 0 <= x -> placed 0 l x = nth (Z.to_nat x) l false.
Proof.
  intros H. unfold placed. destruct (Z.leb_spec 0 x); [|lia]. now rewrite Z.sub_0_r.
Qed.

Lemma bit_at_zero a x :
  nth_error a (Z.to_nat (x / 8)) = Some 0 -> bit_at a x = false.
Proof. intros H. unfold bit_at. rewrite H. apply Z.testbit_0_l. Qed.

Lemma bit_at_same a a' x :
  nth_error a' (Z.to_nat (x / 8)) = nth_error a (Z.to_nat (x / 8)) -> bit_at a' x = bit_at a x.
Proof. intros H. unfold bit_at. now rewrite H. Qed.

(** [compressed_data[i] |= (1 << bits)] sets bit [7 - bits] of byte [i] and
    nothing else. *)
Lemma or_into_bits i bits a a' :
  or_into i (Z.shiftl 1 bits) a = Some a' -> 0 <= bits < 8 ->
  0 <= i /\
  (forall k, k <> Z.to_nat i -> nth_error a' k = nth_error a k) /\
  (forall x, 0 <= x -> bit_at a' x = bit_at a x || (x =? 8 * i + (7 - bits))).
Proof.
  unfold or_into. intros H Hb. destruct (Z.ltb_spec i 0); [discriminate|].
  destruct (nth_error a (Z.to_nat i)) as [old|] eqn:Eold; [|discriminate].
  split; [assumption|]. split.
  - intros k Hk. rewrite (store_nth_error _ _ _ _ k H).
    destruct (Nat.eqb_spec k (Z.to_nat i)); [contradiction|reflexivity].
  - intros x Hx. unfold bit_at. rewrite (store_nth_error _ _ _ _ _ H).
    pose proof (Z.div_mod x 8 ltac:(lia)) as Hdm.
    pose proof (Z.mod_pos_bound x 8 ltac:(lia)) as Hm.
    assert (0 <= x / 8) by (apply Z.div_pos; lia).
    destruct (Nat.eqb_spec (Z.to_nat (x / 8)) (Z.to_nat i)) as [E|E].
    + assert (Ei : x / 8 = i) by lia. rewrite E, Eold.
      change 256 with (2 ^ 8). rewrite Z.mod_pow2_bits_low by lia.
      rewrite Z.lor_spec, Z.shiftl_1_l, Z.pow2_bits_eqb by lia.
      f_equal. destruct (Z.eqb_spec bits (7 - x mod 8)); destruct (Z.eqb_spec x (8 * i + (7 - bits)));
        try reflexivity; lia.
    + destruct (Z.eqb_spec x (8 * i + (7 - bits))) as [Ex|Ex]; [|now rewrite orb_false_r].
      exfalso. apply E. f_equal. subst x.
      replace (8 * i + (7 - bits)) with ((7 - bits) + i * 8) by lia.
      rewrite Z.div_add, Z.div_small by lia. lia.
Qed.

(** The inner loop of the encoder puts the code of the leaf, root end
    first, into the bit slots in front of its cursor. *)
Lemma compress_walk_bits tree :
  decreasing tree ->
  forall leaf fuel a bytes bits n,
    nth_error tree leaf = Some n -> (leaf <= fuel)%nat -> 0 <= bits < 8 ->
    bytes <= Z.of_nat (length a) ->
    edges_to_root tree leaf <= slots_left bytes bits ->
    exists a' bytes' bits',
      compress_walk fuel tree leaf a bytes bits = Some (a', bytes', bits') /\
      length a' = length a /\ 0 <= bits' < 8 /\ bytes' <= bytes /\
      slots_left bytes' bits' = slots_left bytes bits - edges_to_root tree leaf /\
      (forall k, bytes <= Z.of_nat k -> nth_error a' k = nth_error a k) /\
      (forall x, 0 <= x ->
         bit_at a' x = bit_at a x || placed (slots_left bytes' bits') (code tree leaf) x).
Proof.
  intros Hdec leaf. induction leaf as [leaf IH] using lt_wf_ind.
  intros fuel a bytes bits n En Hf Hb Hlen Hslots.
  rewrite (edges_to_root_step _ _ _ Hdec En) in *.
  rewrite (code_step _ _ _ Hdec En).
  assert (Hdone : parent n = -1 ->
            exists a' bytes' bits',
              Some (a, bytes, bits) = Some (a', bytes', bits') /\
              length a' = length a /\ 0 <= bits' < 8 /\ bytes' <= bytes /\
              slots_left bytes' bits' = slots_left bytes bits - 0 /\
              (forall k, bytes <= Z.of_nat k -> nth_error a' k = nth_error a k) /\
              (forall x, 0 <= x ->
                 bit_at a' x = bit_at a x || placed (slots_left bytes' bits') [] x)).
  { intros _. exists a, bytes, bits. repeat split; try lia.
    intros x _. now rewrite placed_nil, orb_false_r. }
  destruct fuel as [|fuel]; cbn [compress_walk]; rewrite En;
    destruct (Z.eqb_spec (parent n) (-1)) as [E|E]; try (now apply Hdone).
  - destruct (Hdec leaf n En) as [?|Hp]; [contradiction|lia].
  - destruct (Hdec leaf n En) as [?|Hp]; [contradiction|].
    assert (Hleaf : (leaf < length tree)%nat) by (apply nth_error_Some; congruence).
    destruct (nth_error tree (Z.to_nat (parent n))) as [m|] eqn:Em;
      [|apply nth_error_None in Em; lia].
    pose proof (edges_to_root_nonneg tree (Z.to_nat (parent n)) Hdec) as Hnn.
    unfold slots_left in Hslots.
    assert (Hw : exists a1, (if right m =? value n
                             then or_into (bytes - 1) (Z.shiftl 1 bits) a
                             else Some a) = Some a1 /\ length a1 = length a /\
                 (forall k, bytes <= Z.of_nat k -> nth_error a1 k = nth_error a k) /\
                 (forall x, 0 <= x ->
                    bit_at a1 x = bit_at a x ||
                                  ((right m =? value n) && (x =? slots_left bytes bits - 1)))).
    { destruct (right m =? value n).
      - destruct (or_into_ok (bytes - 1) (Z.shiftl 1 bits) a) as (a1 & Ha1 & Hl1); [lia|].
        exists a1. split; [exact Ha1|]. split; [exact Hl1|].
        destruct (or_into_bits _ _ _ _ Ha1 Hb) as (_ & Hfr & Hbits).
        split.
        + intros k Hk. apply Hfr. lia.
        + intros x Hx. rewrite (Hbits x Hx).
          replace (slots_left bytes bits - 1) with (8 * (bytes - 1) + (7 - bits))
            by (unfold slots_left; lia).
          reflexivity.
      - exists a. split; [reflexivity|]. split; [reflexivity|]. split; [reflexivity|].
        intros x _. now rewrite orb_false_r. }
    destruct Hw as (a1 & -> & Hl1 & Hfr1 & Hbit1).
    set (st := if bits + 1 =? 8 then (bytes - 1, 0) else (bytes, bits + 1)).
    assert (Hst : 0 <= snd st < 8 /\ fst st <= bytes /\
                  slots_left (fst st) (snd st) = slots_left bytes bits - 1).
    { subst st. unfold slots_left. destruct (Z.eqb_spec (bits + 1) 8); cbn [fst snd]; lia. }
    destruct st as [bytes1 bits1]. cbn [fst snd] in Hst. destruct Hst as (Hb1 & Hle1 & Hs1).
    destruct (IH (Z.to_nat (parent n)) ltac:(lia) fuel a1 bytes1 bits1 m Em)
      as (a' & bytes' & bits' & Hrun & Hl' & Hb' & Hle' & Hs' & Hfr' & Hbit'); try lia.
    { rewrite Hs1. unfold slots_left. lia. }
    exists a', bytes', bits'. rewrite Hrun. repeat split; try lia.
    + intros k Hk. rewrite Hfr' by lia. apply Hfr1. exact Hk.
    + intros x Hx. rewrite (Hbit' x Hx), (Hbit1 x Hx), placed_app, placed_single.
      rewrite (code_length tree _ Hdec).
      replace (slots_left bytes' bits' + edges_to_root tree (Z.to_nat (parent n)))
        with (slots_left bytes bits - 1) by lia.
      destruct (bit_at a x), (placed (slots_left bytes' bits') (code tree (Z.to_nat (parent n))) x),
        (right m =? value n), (x =? slots_left bytes bits - 1); reflexivity.
Qed.

Section General.
Context {std_sort : StdSort}.

(** The encoder fills the payload with the codes of the input bytes in
    input order, most significant bit first; the bits behind the last code
    stay zero, and nothing behind the payload is touched. *)
Lemma compress_spec data tree first bits a :
  build_node_tree data = Some tree -> tree_ok data tree ->
  compressed_size_info data = Some (first, bits) ->
  first <= Z.of_nat (length a) ->
  (forall k, Z.of_nat k < first -> nth_error a k = Some 0) ->
  exists a',
    compress data a = Some a' /\ length a' = length a /\
    (forall k, first <= Z.of_nat k -> nth_error a' k = nth_error a k) /\
    (forall x, 0 <= x < 8 * first ->
       bit_at a' x = nth (Z.to_nat x) (stream tree data) false).
Proof.
  intros Ht Hok Hinfo Hroom Hzero.
  destruct (compressed_size_info_spec data) as (tree' & Ht' & _ & Hinfo').
  rewrite Ht in Ht'. injection Ht' as <-.
  rewrite Hinfo in Hinfo'. injection Hinfo' as -> ->.
  pose proof (tree_ok_decreasing _ _ Hok) as Hdec.
  unfold compress. rewrite Ht, Hinfo.
  set (total := total_bits tree data) in *.
  assert (Htot : 0 <= total) by (apply total_bits_nonneg; exact Hdec).
  pose proof (Z.div_mod total 8 ltac:(lia)) as Hdm.
  pose proof (Z.mod_pos_bound total 8 ltac:(lia)) as Hmod.
  set (st := if total mod 8 >? 0 then (total / 8 + 1, 8 - total mod 8)
             else (total / 8 + 1 - 1, 0)).
  assert (Hst : 0 <= snd st < 8 /\ fst st <= total / 8 + 1 /\
                slots_left (fst st) (snd st) = total).
  { subst st. unfold slots_left.
    destruct (Z.gtb_spec (total mod 8) 0); cbn [fst snd]; lia. }
  destruct st as [bytes0 bits0]. cbn [fst snd] in Hst. destruct Hst as (Hb & Hle & Hslots).
  assert (Hgen : forall l a bytes bits,
            (forall c, In c l -> In c data) -> 0 <= bits < 8 ->
            bytes <= Z.of_nat (length a) ->
            total_bits tree l <= slots_left bytes bits ->
            exists a' bytes' bits',
              for_each (fun '(compressed_data, bytes, bits) c =>
                          compress_walk (length tree) tree
                            (find_if (fun n => value n =? byte_val c) tree)
                            compressed_data bytes bits)
                       l (a, bytes, bits) = Some (a', bytes', bits') /\
              length a' = length a /\
              slots_left bytes' bits' = slots_left bytes bits - total_bits tree l /\
              (forall k, bytes <= Z.of_nat k -> nth_error a' k = nth_error a k) /\
              (forall x, 0 <= x ->
                 bit_at a' x =
                 bit_at a x || placed (slots_left bytes' bits') (stream tree (rev l)) x)).
  { clear - Hok Hdec. intros l. induction l as [|c l IH]; intros a bytes bits Hin Hb Hlen Hs.
    - exists a, bytes, bits. split; [reflexivity|]. split; [reflexivity|].
      split; [simpl; lia|]. split; [reflexivity|].
      intros x _. simpl. unfold stream. simpl. now rewrite placed_nil, orb_false_r.
    - cbn [for_each]. simpl in Hs.
      destruct (tree_ok_leaf_of _ _ c Hok (Hin c (or_introl eq_refl))) as (n & Hn & _).
      change (find_if (fun n => value n =? byte_val c) tree) with (leaf_of tree c).
      pose proof (total_bits_nonneg tree l Hdec).
      destruct (compress_walk_bits tree Hdec (leaf_of tree c) (length tree) a bytes bits n Hn)
        as (a1 & bytes1 & bits1 & -> & Hl1 & Hb1 & Hle1 & Hs1 & Hfr1 & Hbit1); try lia.
      { assert (leaf_of tree c < length tree)%nat by (apply nth_error_Some; congruence). lia. }
      destruct (IH a1 bytes1 bits1) as (a' & bytes' & bits' & Hr & Hl' & Hs' & Hfr' & Hbit');
        try lia.
      { intros; apply Hin; now right. }
      exists a', bytes', bits'. split; [exact Hr|]. split; [lia|].
      split; [simpl; lia|]. split.
      + intros k Hk. rewrite Hfr' by lia. now apply Hfr1.
      + intros x Hx. rewrite (Hbit' x Hx), (Hbit1 x Hx).
        cbn [rev]. rewrite stream_app, placed_app.
        rewrite (stream_length tree _ Hdec), total_bits_rev.
        replace (slots_left bytes' bits' + total_bits tree l) with (slots_left bytes1 bits1) by lia.
        unfold stream at 3. cbn [flat_map]. rewrite app_nil_r.
        destruct (bit_at a x), (placed (slots_left bytes1 bits1) (code tree (leaf_of tree c)) x),
          (placed (slots_left bytes' bits') (stream tree (rev l)) x); reflexivity. }
  destruct (Hgen (rev data) a bytes0 bits0)
    as (a' & bytes' & bits' & -> & Hl' & Hs' & Hfr' & Hbit'); try lia.
  - intros c Hc. now apply in_rev.
  - rewrite total_bits_rev. fold total. lia.
  - rewrite total_bits_rev in Hs'. fold total in Hs'. rewrite rev_involutive in Hbit'.
    exists a'. split; [reflexivity|]. split; [exact Hl'|]. split.
    + intros k Hk. apply Hfr'. lia.
    + intros x Hx. rewrite (Hbit' x) by lia.
      replace (slots_left bytes' bits') with 0 by lia.
      rewrite placed_zero by lia. rewrite bit_at_zero; [reflexivity|].
      apply Hzero.
      assert (x / 8 < total / 8 + 1) by (apply Z.div_lt_upper_bound; lia).
      assert (0 <= x / 8) by (apply Z.div_pos; lia). lia.
Qed.

End General.

End PayloadFacts.

(** ** What the serializer writes *)

Module TableFacts.
Import Arr ArrFacts Huffman Spec Codec NodeListFacts BuildTreeFacts SizeFacts EncoderFacts
       CodeFacts.

(** *** The child search *)

Lemma find_child_range tree child count j j' :
  find_child count tree child j = Some j' -> (j <= j' <= j + count)%nat.
Proof.
  revert j. induction count as [|count IH]; intros j H; cbn [find_child] in H.
  - injection H as <-. lia.
  - destruct (nth_error tree j) as [n|]; [|discriminate].
    destruct (child =? value n).
    + injection H as <-. lia.
    + apply IH in H. lia.
Qed.

Lemma find_child_hit tree child count j j' :
  find_child count tree child j = Some j' -> (j' < j + count)%nat ->
  exists n, nth_error tree j' = Some n /\ value n = child.
Proof.
  revert j. induction count as [|count IH]; intros j H Hlt; cbn [find_child] in H.
  - injection H as <-. lia.
  - destruct (nth_error tree j) as [n|] eqn:En; [|discriminate].
    destruct (Z.eqb_spec child (value n)).
    + injection H as <-. eauto.
    + apply IH in H; [exact H|lia].
Qed.

Lemma find_child_miss tree child count j j' k n :
  find_child count tree child j = Some j' -> (j <= k < j')%nat ->
  nth_error tree k = Some n -> value n <> child.
Proof.
  revert j. induction count as [|count IH]; intros j H Hk Hn; cbn [find_child] in H.
  - injection H as <-. lia.
  - destruct (nth_error tree j) as [m|] eqn:Em; [|discriminate].
    destruct (Z.eqb_spec child (value m)).
    + injection H as <-. lia.
    + destruct (Nat.eq_dec k j) as [->|Hne].
      * rewrite Em in Hn. injection Hn as <-. congruence.
      * eapply IH; eauto. lia.
Qed.

(** The search behind entry [i] ends on the first node behind [i] that
    holds the value. *)
Lemma child_index_first tree child i j n :
  nth_error tree j = Some n -> value n = child -> (i < j)%nat ->
  (forall k m, (i < k < j)%nat -> nth_error tree k = Some m -> value m <> child) ->
  child_index (length tree) tree child i = Some j.
Proof.
  intros Hn Hv Hij Hfirst. unfold child_index.
  assert (Hj : (j < length tree)%nat) by (apply nth_error_Some; congruence).
  destruct (find_child_ok tree child (length tree - (i + 1)) (i + 1)) as (j' & Hj' & Hr); [lia|].
  rewrite Hj'. f_equal.
  destruct (Nat.lt_trichotomy j' j) as [Hlt|[->|Hgt]]; [|reflexivity|].
  - destruct (find_child_hit _ _ _ _ _ Hj') as (m & Hm & Hvm); [lia|].
    exfalso. apply (Hfirst j' m); [lia|exact Hm|exact Hvm].
  - exfalso. apply (find_child_miss _ _ _ _ _ j n Hj'); [lia|exact Hn|exact Hv].
Qed.

(** No node holds the value: the search runs to the end of the tree. *)
Lemma child_index_none tree child i :
  (i < length tree)%nat ->
  (forall k m, nth_error tree k = Some m -> value m <> child) ->
  child_index (length tree) tree child i = Some (length tree).
Proof.
  intros Hi Hnone. unfold child_index.
  destruct (find_child_ok tree child (length tree - (i + 1)) (i + 1)) as (j' & Hj' & Hr); [lia|].
  rewrite Hj'. f_equal.
  destruct (Nat.eq_dec j' (length tree)) as [E|E]; [exact E|].
  destruct (find_child_hit _ _ _ _ _ Hj') as (m & Hm & Hvm); [lia|].
  exfalso. exact (Hnone _ _ Hm Hvm).
Qed.

(** A node that holds the first occurrence of its value. *)
Lemma first_holder_before tree j n k m :
  nth_error tree j = Some n ->
  find_if (fun x => value x =? value n) tree = j ->
  (k < j)%nat -> nth_error tree k = Some m -> value m <> value n.
Proof.
  intros Hn Hf Hk Hm E.
  assert (Hp : (fun x => value x =? value n) m = false).
  { apply (find_if_first (fun x => value x =? value n) tree k m Hm). rewrite Hf. exact Hk. }
  simpl in Hp. apply Z.eqb_neq in Hp. contradiction.
Qed.

Lemma internal_first_holder tree i n :
  internal_unique tree -> nth_error tree i = Some n -> 256 <= value n ->
  find_if (fun x => value x =? value n) tree = i.
Proof.
  intros Hu Hn Hv.
  assert (Hlt : (find_if (fun x => (value x =? value n)%Z) tree < length tree)%nat).
  { eapply find_if_In; [eapply nth_error_In; eauto|]. apply Z.eqb_refl. }
  destruct (find_if_found _ _ Hlt) as (x & Hx & Hp). apply Z.eqb_eq in Hp.
  symmetry. eapply Hu; eauto.
Qed.

Lemma leaf_of_first_holder tree c n :
  nth_error tree (leaf_of tree c) = Some n -> value n = byte_val c ->
  find_if (fun x => value x =? value n) tree = leaf_of tree c.
Proof. intros _ ->. reflexivity. Qed.

(** The child a parent node reaches through the offset the code bit
    selects. *)
Lemma child_resolution data tree j n p :
  tree_ok data tree ->
  nth_error tree j = Some n -> (0 < j)%nat ->
  find_if (fun x => value x =? value n) tree = j ->
  nth_error tree (Z.to_nat (parent n)) = Some p ->
  child_index (length tree) tree (if right p =? value n then right p else left p)
              (Z.to_nat (parent n)) = Some j.
Proof.
  intros Hok Hn Hj Hfirst Hp.
  destruct (tree_ok_parent_refers _ _ _ _ Hok Hn Hj) as (p' & Hp' & Href & _ & Hlt).
  rewrite Hp in Hp'. injection Hp' as <-.
  assert (Hchild : (if right p =? value n then right p else left p) = value n).
  { unfold refers_to in Href. apply orb_prop in Href.
    destruct Href as [H|H]; apply Z.eqb_eq in H;
      destruct (Z.eqb_spec (right p) (value n)); congruence. }
  rewrite Hchild.
  apply child_index_first with (n := n); [exact Hn|reflexivity|exact Hlt|].
  intros k m Hk Hm. apply (first_holder_before tree j n k m Hn Hfirst); [lia|exact Hm].
Qed.

Lemma offset_byte_exact count i j :
  (i < j)%nat -> (j < count)%nat -> (count <= 256)%nat ->
  offset_byte count i j = Z.of_nat j - Z.of_nat i.
Proof.
  intros Hij Hj Hc. unfold offset_byte.
  destruct (Nat.ltb_spec j count); [|lia]. apply Z.mod_small. lia.
Qed.

Lemma offset_byte_end count i : offset_byte count i count = 0.
Proof. unfold offset_byte. rewrite Nat.ltb_irrefl. reflexivity. Qed.

(** The left offset of a leaf entry is 0; in a tree of at most 256 nodes
    the left offset of a parent entry is not. *)
Lemma left_offset_leaf data tree i n :
  tree_ok data tree -> nth_error tree i = Some n -> value n < 256 ->
  child_index (length tree) tree (left n) i = Some (length tree) /\
  child_index (length tree) tree (right n) i = Some (length tree).
Proof.
  intros Hok Hn Hv.
  assert (Hi : (i < length tree)%nat) by (apply nth_error_Some; congruence).
  destruct (ok_leaf _ _ Hok _ _ Hn Hv) as (_ & Hl & Hr & _).
  assert (Hnone : forall k m, nth_error tree k = Some m -> value m <> -1).
  { intros k m Hm.
    destruct (Z.ltb_spec (value m) 256) as [H|H].
    - destruct (ok_leaf _ _ Hok _ _ Hm H) as (_ & _ & _ & H0). lia.
    - lia. }
  rewrite Hl, Hr. split; apply child_index_none; assumption.
Qed.

Lemma left_offset_internal data tree i n :
  tree_ok data tree -> nth_error tree i = Some n -> 256 <= value n ->
  exists jl jr, child_index (length tree) tree (left n) i = Some jl /\
                child_index (length tree) tree (right n) i = Some jr /\
                (i < jl < length tree)%nat /\ (i < jr < length tree)%nat.
Proof.
  intros Hok Hn Hv.
  assert (Hi : (i < length tree)%nat) by (apply nth_error_Some; congruence).
  destruct (ok_internal _ _ Hok _ _ Hn Hv) as (k & b & a & _ & Hik & Hb & Ha & Hl & Hr & _).
  assert (Hk : (S k < length tree)%nat) by (apply nth_error_Some; congruence).
  unfold child_index.
  destruct (find_child_ok tree (left n) (length tree - (i + 1)) (i + 1)) as (jl & Hjl & Hrl); [lia|].
  destruct (find_child_ok tree (right n) (length tree - (i + 1)) (i + 1)) as (jr & Hjr & Hrr); [lia|].
  exists jl, jr. split; [exact Hjl|]. split; [exact Hjr|].
  split.
  - destruct (Nat.lt_ge_cases (S k) jl) as [Hlt|Hge]; [|lia].
    exfalso. apply (find_child_miss _ _ _ _ _ (S k) a Hjl); [lia|exact Ha|congruence].
  - destruct (Nat.lt_ge_cases k jr) as [Hlt|Hge]; [|lia].
    exfalso. apply (find_child_miss _ _ _ _ _ k b Hjr); [lia|exact Hb|congruence].
Qed.

(** *** The table *)

(** One turn of the serializer writes the three bytes of its entry. *)
Lemma decode_entry_spec tree base a a' i n :
  decode_entry (length tree) tree base a i = Some a' ->
  nth_error tree i = Some n ->
  exists jl jr,
    child_index (length tree) tree (left n) i = Some jl /\
    child_index (length tree) tree (right n) i = Some jr /\
    nth_error a' (base + i * 3) = Some ((if value n <=? 0xFF then value n else 0) mod 256) /\
    nth_error a' (base + i * 3 + 1) = Some (offset_byte (length tree) i jl) /\
    nth_error a' (base + i * 3 + 2) = Some (offset_byte (length tree) i jr) /\
    length a' = length a /\
    (forall k, (k < base + i * 3 \/ base + i * 3 + 3 <= k)%nat ->
               nth_error a' k = nth_error a k).
Proof.
  unfold decode_entry, child_index. intros H Hn. rewrite Hn in H.
  destruct (store (base + i * 3) _ a) as [a1|] eqn:E1; [|discriminate].
  destruct (find_child (length tree - (i + 1)) tree (left n) (i + 1)) as [jl|]; [|discriminate].
  destruct (store (base + i * 3 + 1) _ a1) as [a2|] eqn:E2; [|discriminate].
  destruct (find_child (length tree - (i + 1)) tree (right n) (i + 1)) as [jr|]; [|discriminate].
  exists jl, jr. split; [reflexivity|]. split; [reflexivity|].
  pose proof (store_nth_error _ _ _ _ (base + i * 3) H) as H3a.
  pose proof (store_nth_error _ _ _ _ (base + i * 3 + 1) H) as H3b.
  pose proof (store_nth_error _ _ _ _ (base + i * 3 + 2) H) as H3c.
  pose proof (store_nth_error _ _ _ _ (base + i * 3) E2) as H2a.
  pose proof (store_nth_error _ _ _ _ (base + i * 3 + 1) E2) as H2b.
  pose proof (store_nth_error _ _ _ _ (base + i * 3) E1) as H1a.
  repeat match goal with
         | H : context [(?x =? ?y)%nat] |- _ =>
             destruct (Nat.eqb_spec x y); [try lia|try lia]
         end.
  split; [congruence|]. split; [congruence|]. split; [congruence|].
  split.
  - apply store_length in H, E1, E2. lia.
  - intros k Hk.
    rewrite (store_nth_error _ _ _ _ k H), (store_nth_error _ _ _ _ k E2),
      (store_nth_error _ _ _ _ k E1).
    repeat match goal with
           | |- context [(?x =? ?y)%nat] => destruct (Nat.eqb_spec x y); [lia|]
           end.
    reflexivity.
Qed.

Section General.
Context {std_sort : StdSort}.

(** The serializer writes the table of the tree and leaves the bytes
    outside the table alone. *)
Lemma build_decode_tree_spec data tree base a :
  build_node_tree data = Some tree -> tree_ok data tree ->
  (base + 3 * length tree <= length a)%nat ->
  exists a',
    build_decode_tree data base a = Some a' /\ length a' = length a /\
    holds_table tree base a' /\
    (forall k, (k < base \/ base + 3 * length tree <= k)%nat ->
               nth_error a' k = nth_error a k).
Proof.
  intros Ht Hok Hroom.
  pose proof (build_node_tree_length data tree Ht) as Hlen.
  unfold build_decode_tree. rewrite Ht, <- Hlen.
  assert (Hgen : forall k s a,
            (s + k = length tree)%nat -> (base + 3 * length tree <= length a)%nat ->
            exists a',
              for_each (decode_entry (length tree) tree base) (seq s k) a = Some a' /\
              length a' = length a /\
              (forall i n, (s <= i)%nat -> nth_error tree i = Some n ->
                 exists jl jr,
                   child_index (length tree) tree (left n) i = Some jl /\
                   child_index (length tree) tree (right n) i = Some jr /\
                   nth_error a' (base + i * 3) =
                     Some (if value n <=? 0xFF then value n else 0) /\
                   nth_error a' (base + i * 3 + 1) = Some (offset_byte (length tree) i jl) /\
                   nth_error a' (base + i * 3 + 2) = Some (offset_byte (length tree) i jr)) /\
              (forall j, (j < base + s * 3 \/ base + 3 * length tree <= j)%nat ->
                         nth_error a' j = nth_error a j)).
  { clear - Hok. intros k. induction k as [|k IH]; intros s a Hs Ha.
    - exists a. split; [reflexivity|]. split; [reflexivity|]. split; [|reflexivity].
      intros i n Hi Hn. assert (i < length tree)%nat by (apply nth_error_Some; congruence). lia.
    - cbn [seq for_each].
      destruct (decode_entry_ok tree base a s) as (a1 & Ha1 & Hl1); [lia|exact Ha|].
      rewrite Ha1.
      destruct (IH (S s) a1) as (a' & Ha' & Hl' & Hent & Hfr); [lia|lia|].
      exists a'. split; [exact Ha'|]. split; [lia|]. split.
      + intros i n Hi Hn. destruct (Nat.eq_dec i s) as [->|Hne].
        * destruct (decode_entry_spec _ _ _ _ _ _ Ha1 Hn)
            as (jl & jr & Hjl & Hjr & Hv & Hol & Hor & _ & _).
          exists jl, jr. split; [exact Hjl|]. split; [exact Hjr|].
          rewrite !Hfr by lia. split; [|split; assumption].
          rewrite Hv. f_equal.
          destruct (Z.leb_spec (value n) 255); [|reflexivity].
          apply Z.mod_small.
          destruct (Z.ltb_spec (value n) 256) as [H256|H256]; [|lia].
          destruct (ok_leaf _ _ Hok _ _ Hn H256) as (_ & _ & _ & H0). lia.
        * apply Hent; [lia|exact Hn].
      + intros j Hj. rewrite Hfr by lia.
        assert (Hs' : (s < length tree)%nat) by lia.
        destruct (nth_error tree s) as [n|] eqn:En; [|apply nth_error_None in En; lia].
        destruct (decode_entry_spec _ _ _ _ _ _ Ha1 En) as (_ & _ & _ & _ & _ & _ & _ & _ & Hfr1).
        apply Hfr1. lia. }
  destruct (Hgen (length tree) O a) as (a' & Ha' & Hl' & Hent & Hfr); [lia|exact Hroom|].
  exists a'. split; [exact Ha'|]. split; [exact Hl'|]. split.
  - intros i n Hn. apply Hent; [lia|exact Hn].
  - intros k Hk. apply Hfr. lia.
Qed.

End General.

End TableFacts.

(** ** The read cursor of the decoders *)

Module CursorFacts.
Import Codec.

Lemma cursor_mask_pow x : cursor_mask x = 2 ^ (7 - x mod 8).
Proof. unfold cursor_mask. apply Z.shiftl_1_l. Qed.

Lemma cursor_mask_range x : 0 < cursor_mask x < 256.
Proof.
  rewrite cursor_mask_pow.
  pose proof (Z.mod_pos_bound x 8 ltac:(lia)) as Hm.
  split; [apply Z.pow_pos_nonneg; lia|].
  change 256 with (2 ^ 8). apply Z.pow_lt_mono_r; lia.
Qed.

Lemma cursor_mask_start : cursor_mask 0 = 0x80.
Proof. reflexivity. Qed.

(** Testing a byte against the mask reads the bit under the cursor. *)
Lemma land_mask v x :
  negb (Z.land v (cursor_mask x) =? 0) = Z.testbit v (7 - x mod 8).
Proof.
  rewrite cursor_mask_pow.
  pose proof (Z.mod_pos_bound x 8 ltac:(lia)) as Hm.
  set (k := 7 - x mod 8). assert (Hk : 0 <= k) by lia. clearbody k.
  destruct (Z.testbit v k) eqn:E.
  - destruct (Z.eqb_spec (Z.land v (2 ^ k)) 0) as [H0|H0]; [|reflexivity].
    exfalso. assert (Hb : Z.testbit (Z.land v (2 ^ k)) k = true).
    { rewrite Z.land_spec, E, Z.pow2_bits_true by lia. reflexivity. }
    rewrite H0, Z.testbit_0_l in Hb. discriminate.
  - replace (Z.land v (2 ^ k)) with 0; [reflexivity|].
    symmetry. apply Z.bits_inj'. intros m Hm'.
    rewrite Z.land_spec, Z.testbit_0_l, Z.pow2_bits_eqb by lia.
    destruct (Z.eqb_spec k m); [subst; now rewrite E|apply andb_false_r].
Qed.

Lemma bit_at_read mem x v :
  nth_error mem (cursor_byte x) = Some v ->
  negb (Z.land v (cursor_mask x) =? 0) = bit_at mem x.
Proof. intros H. unfold bit_at. fold (cursor_byte x). rewrite H. apply land_mask. Qed.

(** Moving the cursor on by one bit. *)
Lemma cursor_next_inside x :
  0 <= x -> x mod 8 <> 7 ->
  Z.shiftr (cursor_mask x) 1 = cursor_mask (x + 1) /\
  cursor_byte (x + 1) = cursor_byte x /\ (x + 1) mod 8 = x mod 8 + 1.
Proof.
  intros Hx H7.
  pose proof (Z.mod_pos_bound x 8 ltac:(lia)) as Hm.
  pose proof (Z.div_mod x 8 ltac:(lia)) as Hdm.
  assert (Hq : (x + 1) / 8 = x / 8 /\ (x + 1) mod 8 = x mod 8 + 1).
  { replace (x + 1) with ((x mod 8 + 1) + x / 8 * 8) by lia.
    rewrite Z.div_add, Z.mod_add by lia.
    rewrite Z.div_small, Z.mod_small by lia. lia. }
  destruct Hq as (Hq & Hr). split; [|split; [unfold cursor_byte; now rewrite Hq|exact Hr]].
  rewrite !cursor_mask_pow, Hr, Z.shiftr_div_pow2 by lia.
  replace (7 - x mod 8) with ((7 - (x mod 8 + 1)) + 1) by lia.
  rewrite Z.pow_add_r by lia. change (2 ^ 1) with 2.
  rewrite Z.div_mul by lia. reflexivity.
Qed.

Lemma cursor_next_wrap x :
  0 <= x -> x mod 8 = 7 ->
  Z.shiftr (cursor_mask x) 1 = 0 /\ cursor_mask (x + 1) = 0x80 /\
  cursor_byte (x + 1) = S (cursor_byte x).
Proof.
  intros Hx H7.
  pose proof (Z.div_mod x 8 ltac:(lia)) as Hdm.
  assert (0 <= x / 8) by (apply Z.div_pos; lia).
  assert (Hq : (x + 1) / 8 = x / 8 + 1 /\ (x + 1) mod 8 = 0).
  { replace (x + 1) with (0 + (x / 8 + 1) * 8) by lia.
    rewrite Z.div_add, Z.mod_add by lia. split; reflexivity. }
  destruct Hq as (Hq & Hr). rewrite !cursor_mask_pow, H7, Hr. unfold cursor_byte. rewrite Hq.
  split; [reflexivity|]. split; [reflexivity|]. lia.
Qed.

Lemma cursor_mask_nonzero x : (cursor_mask x =? 0) = false.
Proof. pose proof (cursor_mask_range x). apply Z.eqb_neq. lia. Qed.

(** Two positions with the same cursor are the same position. *)
Lemma cursor_inj x y :
  0 <= x -> 0 <= y -> cursor_byte x = cursor_byte y -> cursor_mask x = cursor_mask y -> x = y.
Proof.
  intros Hx Hy Hb Hm. rewrite !cursor_mask_pow in Hm.
  pose proof (Z.mod_pos_bound x 8 ltac:(lia)).
  pose proof (Z.mod_pos_bound y 8 ltac:(lia)).
  apply Z.pow_inj_r in Hm; try lia.
  unfold cursor_byte in Hb.
  assert (0 <= x / 8) by (apply Z.div_pos; lia).
  assert (0 <= y / 8) by (apply Z.div_pos; lia).
  pose proof (Z.div_mod x 8 ltac:(lia)). pose proof (Z.div_mod y 8 ltac:(lia)). lia.
Qed.

Lemma cursor_byte_mono x y : 0 <= x <= y -> (cursor_byte x <= cursor_byte y)%nat.
Proof.
  intros H. unfold cursor_byte.
  assert (x / 8 <= y / 8) by (apply Z.div_le_mono; lia).
  assert (0 <= x / 8) by (apply Z.div_pos; lia). lia.
Qed.

End CursorFacts.

(** ** Reading the table: what both decoders find in it *)

Module EntryFacts.
Import Arr ArrFacts Huffman Spec Codec NodeListFacts BuildTreeFacts SizeFacts CodeFacts
       TableFacts CursorFacts.

Section Entries.
Variables (data : list byte) (tree : list node) (table : nat) (mem : list Z).
Hypothesis Hok : tree_ok data tree.
Hypothesis Hsmall : (length tree <= 256)%nat.
Hypothesis Htab : holds_table tree table mem.

(** The left offset of an entry is 0 exactly for a leaf. *)
Lemma entry_left_offset i n :
  nth_error tree i = Some n ->
  exists l, nth_error mem (table + i * 3 + 1) = Some l /\ (l =? 0) = (value n <? 256).
Proof.
  intros Hn. destruct (Htab i n Hn) as (jl & jr & Hjl & Hjr & _ & Hl & _).
  exists (offset_byte (length tree) i jl). split; [exact Hl|].
  destruct (Z.ltb_spec (value n) 256) as [Hv|Hv].
  - destruct (left_offset_leaf _ _ _ _ Hok Hn Hv) as (E & _).
    rewrite E in Hjl. injection Hjl as <-. now rewrite offset_byte_end.
  - destruct (left_offset_internal _ _ _ _ Hok Hn Hv) as (jl' & jr' & E & _ & Hr & _).
    rewrite E in Hjl. injection Hjl as <-.
    rewrite offset_byte_exact by lia. apply Z.eqb_neq. lia.
Qed.

(** The right offset of a leaf entry is 0 as well. *)
Lemma entry_right_offset_leaf i n :
  nth_error tree i = Some n -> value n < 256 ->
  nth_error mem (table + i * 3 + 2) = Some 0.
Proof.
  clear Hsmall. intros Hn Hv. destruct (Htab i n Hn) as (jl & jr & Hjl & Hjr & _ & _ & Hr).
  destruct (left_offset_leaf _ _ _ _ Hok Hn Hv) as (_ & E).
  rewrite E in Hjr. injection Hjr as <-. now rewrite offset_byte_end in Hr.
Qed.

(** The first byte of a leaf entry is the byte value of the leaf. *)
Lemma entry_value i n :
  nth_error tree i = Some n -> value n < 256 ->
  nth_error mem (table + i * 3) = Some (value n).
Proof.
  clear Hok Hsmall. intros Hn Hv. destruct (Htab i n Hn) as (jl & jr & _ & _ & H & _).
  rewrite H. destruct (Z.leb_spec (value n) 255); [reflexivity|lia].
Qed.

(** The offset a code bit selects in the entry of the parent leads to the
    entry of the child. *)
Lemma entry_child j n p :
  nth_error tree j = Some n -> (0 < j)%nat ->
  find_if (fun x => value x =? value n) tree = j ->
  nth_error tree (Z.to_nat (parent n)) = Some p ->
  (Z.to_nat (parent n) < j)%nat /\
  nth_error mem (table + Z.to_nat (parent n) * 3 + (if right p =? value n then 2 else 1)) =
  Some (Z.of_nat j - Z.of_nat (Z.to_nat (parent n))).
Proof.
  intros Hn Hj Hfirst Hp.
  destruct (tree_ok_parent_refers _ _ _ _ Hok Hn Hj) as (p' & Hp' & _ & _ & Hlt).
  split; [exact Hlt|].
  assert (Hjlen : (j < length tree)%nat) by (apply nth_error_Some; congruence).
  pose proof (child_resolution _ _ _ _ _ Hok Hn Hj Hfirst Hp) as Hres.
  destruct (Htab _ _ Hp) as (jl & jr & Hjl & Hjr & _ & Hl & Hr).
  destruct (right p =? value n).
  - rewrite Hjr in Hres. injection Hres as ->.
    rewrite Hr, offset_byte_exact by lia. reflexivity.
  - rewrite Hjl in Hres. injection Hres as ->.
    rewrite Hl, offset_byte_exact by lia. reflexivity.
Qed.

End Entries.

End EntryFacts.

(** ** The decoder of [huffman_compressor] *)

Module DecoderFacts.
Import Arr ArrFacts Huffman Spec Codec NodeListFacts BuildTreeFacts SizeFacts CodeFacts
       TableFacts CursorFacts EntryFacts.

Section Walk.
Variables (data : list byte) (tree : list node) (table : nat) (mem : list Z).
Hypothesis Hok : tree_ok data tree.
Hypothesis Hu : internal_unique tree.
Hypothesis Hsmall : (length tree <= 256)%nat.
Hypothesis Htab : holds_table tree table mem.

(** One turn of the [do ... while] loop: from the entry of a parent to the
    entry of the child the bit under the cursor names. *)
Lemma walk_step fuel j n p y v v' :
  nth_error tree j = Some n -> (0 < j)%nat ->
  find_if (fun x => value x =? value n) tree = j ->
  nth_error tree (Z.to_nat (parent n)) = Some p ->
  0 <= y ->
  nth_error mem (cursor_byte y) = Some v ->
  nth_error mem (cursor_byte (y + 1)) = Some v' ->
  bit_at mem y = (right p =? value n) ->
  huffman_compressor.decode_walk (S fuel) mem (table + Z.to_nat (parent n) * 3) v
    (cursor_mask y) (cursor_byte y) =
  if value n <? 256
  then Some ((table + j * 3)%nat, cursor_mask (y + 1), cursor_byte (y + 1))
  else huffman_compressor.decode_walk fuel mem (table + j * 3) v'
         (cursor_mask (y + 1)) (cursor_byte (y + 1)).
Proof.
  intros Hn Hj Hfirst Hp Hy Hv Hv' Hbit.
  destruct (entry_child _ _ _ _ Hok Hsmall Htab j n p Hn Hj Hfirst Hp) as (Hlt & Hoff).
  destruct (entry_left_offset _ _ _ _ Hok Hsmall Htab j n Hn) as (l & Hl & Hl0).
  cbn [huffman_compressor.decode_walk].
  rewrite (bit_at_read mem y v Hv), Hbit.
  assert (Hoff' : (if right p =? value n
                   then nth_error mem (table + Z.to_nat (parent n) * 3 + 2)
                   else nth_error mem (table + Z.to_nat (parent n) * 3 + 1)) =
                  Some (Z.of_nat j - Z.of_nat (Z.to_nat (parent n)))).
  { destruct (right p =? value n); exact Hoff. }
  rewrite Hoff'.
  replace (table + Z.to_nat (parent n) * 3 +
           Z.to_nat ((Z.of_nat j - Z.of_nat (Z.to_nat (parent n))) * 3))%nat
    with (table + j * 3)%nat by lia.
  rewrite Hl, Hl0.
  destruct (Z.eq_dec (y mod 8) 7) as [H7|H7].
  - destruct (cursor_next_wrap y Hy H7) as (Hs & Hm & Hb).
    rewrite Hs. cbn [Z.eqb]. rewrite Hb in Hv'. rewrite Hv', Hm, Hb.
    destruct (value n <? 256); reflexivity.
  - destruct (cursor_next_inside y Hy H7) as (Hs & Hb & _).
    rewrite Hs, cursor_mask_nonzero. rewrite Hb in *.
    assert (v' = v) by congruence. subst v'.
    destruct (value n <? 256); reflexivity.
Qed.

(** The byte under the cursor at position [x]. *)
Local Abbreviation byte_at x := (nth (cursor_byte x) mem 0).

Lemma byte_at_nth x : (cursor_byte x < length mem)%nat ->
  nth_error mem (cursor_byte x) = Some (byte_at x).
Proof. intros H. now apply nth_error_nth'. Qed.

(** Reading the code of a node from the root on leads to the entry of the
    node; there the loop stops when the node is a leaf and goes on when it
    is not. *)
Lemma walk_path j :
  forall n x fuel,
    nth_error tree j = Some n -> (0 < j)%nat ->
    find_if (fun m => value m =? value n) tree = j ->
    0 <= x ->
    (cursor_byte (x + Z.of_nat (length (code tree j))) < length mem)%nat ->
    (forall t, (t < length (code tree j))%nat ->
               bit_at mem (x + Z.of_nat t) = nth t (code tree j) false) ->
    (length (code tree j) <= fuel)%nat ->
    huffman_compressor.decode_walk fuel mem (table + 0 * 3) (byte_at x)
      (cursor_mask x) (cursor_byte x) =
    let y := x + Z.of_nat (length (code tree j)) in
    if value n <? 256
    then Some ((table + j * 3)%nat, cursor_mask y, cursor_byte y)
    else huffman_compressor.decode_walk (fuel - length (code tree j)) mem (table + j * 3)
           (byte_at y) (cursor_mask y) (cursor_byte y).
Proof.
  induction j as [j IH] using lt_wf_ind.
  intros n x fuel Hn Hj Hfirst Hx Hin Hbits Hfuel.
  pose proof (tree_ok_decreasing _ _ Hok) as Hdec.
  destruct (tree_ok_parent_refers _ _ _ _ Hok Hn Hj) as (p & Hp & _ & Hvp & Hlt).
  pose proof (ok_parent _ _ Hok j n Hn Hj) as Hpar.
  assert (Hcode : code tree j = code tree (Z.to_nat (parent n)) ++ [right p =? value n]).
  { rewrite (code_step _ _ _ Hdec Hn), Hp.
    destruct (Z.eqb_spec (parent n) (-1)); [lia|reflexivity]. }
  rewrite Hcode in *. rewrite length_app in *. cbn [length] in *.
  set (q := Z.to_nat (parent n)) in *.
  set (lq := length (code tree q)) in *.
  assert (Hlast : bit_at mem (x + Z.of_nat lq) = (right p =? value n)).
  { rewrite (Hbits lq) by lia. rewrite app_nth2 by lia. now rewrite Nat.sub_diag. }
  assert (Hinq : (cursor_byte (x + Z.of_nat lq) < length mem)%nat).
  { pose proof (cursor_byte_mono (x + Z.of_nat lq) (x + Z.of_nat (lq + 1)) ltac:(lia)). lia. }
  replace (x + Z.of_nat (lq + 1)) with (x + Z.of_nat lq + 1) in * by lia.
  cbv zeta.
  destruct fuel as [|fuel]; [lia|].
  destruct (Nat.eq_dec q 0) as [Hq0|Hq0].
  - (* the parent is the root *)
    assert (Hlq : lq = O).
    { subst lq. rewrite Hq0.
      destruct (ok_root _ _ Hok) as (root & Hr & Hpr & _).
      rewrite (code_step _ _ _ Hdec Hr). now rewrite Hpr. }
    rewrite Hlq in *. cbn [Z.of_nat] in *. rewrite Z.add_0_r in *.
    assert (Hroot : (table + 0 * 3 = table + Z.to_nat (parent n) * 3)%nat) by (fold q; lia).
    rewrite Hroot.
    rewrite (walk_step fuel j n p x (byte_at x) (byte_at (x + 1)) Hn Hj Hfirst Hp Hx);
      [|now apply byte_at_nth|now apply byte_at_nth|exact Hlast].
    replace (S fuel - (0 + 1))%nat with fuel by lia. reflexivity.
  - (* the parent has a code of its own *)
    assert (Hfq : find_if (fun m => value m =? value p) tree = q)
      by (apply internal_first_holder; assumption).
    rewrite (IH q Hlt p x (S fuel) Hp ltac:(lia) Hfq Hx Hinq); [|
      intros t Ht; rewrite (Hbits t) by lia; now rewrite app_nth1 by exact Ht | lia].
    cbv zeta. fold lq.
    destruct (Z.ltb_spec (value p) 256); [lia|].
    replace (S fuel - lq)%nat with (S (fuel - lq)) by lia.
    unfold q.
    rewrite (walk_step (fuel - lq) j n p (x + Z.of_nat lq)
               (byte_at (x + Z.of_nat lq)) (byte_at (x + Z.of_nat lq + 1)) Hn Hj Hfirst Hp);
      [|lia|now apply byte_at_nth|now apply byte_at_nth|exact Hlast].
    replace (S fuel - (lq + 1))%nat with (fuel - lq)%nat by lia. reflexivity.
Qed.

End Walk.

End DecoderFacts.

(** ** The loop over a compressed [huffman_compressor] object *)

Module CompressorLoopFacts.
Import Arr ArrFacts Huffman Spec Codec NodeListFacts BuildTreeFacts SizeFacts EncoderFacts
       CodeFacts TableFacts CursorFacts EntryFacts DecoderFacts.

Lemma total_bits_snoc tree pre c :
  total_bits tree (pre ++ [c]) = total_bits tree pre + edges_to_root tree (leaf_of tree c).
Proof. rewrite total_bits_app. simpl. lia. Qed.

(** The bits of the stream that belong to one input byte. *)
Lemma stream_symbol tree pre c rest t :
  decreasing tree -> (t < length (code tree (leaf_of tree c)))%nat ->
  nth (Z.to_nat (total_bits tree pre + Z.of_nat t)) (stream tree (pre ++ c :: rest)) false =
  nth t (code tree (leaf_of tree c)) false.
Proof.
  intros Hdec Ht. rewrite stream_app.
  rewrite <- (stream_length tree pre Hdec).
  replace (Z.to_nat (Z.of_nat (length (stream tree pre)) + Z.of_nat t))
    with (length (stream tree pre) + t)%nat by lia.
  rewrite app_nth2_plus. unfold stream at 1. cbn [flat_map].
  now rewrite app_nth1 by exact Ht.
Qed.

Section Loop.
Variables (raw_data : list byte) (tree : list node) (saved : Z) (mem : list Z).
Hypothesis Hok : tree_ok raw_data tree.
Hypothesis Hu : internal_unique tree.
Hypothesis Hsmall : (length tree <= 256)%nat.
Hypothesis Hsaved : (saved >? 0) = true.

Local Abbreviation total := (total_bits tree raw_data).
Local Abbreviation first := (total / 8 + 1).
Local Abbreviation size_info := (first, total mod 8).
Local Abbreviation table := (Z.to_nat first).

Hypothesis Htab : holds_table tree table mem.
Hypothesis Hlen : first <= Z.of_nat (length mem).
Hypothesis Hbits : forall x, 0 <= x < 8 * first ->
  bit_at mem x = nth (Z.to_nat x) (stream tree raw_data) false.

Local Abbreviation next := (huffman_compressor.get_next raw_data saved size_info mem).
Local Abbreviation at_pos x cur :=
  (huffman_compressor.mk_decoder (cursor_byte x) (Some table) (cursor_mask x) cur).

Lemma total_nonneg : 0 <= total.
Proof. apply total_bits_nonneg. eapply tree_ok_decreasing; eauto. Qed.

Lemma total_room : total < 8 * first /\ 1 <= first.
Proof.
  pose proof total_nonneg.
  pose proof (Z.div_mod total 8 ltac:(lia)).
  pose proof (Z.mod_pos_bound total 8 ltac:(lia)).
  assert (0 <= total / 8) by (apply Z.div_pos; lia). lia.
Qed.

Lemma in_payload x : 0 <= x <= total -> (cursor_byte x < length mem)%nat.
Proof.
  intros Hx. unfold cursor_byte.
  assert (x / 8 <= total / 8) by (apply Z.div_le_mono; lia).
  assert (0 <= x / 8) by (apply Z.div_pos; lia). lia.
Qed.

(** [end()] is the cursor behind the last code bit. *)
Lemma end_cursor :
  huffman_compressor.decoder_end raw_data saved size_info 0 =
  huffman_compressor.mk_decoder (cursor_byte total) None (cursor_mask total) (-1).
Proof.
  unfold huffman_compressor.decoder_end. rewrite Hsaved.
  pose proof (cursor_mask_range total) as Hm.
  unfold cursor_byte. f_equal.
  - f_equal. lia.
  - fold (cursor_mask total). apply Z.mod_small. lia.
Qed.

(** In front of the code of an input byte, one step of the decoder hands
    out that byte and moves the cursor behind its code. *)
Lemma get_next_symbol pre c rest cur :
  raw_data = pre ++ c :: rest ->
  next (at_pos (total_bits tree pre) cur) =
  Some (at_pos (total_bits tree (pre ++ [c])) (byte_val c)).
Proof.
  intros Hsplit.
  pose proof (tree_ok_decreasing _ _ Hok) as Hdec.
  pose proof total_room as (Hroom & Hfirst).
  assert (Hc : In c raw_data) by (rewrite Hsplit; apply in_elt).
  destruct (tree_ok_leaf_of _ _ c Hok Hc) as (n & Hn & Hv).
  pose proof (leaf_below_root _ _ c Hok Hc) as Hdepth.
  pose proof (total_bits_nonneg tree pre Hdec) as Hpre.
  pose proof (total_bits_nonneg tree rest Hdec) as Hrest.
  pose proof (code_length tree (leaf_of tree c) Hdec) as Hcl.
  assert (Htot : total = total_bits tree pre + edges_to_root tree (leaf_of tree c)
                         + total_bits tree rest).
  { rewrite Hsplit at 1. rewrite total_bits_app. simpl. lia. }
  set (x := total_bits tree pre) in *.
  unfold huffman_compressor.get_next.
  cbn [huffman_compressor.m_table huffman_compressor.m_data huffman_compressor.m_bit fst].
  rewrite Nat.ltb_irrefl, Nat.sub_diag, end_cursor.
  cbn [huffman_compressor.m_data huffman_compressor.m_bit].
  assert (Hne : ((cursor_byte x =? cursor_byte total)%nat &&
                 (cursor_mask x =? cursor_mask total)) = false).
  { destruct (Nat.eqb_spec (cursor_byte x) (cursor_byte total)) as [Eb|]; [|reflexivity].
    destruct (Z.eqb_spec (cursor_mask x) (cursor_mask total)) as [Em|]; [|reflexivity].
    pose proof (cursor_inj x total ltac:(lia) ltac:(lia) Eb Em). lia. }
  rewrite Hne, Hsaved.
  rewrite (byte_at_nth mem x) by (apply in_payload; lia).
  assert (Hj : (0 < leaf_of tree c)%nat).
  { destruct (leaf_of tree c) eqn:E; [|lia].
    destruct (ok_root _ _ Hok) as (root & Hr & _ & _ & Hroot).
    rewrite Hr in Hn. injection Hn as <-. pose proof (byte_val_range c). lia. }
  pose proof (byte_val_range c) as Hbv.
  pose proof (walk_path raw_data tree table mem Hok Hu Hsmall Htab (leaf_of tree c) n x
                (8 * length mem + 8) Hn Hj (leaf_of_first_holder _ _ _ Hn Hv)) as Hw.
  cbv zeta in Hw. rewrite Hv in Hw.
  destruct (Z.ltb_spec (byte_val c) 256); [|lia].
  replace (table + 0 * 3)%nat with table in Hw by lia.
  rewrite Hw.
  - rewrite (entry_value _ _ _ Htab _ _ Hn) by lia.
    rewrite Hv, total_bits_snoc, Hcl. reflexivity.
  - lia.
  - apply in_payload. lia.
  - intros t Ht. rewrite Hbits by lia. rewrite Hsplit. now apply stream_symbol.
  - assert (Z.of_nat (length (code tree (leaf_of tree c))) <= 8 * Z.of_nat (length mem)) by lia.
    lia.
Qed.

(** At the end cursor a step yields the end sentinel and stays. *)
Lemma get_next_end cur : next (at_pos total cur) = Some (at_pos total (-1)).
Proof.
  pose proof (ConstructFacts.compressor_get_next_at_end raw_data saved size_info mem cur) as H.
  cbv zeta in H. rewrite end_cursor in H.
  cbn [huffman_compressor.m_data huffman_compressor.m_bit fst] in H. exact H.
Qed.

Lemma at_end_eq cur :
  huffman_compressor.decoder_eq (at_pos total cur)
    (huffman_compressor.end_ raw_data saved size_info) = (cur =? -1).
Proof.
  unfold huffman_compressor.end_. rewrite end_cursor. unfold huffman_compressor.decoder_eq.
  cbn [huffman_compressor.m_data huffman_compressor.m_bit huffman_compressor.m_current].
  now rewrite Nat.eqb_refl, Z.eqb_refl.
Qed.

Lemma before_end_eq x cur :
  0 <= x < total ->
  huffman_compressor.decoder_eq (at_pos x cur)
    (huffman_compressor.end_ raw_data saved size_info) = false.
Proof.
  intros Hx. unfold huffman_compressor.end_. rewrite end_cursor.
  unfold huffman_compressor.decoder_eq.
  cbn [huffman_compressor.m_data huffman_compressor.m_bit huffman_compressor.m_current].
  destruct (Nat.eqb_spec (cursor_byte x) (cursor_byte total)) as [Eb|]; [|reflexivity].
  destruct (Z.eqb_spec (cursor_mask x) (cursor_mask total)) as [Em|]; [|reflexivity].
  pose proof (cursor_inj x total ltac:(lia) ltac:(lia) Eb Em). lia.
Qed.

(** The loop from a cursor in front of the bytes [rest] yields the byte
    it holds and then [rest]. *)
Lemma loop_rest rest :
  forall pre cur fuel,
    raw_data = pre ++ rest -> 0 <= cur -> (length rest < fuel)%nat ->
    range_for fuel huffman_compressor.decoder_eq huffman_compressor.m_current next
      (at_pos (total_bits tree pre) cur) (huffman_compressor.end_ raw_data saved size_info) =
    Some (cur :: map byte_val rest).
Proof.
  pose proof (tree_ok_decreasing _ _ Hok) as Hdec.
  induction rest as [|c rest IH]; intros pre cur fuel Hsplit Hcur Hfuel.
  - rewrite app_nil_r in Hsplit. subst pre.
    destruct fuel as [|fuel]; [simpl in Hfuel; lia|].
    cbn [range_for]. rewrite at_end_eq.
    destruct (Z.eqb_spec cur (-1)); [lia|].
    rewrite get_next_end.
    destruct fuel; cbn [range_for]; rewrite at_end_eq; reflexivity.
  - destruct fuel as [|fuel]; [simpl in Hfuel; lia|].
    assert (Hc : In c raw_data) by (rewrite Hsplit; apply in_elt).
    pose proof (leaf_below_root _ _ c Hok Hc) as Hdepth.
    pose proof (total_bits_nonneg tree pre Hdec) as Hpre.
    pose proof (total_bits_nonneg tree rest Hdec) as Hrest.
    assert (Htot : total = total_bits tree pre + edges_to_root tree (leaf_of tree c)
                           + total_bits tree rest).
    { rewrite Hsplit at 1. rewrite total_bits_app. simpl. lia. }
    cbn [range_for]. rewrite before_end_eq by lia.
    rewrite (get_next_symbol pre c rest cur Hsplit).
    rewrite (IH (pre ++ [c]) (byte_val c) fuel).
    + reflexivity.
    + now rewrite <- app_assoc.
    + pose proof (byte_val_range c). lia.
    + simpl in Hfuel. lia.
Qed.

(** The loop from [begin()] to [end()] yields the input. *)
Lemma compressed_iterate :
  (0 < length raw_data)%nat ->
  huffman_compressor.iterate raw_data saved size_info mem = Some (map byte_val raw_data).
Proof.
  intros Hne.
  pose proof (tree_ok_decreasing _ _ Hok) as Hdec.
  assert (Hex : exists c rest, raw_data = c :: rest).
  { clear - Hne. destruct raw_data; [simpl in Hne; lia|eauto]. }
  destruct Hex as (c & rest & Eraw).
  unfold huffman_compressor.iterate, huffman_compressor.begin. cbn [fst].
  change (huffman_compressor.mk_decoder 0 (Some table) 128 (-1))
    with (at_pos (total_bits tree []) (-1)).
  rewrite (get_next_symbol [] c rest (-1) Eraw).
  rewrite (loop_rest rest [c] (byte_val c)).
  - rewrite Eraw. reflexivity.
  - exact Eraw.
  - pose proof (byte_val_range c). lia.
  - assert (Hn : Z.of_nat (length raw_data) <= total).
    { clear - Hok Hdec. 
      assert (G : forall l, (forall c, In c l -> In c raw_data) ->
                            Z.of_nat (length l) <= total_bits tree l).
      { induction l as [|c l IH]; intros Hin; [simpl; lia|].
        cbn [total_bits fold_right length]. fold (total_bits tree l).
        pose proof (leaf_below_root _ _ c Hok (Hin c (or_introl eq_refl))).
        specialize (IH (fun c' H => Hin c' (or_intror H))). lia. }
      apply G. auto. }
    pose proof total_room as (Hroom & _).
    assert (Hl : length raw_data = S (length rest)) by (rewrite Eraw; reflexivity).
    lia.
Qed.

End Loop.

End CompressorLoopFacts.

(** ** The object [huffman_compressor] builds, and the loop over it *)

Module CompressorFacts.
Import Arr ArrFacts Huffman Spec Codec NodeListFacts BuildTreeFacts SizeFacts EncoderFacts
       ObjectFacts ConstructFacts CodeFacts PayloadFacts TableFacts CursorFacts EntryFacts
       DecoderFacts CompressorLoopFacts.

Lemma nth_error_repeat_Some {A} (d : A) n k : (k < n)%nat -> nth_error (repeat d n) k = Some d.
Proof.
  revert k. induction n as [|n IH]; intros k Hk; [lia|].
  destruct k; simpl; [reflexivity|]. apply IH. lia.
Qed.

Section General.
Context {std_sort : StdSort}.

(** In compressed mode the array of the object holds the payload, the
    codes of the input bytes in input order, followed by the decode table
    of the tree. *)
Lemma compressed_layout data tree first bits :
  build_node_tree data = Some tree -> tree_ok data tree ->
  compressed_size_info data = Some (first, bits) ->
  exists table mem,
    build_decode_tree data (Z.to_nat first)
      (repeat 0 (Z.to_nat (first + 3 * Z.of_nat (tree_count data)))) = Some table /\
    compress data table = Some mem /\
    length mem = Z.to_nat (first + 3 * Z.of_nat (tree_count data)) /\
    holds_table tree (Z.to_nat first) mem /\
    (forall x, 0 <= x < 8 * first ->
       bit_at mem x = nth (Z.to_nat x) (stream tree data) false).
Proof.
  intros Ht Hok Hinfo.
  pose proof (build_node_tree_length data tree Ht) as Hlen.
  destruct (sizes_defined data) as (first' & bits' & saved & Hinfo' & Hfirst & _).
  rewrite Hinfo in Hinfo'. injection Hinfo' as <- <-.
  set (a0 := repeat 0 (Z.to_nat (first + 3 * Z.of_nat (tree_count data)))).
  assert (Hl0 : length a0 = Z.to_nat (first + 3 * Z.of_nat (tree_count data)))
    by (subst a0; apply repeat_length).
  destruct (build_decode_tree_spec data tree (Z.to_nat first) a0 Ht Hok)
    as (a1 & Ha1 & Hl1 & Htab1 & Hfr1); [lia|].
  destruct (compress_spec data tree first bits a1 Ht Hok Hinfo)
    as (mem & Hmem & Hlm & Hfrm & Hbits); [lia| |].
  { intros k Hk. rewrite Hfr1 by lia. subst a0. apply nth_error_repeat_Some. lia. }
  exists a1, mem. split; [exact Ha1|]. split; [exact Hmem|]. split; [lia|].
  split; [|exact Hbits].
  intros i n Hn. destruct (Htab1 i n Hn) as (jl & jr & Hjl & Hjr & H0 & H1 & H2).
  exists jl, jr. split; [exact Hjl|]. split; [exact Hjr|].
  rewrite !Hfrm by lia. auto.
Qed.

(** Decoding a [huffman_compressor] object gives back the input, in either
    storage mode, as long as the tree has at most 256 nodes. *)
Lemma compressor_round_trip raw_data :
  (0 < length raw_data)%nat -> (tree_count raw_data <= 256)%nat ->
  huffman_compressor.decode_all raw_data = Some (map byte_val raw_data).
Proof.
  intros Hne Hsmall.
  destruct (build_node_tree_unique raw_data) as (tree & Ht & Hok & Hu).
  pose proof (build_node_tree_length raw_data tree Ht) as Hlen.
  destruct (compressed_size_info_spec raw_data) as (tree' & Ht' & _ & Hinfo).
  rewrite Ht in Ht'. injection Ht' as <-.
  destruct (sizes_defined raw_data) as (first & bits & saved & Hinfo' & Hfirst & Hsaved).
  rewrite Hinfo in Hinfo'. injection Hinfo' as <- <-.
  unfold huffman_compressor.decode_all, huffman_compressor.construct.
  rewrite Hsaved, Hinfo.
  destruct (Nat.eqb_spec (length raw_data) 0); [lia|].
  destruct (saved >? 0) eqn:Emode.
  - destruct (compressed_layout raw_data tree _ _ Ht Hok Hinfo)
      as (table & mem & -> & -> & Hlm & Htab & Hbits).
    apply (compressed_iterate raw_data tree saved mem Hok Hu); try assumption; lia.
  - rewrite <- (length_map byte_val raw_data), copy_exact.
    now apply fallback_iterate.
Qed.

End General.

End CompressorFacts.

(** ** The decoder of [huffman_compress] *)

Module DecodeInfoFacts.
Import Arr ArrFacts CharFacts Huffman Spec Codec NodeListFacts BuildTreeFacts SizeFacts
       EncoderFacts CodeFacts TableFacts CursorFacts EntryFacts CompressorLoopFacts.

Section Walk.
Variables (data : list byte) (tree : list node).
Context {data_length : nat}.
Variable o : huffman_compress.object data_length.
Hypothesis Hok : tree_ok data tree.
Hypothesis Hu : internal_unique tree.
Hypothesis Hsmall : (length tree <= 256)%nat.
Hypothesis Htab : holds_table tree 0 (huffman_compress.decode_tree o).

Local Abbreviation payload := (huffman_compress.compressed_data o).

(** One turn of the [do ... while] loop. *)
Lemma info_walk_step fuel j n p y v :
  nth_error tree j = Some n -> (0 < j)%nat ->
  find_if (fun x => value x =? value n) tree = j ->
  nth_error tree (Z.to_nat (parent n)) = Some p ->
  0 <= y ->
  nth_error payload (cursor_byte y) = Some v ->
  bit_at payload y = (right p =? value n) ->
  huffman_compress.decode_walk (S fuel) o (Z.to_nat (parent n) * 3) (cursor_byte y)
    (cursor_mask y) =
  if value n <? 256
  then Some ((j * 3)%nat, cursor_byte (y + 1), cursor_mask (y + 1))
  else huffman_compress.decode_walk fuel o (j * 3) (cursor_byte (y + 1)) (cursor_mask (y + 1)).
Proof.
  intros Hn Hj Hfirst Hp Hy Hv Hbit.
  destruct (entry_child _ _ _ _ Hok Hsmall Htab j n p Hn Hj Hfirst Hp) as (Hlt & Hoff).
  destruct (entry_left_offset _ _ _ _ Hok Hsmall Htab j n Hn) as (l & Hl & Hl0).
  cbn [huffman_compress.decode_walk].
  rewrite Hv, (bit_at_read payload y v Hv), Hbit.
  cbn [Nat.add] in Hoff, Hl.
  assert (Hoff' : nth_error (huffman_compress.decode_tree o)
                    (Z.to_nat (parent n) * 3 + (if right p =? value n then 2%nat else 1%nat)) =
                  Some (Z.of_nat j - Z.of_nat (Z.to_nat (parent n)))).
  { destruct (right p =? value n); exact Hoff. }
  rewrite Hoff'.
  replace (Z.to_nat (parent n) * 3 +
           Z.to_nat ((Z.of_nat j - Z.of_nat (Z.to_nat (parent n))) * 3))%nat
    with (j * 3)%nat by lia.
  destruct (Z.eq_dec (y mod 8) 7) as [H7|H7].
  - destruct (cursor_next_wrap y Hy H7) as (Hs & Hm & Hb).
    rewrite Hs. cbn [Z.eqb]. rewrite Hl, Hl0, Hm, Hb.
    destruct (value n <? 256); reflexivity.
  - destruct (cursor_next_inside y Hy H7) as (Hs & Hb & _).
    rewrite Hs, cursor_mask_nonzero, Hl, Hl0, Hb.
    destruct (value n <? 256); reflexivity.
Qed.

(** Reading the code of a node from the root on leads to the entry of the
    node. *)
Lemma info_walk_path j :
  forall n x fuel,
    nth_error tree j = Some n -> (0 < j)%nat ->
    find_if (fun m => value m =? value n) tree = j ->
    0 <= x ->
    (forall t, (t < length (code tree j))%nat ->
               (cursor_byte (x + Z.of_nat t) < length payload)%nat /\
               bit_at payload (x + Z.of_nat t) = nth t (code tree j) false) ->
    (length (code tree j) <= fuel)%nat ->
    huffman_compress.decode_walk fuel o (0 * 3) (cursor_byte x) (cursor_mask x) =
    let y := x + Z.of_nat (length (code tree j)) in
    if value n <? 256
    then Some ((j * 3)%nat, cursor_byte y, cursor_mask y)
    else huffman_compress.decode_walk (fuel - length (code tree j)) o (j * 3)
           (cursor_byte y) (cursor_mask y).
Proof.
  induction j as [j IH] using lt_wf_ind.
  intros n x fuel Hn Hj Hfirst Hx Hbits Hfuel.
  pose proof (tree_ok_decreasing _ _ Hok) as Hdec.
  destruct (tree_ok_parent_refers _ _ _ _ Hok Hn Hj) as (p & Hp & _ & Hvp & Hlt).
  pose proof (ok_parent _ _ Hok j n Hn Hj) as Hpar.
  assert (Hcode : code tree j = code tree (Z.to_nat (parent n)) ++ [right p =? value n]).
  { rewrite (code_step _ _ _ Hdec Hn), Hp.
    destruct (Z.eqb_spec (parent n) (-1)); [lia|reflexivity]. }
  rewrite Hcode in *. rewrite length_app in *. cbn [length] in *.
  set (q := Z.to_nat (parent n)) in *.
  set (lq := length (code tree q)) in *.
  destruct (Hbits lq ltac:(lia)) as (Hinq & Hlast).
  rewrite app_nth2, Nat.sub_diag in Hlast by lia. cbn [nth] in Hlast.
  replace (x + Z.of_nat (lq + 1)) with (x + Z.of_nat lq + 1) in * by lia.
  cbv zeta.
  destruct fuel as [|fuel]; [lia|].
  destruct (nth_error payload (cursor_byte (x + Z.of_nat lq))) as [v|] eqn:Ev;
    [|apply nth_error_None in Ev; lia].
  destruct (Nat.eq_dec q 0) as [Hq0|Hq0].
  - assert (Hlq : lq = O).
    { subst lq. rewrite Hq0.
      destruct (ok_root _ _ Hok) as (root & Hr & Hpr & _).
      rewrite (code_step _ _ _ Hdec Hr). now rewrite Hpr. }
    rewrite Hlq in *. cbn [Z.of_nat] in *. rewrite Z.add_0_r in *.
    assert (Hroot : (0 * 3 = Z.to_nat (parent n) * 3)%nat) by (fold q; lia).
    rewrite Hroot.
    rewrite (info_walk_step fuel j n p x v Hn Hj Hfirst Hp Hx Ev Hlast).
    replace (S fuel - (0 + 1))%nat with fuel by lia. reflexivity.
  - assert (Hfq : find_if (fun m => value m =? value p) tree = q)
      by (apply internal_first_holder; assumption).
    rewrite (IH q Hlt p x (S fuel) Hp ltac:(lia) Hfq Hx); [|
      intros t Ht; destruct (Hbits t ltac:(lia)) as (H1 & H2); split; [exact H1|];
      rewrite H2; now rewrite app_nth1 by exact Ht | lia].
    cbv zeta. fold lq.
    destruct (Z.ltb_spec (value p) 256); [lia|].
    replace (S fuel - lq)%nat with (S (fuel - lq)) by lia.
    unfold q.
    rewrite (info_walk_step (fuel - lq) j n p (x + Z.of_nat lq) v Hn Hj Hfirst Hp ltac:(lia) Ev Hlast).
    replace (S fuel - (lq + 1))%nat with (fuel - lq)%nat by lia. reflexivity.
Qed.

End Walk.

(** *** The loop over a compressed object *)

Section Loop.
Variables (data : list byte) (data_length : nat) (tree : list node) (saved : Z)
          (o : huffman_compress.object data_length).

Local Abbreviation input := (huffman_compress.input data data_length).

Hypothesis Hok : tree_ok input tree.
Hypothesis Hu : internal_unique tree.
Hypothesis Hsmall : (length tree <= 256)%nat.
Hypothesis Hsaved : (saved >? 0) = true.

Local Abbreviation total := (total_bits tree input).
Local Abbreviation first := (total / 8 + 1).
Local Abbreviation size_info := (first, total mod 8).
Local Abbreviation payload := (huffman_compress.compressed_data o).

Hypothesis Htab : holds_table tree 0 (huffman_compress.decode_tree o).
Hypothesis Hlen : first <= Z.of_nat (length payload).
Hypothesis Hbits : forall x, 0 <= x < 8 * first ->
  bit_at payload x = nth (Z.to_nat x) (stream tree input) false.

Local Abbreviation next := (huffman_compress.get_next data saved o).
Local Abbreviation at_pos x cur :=
  (huffman_compress.mk_decode_info (cursor_byte x) (cursor_mask x) cur).

Lemma info_total_nonneg : 0 <= total.
Proof. apply total_bits_nonneg. eapply tree_ok_decreasing; eauto. Qed.

Lemma info_total_room : total < 8 * first /\ 1 <= first.
Proof.
  pose proof info_total_nonneg.
  pose proof (Z.div_mod total 8 ltac:(lia)).
  pose proof (Z.mod_pos_bound total 8 ltac:(lia)).
  assert (0 <= total / 8) by (apply Z.div_pos; lia). lia.
Qed.

Lemma info_in_payload x : 0 <= x <= total -> (cursor_byte x < length payload)%nat.
Proof.
  intros Hx. unfold cursor_byte.
  assert (x / 8 <= total / 8) by (apply Z.div_le_mono; lia).
  assert (0 <= x / 8) by (apply Z.div_pos; lia). lia.
Qed.

(** [end()] puts the cursor behind the last code bit and keeps the byte
    the iterator holds. *)
Lemma info_end_cursor d :
  huffman_compress.decode_info_end data_length saved size_info d =
  at_pos total (huffman_compress.m_current d).
Proof.
  unfold huffman_compress.decode_info_end. rewrite Hsaved.
  pose proof (cursor_mask_range total) as Hm.
  unfold cursor_byte. f_equal.
  - f_equal. lia.
  - fold (cursor_mask total). apply Z.mod_small. lia.
Qed.

(** In front of the code of an input byte, one step of the decoder hands
    out that byte and moves the cursor behind its code. *)
Lemma info_get_next_symbol pre c rest cur :
  input = pre ++ c :: rest ->
  next (at_pos (total_bits tree pre) cur) =
  Some (at_pos (total_bits tree (pre ++ [c])) (byte_val c)).
Proof.
  intros Hsplit.
  pose proof (tree_ok_decreasing _ _ Hok) as Hdec.
  pose proof info_total_room as (Hroom & Hfirst).
  assert (Hc : In c input) by (rewrite Hsplit; apply in_elt).
  destruct (tree_ok_leaf_of _ _ c Hok Hc) as (n & Hn & Hv).
  pose proof (leaf_below_root _ _ c Hok Hc) as Hdepth.
  pose proof (total_bits_nonneg tree pre Hdec) as Hpre.
  pose proof (total_bits_nonneg tree rest Hdec) as Hrest.
  pose proof (code_length tree (leaf_of tree c) Hdec) as Hcl.
  assert (Htot : total = total_bits tree pre + edges_to_root tree (leaf_of tree c)
                         + total_bits tree rest).
  { rewrite Hsplit at 1. rewrite total_bits_app. simpl. lia. }
  set (x := total_bits tree pre) in *.
  unfold huffman_compress.get_next. rewrite Hsaved.
  cbn [huffman_compress.m_pos huffman_compress.m_bit].
  assert (Hj : (0 < leaf_of tree c)%nat).
  { destruct (leaf_of tree c) eqn:E; [|lia].
    destruct (ok_root _ _ Hok) as (root & Hr & _ & _ & Hroot).
    rewrite Hr in Hn. injection Hn as <-. pose proof (byte_val_range c). lia. }
  pose proof (byte_val_range c) as Hbv.
  pose proof (info_walk_path input tree o Hok Hu Hsmall Htab (leaf_of tree c) n x
                (8 * length payload + 8) Hn Hj (leaf_of_first_holder _ _ _ Hn Hv)) as Hw.
  cbv zeta in Hw. rewrite Hv in Hw.
  destruct (Z.ltb_spec (byte_val c) 256); [|lia].
  change (0 * 3)%nat with O in Hw.
  rewrite Hw.
  - pose proof (entry_value _ _ _ Htab _ _ Hn) as He. cbn [Nat.add] in He.
    rewrite He by lia.
    rewrite Hv, total_bits_snoc, Hcl. reflexivity.
  - lia.
  - intros t Ht. split; [apply info_in_payload; lia|].
    rewrite Hbits by lia. rewrite Hsplit. now apply stream_symbol.
  - assert (Z.of_nat (length (code tree (leaf_of tree c))) <= 8 * Z.of_nat (length payload))
      by lia.
    lia.
Qed.

Lemma info_at_end_eq cur cur' :
  huffman_compress.decode_info_eq (at_pos total cur) (at_pos total cur') = true.
Proof.
  unfold huffman_compress.decode_info_eq.
  cbn [huffman_compress.m_pos huffman_compress.m_bit].
  now rewrite Nat.eqb_refl, Z.eqb_refl.
Qed.

Lemma info_before_end_eq x cur cur' :
  0 <= x < total ->
  huffman_compress.decode_info_eq (at_pos x cur) (at_pos total cur') = false.
Proof.
  intros Hx. unfold huffman_compress.decode_info_eq.
  cbn [huffman_compress.m_pos huffman_compress.m_bit].
  destruct (Z.eqb_spec (cursor_mask x) (cursor_mask total)) as [Em|]; [|reflexivity].
  destruct (Nat.eqb_spec (cursor_byte x) (cursor_byte total)) as [Eb|]; [|reflexivity].
  pose proof (cursor_inj x total ltac:(lia) ltac:(lia) Eb Em). lia.
Qed.

(** The loop from a cursor in front of the bytes [rest] yields the byte it
    holds and the bytes of [rest] but the last: the comparison with
    [end()] ends the loop when the last byte has just been decoded. *)
Lemma info_loop_rest rest :
  forall pre cur cur' fuel,
    input = pre ++ rest -> (length rest <= fuel)%nat ->
    range_for fuel huffman_compress.decode_info_eq huffman_compress.m_current next
      (at_pos (total_bits tree pre) cur) (at_pos total cur') =
    Some (removelast (cur :: map byte_val rest)).
Proof.
  pose proof (tree_ok_decreasing _ _ Hok) as Hdec.
  induction rest as [|c rest IH]; intros pre cur cur' fuel Hsplit Hfuel.
  - rewrite app_nil_r in Hsplit. subst pre.
    destruct fuel; cbn [range_for]; rewrite info_at_end_eq; reflexivity.
  - destruct fuel as [|fuel]; [simpl in Hfuel; lia|].
    assert (Hc : In c input) by (rewrite Hsplit; apply in_elt).
    pose proof (leaf_below_root _ _ c Hok Hc) as Hdepth.
    pose proof (total_bits_nonneg tree pre Hdec) as Hpre.
    pose proof (total_bits_nonneg tree rest Hdec) as Hrest.
    assert (Htot : total = total_bits tree pre + edges_to_root tree (leaf_of tree c)
                           + total_bits tree rest).
    { rewrite Hsplit at 1. rewrite total_bits_app. simpl. lia. }
    cbn [range_for]. rewrite info_before_end_eq by lia.
    rewrite (info_get_next_symbol pre c rest cur Hsplit).
    rewrite (IH (pre ++ [c]) (byte_val c) cur' fuel).
    + reflexivity.
    + now rewrite <- app_assoc.
    + simpl in Hfuel. lia.
Qed.

(** The loop from [begin()] to [end()] yields the input without its last
    byte. *)
Lemma info_compressed_iterate :
  char_traits_length data = Some data_length ->
  (0 < data_length)%nat ->
  huffman_compress.iterate data data_length saved size_info o =
  Some (removelast (map byte_val input)).
Proof.
  intros Hdefault Hne.
  pose proof (char_traits_length_inside data data_length Hdefault) as Hle.
  pose proof (tree_ok_decreasing _ _ Hok) as Hdec.
  assert (Hil : length input = data_length).
  { unfold huffman_compress.input. rewrite length_firstn. lia. }
  assert (Hex : exists c rest, input = c :: rest).
  { destruct input; [simpl in Hil; lia|eauto]. }
  destruct Hex as (c & rest & Eraw).
  unfold huffman_compress.iterate, huffman_compress.end_, huffman_compress.begin.
  rewrite Hdefault, Nat.eqb_refl.
  change (huffman_compress.mk_decode_info 0 128 (-1))
    with (at_pos (total_bits tree []) (-1)).
  rewrite (info_get_next_symbol [] c rest (-1) Eraw).
  rewrite info_end_cursor.
  rewrite (info_loop_rest rest [c] (byte_val c)).
  - rewrite Eraw. reflexivity.
  - exact Eraw.
  - assert (Hl : length input = S (length rest)) by (rewrite Eraw; reflexivity).
    lia.
Qed.

End Loop.

(** *** The loop over an object that stores the raw bytes *)

Section Raw.
Variables (data : list byte) (data_length : nat) (saved : Z) (size_info : Z * Z)
          (o : huffman_compress.object data_length).
Hypothesis Hsaved : (saved >? 0) = false.

Local Abbreviation next := (huffman_compress.get_next data saved o).

Lemma raw_get_next k bit cur c :
  nth_error data k = Some c ->
  next (huffman_compress.mk_decode_info k bit cur) =
  Some (huffman_compress.mk_decode_info (S k) bit (char_value c)).
Proof.
  intros Hc. unfold huffman_compress.get_next. rewrite Hsaved.
  cbn [huffman_compress.m_pos huffman_compress.m_bit]. now rewrite Hc.
Qed.

Lemma raw_get_next_outside k bit cur :
  (length data <= k)%nat -> next (huffman_compress.mk_decode_info k bit cur) = None.
Proof.
  intros Hk. unfold huffman_compress.get_next. rewrite Hsaved.
  cbn [huffman_compress.m_pos]. apply nth_error_None in Hk. now rewrite Hk.
Qed.

Lemma raw_eq k k' bit cur cur' :
  huffman_compress.decode_info_eq (huffman_compress.mk_decode_info k bit cur)
    (huffman_compress.mk_decode_info k' bit cur') = (k =? k')%nat.
Proof.
  unfold huffman_compress.decode_info_eq.
  cbn [huffman_compress.m_pos huffman_compress.m_bit]. now rewrite Z.eqb_refl.
Qed.

Lemma skipn_nth_error {A} (l : list A) k c :
  nth_error l k = Some c -> skipn k l = c :: skipn (S k) l.
Proof.
  revert k. induction l as [|d l IHl]; intros [|k] Ec; try discriminate.
  - injection Ec as ->. reflexivity.
  - simpl in Ec. apply IHl in Ec. exact Ec.
Qed.

(** [k] steps of the decoder read the [k] elements of the array under the
    cursor and leave it holding the last of them. *)
Lemma raw_advance_n k :
  forall j bit cur c,
    nth_error data (j + k) = Some c ->
    advance_n next (S k) (huffman_compress.mk_decode_info j bit cur) =
    Some (huffman_compress.mk_decode_info (S (j + k)) bit (char_value c)).
Proof.
  induction k as [|k IH]; intros j bit cur c Hc.
  - rewrite Nat.add_0_r in *. cbn [advance_n]. now rewrite (raw_get_next j bit cur c Hc).
  - assert (Hj : (j < length data)%nat).
    { assert (j + S k < length data)%nat by (apply nth_error_Some; congruence). lia. }
    destruct (nth_error data j) as [c0|] eqn:Ec0; [|apply nth_error_None in Ec0; lia].
    change (advance_n next (S (S k)) (huffman_compress.mk_decode_info j bit cur))
      with (it' <- next (huffman_compress.mk_decode_info j bit cur) ;;
            advance_n next (S k) it').
    rewrite (raw_get_next j bit cur c0 Ec0).
    replace (j + S k)%nat with (S j + k)%nat in * by lia.
    apply IH. exact Hc.
Qed.

(** The loop reads one element more than it yields: the element behind the
    first [data_length] ones. *)
Lemma raw_loop m :
  forall k cur cur' fuel,
    (data_length < length data)%nat ->
    (k + S m = data_length + 1)%nat -> (S m <= fuel)%nat ->
    range_for fuel huffman_compress.decode_info_eq huffman_compress.m_current next
      (huffman_compress.mk_decode_info k 0x80 cur)
      (huffman_compress.mk_decode_info (data_length + 1) 0x80 cur') =
    Some (cur :: map char_value (firstn m (skipn k data))).
Proof.
  induction m as [|m IH]; intros k cur cur' fuel Hlong Hk Hfuel;
    (destruct fuel as [|fuel]; [lia|]); cbn [range_for]; rewrite raw_eq;
    (destruct (Nat.eqb_spec k (data_length + 1)); [lia|]);
    (destruct (nth_error data k) as [c|] eqn:Ec; [|apply nth_error_None in Ec; lia]);
    rewrite (raw_get_next k 0x80 cur c Ec).
  - replace (S k) with (data_length + 1)%nat by lia.
    destruct fuel; cbn [range_for]; rewrite raw_eq, Nat.eqb_refl; reflexivity.
  - rewrite (IH (S k) (char_value c) cur' fuel Hlong) by lia.
    do 2 f_equal. rewrite (skipn_nth_error data k c Ec). reflexivity.
Qed.

(** The loop from [begin()] to [end()] over an object that stores the raw
    bytes: it yields the input, and the element it reads behind the input
    is the terminating zero. *)
Lemma raw_iterate :
  char_traits_length data = Some data_length -> (0 < data_length)%nat ->
  huffman_compress.iterate data data_length saved size_info o =
  Some (map char_value (huffman_compress.input data data_length)).
Proof.
  intros Hdefault Hpos.
  pose proof (char_traits_length_inside data data_length Hdefault) as Hlong.
  unfold huffman_compress.iterate, huffman_compress.end_, huffman_compress.begin.
  rewrite Hdefault, Nat.eqb_refl.
  destruct data as [|c rest] eqn:Ed; [simpl in Hlong; lia|]. rewrite <- Ed in *.
  assert (E0 : nth_error data 0 = Some c) by (rewrite Ed; reflexivity).
  rewrite (raw_get_next 0 0x80 (-1) c E0).
  unfold huffman_compress.decode_info_end. rewrite Hsaved.
  cbn [huffman_compress.m_bit huffman_compress.m_current].
  assert (Hm : exists m, data_length = S m) by (exists (pred data_length); lia).
  destruct Hm as (m & Hm).
  rewrite (raw_loop m 1 (char_value c) (char_value c)); try lia.
  unfold huffman_compress.input. rewrite Hm, Ed. reflexivity.
Qed.

(** The increment that makes the decoder equal to [end()] has read the
    terminating zero. *)
Lemma raw_reaches_end :
  char_traits_length data = Some data_length ->
  exists b,
    huffman_compress.begin data saved o = Some b /\
    advance_n next data_length b =
      Some (huffman_compress.mk_decode_info (data_length + 1) 0x80 0).
Proof.
  intros Hdefault.
  destruct (char_traits_length_zero data data_length Hdefault) as (z & Hz & Hz0).
  pose proof (raw_advance_n data_length 0 0x80 (-1) z Hz) as Hadv.
  change (advance_n next (S data_length) (huffman_compress.mk_decode_info 0 0x80 (-1)))
    with (it' <- next (huffman_compress.mk_decode_info 0 0x80 (-1)) ;;
          advance_n next data_length it') in Hadv.
  unfold huffman_compress.begin. rewrite Hdefault, Nat.eqb_refl.
  destruct (next (huffman_compress.mk_decode_info 0 0x80 (-1))) as [b|]; [|discriminate].
  exists b. split; [reflexivity|].
  rewrite Hadv, Hz0. do 2 f_equal. cbn [Nat.add]. lia.
Qed.

End Raw.

Section General.
Context {std_sort : StdSort}.

(** What the loop over a [huffman_compress] object yields, the template
    argument [data_length] being the default: in compressed mode the input
    without its last byte, in raw mode the input. *)
Lemma compress_decode_all data data_length :
  char_traits_length data = Some data_length -> (0 < data_length)%nat ->
  forallb indexable (huffman_compress.input data data_length) = true ->
  exists saved,
    bytes_saved (huffman_compress.input data data_length) = Some saved /\
    huffman_compress.decode_all data data_length =
    Some (if saved >? 0
          then removelast (map byte_val (huffman_compress.input data data_length))
          else map byte_val (huffman_compress.input data data_length)).
Proof.
  intros Hdefault Hpos Hidx.
  pose proof (ConstructFacts.indexable_tree_count _ Hidx) as Hsmall.
  pose proof (char_traits_length_inside data data_length Hdefault) as Hlen.
  set (input := huffman_compress.input data data_length) in *.
  destruct (build_node_tree_unique input) as (tree & Ht & Hok & Hu).
  pose proof (build_node_tree_length input tree Ht) as Htl.
  destruct (compressed_size_info_spec input) as (tree' & Ht' & _ & Hinfo).
  rewrite Ht in Ht'. injection Ht' as <-.
  destruct (ObjectFacts.sizes_defined input) as (first & bits & saved & Hinfo' & Hfirst & Hsaved).
  rewrite Hinfo in Hinfo'. injection Hinfo' as <- <-.
  exists saved. split; [exact Hsaved|].
  unfold huffman_compress.decode_all.
  rewrite (ConstructFacts.compress_construct_runs data data_length data_length
             ltac:(lia) Hdefault Hpos Hidx).
  fold input. rewrite Hsaved, Hinfo. cbv zeta.
  destruct (saved >? 0) eqn:Emode.
  - set (t0 := repeat 0 (3 * tree_count input)).
    destruct (build_decode_tree_spec input tree 0 t0 Ht Hok) as (tab & -> & Hl1 & Htab & _).
    { subst t0. rewrite repeat_length. lia. }
    set (a0 := repeat 0 (Z.to_nat (total_bits tree input / 8 + 1))).
    destruct (PayloadFacts.compress_spec input tree _ _ a0 Ht Hok Hinfo)
      as (mem & -> & Hlm & _ & Hbits).
    { subst a0. rewrite repeat_length. lia. }
    { intros k Hk. subst a0. apply CompressorFacts.nth_error_repeat_Some. lia. }
    apply (info_compressed_iterate data data_length tree saved
             (huffman_compress.mk_object mem tab) Hok Hu); try assumption; try lia.
    cbn [huffman_compress.compressed_data]. rewrite Hlm. subst a0. rewrite repeat_length.
    fold input. lia.
  - rewrite (raw_iterate data data_length saved _ _ Emode Hdefault Hpos).
    fold input. now rewrite (indexable_map input Hidx).
Qed.

End General.

End DecodeInfoFacts.

(** ** Incrementing a [huffman_compressor] decoder step by step *)

Module IncrementFacts.
Import Arr ArrFacts Huffman Spec Codec NodeListFacts BuildTreeFacts SizeFacts EncoderFacts
       ObjectFacts ConstructFacts CodeFacts PayloadFacts TableFacts CursorFacts EntryFacts
       DecoderFacts CompressorLoopFacts CompressorFacts.

Lemma split_at {A} (l : list A) j d :
  (j < length l)%nat -> l = firstn j l ++ nth j l d :: skipn (S j) l.
Proof.
  revert j. induction l as [|x l IH]; intros j Hj; [simpl in Hj; lia|].
  destruct j; [reflexivity|]. simpl. f_equal. apply IH. simpl in Hj. lia.
Qed.

Lemma firstn_snoc {A} (l : list A) j d :
  (j < length l)%nat -> firstn (S j) l = firstn j l ++ [nth j l d].
Proof.
  revert j. induction l as [|x l IH]; intros j Hj; [simpl in Hj; lia|].
  destruct j; [reflexivity|]. cbn [firstn nth app]. f_equal. apply IH. simpl in Hj. lia.
Qed.

Lemma nth_map_byte_val (l : list byte) k d :
  (k < length l)%nat -> nth k (map byte_val l) (-1) = byte_val (nth k l d).
Proof.
  intros Hk. rewrite (nth_indep _ (-1) (byte_val d)) by (now rewrite length_map).
  apply map_nth.
Qed.

Lemma advance_n_fixed {I} (next : I -> option I) it k :
  next it = Some it -> advance_n next k it = Some it.
Proof. intros H. induction k as [|k IH]; simpl; [reflexivity|]. now rewrite H. Qed.

(** *** Compressed mode *)

Section Compressed.
Variables (raw_data : list byte) (tree : list node) (saved : Z) (mem : list Z).
Hypothesis Hok : tree_ok raw_data tree.
Hypothesis Hu : internal_unique tree.
Hypothesis Hsmall : (length tree <= 256)%nat.
Hypothesis Hsaved : (saved >? 0) = true.

Local Abbreviation total := (total_bits tree raw_data).
Local Abbreviation first := (total / 8 + 1).
Local Abbreviation size_info := (first, total mod 8).
Local Abbreviation table := (Z.to_nat first).

Hypothesis Htab : holds_table tree table mem.
Hypothesis Hlen : first <= Z.of_nat (length mem).
Hypothesis Hbits : forall x, 0 <= x < 8 * first ->
  bit_at mem x = nth (Z.to_nat x) (stream tree raw_data) false.

Local Abbreviation next := (huffman_compressor.get_next raw_data saved size_info mem).
Local Abbreviation at_pos x cur :=
  (huffman_compressor.mk_decoder (cursor_byte x) (Some table) (cursor_mask x) cur).

(** The decoder that has just handed out input byte [j]. *)
Local Abbreviation holding j :=
  (at_pos (total_bits tree (firstn (S j) raw_data)) (nth j (map byte_val raw_data) (-1))).

Lemma holding_next j :
  (S j < length raw_data)%nat -> next (holding j) = Some (holding (S j)).
Proof.
  intros Hj.
  rewrite (get_next_symbol raw_data tree saved mem Hok Hu Hsmall Hsaved Htab Hlen Hbits
             (firstn (S j) raw_data) (nth (S j) raw_data x00) (skipn (S (S j)) raw_data)).
  - rewrite <- (firstn_snoc raw_data (S j) x00 Hj).
    now rewrite (nth_map_byte_val raw_data (S j) x00 Hj).
  - now apply split_at.
Qed.

Lemma holding_last j :
  S j = length raw_data -> next (holding j) = Some (at_pos total (-1)).
Proof.
  intros Hj. rewrite Hj, firstn_all.
  apply get_next_end; assumption.
Qed.

Lemma advance_holding k :
  forall j, (j < length raw_data)%nat ->
    advance_n next k (holding j) =
    Some (if (j + k <? length raw_data)%nat then holding (j + k) else at_pos total (-1)).
Proof.
  induction k as [|k IH]; intros j Hj.
  - cbn [advance_n]. rewrite Nat.add_0_r.
    destruct (Nat.ltb_spec j (length raw_data)); [reflexivity|lia].
  - cbn [advance_n].
    destruct (Nat.eq_dec (S j) (length raw_data)) as [Hlast|Hmore].
    + rewrite (holding_last j Hlast).
      rewrite advance_n_fixed by (apply get_next_end; assumption).
      destruct (Nat.ltb_spec (j + S k) (length raw_data)); [lia|reflexivity].
    + rewrite (holding_next j) by lia. rewrite (IH (S j)) by lia.
      replace (S j + k)%nat with (j + S k)%nat by lia. reflexivity.
Qed.

Lemma begin_holding :
  (0 < length raw_data)%nat ->
  huffman_compressor.begin raw_data saved size_info mem = Some (holding O).
Proof.
  intros Hne. unfold huffman_compressor.begin. cbn [fst].
  change (huffman_compressor.mk_decoder 0 (Some table) 128 (-1))
    with (at_pos (total_bits tree []) (-1)).
  rewrite (get_next_symbol raw_data tree saved mem Hok Hu Hsmall Hsaved Htab Hlen Hbits
             [] (nth O raw_data x00) (skipn 1 raw_data)).
  - rewrite (firstn_snoc raw_data O x00 Hne).
    now rewrite (nth_map_byte_val raw_data O x00 Hne).
  - exact (split_at raw_data O x00 Hne).
Qed.

Lemma holding_eq j :
  (j < length raw_data)%nat ->
  huffman_compressor.decoder_eq (holding j)
    (huffman_compressor.end_ raw_data saved size_info) = false.
Proof.
  intros Hj.
  pose proof (tree_ok_decreasing _ _ Hok) as Hdec.
  rewrite (nth_map_byte_val raw_data j x00 Hj).
  pose proof (byte_val_range (nth j raw_data x00)) as Hr.
  destruct (Nat.eq_dec (S j) (length raw_data)) as [Hlast|Hmore].
  - rewrite Hlast, firstn_all.
    rewrite at_end_eq by assumption. apply Z.eqb_neq. lia.
  - apply before_end_eq; try assumption.
    assert (Hsplit : raw_data = firstn (S j) raw_data ++ nth (S j) raw_data x00
                                  :: skipn (S (S j)) raw_data) by (apply split_at; lia).
    assert (Hc : In (nth (S j) raw_data x00) raw_data) by (apply nth_In; lia).
    pose proof (leaf_below_root _ _ _ Hok Hc) as Hdepth.
    pose proof (total_bits_nonneg tree (firstn (S j) raw_data) Hdec).
    pose proof (total_bits_nonneg tree (skipn (S (S j)) raw_data) Hdec).
    assert (Htot : total = total_bits tree (firstn (S j) raw_data)
                           + edges_to_root tree (leaf_of tree (nth (S j) raw_data x00))
                           + total_bits tree (skipn (S (S j)) raw_data)).
    { rewrite Hsplit at 1. rewrite total_bits_app. simpl. lia. }
    lia.
Qed.

(** From [begin()], [k] increments lead to the decoder that holds input
    byte [k]; from the length of the input on they lead to [end()] and
    stay there. *)
Lemma compressed_increments k :
  (0 < length raw_data)%nat ->
  exists b d,
    huffman_compressor.begin raw_data saved size_info mem = Some b /\
    advance_n next k b = Some d /\
    huffman_compressor.m_current d = nth k (map byte_val raw_data) (-1) /\
    huffman_compressor.decoder_eq d (huffman_compressor.end_ raw_data saved size_info) =
      (length raw_data <=? k)%nat.
Proof.
  intros Hne. eexists. eexists. split; [now apply begin_holding|].
  split; [now apply advance_holding|]. cbn [Nat.add].
  destruct (Nat.ltb_spec k (length raw_data)) as [Hk|Hk];
    destruct (Nat.leb_spec (length raw_data) k); try lia.
  - split; [reflexivity|]. now apply holding_eq.
  - cbn [huffman_compressor.m_current]. split.
    + rewrite nth_overflow; [reflexivity|]. rewrite length_map. lia.
    + now rewrite at_end_eq by assumption.
Qed.

End Compressed.

(** *** Raw mode *)

Section Raw.
Context {std_sort : StdSort}.
Variables (raw_data : list byte) (saved first bits : Z).
Hypothesis Hsaved : (saved >? 0) = false.

Local Abbreviation mem := (map byte_val raw_data).
Local Abbreviation table := (Z.to_nat first).
Local Abbreviation next :=
  (huffman_compressor.get_next raw_data saved (first, bits) mem).
Local Abbreviation holding j :=
  (huffman_compressor.mk_decoder (S j) (Some table) 0x80 (nth j mem (-1))).
Local Abbreviation at_end :=
  (huffman_compressor.mk_decoder (length raw_data) (Some table) 0x80 (-1)).

Lemma raw_advance k :
  forall j, (j < length raw_data)%nat ->
    advance_n next k (holding j) =
    Some (if (j + k <? length raw_data)%nat then holding (j + k) else at_end).
Proof.
  induction k as [|k IH]; intros j Hj.
  - cbn [advance_n]. rewrite Nat.add_0_r.
    destruct (Nat.ltb_spec j (length raw_data)); [reflexivity|lia].
  - cbn [advance_n].
    destruct (Nat.eq_dec (S j) (length raw_data)) as [Hlast|Hmore].
    + rewrite Hlast.
      rewrite (fallback_get_next_end raw_data saved first bits Hsaved).
      rewrite advance_n_fixed
        by (apply (fallback_get_next_end raw_data saved first bits Hsaved)).
      destruct (Nat.ltb_spec (j + S k) (length raw_data)); [lia|reflexivity].
    + rewrite (fallback_get_next raw_data saved first bits Hsaved (S j) 0x80 _
                 (nth (S j) mem (-1))).
      * rewrite (IH (S j)) by lia.
        replace (S j + k)%nat with (j + S k)%nat by lia. reflexivity.
      * apply nth_error_nth'. rewrite length_map. lia.
Qed.

Lemma raw_increments k :
  (0 < length raw_data)%nat ->
  exists b d,
    huffman_compressor.begin raw_data saved (first, bits) mem = Some b /\
    advance_n next k b = Some d /\
    huffman_compressor.m_current d = nth k mem (-1) /\
    huffman_compressor.decoder_eq d (huffman_compressor.end_ raw_data saved (first, bits)) =
      (length raw_data <=? k)%nat.
Proof.
  intros Hne. exists (holding O). eexists. split.
  { unfold huffman_compressor.begin. cbn [fst].
    apply (fallback_get_next raw_data saved first bits Hsaved O 0x80 (-1)).
    apply nth_error_nth'. rewrite length_map. exact Hne. }
  split; [now apply raw_advance|]. cbn [Nat.add].
  unfold huffman_compressor.end_.
  rewrite (fallback_end raw_data saved first bits Hsaved).
  unfold huffman_compressor.decoder_eq.
  destruct (Nat.ltb_spec k (length raw_data)) as [Hk|Hk];
    destruct (Nat.leb_spec (length raw_data) k); try lia;
    cbn [huffman_compressor.m_current huffman_compressor.m_data huffman_compressor.m_bit].
  - split; [reflexivity|].
    destruct (Nat.eqb_spec (S k) (length raw_data)) as [E|E]; [|reflexivity].
    cbn [andb]. apply Z.eqb_neq.
    rewrite (nth_map_byte_val raw_data k x00 Hk).
    pose proof (byte_val_range (nth k raw_data x00)). lia.
  - split; [|now rewrite Nat.eqb_refl].
    rewrite nth_overflow; [reflexivity|]. rewrite length_map. lia.
Qed.

End Raw.

Section General.
Context {std_sort : StdSort}.

(** The iterator protocol of [huffman_compressor], in either storage mode:
    [k] increments of [begin()] never fail; the decoder then holds input
    byte [k], or, from [k] = the input length on, the end sentinel [-1],
    and it compares equal to [end()] exactly then. *)
Lemma compressor_increments raw_data :
  (0 < length raw_data)%nat -> (tree_count raw_data <= 256)%nat ->
  exists mem saved size_info b,
    huffman_compressor.construct raw_data = Constructed mem /\
    bytes_saved raw_data = Some saved /\
    compressed_size_info raw_data = Some size_info /\
    huffman_compressor.begin raw_data saved size_info mem = Some b /\
    forall k, exists d,
      advance_n (huffman_compressor.get_next raw_data saved size_info mem) k b = Some d /\
      huffman_compressor.m_current d = nth k (map byte_val raw_data) (-1) /\
      huffman_compressor.decoder_eq d (huffman_compressor.end_ raw_data saved size_info) =
        (length raw_data <=? k)%nat.
Proof.
  intros Hne Hsmall.
  destruct (build_node_tree_unique raw_data) as (tree & Ht & Hok & Hu).
  pose proof (build_node_tree_length raw_data tree Ht) as Hlen.
  destruct (compressed_size_info_spec raw_data) as (tree' & Ht' & _ & Hinfo).
  rewrite Ht in Ht'. injection Ht' as <-.
  destruct (sizes_defined raw_data) as (first & bits & saved & Hinfo' & Hfirst & Hsaved).
  rewrite Hinfo in Hinfo'. injection Hinfo' as <- <-.
  unfold huffman_compressor.construct.
  rewrite Hsaved, Hinfo.
  destruct (Nat.eqb_spec (length raw_data) 0); [lia|].
  destruct (saved >? 0) eqn:Emode.
  - destruct (compressed_layout raw_data tree _ _ Ht Hok Hinfo)
      as (table & mem & -> & -> & Hlm & Htab & Hbits).
    assert (Hroom : total_bits tree raw_data / 8 + 1 <= Z.of_nat (length mem)) by lia.
    destruct (compressed_increments raw_data tree saved mem Hok Hu ltac:(lia) Emode
                Htab Hroom Hbits O Hne) as (b & _ & Hb & _).
    exists mem, saved, (total_bits tree raw_data / 8 + 1, total_bits tree raw_data mod 8), b.
    split; [reflexivity|]. split; [reflexivity|]. split; [reflexivity|]. split; [exact Hb|].
    intros k.
    destruct (compressed_increments raw_data tree saved mem Hok Hu ltac:(lia) Emode
                Htab Hroom Hbits k Hne) as (b' & d & Hb' & Hd).
    assert (b' = b) by congruence. subst b'. exists d. exact Hd.
  - assert (Hcopy : copy (map byte_val raw_data) (repeat 0 (length raw_data)) =
                    map byte_val raw_data).
    { rewrite <- (length_map byte_val raw_data). apply copy_exact. }
    rewrite Hcopy.
    destruct (raw_increments raw_data saved (total_bits tree raw_data / 8 + 1)
                (total_bits tree raw_data mod 8) Emode O Hne)
      as (b & _ & Hb & _).
    exists (map byte_val raw_data), saved,
      (total_bits tree raw_data / 8 + 1, total_bits tree raw_data mod 8), b.
    split; [reflexivity|]. split; [reflexivity|]. split; [reflexivity|]. split; [exact Hb|].
    intros k.
    destruct (raw_increments raw_data saved (total_bits tree raw_data / 8 + 1)
                (total_bits tree raw_data mod 8) Emode k Hne)
      as (b' & d & Hb' & Hd).
    assert (b' = b) by congruence. subst b'. exists d. exact Hd.
Qed.

End General.

End IncrementFacts.

(** ** How much an object can save *)

Module SavingFacts.
Import Arr ArrFacts Huffman Spec Codec NodeListFacts BuildTreeFacts SizeFacts EncoderFacts
       ObjectFacts ConstructFacts CodeFacts.

(** Every input byte costs at least one bit. *)
Lemma total_bits_ge_length data tree :
  tree_ok data tree -> Z.of_nat (length data) <= total_bits tree data.
Proof.
  intros Hok.
  assert (G : forall l, (forall c, In c l -> In c data) ->
                        Z.of_nat (length l) <= total_bits tree l).
  { induction l as [|c l IH]; intros Hin; [simpl; lia|].
    cbn [total_bits fold_right length]. fold (total_bits tree l).
    pose proof (leaf_below_root _ _ c Hok (Hin c (or_introl eq_refl))).
    specialize (IH (fun c' H => Hin c' (or_intror H))). lia. }
  apply G. auto.
Qed.

Section General.
Context {std_sort : StdSort}.

(** The payload takes at least an eighth of the input plus one byte, the
    table at least nine bytes. *)
Lemma compressed_size_lower_bound data first bits :
  compressed_size_info data = Some (first, bits) ->
  Z.of_nat (length data) / 8 + 1 <= first /\ (3 <= tree_count data)%nat.
Proof.
  intros Hinfo.
  destruct (compressed_size_info_spec data) as (tree & Ht & Hok & Hinfo').
  rewrite Hinfo in Hinfo'. injection Hinfo' as -> ->.
  pose proof (total_bits_ge_length data tree Hok) as Hge.
  pose proof (tree_count_spec data) as Htc.
  pose proof (distinct_symbols_range data) as Hd.
  split; [|lia].
  assert (Z.of_nat (length data) / 8 <= total_bits tree data / 8)
    by (apply Z.div_le_mono; lia).
  lia.
Qed.

(** [bytes_saved] is never more than seven eighths of the input less ten
    bytes; an input of fewer than 12 bytes is stored raw. *)
Lemma bytes_saved_upper_bound data saved :
  Z.of_nat (length data) < 2 ^ 56 ->
  bytes_saved data = Some saved ->
  0 <= saved <= Z.max 0 (Z.of_nat (length data) - Z.of_nat (length data) / 8 - 10).
Proof.
  intros Hbound Hsaved.
  destruct (sizes_spec data Hbound) as (first & bits & Hinfo & Hfirst & _ & Hs).
  assert (Es : saved = Z.max 0 (Z.of_nat (length data)
                                 - (first + 3 * Z.of_nat (tree_count data)))) by congruence.
  destruct (compressed_size_lower_bound data first bits Hinfo) as (Hf & Hc).
  lia.
Qed.

Lemma short_input_raw raw_data :
  (0 < length raw_data < 12)%nat ->
  bytes_saved raw_data = Some 0 /\
  huffman_compressor.construct raw_data = Constructed (map byte_val raw_data) /\
  huffman_compressor.size raw_data = Some (Z.of_nat (length raw_data)).
Proof.
  intros Hlen.
  assert (Hbound : Z.of_nat (length raw_data) < 2 ^ 56).
  { change (2 ^ 56) with 72057594037927936. lia. }
  destruct (sizes_spec raw_data Hbound) as (first & bits & Hinfo & Hfirst & _ & Hs).
  destruct (compressed_size_lower_bound raw_data first bits Hinfo) as (Hf & Hc).
  pose proof (Z.div_mod (Z.of_nat (length raw_data)) 8 ltac:(lia)).
  pose proof (Z.mod_pos_bound (Z.of_nat (length raw_data)) 8 ltac:(lia)).
  replace (Z.max 0 (Z.of_nat (length raw_data) - (first + 3 * Z.of_nat (tree_count raw_data))))
    with 0 in Hs by lia.
  split; [exact Hs|].
  unfold huffman_compressor.construct, huffman_compressor.size.
  rewrite Hs, Hinfo. destruct (Nat.eqb_spec (length raw_data) 0); [lia|].
  cbn [Z.gtb Z.compare]. split; [|reflexivity].
  rewrite <- (length_map byte_val raw_data), copy_exact. reflexivity.
Qed.

(** [size()] is the length of the array the object owns, [data()] is that
    array, and the object is never larger than the input. *)
Lemma compressor_size_is_length raw_data :
  (0 < length raw_data)%nat -> Z.of_nat (length raw_data) < 2 ^ 56 ->
  exists mem saved,
    huffman_compressor.construct raw_data = Constructed mem /\
    bytes_saved raw_data = Some saved /\
    huffman_compressor.size raw_data = Some (Z.of_nat (length mem)) /\
    huffman_compressor.data raw_data mem = Some mem /\
    Z.of_nat (length mem) = Z.of_nat (length raw_data) - saved /\ 0 <= saved.
Proof.
  intros Hne Hbound.
  destruct (sizes_spec raw_data Hbound) as (first & bits & Hinfo & Hfirst & Hsize & Hs).
  set (c := first + 3 * Z.of_nat (tree_count raw_data)) in *.
  unfold huffman_compressor.construct, huffman_compressor.size, huffman_compressor.data.
  rewrite Hs, Hinfo. destruct (Nat.eqb_spec (length raw_data) 0); [lia|].
  destruct (Z.gtb_spec (Z.max 0 (Z.of_nat (length raw_data) - c)) 0) as [Hmode|Hmode].
  - destruct (compressed_object_ok raw_data first bits Hinfo Hfirst)
      as (table & mem & -> & -> & Hlm).
    exists mem, (Z.max 0 (Z.of_nat (length raw_data) - c)).
    split; [reflexivity|]. split; [reflexivity|].
    fold c in Hlm. rewrite Hsize, Hlm.
    split; [f_equal; lia|]. split; [reflexivity|]. lia.
  - exists (map byte_val raw_data), (Z.max 0 (Z.of_nat (length raw_data) - c)).
    assert (Hcopy : copy (map byte_val raw_data) (repeat 0 (length raw_data)) =
                    map byte_val raw_data).
    { rewrite <- (length_map byte_val raw_data). apply copy_exact. }
    rewrite Hcopy, length_map. unfold uncompressed_size.
    split; [reflexivity|]. split; [reflexivity|]. split; [reflexivity|].
    split; [reflexivity|]. lia.
Qed.

End General.

End SavingFacts.

(** ** The order the merge loop keeps *)

Module OrderFacts.
Import Arr ArrFacts Huffman Spec Codec NodeListFacts MergeFacts ConnectFacts LinkedFacts
       TreeFacts BuildTreeFacts SizeFacts CodeFacts.

Lemma reinsert_cons new_node x r :
  reinsert new_node (x :: r) =
  if freq x >=? freq new_node then new_node :: x :: r else x :: reinsert new_node r.
Proof.
  unfold reinsert. cbn [find_if]. destruct (freq x >=? freq new_node); reflexivity.
Qed.

Lemma reinsert_nil new_node : reinsert new_node [] = [new_node].
Proof. reflexivity. Qed.

(** Putting the parent back keeps the working list ascending. *)
Lemma reinsert_ascending new_node rest :
  ascending rest -> ascending (reinsert new_node rest).
Proof.
  unfold ascending. induction rest as [|x r IH]; intros Hs.
  - rewrite reinsert_nil. repeat constructor.
  - rewrite reinsert_cons. inversion Hs as [|? ? Hr Hx]; subst.
    destruct (Z.geb_spec (freq x) (freq new_node)) as [Hge|Hlt].
    + constructor; [exact Hs|]. constructor; [lia|].
      eapply Forall_impl; [|exact Hx]. intros a Ha. simpl in Ha. lia.
    + constructor; [apply IH; exact Hr|].
      apply Forall_forall. intros a Ha.
      apply (Permutation_in _ (reinsert_perm new_node r)) in Ha.
      destruct Ha as [<-|Ha]; [lia|].
      rewrite Forall_forall in Hx. now apply Hx.
Qed.

Lemma sorted_nth {A} (R : A -> A -> Prop) l i j a b :
  StronglySorted R l -> (i < j)%nat ->
  nth_error l i = Some a -> nth_error l j = Some b -> R a b.
Proof.
  intros Hs. revert i j. induction Hs as [|x l Hs IH Hx]; intros i j Hij Ha Hb.
  - destruct i; discriminate.
  - destruct j as [|j]; [lia|]. simpl in Hb. destruct i as [|i].
    + injection Ha as <-. rewrite Forall_forall in Hx. apply Hx.
      eapply nth_error_In; eauto.
    + simpl in Ha. apply (IH i j); [lia|exact Ha|exact Hb].
Qed.

Lemma order_step init total l0 l1 rest tail next :
  merge_inv init total (l0 :: l1 :: rest) tail next ->
  order_inv (l0 :: l1 :: rest) tail next ->
  order_inv (reinsert (new_parent next l0 l1) rest) (l1 :: l0 :: tail) (next + 1).
Proof.
  intros Inv [Hs Hb Ht Hp Hn Hch]. set (new_node := new_parent next l0 l1).
  unfold ascending in Hs.
  inversion Hs as [|? ? Hs1 H0]; subst. inversion Hs1 as [|? ? Hs2 H1]; subst.
  rewrite Forall_forall in H0, H1.
  pose proof (H0 l1 (or_introl eq_refl)) as H01.
  pose proof (Hp l0 (or_introl eq_refl)) as Hp0.
  pose proof (Hp l1 (or_intror (or_introl eq_refl))) as Hp1.
  assert (Hnew : freq new_node = freq l0 + freq l1) by reflexivity.
  assert (Hin : forall n, In n (reinsert new_node rest) -> n = new_node \/ In n rest).
  { intros n Hn'. apply (Permutation_in _ (reinsert_perm new_node rest)) in Hn'.
    destruct Hn' as [<-|Hn']; auto. }
  constructor.
  - apply reinsert_ascending. exact Hs2.
  - intros x n Hx Hn'. apply Hin in Hn'.
    assert (Hl1 : freq l1 <= freq n).
    { destruct Hn' as [->|Hn']; [lia|]. now apply H1. }
    destruct Hx as [<-|[<-|Hx]]; [exact Hl1|lia|].
    destruct Hn' as [->|Hn'].
    + pose proof (Hb x l1 Hx (or_intror (or_introl eq_refl))). lia.
    + apply Hb; [exact Hx|]. right. right. exact Hn'.
  - constructor; [constructor; [exact Ht|]|].
    + apply Forall_forall. intros x Hx. apply Hb; [exact Hx|now left].
    + constructor; [exact H01|].
      apply Forall_forall. intros x Hx. apply Hb; [exact Hx|right; now left].
  - intros n Hn'. apply Hin in Hn'. destruct Hn' as [->|Hn']; [lia|].
    apply Hp. right. right. exact Hn'.
  - cbn [length]. lia.
  - intros n Hn'. apply in_app_or in Hn' as [Hn'|Hn'].
    + apply Hin in Hn'. destruct Hn' as [->|Hn'].
      * destruct (inv_shape _ _ _ _ _ Inv l0 (or_introl eq_refl)) as (_ & H0' & _).
        destruct (inv_shape _ _ _ _ _ Inv l1 (or_intror (or_introl eq_refl))) as (_ & H1' & _).
        simpl. lia.
      * apply Hch. right. right. apply in_or_app. now left.
    + destruct Hn' as [<-|[<-|Hn']].
      * apply Hch. right. now left.
      * apply Hch. now left.
      * apply Hch. right. right. apply in_or_app. now right.
Qed.

(** The merge loop runs to its [break] and keeps both invariants. *)
Lemma merge_loop_run_ordered init total fuel nodes tail next :
  (2 <= length nodes)%nat -> (length nodes - 1 <= fuel)%nat ->
  merge_inv init total nodes tail next -> order_inv nodes tail next ->
  exists root tail' next',
    merge_loop fuel nodes (repeat node_default (2 * length nodes - 1) ++ tail)
               (2 * length nodes - 1) next = Some ([root], node_default :: tail') /\
    merge_inv init total [root] tail' next' /\ order_inv [root] tail' next' /\
    length tail' = (length tail + 2 * (length nodes - 1))%nat.
Proof.
  revert nodes tail next. induction fuel as [|fuel IH]; intros nodes tail next Hlen Hfuel Inv Ord.
  - lia.
  - destruct nodes as [|l0 [|l1 rest]]; simpl in Hlen; try lia.
    replace (2 * length (l0 :: l1 :: rest) - 1)%nat
      with (S (S (2 * length rest + 1))) by (simpl; lia).
    cbn [merge_loop].
    rewrite store_filling, store_filling.
    apply (order_step _ _ _ _ _ _ _ Inv) in Ord.
    apply merge_step in Inv. fold (new_parent next l0 l1).
    destruct rest as [|l2 rest'].
    + exists (new_parent next l0 l1), (l1 :: l0 :: tail), (next + 1).
      split; [reflexivity|]. split; [exact Inv|]. split; [exact Ord|]. simpl. lia.
    + set (rest := l2 :: rest') in *.
      fold (reinsert (new_parent next l0 l1) rest).
      pose proof (reinsert_length (new_parent next l0 l1) rest) as Hrl.
      destruct (IH (reinsert (new_parent next l0 l1) rest) (l1 :: l0 :: tail) (next + 1))
        as (root & tail' & next' & Hrun & Inv' & Ord' & Hlen').
      * rewrite Hrl. subst rest. cbn [length]. lia.
      * rewrite Hrl. cbn [length] in Hfuel. lia.
      * exact Inv.
      * exact Ord.
      * exists root, tail', next'. rewrite Hrl in Hrun, Hlen'.
        replace (2 * S (length rest) - 1)%nat with (2 * length rest + 1)%nat in Hrun by lia.
        split; [exact Hrun|]. split; [exact Inv'|]. split; [exact Ord'|].
        rewrite Hlen'. simpl. lia.
Qed.

Lemma table_freq data n :
  In n (frequency_table data) -> freq n = occurrences (value n) data.
Proof.
  unfold frequency_table. intros Hn.
  apply in_map_iff in Hn. destruct Hn as (i & E & _). rewrite <- E. reflexivity.
Qed.

Lemma filter_holds {A} (p : A -> bool) l x : In x (filter p l) -> p x = true.
Proof. intros H. now apply filter_In in H. Qed.

Lemma occurring_nonzero data n : In n (occurring data) -> negb (freq n =? 0) = true.
Proof. unfold occurring. apply (filter_holds (fun m => negb (freq m =? 0))). Qed.

Lemma occurring_freq data n :
  In n (occurring data) -> freq n = occurrences (value n) data /\ 0 < freq n.
Proof.
  intros Hn. split; [apply table_freq, occurring_sub, Hn|].
  pose proof (table_freq data n (occurring_sub data n Hn)) as E.
  pose proof (occurrences_nonneg (value n) data).
  pose proof (occurring_nonzero data n Hn) as Hp.
  destruct (Z.eqb_spec (freq n) 0); [discriminate|lia].
Qed.

Section General.
Context {std_sort : StdSort}.

(** With two or more distinct symbols in the input: no two nodes of the
    tree share a value, frequencies never grow along the array, parent
    values stay below [256 + L - 1], and the leaf of an input byte carries
    the number of its occurrences. *)
Lemma build_node_tree_ordered data :
  (2 <= length (occurring data))%nat ->
  exists tree,
    build_node_tree data = Some tree /\ tree_ok data tree /\
    NoDup (map value tree) /\ freq_descending tree /\
    (forall n, In n tree ->
       value n < 256 + Z.of_nat (distinct_symbols data) - 1 /\
       left n < value n /\ right n < value n) /\
    (forall c, In c data ->
       exists n, nth_error tree (leaf_of tree c) = Some n /\
                 freq n = occurrences (byte_val c) data).
Proof.
  intros Htwo.
  destruct (build_node_tree_ok data) as (tree & Htree & Hok).
  exists tree. split; [exact Htree|]. split; [exact Hok|].
  rewrite build_node_tree_unfold in Htree.
  pose proof (build_node_list_length data) as Hlen.
  destruct (build_node_list_spec data) as (occ & Hperm & Hasc & Hlist).
  rewrite Hlist in Htree, Hlen. clear Hlist.
  pose proof (Permutation_length Hperm) as Hpl.
  replace (2 - length occ)%nat with O in * by lia.
  simpl repeat in *. rewrite app_nil_r in *.
  assert (Hleaf : forall n, In n occ ->
            parent n = -1 /\ left n = -1 /\ right n = -1 /\ 0 <= value n < 256).
  { intros n Hn. apply (occurring_leaf data). eapply Permutation_in; eauto. }
  assert (Hfreq : forall n, In n occ -> freq n = occurrences (value n) data /\ 0 < freq n).
  { intros n Hn. apply occurring_freq. eapply Permutation_in; eauto. }
  assert (Hnd : NoDup (map value occ)).
  { eapply Permutation_NoDup; [symmetry; apply Permutation_map, Hperm|].
    apply occurring_values. }
  destruct (merge_loop_run_ordered occ (total_freq occ) (length occ) occ [] 256)
    as (root & tail & next & Hrun & Inv & Ord & Htail).
  { lia. }
  { lia. }
  { now apply merge_inv_start. }
  { constructor; [exact Hasc| intros x n [] | constructor | | reflexivity | ].
    - intros n Hn. destruct (Hfreq n Hn). lia.
    - intros n Hn. rewrite app_nil_r in Hn.
      destruct (Hleaf n Hn) as (_ & -> & -> & Hv). lia. }
  rewrite app_nil_r in Hrun.
  destruct (connect_all (root :: tail)) as (t & Hcon & Hlt & Hnth).
  { apply Forall_forall. intros n Hn.
    now destruct (inv_shape _ _ _ _ _ Inv n Hn). }
  { simpl. lia. }
  assert (Ht : tree_from occ = Some t).
  { unfold tree_from. rewrite repeat_length.
    replace (length occ * 2 - 1)%nat with (2 * length occ - 1)%nat by lia.
    change 0x100 with 256. rewrite Hrun. cbn [nth_error].
    change (store 0 root (node_default :: tail)) with (Some (root :: tail)).
    exact Hcon. }
  rewrite Ht in Htree. injection Htree as <-.
  assert (Hfields : forall j n, nth_error t j = Some n ->
            exists x, nth_error (root :: tail) j = Some x /\
                      value n = value x /\ freq n = freq x /\
                      left n = left x /\ right n = right x).
  { intros j n Hn. destruct (t_from _ _ _ Hnth j n Hn) as (x & Hx & ->).
    destruct (link_node_fields (root :: tail) j x) as (Ev & Ef & El & Er).
    exists x. auto. }
  assert (Hvals : map value t = map value (root :: tail)).
  { apply nth_error_ext. intros j. rewrite !nth_error_map, Hnth.
    destruct (nth_error (root :: tail) j) as [x|]; [|reflexivity]. simpl.
    now destruct (link_node_fields (root :: tail) j x) as (-> & _). }
  assert (Hndt : NoDup (map value t)).
  { rewrite Hvals. exact (inv_values _ _ _ _ _ Inv). }
  split; [exact Hndt|]. split; [|split].
  - intros i j ni nj Hij Hi Hj.
    destruct (Hfields i ni Hi) as (xi & Hxi & _ & -> & _).
    destruct (Hfields j nj Hj) as (xj & Hxj & _ & -> & _).
    destruct (Nat.eq_dec i j) as [->|Hne]; [rewrite Hxi in Hxj; injection Hxj as <-; lia|].
    destruct i as [|i].
    + simpl in Hxi. injection Hxi as <-. destruct j as [|j]; [lia|]. simpl in Hxj.
      apply (oi_below _ _ _ Ord); [eapply nth_error_In; eauto|now left].
    + destruct j as [|j]; [lia|]. simpl in Hxi, Hxj.
      apply (sorted_nth _ tail i j xi xj (oi_tail _ _ _ Ord)); [lia|exact Hxi|exact Hxj].
  - intros n Hn. apply In_nth_error in Hn as (j & Hj).
    destruct (Hfields j n Hj) as (x & Hx & -> & _ & -> & ->).
    destruct (inv_shape _ _ _ _ _ Inv x (nth_error_In _ _ Hx)) as (_ & Hv & _).
    pose proof (oi_next _ _ _ Ord) as Hnext.
    cbn [length Nat.add] in Htail.
    split; [unfold distinct_symbols; rewrite <- Hpl; lia|].
    apply (oi_child _ _ _ Ord). exact (nth_error_In _ _ Hx).
  - intros c Hc.
    destruct (occurring_has data c Hc) as (n & Hn & Hv).
    apply (Permutation_in _ (Permutation_sym Hperm)) in Hn.
    destruct (Hfreq n Hn) as (Hf & _).
    apply (inv_keep _ _ _ _ _ Inv) in Hn. apply In_nth_error in Hn as (j & Hj).
    pose proof (t_at _ _ _ Hnth j n Hj) as Htj.
    destruct (link_node_fields (root :: tail) j n) as (Ev & Ef & _).
    destruct (tree_ok_leaf_of _ _ c Hok Hc) as (m & Hm & Hvm).
    assert (E : leaf_of t c = j).
    { eapply (NoDup_map_nth value t); eauto. rewrite Ev. congruence. }
    exists m. split; [exact Hm|].
    rewrite E, Htj in Hm. injection Hm as <-. rewrite Ef, Hf, Hv. reflexivity.
Qed.

End General.

End OrderFacts.

(** ** Code lengths *)

Module DepthFacts.
Import Arr ArrFacts Huffman Spec Codec NodeListFacts MergeFacts ConnectFacts LinkedFacts
       TreeFacts BuildTreeFacts SizeFacts CodeFacts OrderFacts.

(** A node below the root, its parent and the pair of children the parent
    has. *)
Lemma node_family data tree i n :
  tree_ok data tree -> nth_error tree i = Some n -> (0 < i)%nat ->
  exists p k b a,
    nth_error tree (Z.to_nat (parent n)) = Some p /\ (Z.to_nat (parent n) < i)%nat /\
    parent n <> -1 /\
    nth_error tree k = Some b /\ nth_error tree (S k) = Some a /\
    freq p = freq a + freq b /\ (i = k \/ i = S k) /\
    parent b = parent n /\ parent a = parent n.
Proof.
  intros Hok Hn Hi.
  destruct (tree_ok_parent_refers _ _ _ _ Hok Hn Hi) as (p & Hp & _ & Hv & Hlt).
  pose proof (ok_parent _ _ Hok i n Hn Hi) as Hpar.
  destruct (ok_internal _ _ Hok _ _ Hp Hv) as (k & b & a & Hc & _ & Hb & Ha & _ & _ & Hf).
  assert (Hin : In i (children tree (Z.to_nat (parent n)))).
  { eapply children_In; eauto. lia. }
  assert (Hmem : forall x y, In x (children tree (Z.to_nat (parent n))) ->
                             nth_error tree x = Some y -> parent y = parent n).
  { intros x y Hx Hy. unfold children in Hx. apply filter_In in Hx as [_ Hx].
    rewrite Hy in Hx. apply Z.eqb_eq in Hx. lia. }
  exists p, k, b, a. split; [exact Hp|]. split; [exact Hlt|]. split; [lia|].
  split; [exact Hb|]. split; [exact Ha|]. split; [exact Hf|].
  rewrite Hc in Hin, Hmem. split.
  - destruct Hin as [<-|[<-|[]]]; auto.
  - split; [apply (Hmem k)|apply (Hmem (S k))]; simpl; auto.
Qed.

(** In a tree whose frequencies never grow along the array, a node that is
    more frequent than another is not further from the root. *)
Lemma frequent_not_deeper data tree :
  tree_ok data tree -> freq_descending tree ->
  forall j i ni nj,
    nth_error tree i = Some ni -> nth_error tree j = Some nj ->
    freq nj < freq ni -> edges_to_root tree i <= edges_to_root tree j.
Proof.
  intros Hok Hdesc.
  pose proof (tree_ok_decreasing _ _ Hok) as Hdec.
  induction j as [j IH] using lt_wf_ind. intros i ni nj Hi Hj Hlt.
  destruct (Nat.le_gt_cases j i) as [Hji|Hij].
  { pose proof (Hdesc j i nj ni Hji Hj Hi). lia. }
  destruct (Nat.eq_dec i 0) as [->|Hi0].
  { destruct (ok_root _ _ Hok) as (root & Hr & Hpr & _).
    rewrite (edges_to_root_step _ _ _ Hdec Hr), Hpr, Z.eqb_refl.
    apply edges_to_root_nonneg. exact Hdec. }
  destruct (node_family _ _ _ _ Hok Hi ltac:(lia))
    as (pi & ki & bi & ai & Hpi & Hpilt & Hpin & Hbi & Hai & Hfi & Hki & Hpbi & Hpai).
  destruct (node_family _ _ _ _ Hok Hj ltac:(lia))
    as (pj & kj & bj & aj & Hpj & Hpjlt & Hpjn & Hbj & Haj & Hfj & Hkj & Hpbj & Hpaj).
  rewrite (edges_to_root_step _ _ _ Hdec Hi), (edges_to_root_step _ _ _ Hdec Hj).
  destruct (Z.eqb_spec (parent ni) (-1)); [contradiction|].
  destruct (Z.eqb_spec (parent nj) (-1)); [contradiction|].
  destruct (Z.eq_dec (parent ni) (parent nj)) as [Esame|Hdiff].
  { rewrite Esame. lia. }
  assert (Hdisj : forall x y nx ny, (x = ki \/ x = S ki) -> (y = kj \/ y = S kj) ->
                    nth_error tree x = Some nx -> nth_error tree y = Some ny -> x <> y).
  { intros x y nx ny Hx Hy Hnx Hny ->. rewrite Hnx in Hny. injection Hny as ->.
    assert (parent ny = parent ni) by (destruct Hx as [->| ->]; congruence).
    assert (parent ny = parent nj) by (destruct Hy as [->| ->]; congruence).
    congruence. }
  pose proof (Hdisj ki kj _ _ (or_introl eq_refl) (or_introl eq_refl) Hbi Hbj).
  pose proof (Hdisj ki (S kj) _ _ (or_introl eq_refl) (or_intror eq_refl) Hbi Haj).
  pose proof (Hdisj (S ki) kj _ _ (or_intror eq_refl) (or_introl eq_refl) Hai Hbj).
  assert (Hpair : (S ki < kj)%nat) by lia.
  assert (Hsum : freq pj < freq pi).
  { pose proof (Hdesc ki kj bi bj ltac:(lia) Hbi Hbj).
    pose proof (Hdesc ki (S kj) bi aj ltac:(lia) Hbi Haj).
    pose proof (Hdesc (S ki) kj ai bj ltac:(lia) Hai Hbj).
    pose proof (Hdesc (S ki) (S kj) ai aj ltac:(lia) Hai Haj).
    destruct Hki as [->| ->]; destruct Hkj as [->| ->];
      rewrite ?Hbi, ?Hai in Hi; rewrite ?Hbj, ?Haj in Hj;
      injection Hi as <-; injection Hj as <-; lia. }
  pose proof (IH (Z.to_nat (parent nj)) Hpjlt (Z.to_nat (parent ni)) pi pj Hpi Hpj Hsum).
  lia.
Qed.

(** In a tree whose parents carry a larger value than their children, the
    way from a node up to the root is no longer than the difference of the
    values. *)
Lemma depth_by_value data tree root :
  tree_ok data tree -> nth_error tree 0 = Some root ->
  (forall n, In n tree -> left n < value n /\ right n < value n) ->
  forall i n, nth_error tree i = Some n -> 256 <= value n ->
    edges_to_root tree i <= value root - value n.
Proof.
  intros Hok Hroot Hch.
  pose proof (tree_ok_decreasing _ _ Hok) as Hdec.
  induction i as [i IH] using lt_wf_ind. intros n Hn Hv.
  rewrite (edges_to_root_step _ _ _ Hdec Hn).
  destruct (Z.eqb_spec (parent n) (-1)) as [E|E].
  - destruct i as [|i]; [|pose proof (ok_parent _ _ Hok (S i) n Hn ltac:(lia)); lia].
    rewrite Hroot in Hn. injection Hn as <-. lia.
  - destruct i as [|i].
    { destruct (ok_root _ _ Hok) as (r & Hr & Hpr & _). congruence. }
    destruct (tree_ok_parent_refers _ _ _ _ Hok Hn ltac:(lia)) as (p & Hp & Href & Hvp & Hlt).
    specialize (IH _ Hlt p Hp Hvp).
    destruct (Hch p (nth_error_In _ _ Hp)) as (Hl & Hr).
    unfold refers_to in Href. apply orb_prop in Href.
    destruct Href as [H|H]; apply Z.eqb_eq in H; lia.
Qed.

Section General.
Context {std_sort : StdSort}.

Lemma single_symbol data c1 c2 :
  (length (occurring data) < 2)%nat -> In c1 data -> In c2 data -> byte_val c1 = byte_val c2.
Proof.
  intros Hone H1 H2.
  destruct (occurring_has data c1 H1) as (n1 & Hn1 & <-).
  destruct (occurring_has data c2 H2) as (n2 & Hn2 & <-).
  destruct (occurring data) as [|x [|y l]]; simpl in Hone; try lia.
  - destruct Hn1.
  - destruct Hn1 as [<-|[]]. destruct Hn2 as [<-|[]]. reflexivity.
Qed.

(** Of two input bytes, the one that occurs more often never has the
    longer code. *)
Lemma frequent_symbols_shorter data c1 c2 :
  In c1 data -> In c2 data ->
  occurrences (byte_val c2) data < occurrences (byte_val c1) data ->
  exists tree,
    build_node_tree data = Some tree /\
    edges_to_root tree (leaf_of tree c1) <= edges_to_root tree (leaf_of tree c2).
Proof.
  intros H1 H2 Hlt.
  destruct (Nat.lt_ge_cases (length (occurring data)) 2) as [Hone|Htwo].
  - rewrite (single_symbol data c1 c2 Hone H1 H2) in Hlt. lia.
  - destruct (build_node_tree_ordered data Htwo) as (tree & Ht & Hok & _ & Hdesc & _ & Hleaf).
    exists tree. split; [exact Ht|].
    destruct (Hleaf c1 H1) as (n1 & Hn1 & Hf1).
    destruct (Hleaf c2 H2) as (n2 & Hn2 & Hf2).
    apply (frequent_not_deeper data tree Hok Hdesc _ _ n1 n2 Hn1 Hn2). lia.
Qed.

(** No code is longer than the number of distinct symbols less one. *)
Lemma code_length_bound data c :
  In c data ->
  exists tree,
    build_node_tree data = Some tree /\
    1 <= edges_to_root tree (leaf_of tree c) <= Z.of_nat (distinct_symbols data) - 1.
Proof.
  intros Hc.
  destruct (build_node_tree_ok data) as (tree & Ht & Hok).
  exists tree. split; [exact Ht|].
  pose proof (leaf_below_root _ _ c Hok Hc) as Hlow. split; [exact Hlow|].
  pose proof (tree_ok_decreasing _ _ Hok) as Hdec.
  destruct (tree_ok_leaf_of _ _ c Hok Hc) as (n & Hn & Hv).
  destruct (Nat.lt_ge_cases (length (occurring data)) 2) as [Hone|Htwo].
  - (* three nodes *)
    assert (Hd : distinct_symbols data = 2%nat) by (unfold distinct_symbols; lia).
    pose proof (ok_length _ _ Hok) as Hl. rewrite Hd in Hl.
    pose proof (edges_to_root_le tree (leaf_of tree c) Hdec) as Hle.
    assert (Hi : (leaf_of tree c < length tree)%nat) by (apply nth_error_Some; congruence).
    rewrite Hd.
    rewrite (edges_to_root_step _ _ _ Hdec Hn) in *.
    destruct (Z.eqb_spec (parent n) (-1)); [lia|].
    destruct (leaf_of tree c) as [|j] eqn:El; [lia|].
    destruct (tree_ok_parent_refers _ _ _ _ Hok Hn ltac:(lia)) as (p & Hp & _ & Hvp & Hlt).
    pose proof (edges_to_root_le tree (Z.to_nat (parent n)) Hdec) as Hle'.
    assert (Hq : Z.to_nat (parent n) = O).
    { destruct (Z.to_nat (parent n)) as [|q] eqn:Eq; [reflexivity|].
      exfalso.
      destruct (ok_internal _ _ Hok _ _ Hp Hvp) as (k & b & a & _ & Hk & _ & Ha & _).
      assert (S k < length tree)%nat by (apply nth_error_Some; congruence). lia. }
    rewrite Hq in *.
    destruct (ok_root _ _ Hok) as (root & Hr & Hpr & _).
    rewrite (edges_to_root_step _ _ _ Hdec Hr), Hpr, Z.eqb_refl. lia.
  - destruct (build_node_tree_ordered data Htwo) as (tree' & Ht' & _ & _ & _ & Hval & _).
    rewrite Ht in Ht'. injection Ht' as <-.
    destruct (ok_root _ _ Hok) as (root & Hr & _ & _ & Hvr).
    rewrite (edges_to_root_step _ _ _ Hdec Hn) in *.
    destruct (Z.eqb_spec (parent n) (-1)); [lia|].
    destruct (leaf_of tree c) as [|j] eqn:El.
    { rewrite Hr in Hn. injection Hn as <-. pose proof (byte_val_range c). lia. }
    destruct (tree_ok_parent_refers _ _ _ _ Hok Hn ltac:(lia)) as (p & Hp & _ & Hvp & _).
    pose proof (depth_by_value data tree root Hok Hr (fun m Hm => proj2 (Hval m Hm))
                  _ p Hp Hvp) as Hdepth.
    destruct (Hval root (nth_error_In _ _ Hr)) as (Hbound & _). lia.
Qed.

End General.

End DepthFacts.

(** ** String literals *)

Module LiteralFacts.
Import Arr ArrFacts CharFacts Huffman Spec Codec Literal NodeListFacts BuildTreeFacts SizeFacts
       ObjectFacts ConstructFacts CompressorFacts DecodeInfoFacts.

Lemma container_of_array s : container_data (make_container s) = s.
Proof. unfold make_container. cbn [container_data]. apply copy_exact. Qed.

Lemma container_size_array s : container_size (make_container s) = length s.
Proof. unfold container_size. now rewrite container_of_array. Qed.

Lemma array_of_length chars : length (array_of chars) = S (length chars).
Proof. unfold array_of. rewrite length_app. simpl. lia. Qed.

(** The length of a literal without embedded zero is the number of its
    characters. *)
Lemma char_traits_length_literal chars :
  (forall c, In c chars -> byte_val c <> 0) ->
  char_traits_length (array_of chars) = Some (length chars).
Proof.
  intros Hnz. unfold char_traits_length.
  assert (E : find_if (fun c => byte_val c =? 0) (array_of chars) = length chars).
  { unfold array_of. induction chars as [|c l IH]; [reflexivity|].
    cbn [app find_if length].
    destruct (Z.eqb_spec (byte_val c) 0) as [E|E]; [exfalso; apply (Hnz c); simpl; auto|].
    f_equal. apply IH. intros c' Hc'. apply Hnz. now right. }
  rewrite E, array_of_length.
  destruct (Nat.ltb_spec (length chars) (S (length chars))); [reflexivity|lia].
Qed.

Lemma array_of_indexable chars :
  forallb indexable chars = true -> forallb indexable (array_of chars) = true.
Proof.
  intros H. unfold array_of. rewrite forallb_app, H. reflexivity.
Qed.

Section General.
Context {std_sort : StdSort}.

(** [operator ""_huffman] yields an object when every character can index
    the counters, and the loop over it yields the characters of the literal
    followed by the terminating zero. *)
Lemma literal_round_trip chars :
  forallb indexable chars = true ->
  (exists mem, literal_huffman chars = Constructed mem) /\
  literal_decode_all chars = Some (map byte_val chars ++ [0]).
Proof.
  intros Hidx. unfold literal_huffman, literal_decode_all.
  pose proof (indexable_tree_count _ (array_of_indexable chars Hidx)) as Hsmall.
  rewrite (array_of_indexable chars Hidx), container_of_array.
  assert (Hne : (0 < length (array_of chars))%nat) by (rewrite array_of_length; lia).
  split; [now apply compressor_construct_total|].
  rewrite (compressor_round_trip (array_of chars) Hne ltac:(lia)).
  unfold array_of. now rewrite map_app.
Qed.

(** A character that is negative as a plain [char]: no object. *)
Lemma literal_not_indexable chars :
  forallb indexable chars = false ->
  literal_huffman chars = NotConstant /\ literal_decode_all chars = None.
Proof.
  intros Hidx. unfold literal_huffman, literal_decode_all, array_of.
  rewrite forallb_app, Hidx. split; reflexivity.
Qed.

(** In raw mode the loop over a [huffman_compress] object yields the
    input; the increment that ends it has read the terminating zero, the
    element behind the input. *)
Lemma compress_decode_raw data data_length saved :
  char_traits_length data = Some data_length -> (0 < data_length)%nat ->
  forallb indexable (huffman_compress.input data data_length) = true ->
  bytes_saved (huffman_compress.input data data_length) = Some saved ->
  (saved >? 0) = false ->
  huffman_compress.decode_all data data_length =
    Some (map byte_val (huffman_compress.input data data_length)) /\
  exists o b,
    huffman_compress.construct data data_length = Constructed o /\
    huffman_compress.begin data saved o = Some b /\
    advance_n (huffman_compress.get_next data saved o) data_length b =
      Some (huffman_compress.mk_decode_info (data_length + 1) 0x80 0).
Proof.
  intros Hdefault Hpos Hidx Hsaved Hmode.
  pose proof (char_traits_length_inside data data_length Hdefault) as Hlen.
  destruct (sizes_defined (huffman_compress.input data data_length))
    as (first & bits & saved' & Hinfo & _ & Hsaved').
  destruct (compress_construct_total data data_length data_length ltac:(lia)
              Hdefault Hpos Hidx) as (o & Hcon).
  split.
  - unfold huffman_compress.decode_all. rewrite Hsaved, Hinfo, Hcon.
    rewrite (raw_iterate data data_length saved _ _ Hmode Hdefault Hpos).
    now rewrite (indexable_map _ Hidx).
  - destruct (raw_reaches_end data data_length saved o Hmode Hdefault) as (b & Hb & Hadv).
    exists o, b. auto.
Qed.

(** With [data_length] left to its default the loop stays inside the
    array. *)
Lemma default_length_decode data n :
  char_traits_length data = Some n -> (0 < n)%nat ->
  forallb indexable (huffman_compress.input data n) = true ->
  exists saved,
    bytes_saved (huffman_compress.input data n) = Some saved /\
    default_length_decode_all data =
    Some (if saved >? 0
          then removelast (map byte_val (huffman_compress.input data n))
          else map byte_val (huffman_compress.input data n)).
Proof.
  intros Hn Hpos Hidx.
  destruct (compress_decode_all data n Hn Hpos Hidx) as (saved & Hsaved & Hdec).
  exists saved. split; [exact Hsaved|].
  unfold default_length_decode_all. now rewrite Hn, Hdec.
Qed.

End General.

End LiteralFacts.

(** ** The layout of a compressed object *)

Module LayoutFacts.
Import Arr ArrFacts Huffman Spec Codec NodeListFacts BuildTreeFacts SizeFacts EncoderFacts
       ObjectFacts ConstructFacts CodeFacts PayloadFacts TableFacts CompressorFacts.

(** An entry of the table of a tree of at most 256 nodes: a leaf entry
    holds the byte value and two zero offsets, a parent entry holds 0 and
    two offsets that lead to the entries of the nodes it names. *)
Lemma table_entry data tree table mem i n :
  tree_ok data tree -> (length tree <= 256)%nat -> holds_table tree table mem ->
  nth_error tree i = Some n ->
  exists v l r,
    nth_error mem (table + i * 3) = Some v /\
    nth_error mem (table + i * 3 + 1) = Some l /\
    nth_error mem (table + i * 3 + 2) = Some r /\
    (l =? 0) = (value n <? 256) /\
    (value n < 256 -> v = value n /\ l = 0 /\ r = 0) /\
    (256 <= value n ->
       v = 0 /\ 0 < l < 256 /\ 0 < r < 256 /\
       exists nl nr,
         nth_error tree (i + Z.to_nat l) = Some nl /\ value nl = left n /\
         nth_error tree (i + Z.to_nat r) = Some nr /\ value nr = right n).
Proof.
  intros Hok Hsmall Htab Hn.
  destruct (Htab i n Hn) as (jl & jr & Hjl & Hjr & Hv & Hl & Hr).
  exists (if value n <=? 0xFF then value n else 0),
         (offset_byte (length tree) i jl), (offset_byte (length tree) i jr).
  split; [exact Hv|]. split; [exact Hl|]. split; [exact Hr|].
  destruct (Z.ltb_spec (value n) 256) as [Hleaf|Hint].
  - destruct (left_offset_leaf _ _ _ _ Hok Hn Hleaf) as (El & Er).
    rewrite El in Hjl. rewrite Er in Hjr. injection Hjl as <-. injection Hjr as <-.
    rewrite offset_byte_end. split; [reflexivity|]. split; [|lia].
    intros _. destruct (Z.leb_spec (value n) 255); [auto|lia].
  - destruct (left_offset_internal _ _ _ _ Hok Hn Hint) as (jl' & jr' & El & Er & Hrl & Hrr).
    rewrite El in Hjl. rewrite Er in Hjr. injection Hjl as <-. injection Hjr as <-.
    rewrite !offset_byte_exact by lia.
    split; [apply Z.eqb_neq; lia|]. split; [lia|]. intros _.
    destruct (Z.leb_spec (value n) 255); [lia|].
    split; [reflexivity|]. split; [lia|]. split; [lia|].
    unfold child_index in El, Er.
    destruct (find_child_hit _ _ _ _ _ El) as (nl & Hnl & Hvl); [lia|].
    destruct (find_child_hit _ _ _ _ _ Er) as (nr & Hnr & Hvr); [lia|].
    exists nl, nr.
    replace (i + Z.to_nat (Z.of_nat jl' - Z.of_nat i))%nat with jl' by lia.
    replace (i + Z.to_nat (Z.of_nat jr' - Z.of_nat i))%nat with jr' by lia.
    auto.
Qed.

Section General.
Context {std_sort : StdSort}.

(** The table [build_decode_tree] writes for a tree of at most 256
    nodes. *)
Lemma build_decode_tree_entries data tree base a a' i n :
  build_node_tree data = Some tree -> (tree_count data <= 256)%nat ->
  (base + 3 * tree_count data <= length a)%nat ->
  build_decode_tree data base a = Some a' ->
  nth_error tree i = Some n ->
  exists v l r,
    nth_error a' (base + i * 3) = Some v /\
    nth_error a' (base + i * 3 + 1) = Some l /\
    nth_error a' (base + i * 3 + 2) = Some r /\
    (l =? 0) = (value n <? 256) /\
    (value n < 256 -> v = value n /\ l = 0 /\ r = 0) /\
    (256 <= value n ->
       v = 0 /\ 0 < l < 256 /\ 0 < r < 256 /\
       exists nl nr,
         nth_error tree (i + Z.to_nat l) = Some nl /\ value nl = left n /\
         nth_error tree (i + Z.to_nat r) = Some nr /\ value nr = right n).
Proof.
  intros Ht Hsmall Hroom Hrun Hn.
  destruct (build_node_tree_ok data) as (tree' & Ht' & Hok).
  rewrite Ht in Ht'. injection Ht' as <-.
  pose proof (build_node_tree_length data tree Ht) as Hlen.
  destruct (build_decode_tree_spec data tree base a Ht Hok) as (a'' & Ha'' & _ & Htab & _);
    [lia|].
  rewrite Hrun in Ha''. injection Ha'' as <-.
  apply (table_entry data tree base a' i n Hok); [lia|exact Htab|exact Hn].
Qed.

(** The object built in compressed mode: the payload, whose bits are the
    codes of the input bytes in input order followed by zero bits, and
    behind it the decode table. *)
Lemma compressed_construct raw_data tree first bits saved :
  build_node_tree raw_data = Some tree ->
  compressed_size_info raw_data = Some (first, bits) ->
  bytes_saved raw_data = Some saved -> (saved >? 0) = true ->
  (0 < length raw_data)%nat ->
  exists mem,
    huffman_compressor.construct raw_data = Constructed mem /\
    length mem = Z.to_nat (first + 3 * Z.of_nat (tree_count raw_data)) /\
    holds_table tree (Z.to_nat first) mem /\
    (forall x, 0 <= x < 8 * first ->
       bit_at mem x = nth (Z.to_nat x) (stream tree raw_data) false).
Proof.
  intros Ht Hinfo Hsaved Hmode Hne.
  destruct (build_node_tree_ok raw_data) as (tree' & Ht' & Hok).
  rewrite Ht in Ht'. injection Ht' as <-.
  destruct (compressed_layout raw_data tree first bits Ht Hok Hinfo)
    as (table & mem & Htable & Hmem & Hlm & Htab & Hbits).
  exists mem. unfold huffman_compressor.construct.
  rewrite Hsaved, Hinfo, Hmode, Htable, Hmem.
  destruct (Nat.eqb_spec (length raw_data) 0); [lia|]. auto.
Qed.

End General.

End LayoutFacts.

(** ** The earlier revision: its working list and its merge loop *)

Module EarlierListFacts.
Import Arr ArrFacts Huffman Spec Codec NodeListFacts MergeFacts TreeFacts BuildTreeFacts
       OrderFacts.

Lemma firstn_exact {A} (l l' : list A) : firstn (length l) (l ++ l') = l.
Proof. induction l as [|x l IH]; simpl; [now destruct l'|]. now rewrite IH. Qed.

Lemma skipn_exact {A} (l l' : list A) : skipn (length l) (l ++ l') = l'.
Proof. induction l as [|x l IH]; simpl; [reflexivity|exact IH]. Qed.

(** The three array moves of one turn of the loop: the parent goes in at
    the insertion point and the first two nodes go out. *)
Lemma list_turn {A} (d l0 l1 new_node : A) (front back zeros : list A) :
  exists a1 a2 a3 a4,
    huffman_compress_earlier.copy_backward_by_one (2 + length front)
      (2 + length front + length back) (l0 :: l1 :: front ++ back ++ d :: zeros) = Some a1 /\
    store (2 + length front) new_node a1 = Some a2 /\
    huffman_compress_earlier.copy_down_by_two (2 + length front + length back + 1) a2
      = Some a3 /\
    store (2 + length front + length back - 1) d a3 = Some a4 /\
    store (2 + length front + length back) d a4 =
      Some (front ++ new_node :: back ++ d :: d :: zeros).
Proof.
  set (P := l0 :: l1 :: front).
  assert (HP : length P = (2 + length front)%nat) by reflexivity.
  assert (Elist : l0 :: l1 :: front ++ back ++ d :: zeros = P ++ back ++ d :: zeros)
    by reflexivity.
  rewrite Elist, <- HP.
  (* after the insertion *)
  assert (H12 : exists a1,
            huffman_compress_earlier.copy_backward_by_one (length P) (length P + length back)
              (P ++ back ++ d :: zeros) = Some a1 /\
            store (length P) new_node a1 = Some (P ++ new_node :: back ++ zeros)).
  { unfold huffman_compress_earlier.copy_backward_by_one.
    destruct back as [|b back'].
    - cbn [length]. rewrite Nat.add_0_r, Nat.eqb_refl. eexists. split; [reflexivity|].
      cbn [app]. apply store_middle.
    - destruct (Nat.eqb_spec (length P) (length P + length (b :: back')));
        [cbn [length] in *; lia|].
      destruct (Nat.ltb_spec (length P) (length P + length (b :: back')));
        [|cbn [length] in *; lia].
      destruct (Nat.ltb_spec (length P + length (b :: back'))
                             (length (P ++ (b :: back') ++ d :: zeros)));
        [|rewrite !length_app in *; cbn [length] in *; lia].
      cbn [andb]. eexists. split; [reflexivity|].
      replace (S (length P)) with (length (P ++ [b])) by (rewrite length_app; simpl; lia).
      replace (P ++ (b :: back') ++ d :: zeros) with ((P ++ [b]) ++ back' ++ d :: zeros)
        at 1 by (rewrite <- app_assoc; reflexivity).
      rewrite firstn_exact, skipn_exact.
      replace (length P + length (b :: back') - length P)%nat with (length (b :: back')) by lia.
      rewrite firstn_exact.
      replace (S (length P + length (b :: back')))
        with (length (P ++ (b :: back') ++ [d]))
        by (rewrite !length_app; cbn [length]; lia).
      replace (P ++ (b :: back') ++ d :: zeros) with ((P ++ (b :: back') ++ [d]) ++ zeros)
        by (rewrite <- !app_assoc; reflexivity).
      rewrite skipn_exact.
      replace ((P ++ [b]) ++ (b :: back') ++ zeros) with (P ++ b :: (b :: back') ++ zeros)
        by (rewrite <- app_assoc; reflexivity).
      apply store_middle. }
  destruct H12 as (a1 & H1 & H2).
  set (R := front ++ new_node :: back).
  assert (HR : length R = (length front + length back + 1)%nat).
  { subst R. rewrite length_app. cbn [length]. lia. }
  assert (Ea2 : P ++ new_node :: back ++ zeros = l0 :: l1 :: R ++ zeros).
  { subst P R. cbn [app]. rewrite <- app_assoc. reflexivity. }
  rewrite Ea2 in H2.
  (* the two nodes behind the list *)
  assert (Htail : exists x y, skipn (length R) (l0 :: l1 :: R ++ zeros) = x :: y :: zeros).
  { clear. revert l0 l1. induction R as [|r R IH]; intros l0 l1.
    - exists l0, l1. reflexivity.
    - cbn [length skipn app]. apply IH. }
  destruct Htail as (x & y & Htail).
  exists a1, (l0 :: l1 :: R ++ zeros), (R ++ x :: y :: zeros), (R ++ d :: y :: zeros).
  split; [exact H1|]. split; [exact H2|]. split; [|split].
  - (* the move to the front *)
    unfold huffman_compress_earlier.copy_down_by_two.
    replace (length P + length back + 1)%nat with (length R + 2)%nat by lia.
    destruct (Nat.leb_spec 2 (length R + 2)); [|lia].
    destruct (Nat.leb_spec (length R + 2) (length (l0 :: l1 :: R ++ zeros)));
      [|cbn [length] in *; rewrite length_app in *; lia].
    cbn [andb]. f_equal.
    replace (length R + 2 - 2)%nat with (length R) by lia.
    cbn [skipn]. rewrite firstn_exact. f_equal. exact Htail.
  - replace (length P + length back - 1)%nat with (length R) by lia.
    apply store_middle.
  - replace (length P + length back)%nat with (length (R ++ [d]))
      by (rewrite length_app; cbn [length]; lia).
    replace (R ++ d :: y :: zeros) with ((R ++ [d]) ++ y :: zeros)
      by (rewrite <- app_assoc; reflexivity).
    rewrite store_middle. f_equal. subst R. rewrite <- !app_assoc. reflexivity.
Qed.

(** The scan for the insertion point passes the two nodes at the front and
    ends where [std::find_if] ends in the later revisions. *)
Lemma insertion_scan new_freq rest zeros :
  (forall n, In n rest -> 0 < freq n) ->
  forall fuel k pre,
    (length rest - k < fuel)%nat -> (k <= find_if (fun n => freq n >=? new_freq) rest)%nat ->
    (k <= length pre)%nat ->
    huffman_compress_earlier.insertion_loop fuel
      (pre ++ skipn k rest ++ node_default :: zeros) new_freq (length pre) =
    Some (length pre - k + find_if (fun n => freq n >=? new_freq) rest)%nat.
Proof.
  intros Hpos fuel. induction fuel as [|fuel IH]; intros k pre Hfuel Hk Hpre; [lia|].
  cbn [huffman_compress_earlier.insertion_loop].
  rewrite nth_error_app2, Nat.sub_diag by lia.
  destruct (skipn k rest) as [|x r] eqn:Es.
  - cbn [app nth_error]. cbn [freq node_default]. cbn [Z.eqb negb andb].
    assert (length rest <= k)%nat.
    { destruct (Nat.le_gt_cases (length rest) k); [assumption|].
      assert (length (skipn k rest) = (length rest - k)%nat) by apply length_skipn.
      rewrite Es in *. cbn [length] in *. lia. }
    pose proof (find_if_le (fun n => freq n >=? new_freq) rest). f_equal. lia.
  - cbn [app nth_error].
    assert (Hx : nth_error rest k = Some x).
    { rewrite <- (firstn_skipn k rest) at 1. rewrite Es.
      assert (Hl : length (firstn k rest) = k).
      { rewrite length_firstn.
        assert (length (skipn k rest) = (length rest - k)%nat) by apply length_skipn.
        rewrite Es in *. cbn [length] in *. lia. }
      rewrite nth_error_app2, Hl, Nat.sub_diag by lia. reflexivity. }
    assert (Hin : In x rest) by (eapply nth_error_In; eauto).
    pose proof (Hpos x Hin) as Hfx.
    destruct (Z.eqb_spec (freq x) 0); [lia|]. cbn [negb andb].
    destruct (Z.ltb_spec (freq x) new_freq) as [Hlt|Hge].
    + assert (Hk' : (S k <= find_if (fun n => freq n >=? new_freq) rest)%nat).
      { destruct (Nat.eq_dec k (find_if (fun n => freq n >=? new_freq) rest)) as [E|E]; [|lia].
        exfalso.
        destruct (find_if_found (fun n => freq n >=? new_freq) rest) as (y & Hy & Hp).
        { rewrite <- E. apply nth_error_Some. congruence. }
        rewrite <- E, Hx in Hy. injection Hy as <-.
        apply Z.geb_le in Hp. lia. }
      assert (Es' : skipn (S k) rest = r).
      { replace (S k) with (1 + k)%nat by lia. rewrite <- skipn_skipn, Es. reflexivity. }
      specialize (IH (S k) (pre ++ [x])).
      rewrite Es', length_app in IH. cbn [length] in IH.
      rewrite <- app_assoc in IH. cbn [app] in IH.
      replace (S (length pre)) with (length pre + 1)%nat by lia.
      rewrite IH; [f_equal; lia| | |lia].
      * assert (length (skipn k rest) = (length rest - k)%nat) by apply length_skipn.
        rewrite Es in *. cbn [length] in *. lia.
      * exact Hk'.
    + f_equal.
      assert (find_if (fun n => freq n >=? new_freq) rest <= k)%nat; [|lia].
      destruct (Nat.le_gt_cases (find_if (fun n => freq n >=? new_freq) rest) k); [assumption|].
      exfalso.
      pose proof (find_if_first (fun n => freq n >=? new_freq) rest k x Hx ltac:(lia)) as Hp.
      cbv beta in Hp. destruct (Z.geb_spec (freq x) new_freq); [discriminate|lia].
Qed.

(** The scan starts at the front of the list: the two nodes about to be
    merged are lighter than their parent and are passed. *)
Lemma insertion_point_spec l0 l1 rest zeros new_freq :
  (forall n, In n (l0 :: l1 :: rest) -> 0 < freq n) ->
  freq l0 < new_freq -> freq l1 < new_freq ->
  huffman_compress_earlier.insertion_loop
    (length (l0 :: l1 :: rest ++ node_default :: zeros))
    (l0 :: l1 :: rest ++ node_default :: zeros) new_freq 0 =
  Some (2 + find_if (fun n => freq n >=? new_freq) rest)%nat.
Proof.
  intros Hpos H0 H1.
  pose proof (Hpos l0 (or_introl eq_refl)) as P0.
  pose proof (Hpos l1 (or_intror (or_introl eq_refl))) as P1.
  cbn [length]. cbn [huffman_compress_earlier.insertion_loop nth_error].
  destruct (Z.eqb_spec (freq l0) 0); [lia|].
  destruct (Z.ltb_spec (freq l0) new_freq); [|lia]. cbn [negb andb].
  destruct (Z.eqb_spec (freq l1) 0); [lia|].
  destruct (Z.ltb_spec (freq l1) new_freq); [|lia]. cbn [negb andb].
  pose proof (insertion_scan new_freq rest zeros
                (fun n Hn => Hpos n (or_intror (or_intror Hn)))
                (length (rest ++ node_default :: zeros)) 0 [l0; l1]) as Hs.
  cbn [skipn app length] in Hs. rewrite Hs; [f_equal; lia| |lia|lia].
  rewrite length_app. cbn [length]. lia.
Qed.

Lemma list_turn_at {A} (d l0 l1 new_node : A) ip rest zeros :
  (ip <= length rest)%nat ->
  exists a1 a2 a3 a4,
    huffman_compress_earlier.copy_backward_by_one (2 + ip) (S (S (length rest)))
      (l0 :: l1 :: rest ++ d :: zeros) = Some a1 /\
    store (2 + ip) new_node a1 = Some a2 /\
    huffman_compress_earlier.copy_down_by_two (S (S (length rest)) + 1) a2 = Some a3 /\
    store (S (length rest)) d a3 = Some a4 /\
    store (S (S (length rest))) d a4 =
      Some ((firstn ip rest ++ new_node :: skipn ip rest) ++ d :: d :: zeros).
Proof.
  intros Hle.
  destruct (list_turn d l0 l1 new_node (firstn ip rest) (skipn ip rest) zeros)
    as (a1 & a2 & a3 & a4 & H1 & H2 & H3 & H4 & H5).
  assert (E1 : length (firstn ip rest) = ip) by (rewrite length_firstn; lia).
  assert (E2 : length (skipn ip rest) = (length rest - ip)%nat) by apply length_skipn.
  rewrite E1, E2 in *.
  assert (Erest : firstn ip rest ++ skipn ip rest ++ d :: zeros = rest ++ d :: zeros)
    by (rewrite app_assoc, firstn_skipn; reflexivity).
  rewrite Erest in H1.
  replace (2 + ip + (length rest - ip))%nat with (S (S (length rest))) in * by lia.
  replace (S (S (length rest)) - 1)%nat with (S (length rest)) in * by lia.
  exists a1, a2, a3, a4. repeat split; try assumption.
  rewrite H5. f_equal. rewrite <- app_assoc. reflexivity.
Qed.

Lemma total_freq_nonneg l : (forall m, In m l -> 0 < freq m) -> 0 <= total_freq l.
Proof.
  induction l as [|y l IH]; intros Hpos; [cbn; lia|].
  cbn [total_freq fold_right]. fold (total_freq l).
  pose proof (Hpos y (or_introl eq_refl)).
  assert (0 <= total_freq l); [|lia].
  apply IH. intros m Hm. apply Hpos. now right.
Qed.

(** One turn of the loop of this revision. *)
Lemma earlier_turn fe l0 l1 rest zeros tree tb next :
  (forall n, In n (l0 :: l1 :: rest) -> 0 < freq n) ->
  total_freq (l0 :: l1 :: rest) < 2 ^ 64 ->
  huffman_compress_earlier.merge_loop (S fe) (l0 :: l1 :: rest ++ node_default :: zeros) tree
    (S (S (length rest))) tb next =
  match tb with
  | S (S tb') =>
      tree <- store (S tb') l0 tree ;;
      tree <- store tb' l1 tree ;;
      huffman_compress_earlier.merge_loop fe
        (reinsert (new_parent next l0 l1) rest ++ node_default :: node_default :: zeros)
        tree (S (length rest)) tb' (next + 1)
  | _ => None
  end.
Proof.
  intros Hpos Htot.
  pose proof (Hpos l0 (or_introl eq_refl)) as P0.
  pose proof (Hpos l1 (or_intror (or_introl eq_refl))) as P1.
  assert (Hsum : freq l0 + freq l1 <= total_freq (l0 :: l1 :: rest)).
  { cbn [total_freq fold_right]. fold (total_freq rest).
    assert (0 <= total_freq rest); [|lia].
    apply total_freq_nonneg. intros m Hm. apply Hpos. right. now right. }
  assert (Ewrap : to_unsigned_long (freq l0 + freq l1) = freq l0 + freq l1)
    by (unfold to_unsigned_long; apply Z.mod_small; lia).
  cbn [huffman_compress_earlier.merge_loop nth_error].
  destruct (Z.eqb_spec (freq l1) 0); [lia|].
  rewrite Ewrap. fold (new_parent next l0 l1).
  destruct tb as [|[|tb]]; try reflexivity.
  destruct (store (S tb) l0 tree) as [tree1|]; [|reflexivity].
  destruct (store tb l1 tree1) as [tree2|]; [|reflexivity].
  pose proof (insertion_point_spec l0 l1 rest zeros (freq (new_parent next l0 l1)) Hpos) as Hip.
  rewrite Hip by (cbn [freq new_parent]; lia).
  set (new_node := new_parent next l0 l1).
  set (ip := find_if (fun n => freq n >=? freq new_node) rest).
  assert (Hle : (ip <= length rest)%nat) by apply find_if_le.
  destruct (list_turn_at node_default l0 l1 new_node ip rest zeros Hle)
    as (a1 & a2 & a3 & a4 & H1 & H2 & H3 & H4 & H5).
  rewrite H1, H2, H3. cbn [Nat.eqb].
  replace (S (S (length rest)) - 1)%nat with (S (length rest)) by lia.
  rewrite H4, H5. reflexivity.
Qed.

(** The loop of this revision and the loop of the later revisions make the
    same moves: the working list of the one is the valid part of the table
    of the other, and the trees are equal. *)
Lemma merge_loops_agree k :
  forall nodes zeros tree tb next fe fl,
    length nodes = S (S k) -> (k < fe)%nat -> (k < fl)%nat ->
    (forall n, In n nodes -> 0 < freq n) -> total_freq nodes < 2 ^ 64 ->
    match merge_loop fl nodes tree tb next with
    | Some (nl, t) =>
        exists root zs,
          nl = [root] /\
          huffman_compress_earlier.merge_loop fe (nodes ++ node_default :: zeros) tree
            (length nodes) tb next = Some (root :: node_default :: zs, t)
    | None =>
        huffman_compress_earlier.merge_loop fe (nodes ++ node_default :: zeros) tree
          (length nodes) tb next = None
    end.
Proof.
  induction k as [|k IH]; intros nodes zeros tree tb next fe fl Hlen Hfe Hfl Hpos Htot.
  all: destruct nodes as [|l0 [|l1 rest]]; cbn [length] in Hlen; try lia.
  all: destruct fe as [|fe]; [lia|]; destruct fl as [|fl]; [lia|].
  all: cbn [app length]; rewrite (earlier_turn fe l0 l1 rest zeros tree tb next Hpos Htot).
  all: cbn [merge_loop].
  all: destruct tb as [|[|tb]]; try reflexivity.
  all: destruct (store (S tb) l0 tree) as [tree1|]; [|reflexivity].
  all: destruct (store tb l1 tree1) as [tree2|]; [|reflexivity].
  all: fold (new_parent next l0 l1).
  - (* two nodes: the last turn *)
    destruct rest; [|cbn [length] in Hlen; lia].
    exists (new_parent next l0 l1), (node_default :: zeros). split; [reflexivity|].
    rewrite reinsert_nil. destruct fe; reflexivity.
  - destruct rest as [|l2 rest']; [cbn [length] in Hlen; lia|].
    set (rest := l2 :: rest') in *.
    fold (reinsert (new_parent next l0 l1) rest).
    pose proof (reinsert_length (new_parent next l0 l1) rest) as Hrl.
    pose proof (reinsert_perm (new_parent next l0 l1) rest) as Hperm.
    pose proof (Hpos l0 (or_introl eq_refl)) as P0.
    pose proof (Hpos l1 (or_intror (or_introl eq_refl))) as P1.
    specialize (IH (reinsert (new_parent next l0 l1) rest) (node_default :: zeros)
                  tree2 tb (next + 1) fe fl).
    rewrite Hrl in IH. apply IH.
    + subst rest. cbn [length] in *. lia.
    + lia.
    + lia.
    + intros n Hn. apply (Permutation_in _ Hperm) in Hn. destruct Hn as [<-|Hn].
      * cbn [freq new_parent]. lia.
      * apply Hpos. right. now right.
    + rewrite (total_freq_perm _ _ Hperm).
      cbn [total_freq fold_right] in *. cbn [freq new_parent]. lia.
Qed.

End EarlierListFacts.

(** ** The earlier revision: its tree is the tree of the later revisions *)

Module EarlierTreeFacts.
Import Arr ArrFacts Huffman Spec Codec NodeListFacts MergeFacts TreeFacts BuildTreeFacts
       OrderFacts EarlierListFacts.

(** The scan for the end of the list stops at the first default node. *)
Lemma count_loop_stops occ zeros :
  (forall n, In n occ -> freq n <> 0) ->
  forall fuel i, (i <= length occ)%nat -> (length occ - i <= fuel)%nat ->
    huffman_compress_earlier.count_loop fuel (occ ++ node_default :: zeros) i =
    Some (length occ).
Proof.
  intros Hnz fuel. induction fuel as [|fuel IH]; intros i Hi Hfuel.
  - assert (i = length occ) by lia. subst i.
    cbn [huffman_compress_earlier.count_loop].
    rewrite nth_error_app2, Nat.sub_diag by lia. reflexivity.
  - cbn [huffman_compress_earlier.count_loop].
    destruct (Nat.eq_dec i (length occ)) as [->|Hne].
    + rewrite nth_error_app2, Nat.sub_diag by lia. reflexivity.
    + rewrite nth_error_app1 by lia.
      destruct (nth_error occ i) as [n|] eqn:En.
      * apply nth_error_In in En. apply Hnz in En.
        destruct (Z.eqb_spec (freq n) 0); [contradiction|].
        apply IH; lia.
      * apply nth_error_None in En. lia.
Qed.


Section General.
Context {std_sort : StdSort}.
Variables (data : list byte) (data_length : nat).

Local Abbreviation input := (huffman_compress_earlier.input data data_length).
Local Abbreviation valid :=
  (filter (fun n => negb (freq n =? 0)) (sort (frequency_table input))).

Lemma valid_perm : Permutation valid (occurring input).
Proof. apply Permutation_filter, sort_permutation. Qed.

Lemma valid_length : length valid = length (occurring input).
Proof. apply Permutation_length, valid_perm. Qed.

Lemma valid_positive n : In n valid -> 0 < freq n.
Proof.
  intros Hn. apply (Permutation_in _ valid_perm) in Hn.
  destruct (occurring_freq input n Hn). lia.
Qed.

Lemma valid_total : total_freq valid = Z.of_nat (length input).
Proof.
  rewrite (total_freq_perm _ _ valid_perm).
  unfold occurring. rewrite total_freq_filter. apply total_freq_table.
Qed.

Lemma sorted_table_length : length (sort (frequency_table input)) = 256%nat.
Proof.
  rewrite (Permutation_length (sort_permutation _)).
  unfold frequency_table. rewrite length_map. apply length_seq.
Qed.

Lemma valid_skip :
  skipn (find_if (fun n => negb (freq n =? 0)) (sort (frequency_table input)))
        (sort (frequency_table input)) = valid.
Proof.
  apply skip_zero_counters; [apply sort_ordered|].
  eapply Permutation_Forall; [symmetry; apply sort_permutation|].
  apply frequency_table_nonneg.
Qed.

(** The table of the later revisions is cut to the valid nodes (two at
    least); the table of this revision keeps its 256 entries. *)
Lemma later_node_list :
  build_node_list input = valid ++ repeat node_default (2 - length valid).
Proof.
  unfold build_node_list. rewrite counted.
  set (l := sort (frequency_table input)).
  rewrite <- (length_skipn (find_if _ l) l). subst l. rewrite valid_skip.
  unfold copy. f_equal. rewrite skipn_repeat. f_equal.
  destruct (Nat.ltb_spec (length valid) 2); lia.
Qed.

(** [build_node_list] gives no list when the input does not lie inside
    the array or holds a byte that is negative as a [char]. *)
Lemma earlier_node_list_cases :
  huffman_compress_earlier.build_node_list data data_length =
  if (length data <? data_length)%nat then None
  else if negb (forallb indexable input) then None
  else Some (valid ++ repeat node_default (256 - length valid)).
Proof.
  unfold huffman_compress_earlier.build_node_list.
  destruct (length data <? data_length)%nat; [reflexivity|].
  destruct (forallb indexable input); [|reflexivity]. cbn [negb].
  rewrite counted. f_equal.
  pose proof sorted_table_length as Hlen.
  pose proof valid_skip as Hskip.
  set (l := sort (frequency_table input)) in *.
  set (fv := find_if (fun n => negb (freq n =? 0)) l) in *.
  assert (Hfv : (fv <= length l)%nat) by apply find_if_le.
  unfold copy. rewrite Hskip.
  set (occ := filter (fun n => negb (freq n =? 0)) l) in *.
  assert (Hv : length occ = (length l - fv)%nat).
  { rewrite <- Hskip. apply length_skipn. }
  rewrite <- Hv. rewrite firstn_exact. f_equal. f_equal.
  rewrite length_app, length_skipn. lia.
Qed.

Lemma earlier_node_list :
  (data_length <= length data)%nat -> forallb indexable input = true ->
  huffman_compress_earlier.build_node_list data data_length =
  Some (valid ++ repeat node_default (256 - length valid)).
Proof.
  intros Hin Hidx. rewrite earlier_node_list_cases, Hidx.
  destruct (Nat.ltb_spec (length data) data_length); [lia|reflexivity].
Qed.

Lemma valid_bound : (length valid <= 256)%nat.
Proof.
  rewrite <- sorted_table_length. apply filter_length_le.
Qed.

Lemma valid_nonzero n : In n valid -> freq n <> 0.
Proof. intros Hn. apply valid_positive in Hn. lia. Qed.

(** [node_count]: the number of distinct symbols, as long as a default node
    is left to stop at. *)
Lemma node_count_spec :
  (data_length <= length data)%nat -> forallb indexable input = true ->
  (length (occurring input) < 256)%nat ->
  huffman_compress_earlier.node_count data data_length = Some (length (occurring input)).
Proof.
  intros Hin Hidx Hlt. unfold huffman_compress_earlier.node_count.
  rewrite (earlier_node_list Hin Hidx), <- valid_length in *.
  destruct (256 - length valid)%nat as [|m] eqn:Em; [lia|].
  cbn [repeat]. apply count_loop_stops; [apply valid_nonzero|lia|lia].
Qed.


Lemma earlier_tree_count :
  (data_length <= length data)%nat -> forallb indexable input = true ->
  (1 <= length (occurring input) < 256)%nat ->
  huffman_compress_earlier.tree_count data data_length =
  Some (Z.of_nat (length (occurring input) * 2 - 1)).
Proof.
  intros Hin Hidx Hn. unfold huffman_compress_earlier.tree_count.
  rewrite (node_count_spec Hin Hidx) by lia. f_equal.
  unfold to_unsigned_long. rewrite Z.mod_small; lia.
Qed.

Lemma new_nodes_small count :
  (count < 512)%nat ->
  huffman_compress_earlier.new_nodes (Z.of_nat count) = Some (repeat node_default count).
Proof.
  intros Hc. unfold huffman_compress_earlier.new_nodes.
  destruct (Z.ltb_spec (Z.of_nat count * 32) (2 ^ 64)); [|lia].
  now rewrite Nat2Z.id.
Qed.

(** For two to 255 distinct symbols the tree is the tree the later
    revisions build. *)
Lemma build_node_tree_agrees :
  (data_length <= length data)%nat -> forallb indexable input = true ->
  (2 <= length (occurring input) < 256)%nat -> Z.of_nat (length input) < 2 ^ 64 ->
  huffman_compress_earlier.build_node_tree data data_length = build_node_tree input.
Proof.
  intros Hin Hidx Hn Hsize.
  unfold huffman_compress_earlier.build_node_tree.
  rewrite (earlier_node_list Hin Hidx).
  rewrite (earlier_tree_count Hin Hidx) by lia. rewrite new_nodes_small by lia.
  rewrite (node_count_spec Hin Hidx) by lia.
  rewrite build_node_tree_unfold, later_node_list.
  pose proof valid_length as Hvl. pose proof valid_positive as Hpos.
  pose proof valid_total as Htot.
  set (occ := valid) in *. clearbody occ.
  rewrite <- Hvl in *.
  replace (2 - length occ)%nat with O by lia. cbn [repeat]. rewrite app_nil_r.
  destruct (256 - length occ)%nat as [|m] eqn:Em; [lia|]. cbn [repeat].
  unfold tree_from. rewrite !repeat_length.
  pose proof (merge_loops_agree (length occ - 2) occ (repeat node_default m)
                (repeat node_default (length occ * 2 - 1)) (length occ * 2 - 1) 0x100
                (length (occ ++ node_default :: repeat node_default m)) (length occ)) as Hag.
  destruct (merge_loop (length occ) occ (repeat node_default (length occ * 2 - 1))
              (length occ * 2 - 1) 0x100) as [[nl t]|].
  - destruct Hag as (root & zs & -> & ->); try lia; try assumption.
    + rewrite length_app. cbn [length]. lia.
    + reflexivity.
  - rewrite Hag; try lia; try assumption; [reflexivity|].
    rewrite length_app. cbn [length]. lia.
Qed.

Lemma later_tree_count :
  (2 <= length (occurring input))%nat ->
  tree_count input = (length (occurring input) * 2 - 1)%nat.
Proof. intros Hn. rewrite tree_count_spec. unfold distinct_symbols. lia. Qed.

Lemma output_size_agrees :
  (data_length <= length data)%nat -> forallb indexable input = true ->
  (2 <= length (occurring input) < 256)%nat -> Z.of_nat (length input) < 2 ^ 64 ->
  huffman_compress_earlier.output_size data data_length = compressed_size_info input.
Proof.
  intros Hin Hidx Hn Hsize.
  unfold huffman_compress_earlier.output_size, compressed_size_info.
  now rewrite (build_node_tree_agrees Hin Hidx Hn Hsize).
Qed.

Lemma compress_agrees a :
  (data_length <= length data)%nat -> forallb indexable input = true ->
  (2 <= length (occurring input) < 256)%nat -> Z.of_nat (length input) < 2 ^ 64 ->
  huffman_compress_earlier.compress data data_length a = compress input a.
Proof.
  intros Hin Hidx Hn Hsize. unfold huffman_compress_earlier.compress, compress.
  now rewrite (build_node_tree_agrees Hin Hidx Hn Hsize),
              (output_size_agrees Hin Hidx Hn Hsize).
Qed.

Lemma build_decode_tree_agrees a :
  (data_length <= length data)%nat -> forallb indexable input = true ->
  (2 <= length (occurring input) < 256)%nat -> Z.of_nat (length input) < 2 ^ 64 ->
  huffman_compress_earlier.build_decode_tree data data_length a = build_decode_tree input 0 a.
Proof.
  intros Hin Hidx Hn Hsize.
  unfold huffman_compress_earlier.build_decode_tree, build_decode_tree.
  rewrite (build_node_tree_agrees Hin Hidx Hn Hsize), (earlier_tree_count Hin Hidx),
          later_tree_count by lia.
  now rewrite Nat2Z.id.
Qed.

End General.

End EarlierTreeFacts.

(** ** The earlier revision: its decoder and the loop over [operator bool] *)

Module EarlierDecoderFacts.
Import Arr ArrFacts Huffman Spec Codec NodeListFacts BuildTreeFacts SizeFacts EncoderFacts
       CodeFacts TableFacts CursorFacts EntryFacts CompressorLoopFacts EarlierTreeFacts.

(** [m_bit] counts the bits left in the byte under the cursor. *)
Lemma bits_left_wrap x : 0 <= x -> x mod 8 = 7 -> (x + 1) mod 8 = 0.
Proof.
  intros Hx H7. pose proof (Z.div_mod x 8 ltac:(lia)) as Hdm.
  replace (x + 1) with (0 + (x / 8 + 1) * 8) by lia.
  now rewrite Z.mod_add by lia.
Qed.

Section Walk.
Variables (data : list byte) (tree : list node).
Context {data_length : nat}.
Variable o : huffman_compress_earlier.object data_length.
Hypothesis Hok : tree_ok data tree.
Hypothesis Hu : internal_unique tree.
Hypothesis Hsmall : (length tree <= 256)%nat.
Hypothesis Htab : holds_table tree 0 (huffman_compress_earlier.decode_tree o).

Local Abbreviation payload := (huffman_compress_earlier.output o).

(** One turn of the [do ... while] loop. *)
Lemma earlier_walk_step fuel j n p y v :
  nth_error tree j = Some n -> (0 < j)%nat ->
  find_if (fun x => value x =? value n) tree = j ->
  nth_error tree (Z.to_nat (parent n)) = Some p ->
  0 <= y ->
  nth_error payload (cursor_byte y) = Some v ->
  bit_at payload y = (right p =? value n) ->
  huffman_compress_earlier.decode_walk (S fuel) o (Z.to_nat (parent n) * 3) (cursor_byte y)
    (8 - y mod 8) =
  if value n <? 256
  then Some ((j * 3)%nat, cursor_byte (y + 1), 8 - (y + 1) mod 8)
  else huffman_compress_earlier.decode_walk fuel o (j * 3) (cursor_byte (y + 1))
         (8 - (y + 1) mod 8).
Proof.
  intros Hn Hj Hfirst Hp Hy Hv Hbit.
  destruct (entry_child _ _ _ _ Hok Hsmall Htab j n p Hn Hj Hfirst Hp) as (Hlt & Hoff).
  destruct (entry_left_offset _ _ _ _ Hok Hsmall Htab j n Hn) as (l & Hl & Hl0).
  pose proof (Z.mod_pos_bound y 8 ltac:(lia)) as Hm.
  cbn [huffman_compress_earlier.decode_walk].
  rewrite Hv.
  replace (8 - y mod 8 - 1) with (7 - y mod 8) by lia.
  fold (cursor_mask y).
  rewrite (bit_at_read payload y v Hv), Hbit.
  cbn [Nat.add] in Hoff, Hl.
  assert (Hoff' : nth_error (huffman_compress_earlier.decode_tree o)
                    (Z.to_nat (parent n) * 3 + (if right p =? value n then 2%nat else 1%nat)) =
                  Some (Z.of_nat j - Z.of_nat (Z.to_nat (parent n)))).
  { destruct (right p =? value n); exact Hoff. }
  destruct (Z.eq_dec (y mod 8) 7) as [H7|H7].
  - destruct (cursor_next_wrap y Hy H7) as (_ & _ & Hb).
    rewrite (bits_left_wrap y Hy H7), H7. change ((7 - 7) mod 256 =? 0) with true.
    cbv iota beta. rewrite Hoff'.
    replace (Z.to_nat (parent n) * 3 +
             Z.to_nat (3 * (Z.of_nat j - Z.of_nat (Z.to_nat (parent n)))))%nat
      with (j * 3)%nat by lia.
    rewrite Hl, Hl0, Hb. change (8 - 0) with 8.
    destruct (value n <? 256); reflexivity.
  - destruct (cursor_next_inside y Hy H7) as (_ & Hb & Hr).
    rewrite Hr, Hb.
    assert (Em : (7 - y mod 8) mod 256 = 8 - (y mod 8 + 1)) by (rewrite Z.mod_small; lia).
    rewrite Em.
    destruct (Z.eqb_spec (8 - (y mod 8 + 1)) 0); [lia|].
    cbv iota beta. rewrite Hoff'.
    replace (Z.to_nat (parent n) * 3 +
             Z.to_nat (3 * (Z.of_nat j - Z.of_nat (Z.to_nat (parent n)))))%nat
      with (j * 3)%nat by lia.
    rewrite Hl, Hl0.
    destruct (value n <? 256); reflexivity.
Qed.

(** Reading the code of a node from the root on leads to the entry of the
    node. *)
Lemma earlier_walk_path j :
  forall n x fuel,
    nth_error tree j = Some n -> (0 < j)%nat ->
    find_if (fun m => value m =? value n) tree = j ->
    0 <= x ->
    (forall t, (t < length (code tree j))%nat ->
               (cursor_byte (x + Z.of_nat t) < length payload)%nat /\
               bit_at payload (x + Z.of_nat t) = nth t (code tree j) false) ->
    (length (code tree j) <= fuel)%nat ->
    huffman_compress_earlier.decode_walk fuel o (0 * 3) (cursor_byte x) (8 - x mod 8) =
    let y := x + Z.of_nat (length (code tree j)) in
    if value n <? 256
    then Some ((j * 3)%nat, cursor_byte y, 8 - y mod 8)
    else huffman_compress_earlier.decode_walk (fuel - length (code tree j)) o (j * 3)
           (cursor_byte y) (8 - y mod 8).
Proof.
  induction j as [j IH] using lt_wf_ind.
  intros n x fuel Hn Hj Hfirst Hx Hbits Hfuel.
  pose proof (tree_ok_decreasing _ _ Hok) as Hdec.
  destruct (tree_ok_parent_refers _ _ _ _ Hok Hn Hj) as (p & Hp & _ & Hvp & Hlt).
  pose proof (ok_parent _ _ Hok j n Hn Hj) as Hpar.
  assert (Hcode : code tree j = code tree (Z.to_nat (parent n)) ++ [right p =? value n]).
  { rewrite (code_step _ _ _ Hdec Hn), Hp.
    destruct (Z.eqb_spec (parent n) (-1)); [lia|reflexivity]. }
  rewrite Hcode in *. rewrite length_app in *. cbn [length] in *.
  set (q := Z.to_nat (parent n)) in *.
  set (lq := length (code tree q)) in *.
  destruct (Hbits lq ltac:(lia)) as (Hinq & Hlast).
  rewrite app_nth2, Nat.sub_diag in Hlast by lia. cbn [nth] in Hlast.
  replace (x + Z.of_nat (lq + 1)) with (x + Z.of_nat lq + 1) in * by lia.
  cbv zeta.
  destruct fuel as [|fuel]; [lia|].
  destruct (nth_error payload (cursor_byte (x + Z.of_nat lq))) as [v|] eqn:Ev;
    [|apply nth_error_None in Ev; lia].
  destruct (Nat.eq_dec q 0) as [Hq0|Hq0].
  - assert (Hlq : lq = O).
    { subst lq. rewrite Hq0.
      destruct (ok_root _ _ Hok) as (root & Hr & Hpr & _).
      rewrite (code_step _ _ _ Hdec Hr). now rewrite Hpr. }
    rewrite Hlq in *. cbn [Z.of_nat] in *. rewrite Z.add_0_r in *.
    assert (Hroot : (0 * 3 = Z.to_nat (parent n) * 3)%nat) by (fold q; lia).
    rewrite Hroot.
    rewrite (earlier_walk_step fuel j n p x v Hn Hj Hfirst Hp Hx Ev Hlast).
    replace (S fuel - (0 + 1))%nat with fuel by lia. reflexivity.
  - assert (Hfq : find_if (fun m => value m =? value p) tree = q)
      by (apply internal_first_holder; assumption).
    rewrite (IH q Hlt p x (S fuel) Hp ltac:(lia) Hfq Hx); [|
      intros t Ht; destruct (Hbits t ltac:(lia)) as (H1 & H2); split; [exact H1|];
      rewrite H2; now rewrite app_nth1 by exact Ht | lia].
    cbv zeta. fold lq.
    destruct (Z.ltb_spec (value p) 256); [lia|].
    replace (S fuel - lq)%nat with (S (fuel - lq)) by lia.
    unfold q.
    rewrite (earlier_walk_step (fuel - lq) j n p (x + Z.of_nat lq) v Hn Hj Hfirst Hp
               ltac:(lia) Ev Hlast).
    replace (S fuel - (lq + 1))%nat with (fuel - lq)%nat by lia. reflexivity.
Qed.

End Walk.

(** *** The loop of the documentation *)

Section Loop.
Variables (data input : list byte) (tree : list node).
Context {data_length : nat}.
Variable o : huffman_compress_earlier.object data_length.

Hypothesis Hok : tree_ok input tree.
Hypothesis Hu : internal_unique tree.
Hypothesis Hsmall : (length tree <= 256)%nat.

Local Abbreviation total := (total_bits tree input).
Local Abbreviation first := (total / 8 + 1).
Local Abbreviation size_info := (first, total mod 8).
Local Abbreviation payload := (huffman_compress_earlier.output o).

Hypothesis Hfits : first < 2 ^ 64.
Hypothesis Htab : holds_table tree 0 (huffman_compress_earlier.decode_tree o).
Hypothesis Hlen : first <= Z.of_nat (length payload).
Hypothesis Hbits : forall x, 0 <= x < 8 * first ->
  bit_at payload x = nth (Z.to_nat x) (stream tree input) false.

Local Abbreviation next := (huffman_compress_earlier.get_next o).
Local Abbreviation at_pos x cur :=
  (huffman_compress_earlier.mk_decode_info (cursor_byte x) (8 - x mod 8) cur).

Lemma earlier_total_nonneg : 0 <= total.
Proof. apply total_bits_nonneg. eapply tree_ok_decreasing; eauto. Qed.

Lemma earlier_in_payload x : 0 <= x <= total -> (cursor_byte x < length payload)%nat.
Proof.
  intros Hx. unfold cursor_byte.
  assert (x / 8 <= total / 8) by (apply Z.div_le_mono; lia).
  assert (0 <= x / 8) by (apply Z.div_pos; lia). lia.
Qed.

(** [operator bool] tells whether the cursor is in front of the last code
    bit. *)
Lemma has_more_spec x cur :
  0 <= x <= total ->
  huffman_compress_earlier.has_more size_info (at_pos x cur) = (x <? total).
Proof.
  intros Hx. unfold huffman_compress_earlier.has_more.
  cbn [huffman_compress_earlier.m_pos huffman_compress_earlier.m_bit].
  pose proof (Z.div_mod x 8 ltac:(lia)) as Hdx.
  pose proof (Z.mod_pos_bound x 8 ltac:(lia)) as Hmx.
  pose proof (Z.div_mod total 8 ltac:(lia)) as Hdt.
  pose proof (Z.mod_pos_bound total 8 ltac:(lia)) as Hmt.
  assert (Hq : 0 <= x / 8 <= total / 8).
  { split; [apply Z.div_pos; lia|apply Z.div_le_mono; lia]. }
  unfold cursor_byte, to_unsigned_long. rewrite Z2Nat.id by lia.
  replace (total / 8 + 1 - 1) with (total / 8) by lia.
  rewrite (Z.mod_small (total / 8)) by lia.
  rewrite (Z.mod_small (8 - total mod 8)) by lia.
  destruct (Z.ltb_spec (x / 8) (total / 8)), (Z.gtb_spec (8 - x mod 8) (8 - total mod 8)),
           (Z.ltb_spec x total); cbn [orb]; try reflexivity; lia.
Qed.

(** In front of the code of an input byte, one step of the decoder hands
    out that byte and moves the cursor behind its code. *)
Lemma earlier_get_next_symbol pre c rest cur :
  input = pre ++ c :: rest ->
  next (at_pos (total_bits tree pre) cur) =
  Some (at_pos (total_bits tree (pre ++ [c])) (byte_val c)).
Proof.
  intros Hsplit.
  pose proof (tree_ok_decreasing _ _ Hok) as Hdec.
  pose proof earlier_total_nonneg as Htn.
  pose proof (Z.div_mod total 8 ltac:(lia)) as Hdt.
  pose proof (Z.mod_pos_bound total 8 ltac:(lia)) as Hmt.
  assert (Hc : In c input) by (rewrite Hsplit; apply in_elt).
  destruct (tree_ok_leaf_of _ _ c Hok Hc) as (n & Hn & Hv).
  pose proof (leaf_below_root _ _ c Hok Hc) as Hdepth.
  pose proof (total_bits_nonneg tree pre Hdec) as Hpre.
  pose proof (total_bits_nonneg tree rest Hdec) as Hrest.
  pose proof (code_length tree (leaf_of tree c) Hdec) as Hcl.
  assert (Htot : total = total_bits tree pre + edges_to_root tree (leaf_of tree c)
                         + total_bits tree rest).
  { rewrite Hsplit at 1. rewrite total_bits_app. simpl. lia. }
  set (x := total_bits tree pre) in *.
  unfold huffman_compress_earlier.get_next.
  cbn [huffman_compress_earlier.m_pos huffman_compress_earlier.m_bit].
  assert (Hj : (0 < leaf_of tree c)%nat).
  { destruct (leaf_of tree c) eqn:E; [|lia].
    destruct (ok_root _ _ Hok) as (root & Hr & _ & _ & Hroot).
    rewrite Hr in Hn. injection Hn as <-. pose proof (byte_val_range c). lia. }
  pose proof (byte_val_range c) as Hbv.
  pose proof (earlier_walk_path input tree o Hok Hu Hsmall Htab (leaf_of tree c) n x
                (8 * length payload + 8) Hn Hj (leaf_of_first_holder _ _ _ Hn Hv)) as Hw.
  cbv zeta in Hw. rewrite Hv in Hw.
  destruct (Z.ltb_spec (byte_val c) 256); [|lia].
  change (0 * 3)%nat with O in Hw.
  rewrite Hw.
  - pose proof (entry_value _ _ _ Htab _ _ Hn) as He. cbn [Nat.add] in He.
    rewrite He by lia.
    rewrite Hv, total_bits_snoc, Hcl. reflexivity.
  - lia.
  - intros t Ht. split; [apply earlier_in_payload; lia|].
    rewrite Hbits by lia. rewrite Hsplit. now apply stream_symbol.
  - assert (Z.of_nat (length (code tree (leaf_of tree c))) <= 8 * Z.of_nat (length payload))
      by lia.
    lia.
Qed.

(** The loop from a cursor in front of the bytes [rest] yields the byte the
    decoder holds and the bytes of [rest] but the last: when the last byte
    has been decoded no bit is left, and [operator bool] ends the loop
    before the byte is handed out. *)
Lemma earlier_loop_rest rest :
  forall pre cur fuel,
    input = pre ++ rest -> (length rest <= fuel)%nat ->
    huffman_compress_earlier.decode_loop size_info fuel o (at_pos (total_bits tree pre) cur) =
    Some (removelast (cur :: map byte_val rest)).
Proof.
  pose proof (tree_ok_decreasing _ _ Hok) as Hdec.
  induction rest as [|c rest IH]; intros pre cur fuel Hsplit Hfuel.
  - rewrite app_nil_r in Hsplit. subst pre.
    pose proof earlier_total_nonneg.
    destruct fuel; cbn [huffman_compress_earlier.decode_loop];
      rewrite has_more_spec, Z.ltb_irrefl by lia; reflexivity.
  - destruct fuel as [|fuel]; [simpl in Hfuel; lia|].
    assert (Hc : In c input) by (rewrite Hsplit; apply in_elt).
    pose proof (leaf_below_root _ _ c Hok Hc) as Hdepth.
    pose proof (total_bits_nonneg tree pre Hdec) as Hpre.
    pose proof (total_bits_nonneg tree rest Hdec) as Hrest.
    assert (Htot : total = total_bits tree pre + edges_to_root tree (leaf_of tree c)
                           + total_bits tree rest).
    { rewrite Hsplit at 1. rewrite total_bits_app. simpl. lia. }
    cbn [huffman_compress_earlier.decode_loop]. rewrite has_more_spec by lia.
    destruct (Z.ltb_spec (total_bits tree pre) total); [|lia].
    rewrite (earlier_get_next_symbol pre c rest cur Hsplit).
    rewrite (IH (pre ++ [c]) (byte_val c) fuel).
    + reflexivity.
    + now rewrite <- app_assoc.
    + simpl in Hfuel. lia.
Qed.

(** The loop [for (auto decode = get_decoder(); decode; ++decode)] yields
    the input without its last byte. *)
Lemma earlier_iterate :
  char_traits_length data = Some data_length ->
  (0 < length input)%nat ->
  huffman_compress_earlier.iterate data size_info o =
  Some (removelast (map byte_val input)).
Proof.
  intros Hdefault Hne.
  assert (Hex : exists c rest, input = c :: rest).
  { destruct input; [simpl in Hne; lia|eauto]. }
  destruct Hex as (c & rest & Eraw).
  pose proof (SavingFacts.total_bits_ge_length input tree Hok) as Hge.
  pose proof earlier_total_nonneg as Htn.
  pose proof (Z.div_mod total 8 ltac:(lia)) as Hdt.
  pose proof (Z.mod_pos_bound total 8 ltac:(lia)) as Hmt.
  unfold huffman_compress_earlier.iterate, huffman_compress_earlier.get_decoder.
  rewrite Hdefault, Nat.eqb_refl.
  change (huffman_compress_earlier.mk_decode_info 0 8 (-1))
    with (at_pos (total_bits tree []) (-1)).
  rewrite (earlier_get_next_symbol [] c rest (-1) Eraw).
  rewrite (earlier_loop_rest rest [c] (byte_val c)).
  - rewrite Eraw. reflexivity.
  - exact Eraw.
  - assert (Hl : length input = S (length rest)) by (rewrite Eraw; reflexivity).
    lia.
Qed.

(** Every part of the input costs at least one bit a byte. *)
Lemma part_bits_ge_length l :
  (forall c, In c l -> In c input) -> Z.of_nat (length l) <= total_bits tree l.
Proof.
  induction l as [|c l IH]; intros Hin; [simpl; lia|].
  cbn [total_bits fold_right length]. fold (total_bits tree l).
  pose proof (leaf_below_root _ _ c Hok (Hin c (or_introl eq_refl))).
  specialize (IH (fun c' H => Hin c' (or_intror H))). lia.
Qed.

(** [k + 1] steps of the decoder from in front of the bytes [rest] decode
    byte [k] of [rest]. *)
Lemma earlier_advance k :
  forall pre rest cur c,
    input = pre ++ rest -> nth_error rest k = Some c ->
    advance_n next (S k) (at_pos (total_bits tree pre) cur) =
    Some (at_pos (total_bits tree (pre ++ firstn (S k) rest)) (byte_val c)).
Proof.
  induction k as [|k IH]; intros pre rest cur c Hsplit Hk.
  - destruct rest as [|c0 rest']; [discriminate|]. injection Hk as ->.
    cbn [advance_n firstn]. now rewrite (earlier_get_next_symbol pre c rest' cur Hsplit).
  - destruct rest as [|c0 rest']; [discriminate|]. cbn [nth_error] in Hk.
    change (advance_n next (S (S k)) (at_pos (total_bits tree pre) cur))
      with (it' <- next (at_pos (total_bits tree pre) cur) ;; advance_n next (S k) it').
    rewrite (earlier_get_next_symbol pre c0 rest' cur Hsplit).
    rewrite (IH (pre ++ [c0]) rest' (byte_val c0) c); [|now rewrite <- app_assoc|exact Hk].
    rewrite <- app_assoc. reflexivity.
Qed.

(** The protocol of the decoder: after [get_decoder()] and [k] increments
    it holds byte [k] of the input, and [operator bool] tells whether
    another byte follows. *)
Lemma earlier_increments k c :
  char_traits_length data = Some data_length ->
  nth_error input k = Some c ->
  exists d0 d,
    huffman_compress_earlier.get_decoder data o = Some d0 /\
    advance_n next k d0 = Some d /\
    huffman_compress_earlier.m_current d = byte_val c /\
    huffman_compress_earlier.has_more size_info d = (S k <? length input)%nat.
Proof.
  intros Hdefault Hk.
  pose proof (tree_ok_decreasing _ _ Hok) as Hdec.
  pose proof (earlier_advance k [] input (-1) c eq_refl Hk) as Hadv.
  cbn [app] in Hadv.
  assert (Hget : huffman_compress_earlier.get_decoder data o =
                 next (at_pos (total_bits tree []) (-1))).
  { unfold huffman_compress_earlier.get_decoder. now rewrite Hdefault, Nat.eqb_refl. }
  change (advance_n next (S k) (at_pos (total_bits tree []) (-1)))
    with (it' <- next (at_pos (total_bits tree []) (-1)) ;; advance_n next k it') in Hadv.
  rewrite <- Hget in Hadv.
  destruct (huffman_compress_earlier.get_decoder data o) as [d0|]; [|discriminate].
  exists d0, (at_pos (total_bits tree (firstn (S k) input)) (byte_val c)).
  split; [reflexivity|]. split; [exact Hadv|]. split; [reflexivity|].
  assert (Htot : total = total_bits tree (firstn (S k) input)
                         + total_bits tree (skipn (S k) input)).
  { rewrite <- (firstn_skipn (S k) input) at 1. apply total_bits_app. }
  pose proof (total_bits_nonneg tree (firstn (S k) input) Hdec) as H1.
  pose proof (total_bits_nonneg tree (skipn (S k) input) Hdec) as H2.
  assert (Hrest : Z.of_nat (length (skipn (S k) input)) <= total_bits tree (skipn (S k) input)).
  { apply part_bits_ge_length. intros c' Hc'.
    rewrite <- (firstn_skipn (S k) input). apply in_or_app. now right. }
  rewrite length_skipn in Hrest.
  rewrite has_more_spec by lia.
  destruct (Nat.ltb_spec (S k) (length input)) as [Hlt|Hge].
  - apply Z.ltb_lt. lia.
  - apply Z.ltb_ge. rewrite skipn_all2 in Htot by lia.
    change (total_bits tree []) with 0 in Htot. lia.
Qed.

End Loop.

End EarlierDecoderFacts.

(** ** The earlier revision: the object and the whole program *)

Module EarlierObjectFacts.
Import Arr ArrFacts Huffman Spec Codec NodeListFacts TreeFacts BuildTreeFacts SizeFacts
       EncoderFacts ObjectFacts CodeFacts TableFacts OrderFacts CharFacts EarlierListFacts
       EarlierTreeFacts EarlierDecoderFacts.

Lemma total_freq_ge_length l :
  (forall m, In m l -> 0 < freq m) -> Z.of_nat (length l) <= total_freq l.
Proof.
  induction l as [|y l IH]; intros Hpos; [cbn; lia|].
  cbn [total_freq fold_right length]. fold (total_freq l).
  pose proof (Hpos y (or_introl eq_refl)).
  assert (Z.of_nat (length l) <= total_freq l); [|lia].
  apply IH. intros m Hm. apply Hpos. now right.
Qed.

(** No more distinct symbols than bytes. *)
Lemma occurring_le_length data : (length (occurring data) <= length data)%nat.
Proof.
  assert (Hpos : forall m, In m (occurring data) -> 0 < freq m).
  { intros m Hm. destruct (occurring_freq data m Hm). lia. }
  pose proof (total_freq_ge_length _ Hpos) as Hge.
  assert (Ht : total_freq (occurring data) = Z.of_nat (length data)).
  { unfold occurring. rewrite total_freq_filter. apply total_freq_table. }
  lia.
Qed.

Section General.
Context {std_sort : StdSort}.
Variables (data : list byte) (data_length : nat).

Local Abbreviation input := (huffman_compress_earlier.input data data_length).

Lemma input_length : (data_length <= length data)%nat -> length input = data_length.
Proof. intros H. unfold huffman_compress_earlier.input. rewrite length_firstn. lia. Qed.

(** The object for two or more distinct symbols (plain [char]s that index
    the table take at most 128 values): the payload and the table of the
    later revisions, in two arrays. *)
Lemma earlier_construct tree :
  (2 <= length (occurring input))%nat ->
  (data_length <= length data)%nat -> forallb indexable input = true ->
  Z.of_nat data_length < 2 ^ 56 ->
  build_node_tree input = Some tree ->
  exists o,
    huffman_compress_earlier.construct data data_length = Constructed o /\
    length (huffman_compress_earlier.output o) = Z.to_nat (total_bits tree input / 8 + 1) /\
    length (huffman_compress_earlier.decode_tree o) = (3 * tree_count input)%nat /\
    holds_table tree 0 (huffman_compress_earlier.decode_tree o) /\
    (forall x, 0 <= x < 8 * (total_bits tree input / 8 + 1) ->
       bit_at (huffman_compress_earlier.output o) x =
       nth (Z.to_nat x) (stream tree input) false).
Proof.
  intros Hn2 Hle Hidx Hsize Ht.
  assert (Hn : (2 <= length (occurring input) <= 128)%nat).
  { pose proof (indexable_occurring _ Hidx). lia. }
  assert (Hn' : (2 <= length (occurring input) < 256)%nat) by lia.
  pose proof (input_length Hle) as Hil.
  assert (Hsize' : Z.of_nat (length input) < 2 ^ 64).
  { rewrite Hil. change (2 ^ 56) with 72057594037927936 in Hsize.
    change (2 ^ 64) with 18446744073709551616. lia. }
  destruct (compressed_size_info_spec input) as (tree' & Ht' & Hok & Hinfo).
  rewrite Ht in Ht'. injection Ht' as <-.
  pose proof (build_node_tree_length input tree Ht) as Htl.
  pose proof (later_tree_count data data_length ltac:(lia)) as Htc.
  unfold huffman_compress_earlier.construct.
  destruct (Nat.ltb_spec (length data) data_length); [lia|].
  rewrite (output_size_agrees data data_length Hle Hidx Hn' Hsize'), Hinfo.
  rewrite (earlier_tree_count data data_length Hle Hidx) by lia.
  assert (Ecount : Z.to_nat (to_unsigned_long (3 * Z.of_nat (length (occurring input) * 2 - 1)))
                   = (3 * tree_count input)%nat).
  { unfold to_unsigned_long. rewrite Z.mod_small; lia. }
  rewrite Ecount.
  rewrite (build_decode_tree_agrees data data_length _ Hle Hidx Hn' Hsize'),
          (compress_agrees data data_length _ Hle Hidx Hn' Hsize').
  set (t0 := repeat 0 (3 * tree_count input)).
  destruct (build_decode_tree_spec input tree 0 t0 Ht Hok) as (tab & -> & Hl1 & Htab & _).
  { subst t0. rewrite repeat_length. lia. }
  set (a0 := repeat 0 (Z.to_nat (total_bits tree input / 8 + 1))).
  destruct (PayloadFacts.compress_spec input tree _ _ a0 Ht Hok Hinfo)
    as (mem & -> & Hlm & _ & Hbits).
  { subst a0. rewrite repeat_length. lia. }
  { intros k Hk. subst a0. apply CompressorFacts.nth_error_repeat_Some. lia. }
  exists (huffman_compress_earlier.mk_object mem tab).
  cbn [huffman_compress_earlier.output huffman_compress_earlier.decode_tree].
  split; [reflexivity|]. split; [rewrite Hlm; subst a0; apply repeat_length|].
  split; [rewrite Hl1; subst t0; apply repeat_length|]. split; assumption.
Qed.

(** The loop of the documentation over the object. *)
Lemma earlier_decode_all :
  (2 <= length (occurring input))%nat ->
  char_traits_length data = Some data_length -> forallb indexable input = true ->
  Z.of_nat data_length < 2 ^ 56 ->
  huffman_compress_earlier.decode_all data data_length =
  Some (removelast (map byte_val input)).
Proof.
  intros Hn2 Hdefault Hidx Hsize.
  assert (Hn : (2 <= length (occurring input) <= 128)%nat).
  { pose proof (indexable_occurring _ Hidx). lia. }
  assert (Hn' : (2 <= length (occurring input) < 256)%nat) by lia.
  assert (Hle : (data_length <= length data)%nat).
  { pose proof (char_traits_length_inside _ _ Hdefault). lia. }
  pose proof (input_length Hle) as Hil.
  assert (Hsize' : Z.of_nat (length input) < 2 ^ 64).
  { rewrite Hil. change (2 ^ 56) with 72057594037927936 in Hsize.
    change (2 ^ 64) with 18446744073709551616. lia. }
  destruct (build_node_tree_unique input) as (tree & Ht & Hok & Hu).
  destruct (compressed_size_info_spec input) as (tree' & Ht' & _ & Hinfo).
  rewrite Ht in Ht'. injection Ht' as <-.
  pose proof (build_node_tree_length input tree Ht) as Htl.
  pose proof (later_tree_count data data_length ltac:(lia)) as Htc.
  pose proof (total_bits_bound tree input (tree_ok_decreasing _ _ Hok)) as Hb.
  destruct (earlier_construct tree Hn2 Hle Hidx Hsize Ht)
    as (o & Hcon & Hlo & Hlt & Htab & Hbits).
  unfold huffman_compress_earlier.decode_all.
  rewrite (output_size_agrees data data_length Hle Hidx Hn' Hsize'), Hinfo, Hcon.
  assert (Hdiv : 0 <= total_bits tree input / 8 <= 2 ^ 53 * 256).
  { split; [apply Z.div_pos; lia|apply Z.div_le_upper_bound; [lia|]].
    change (2 ^ 53) with 9007199254740992. change (2 ^ 56) with 72057594037927936 in *.
    nia. }
  change (2 ^ 53) with 9007199254740992 in Hdiv.
  apply (earlier_iterate data input tree o Hok Hu); try assumption.
  - lia.
  - change (2 ^ 64) with 18446744073709551616. lia.
  - rewrite Hlo. lia.
  - pose proof (occurring_le_length input). lia.
Qed.

(** The protocol of the decoder over the object. *)
Lemma earlier_protocol :
  (2 <= length (occurring input))%nat ->
  char_traits_length data = Some data_length -> forallb indexable input = true ->
  Z.of_nat data_length < 2 ^ 56 ->
  exists o size_info,
    huffman_compress_earlier.construct data data_length = Constructed o /\
    huffman_compress_earlier.output_size data data_length = Some size_info /\
    forall k c, nth_error input k = Some c ->
      exists d0 d,
        huffman_compress_earlier.get_decoder data o = Some d0 /\
        advance_n (huffman_compress_earlier.get_next o) k d0 = Some d /\
        huffman_compress_earlier.m_current d = byte_val c /\
        huffman_compress_earlier.has_more size_info d = (S k <? data_length)%nat.
Proof.
  intros Hn2 Hdefault Hidx Hsize.
  assert (Hn : (2 <= length (occurring input) <= 128)%nat).
  { pose proof (indexable_occurring _ Hidx). lia. }
  assert (Hn' : (2 <= length (occurring input) < 256)%nat) by lia.
  assert (Hle : (data_length <= length data)%nat).
  { pose proof (char_traits_length_inside _ _ Hdefault). lia. }
  pose proof (input_length Hle) as Hil.
  assert (Hsize' : Z.of_nat (length input) < 2 ^ 64).
  { rewrite Hil. change (2 ^ 56) with 72057594037927936 in Hsize.
    change (2 ^ 64) with 18446744073709551616. lia. }
  destruct (build_node_tree_unique input) as (tree & Ht & Hok & Hu).
  destruct (compressed_size_info_spec input) as (tree' & Ht' & _ & Hinfo).
  rewrite Ht in Ht'. injection Ht' as <-.
  pose proof (build_node_tree_length input tree Ht) as Htl.
  pose proof (later_tree_count data data_length ltac:(lia)) as Htc.
  pose proof (total_bits_bound tree input (tree_ok_decreasing _ _ Hok)) as Hb.
  destruct (earlier_construct tree Hn2 Hle Hidx Hsize Ht)
    as (o & Hcon & Hlo & Hlt & Htab & Hbits).
  assert (Hdiv : 0 <= total_bits tree input / 8 <= 2 ^ 53 * 256).
  { split; [apply Z.div_pos; lia|apply Z.div_le_upper_bound; [lia|]].
    change (2 ^ 53) with 9007199254740992. change (2 ^ 56) with 72057594037927936 in *.
    nia. }
  change (2 ^ 53) with 9007199254740992 in Hdiv.
  exists o, (total_bits tree input / 8 + 1, total_bits tree input mod 8).
  split; [exact Hcon|].
  split; [rewrite (output_size_agrees data data_length Hle Hidx Hn' Hsize'); exact Hinfo|].
  intros k c Hk.
  destruct (earlier_increments data input tree o Hok Hu ltac:(lia)
              ltac:(change (2 ^ 64) with 18446744073709551616; lia) Htab
              ltac:(rewrite Hlo; lia) Hbits k c Hdefault Hk)
    as (d0 & d & H0 & Hd & Hcur & Hmore).
  exists d0, d. rewrite Hil in Hmore. auto.
Qed.

(** The value [compressed_size] reports: the bytes of the payload plus the
    number of bits in use in its last byte; the table is left out. *)
Lemma earlier_compressed_size tree :
  (2 <= length (occurring input))%nat ->
  (data_length <= length data)%nat -> forallb indexable input = true ->
  Z.of_nat (length input) < 2 ^ 56 ->
  build_node_tree input = Some tree ->
  huffman_compress_earlier.compressed_size data data_length =
  Some (total_bits tree input / 8 + 1 + total_bits tree input mod 8).
Proof.
  intros Hn2 Hle Hidx Hsize Ht.
  assert (Hn : (2 <= length (occurring input) < 256)%nat).
  { pose proof (indexable_occurring _ Hidx). lia. }
  assert (Hsize' : Z.of_nat (length input) < 2 ^ 64).
  { change (2 ^ 56) with 72057594037927936 in Hsize.
    change (2 ^ 64) with 18446744073709551616. lia. }
  destruct (compressed_size_info_spec input) as (tree' & Ht' & Hok & Hinfo).
  rewrite Ht in Ht'. injection Ht' as <-.
  pose proof (build_node_tree_length input tree Ht) as Htl.
  pose proof (later_tree_count data data_length ltac:(lia)) as Htc.
  pose proof (total_bits_bound tree input (tree_ok_decreasing _ _ Hok)) as Hb.
  pose proof (Z.mod_pos_bound (total_bits tree input) 8 ltac:(lia)) as Hm.
  assert (Hdiv : 0 <= total_bits tree input / 8 <= 2 ^ 53 * 511).
  { split; [apply Z.div_pos; lia|apply Z.div_le_upper_bound; [lia|]].
    change (2 ^ 53) with 9007199254740992. change (2 ^ 56) with 72057594037927936 in *.
    nia. }
  change (2 ^ 53) with 9007199254740992 in Hdiv.
  unfold huffman_compress_earlier.compressed_size.
  rewrite (output_size_agrees data data_length Hle Hidx Hn Hsize'), Hinfo.
  f_equal. unfold to_unsigned_long. apply Z.mod_small.
  change (2 ^ 64) with 18446744073709551616. lia.
Qed.

(** *** Inputs outside that range *)


(** No input byte: the node count is 0 and the tree size wraps around. *)
Lemma earlier_empty :
  data_length = O ->
  huffman_compress_earlier.tree_count data data_length = Some (2 ^ 64 - 1) /\
  huffman_compress_earlier.construct data data_length = NotConstant.
Proof.
  intros Hz.
  assert (Hin : input = []).
  { unfold huffman_compress_earlier.input. rewrite Hz. reflexivity. }
  assert (Hocc : length (occurring input) = O).
  { pose proof (occurring_le_length input) as Hle.
    assert (Hl : length input = O) by (rewrite Hin; reflexivity).
    lia. }
  assert (Hle : (data_length <= length data)%nat) by lia.
  assert (Hidx : forallb indexable input = true) by (rewrite Hin; reflexivity).
  assert (Hc : huffman_compress_earlier.tree_count data data_length = Some (2 ^ 64 - 1)).
  { unfold huffman_compress_earlier.tree_count.
    rewrite (node_count_spec data data_length Hle Hidx) by lia. rewrite Hocc. reflexivity. }
  split; [exact Hc|].
  unfold huffman_compress_earlier.construct, huffman_compress_earlier.output_size,
    huffman_compress_earlier.build_node_tree.
  rewrite Hc. destruct (length data <? data_length)%nat; [reflexivity|].
  destruct (huffman_compress_earlier.build_node_list data data_length); reflexivity.
Qed.

(** One distinct symbol: the loop of [build_node_tree] does not run, the
    tree is the one leaf, every code is empty, and [operator bool] is false
    from the start. *)
Lemma earlier_single_symbol :
  length (occurring input) = 1%nat ->
  char_traits_length data = Some data_length -> forallb indexable input = true ->
  exists v,
    (forall c, In c input -> byte_val c = v) /\
    huffman_compress_earlier.output_size data data_length = Some (1, 0) /\
    huffman_compress_earlier.construct data data_length =
      Constructed (huffman_compress_earlier.mk_object [0] [v; 0; 0]) /\
    huffman_compress_earlier.decode_all data data_length = Some [].
Proof.
  intros Hn Hdefault Hidx.
  assert (Hle : (data_length <= length data)%nat).
  { pose proof (char_traits_length_inside _ _ Hdefault). lia. }
  pose proof (valid_perm data data_length) as Hperm.
  pose proof (valid_length data data_length) as Hvl.
  pose proof (earlier_node_list data data_length Hle Hidx) as Hlist.
  destruct (filter (fun n => negb (freq n =? 0)) (sort (frequency_table input)))
    as [|x [|y r]] eqn:Ev; cbn [length] in Hvl; try lia.
  assert (Hx : In x (occurring input)).
  { apply (Permutation_in _ Hperm). now left. }
  destruct (occurring_leaf input x Hx) as (Hp & Hl & Hr & Hv).
  assert (Hsym : forall c, In c input -> byte_val c = value x).
  { intros c Hc. destruct (occurring_has input c Hc) as (n & Hin & E).
    apply (Permutation_in _ (Permutation_sym Hperm)) in Hin.
    destruct Hin as [<-|[]]. now rewrite E. }
  exists (value x). split; [exact Hsym|].
  (* the tree *)
  assert (Htc : huffman_compress_earlier.tree_count data data_length = Some 1).
  { rewrite (earlier_tree_count data data_length Hle Hidx) by lia. now rewrite Hn. }
  assert (Ht : huffman_compress_earlier.build_node_tree data data_length = Some [x]).
  { unfold huffman_compress_earlier.build_node_tree.
    rewrite Hlist, Htc, (node_count_spec data data_length Hle Hidx), Hn by lia.
    cbn [length Nat.sub].
    change (repeat node_default 255) with (node_default :: repeat node_default 254).
    generalize (repeat node_default 254). intros zeros. cbn [app length].
    cbn [huffman_compress_earlier.merge_loop nth_error].
    cbn [freq node_default]. cbn [Z.eqb].
    reflexivity. }
  (* sizes *)
  assert (Hsize : forall l, (forall c, In c l -> byte_val c = value x) ->
            for_each (fun '(bytes, bits) c =>
                        let leaf := find_if (fun n => value n =? byte_val c) [x] in
                        size_walk (length [x]) [x] leaf bytes bits) l (1, 0) = Some (1, 0)).
  { induction l as [|c l IH]; intros Hl'; [reflexivity|].
    cbn [for_each find_if]. rewrite (Hl' c (or_introl eq_refl)), Z.eqb_refl.
    cbn [length size_walk nth_error]. rewrite Hp. cbn [Z.eqb].
    apply IH. intros c' Hc'. apply Hl'. now right. }
  assert (Hout : huffman_compress_earlier.output_size data data_length = Some (1, 0)).
  { unfold huffman_compress_earlier.output_size. rewrite Ht. now apply Hsize. }
  split; [exact Hout|].
  (* the payload *)
  assert (Hwalk : forall l, (forall c, In c l -> byte_val c = value x) ->
            for_each (fun '(output, bytes, bits) c =>
                        let leaf := find_if (fun n => value n =? byte_val c) [x] in
                        compress_walk (length [x]) [x] leaf output bytes bits)
                     l ([0], 0, 0) = Some ([0], 0, 0)).
  { induction l as [|c l IH]; intros Hl'; [reflexivity|].
    cbn [for_each find_if]. rewrite (Hl' c (or_introl eq_refl)), Z.eqb_refl.
    cbn [length compress_walk nth_error]. rewrite Hp. cbn [Z.eqb].
    apply IH. intros c' Hc'. apply Hl'. now right. }
  assert (Hcomp : huffman_compress_earlier.compress data data_length [0] = Some [0]).
  { unfold huffman_compress_earlier.compress. rewrite Ht, Hout.
    change (0 >? 0) with false. cbv iota. change (1 - 1) with 0.
    rewrite Hwalk; [reflexivity|].
    intros c Hc. apply Hsym. now apply in_rev. }
  (* the table *)
  assert (Htab : huffman_compress_earlier.build_decode_tree data data_length [0; 0; 0] =
                 Some [value x; 0; 0]).
  { unfold huffman_compress_earlier.build_decode_tree. rewrite Ht, Htc.
    change (Z.to_nat 1) with 1%nat. cbn [seq for_each].
    unfold decode_entry. cbn [nth_error].
    destruct (Z.leb_spec (value x) 255); [|lia].
    rewrite Z.mod_small by lia. reflexivity. }
  assert (Hcon : huffman_compress_earlier.construct data data_length =
                 Constructed (huffman_compress_earlier.mk_object [0] [value x; 0; 0])).
  { unfold huffman_compress_earlier.construct.
    destruct (Nat.ltb_spec (length data) data_length); [lia|].
    rewrite Hout, Htc.
    change (repeat 0 (Z.to_nat (to_unsigned_long (3 * 1)))) with [0; 0; 0].
    change (repeat 0 (Z.to_nat 1)) with [0].
    now rewrite Htab, Hcomp. }
  split; [exact Hcon|].
  unfold huffman_compress_earlier.decode_all. rewrite Hout, Hcon.
  unfold huffman_compress_earlier.iterate, huffman_compress_earlier.get_decoder.
  rewrite Hdefault, Nat.eqb_refl. reflexivity.
Qed.

End General.

End EarlierObjectFacts.

(** ** The object of [huffman_compress] *)

Module CompressObjectFacts.
Import Arr ArrFacts Huffman Spec Codec NodeListFacts BuildTreeFacts SizeFacts EncoderFacts
       ObjectFacts ConstructFacts CodeFacts TableFacts.

Section General.
Context {std_sort : StdSort}.

(** The two arrays of the object: in compressed mode the payload and the
    table; in raw mode the input bytes, and a table array of the same size
    that stays zeroed. *)
Lemma compress_object_layout data data_length n :
  (0 < data_length <= length data)%nat ->
  char_traits_length data = Some n -> (0 < n)%nat ->
  forallb indexable (huffman_compress.input data data_length) = true ->
  exists tree first bits saved o,
    build_node_tree (huffman_compress.input data data_length) = Some tree /\
    compressed_size_info (huffman_compress.input data data_length) = Some (first, bits) /\
    bytes_saved (huffman_compress.input data data_length) = Some saved /\
    huffman_compress.construct data data_length = Constructed o /\
    length (huffman_compress.decode_tree o) =
      (3 * tree_count (huffman_compress.input data data_length))%nat /\
    if saved >? 0
    then length (huffman_compress.compressed_data o) = Z.to_nat first /\
         holds_table tree 0 (huffman_compress.decode_tree o) /\
         build_decode_tree (huffman_compress.input data data_length) 0
           (repeat 0 (3 * tree_count (huffman_compress.input data data_length))) =
           Some (huffman_compress.decode_tree o) /\
         (forall x, 0 <= x < 8 * first ->
            bit_at (huffman_compress.compressed_data o) x =
            nth (Z.to_nat x) (stream tree (huffman_compress.input data data_length)) false)
    else huffman_compress.compressed_data o = map byte_val (huffman_compress.input data data_length) /\
         huffman_compress.decode_tree o =
           repeat 0 (3 * tree_count (huffman_compress.input data data_length)).
Proof.
  intros Hlen Hstr Hpos Hidx.
  rewrite (compress_construct_runs data data_length n Hlen Hstr Hpos Hidx).
  set (input := huffman_compress.input data data_length) in *.
  assert (Hil : length input = data_length).
  { subst input. unfold huffman_compress.input. rewrite length_firstn. lia. }
  destruct (build_node_tree_ok input) as (tree & Ht & Hok).
  pose proof (build_node_tree_length input tree Ht) as Htl.
  destruct (compressed_size_info_spec input) as (tree' & Ht' & _ & Hinfo).
  rewrite Ht in Ht'. injection Ht' as <-.
  destruct (sizes_defined input) as (first & bits & saved & Hinfo' & Hfirst & Hsaved).
  rewrite Hinfo in Hinfo'. injection Hinfo' as <- <-.
  rewrite Hsaved, Hinfo. cbv zeta.
  exists tree, (total_bits tree input / 8 + 1), (total_bits tree input mod 8), saved.
  destruct (saved >? 0) eqn:Emode.
  - set (t0 := repeat 0 (3 * tree_count input)).
    destruct (build_decode_tree_spec input tree 0 t0 Ht Hok) as (tab & Hrun & Hl1 & Htab & _).
    { subst t0. rewrite repeat_length. lia. }
    rewrite Hrun.
    set (a0 := repeat 0 (Z.to_nat (total_bits tree input / 8 + 1))).
    destruct (PayloadFacts.compress_spec input tree _ _ a0 Ht Hok Hinfo)
      as (mem & -> & Hlm & _ & Hbits).
    { subst a0. rewrite repeat_length. lia. }
    { intros k Hk. subst a0. apply CompressorFacts.nth_error_repeat_Some. lia. }
    exists (huffman_compress.mk_object mem tab).
    cbn [huffman_compress.compressed_data huffman_compress.decode_tree].
    split; [exact Ht|]. do 3 (split; [reflexivity|]).
    split; [rewrite Hl1; subst t0; apply repeat_length|].
    split; [rewrite Hlm; subst a0; apply repeat_length|].
    split; [exact Htab|]. split; [reflexivity|exact Hbits].
  - eexists.
    split; [exact Ht|]. do 3 (split; [reflexivity|]).
    cbn [huffman_compress.compressed_data huffman_compress.decode_tree].
    split; [apply repeat_length|]. split; [|reflexivity].
    rewrite <- Hil, <- (length_map byte_val input). apply copy_exact.
Qed.

End General.

End CompressObjectFacts.

(** ** The protocol of the decoder of [huffman_compress] *)

Module DecodeInfoProtocolFacts.
Import Arr ArrFacts Huffman Spec Codec NodeListFacts BuildTreeFacts SizeFacts EncoderFacts
       ObjectFacts CodeFacts TableFacts CursorFacts DecodeInfoFacts.

Lemma sub_bits_ge_length data tree l :
  tree_ok data tree -> (forall c, In c l -> In c data) ->
  Z.of_nat (length l) <= total_bits tree l.
Proof.
  intros Hok. induction l as [|c l IH]; intros Hin; [simpl; lia|].
  cbn [total_bits fold_right length]. fold (total_bits tree l).
  pose proof (leaf_below_root _ _ c Hok (Hin c (or_introl eq_refl))).
  specialize (IH (fun c' H => Hin c' (or_intror H))). lia.
Qed.

Section Loop.
Variables (data : list byte) (data_length : nat) (tree : list node) (saved : Z)
          (o : huffman_compress.object data_length).

Local Abbreviation input := (huffman_compress.input data data_length).

Hypothesis Hok : tree_ok input tree.
Hypothesis Hu : internal_unique tree.
Hypothesis Hsmall : (length tree <= 256)%nat.
Hypothesis Hsaved : (saved >? 0) = true.

Local Abbreviation total := (total_bits tree input).
Local Abbreviation first := (total / 8 + 1).
Local Abbreviation size_info := (first, total mod 8).
Local Abbreviation payload := (huffman_compress.compressed_data o).

Hypothesis Htab : holds_table tree 0 (huffman_compress.decode_tree o).
Hypothesis Hlen : first <= Z.of_nat (length payload).
Hypothesis Hbits : forall x, 0 <= x < 8 * first ->
  bit_at payload x = nth (Z.to_nat x) (stream tree input) false.

Local Abbreviation next := (huffman_compress.get_next data saved o).
Local Abbreviation at_pos x cur :=
  (huffman_compress.mk_decode_info (cursor_byte x) (cursor_mask x) cur).

(** [k + 1] steps of the decoder from in front of the bytes [rest] decode
    byte [k] of [rest]. *)
Lemma info_advance k :
  forall pre rest cur c,
    input = pre ++ rest -> nth_error rest k = Some c ->
    advance_n next (S k) (at_pos (total_bits tree pre) cur) =
    Some (at_pos (total_bits tree (pre ++ firstn (S k) rest)) (byte_val c)).
Proof.
  induction k as [|k IH]; intros pre rest cur c Hsplit Hk.
  - destruct rest as [|c0 rest']; [discriminate|]. injection Hk as ->.
    cbn [advance_n firstn].
    now rewrite (info_get_next_symbol data data_length tree saved o Hok Hu Hsmall Hsaved
                   Htab Hlen Hbits pre c rest' cur Hsplit).
  - destruct rest as [|c0 rest']; [discriminate|]. cbn [nth_error] in Hk.
    change (advance_n next (S (S k)) (at_pos (total_bits tree pre) cur))
      with (it' <- next (at_pos (total_bits tree pre) cur) ;; advance_n next (S k) it').
    rewrite (info_get_next_symbol data data_length tree saved o Hok Hu Hsmall Hsaved
               Htab Hlen Hbits pre c0 rest' cur Hsplit).
    rewrite (IH (pre ++ [c0]) rest' (byte_val c0) c); [|now rewrite <- app_assoc|exact Hk].
    rewrite <- app_assoc. reflexivity.
Qed.

(** After [begin()] and [k] increments the decoder holds byte [k] of the
    input; it compares equal to [end()] when that byte is the last one. *)
Lemma info_increments k c :
  char_traits_length data = Some data_length ->
  nth_error input k = Some c ->
  exists b e d,
    huffman_compress.begin data saved o = Some b /\
    huffman_compress.end_ data data_length saved size_info o = Some e /\
    advance_n next k b = Some d /\
    huffman_compress.m_current d = byte_val c /\
    huffman_compress.decode_info_eq d e = (S k =? length input)%nat.
Proof.
  intros Hdefault Hk.
  pose proof (tree_ok_decreasing _ _ Hok) as Hdec.
  pose proof (info_advance k [] input (-1) c eq_refl Hk) as Hadv.
  cbn [app] in Hadv.
  assert (Hbegin : huffman_compress.begin data saved o =
                   next (at_pos (total_bits tree []) (-1))).
  { unfold huffman_compress.begin. now rewrite Hdefault, Nat.eqb_refl. }
  change (advance_n next (S k) (at_pos (total_bits tree []) (-1)))
    with (it' <- next (at_pos (total_bits tree []) (-1)) ;; advance_n next k it') in Hadv.
  rewrite <- Hbegin in Hadv.
  unfold huffman_compress.end_.
  destruct (huffman_compress.begin data saved o) as [b|]; [|discriminate].
  exists b, (huffman_compress.decode_info_end data_length saved size_info b),
         (at_pos (total_bits tree (firstn (S k) input)) (byte_val c)).
  split; [reflexivity|]. split; [reflexivity|]. split; [exact Hadv|].
  split; [reflexivity|].
  rewrite (info_end_cursor data data_length tree saved o Hsmall Hsaved).
  assert (Htot : total = total_bits tree (firstn (S k) input)
                         + total_bits tree (skipn (S k) input)).
  { rewrite <- (firstn_skipn (S k) input) at 1. apply total_bits_app. }
  pose proof (total_bits_nonneg tree (firstn (S k) input) Hdec) as H1.
  pose proof (total_bits_nonneg tree (skipn (S k) input) Hdec) as H2.
  assert (Hrest : Z.of_nat (length (skipn (S k) input)) <= total_bits tree (skipn (S k) input)).
  { apply (sub_bits_ge_length input); [exact Hok|]. intros c' Hc'.
    rewrite <- (firstn_skipn (S k) input). apply in_or_app. now right. }
  rewrite length_skipn in Hrest.
  assert (Hkl : (k < length input)%nat) by (apply nth_error_Some; congruence).
  destruct (Nat.eqb_spec (S k) (length input)) as [Heq|Hne].
  - rewrite skipn_all2 in Htot by lia.
    change (total_bits tree []) with 0 in Htot.
    replace (total_bits tree (firstn (S k) input)) with total by lia.
    apply info_at_end_eq.
  - apply (info_before_end_eq data data_length tree o Hsmall). lia.
Qed.

End Loop.

Section General.
Context {std_sort : StdSort}.

Lemma compress_protocol data data_length saved :
  char_traits_length data = Some data_length -> (0 < data_length)%nat ->
  forallb indexable (huffman_compress.input data data_length) = true ->
  bytes_saved (huffman_compress.input data data_length) = Some saved ->
  (saved >? 0) = true ->
  exists o size_info b e,
    huffman_compress.construct data data_length = Constructed o /\
    compressed_size_info (huffman_compress.input data data_length) = Some size_info /\
    huffman_compress.begin data saved o = Some b /\
    huffman_compress.end_ data data_length saved size_info o = Some e /\
    forall k c, nth_error (huffman_compress.input data data_length) k = Some c ->
      exists d,
        advance_n (huffman_compress.get_next data saved o) k b = Some d /\
        huffman_compress.m_current d = byte_val c /\
        huffman_compress.decode_info_eq d e = (S k =? data_length)%nat.
Proof.
  intros Hdefault Hpos Hidx Hsaved Hmode.
  pose proof (ConstructFacts.indexable_tree_count _ Hidx) as Hsmall.
  assert (Hlen : (0 < data_length <= length data)%nat).
  { pose proof (CharFacts.char_traits_length_inside _ _ Hdefault). lia. }
  set (input := huffman_compress.input data data_length) in *.
  assert (Hil : length input = data_length).
  { subst input. unfold huffman_compress.input. rewrite length_firstn. lia. }
  destruct (build_node_tree_unique input) as (tree & Ht & Hok & Hu).
  pose proof (build_node_tree_length input tree Ht) as Htl.
  destruct (CompressObjectFacts.compress_object_layout data data_length data_length
              Hlen Hdefault Hpos Hidx)
    as (tree' & first & bits & saved' & o & Ht' & Hinfo & Hsaved' & Hcon & _ & Hlay).
  fold input in Ht', Hinfo, Hsaved', Hlay.
  rewrite Ht in Ht'. injection Ht' as <-.
  rewrite Hsaved in Hsaved'. injection Hsaved' as <-.
  rewrite Hmode in Hlay. destruct Hlay as (Hlo & Htab & _ & Hbits).
  destruct (compressed_size_info_spec input) as (tree' & Ht' & _ & Hinfo').
  rewrite Ht in Ht'. injection Ht' as <-.
  rewrite Hinfo in Hinfo'. injection Hinfo' as -> ->.
  destruct (sizes_defined input) as (first & bits & saved' & Hinfo' & Hfirst & _).
  rewrite Hinfo in Hinfo'. injection Hinfo' as <- <-.
  assert (Hex : exists c0, nth_error input 0 = Some c0).
  { destruct input as [|c0 r]; [simpl in Hil; lia|]. now exists c0. }
  destruct Hex as (c0 & Hc0).
  assert (Hroom : total_bits tree input / 8 + 1 <=
                  Z.of_nat (length (huffman_compress.compressed_data o))) by (rewrite Hlo; lia).
  destruct (info_increments data data_length tree saved o Hok Hu ltac:(lia) Hmode Htab
              Hroom Hbits 0 c0 Hdefault Hc0) as (b & e & _ & Hb & He & _).
  exists o, (total_bits tree input / 8 + 1, total_bits tree input mod 8), b, e.
  split; [exact Hcon|]. split; [exact Hinfo|]. split; [exact Hb|]. split; [exact He|].
  intros k c Hk.
  destruct (info_increments data data_length tree saved o Hok Hu ltac:(lia) Hmode Htab
              Hroom Hbits k c Hdefault Hk) as (b' & e' & d & Hb' & He' & Hd & Hcur & Heq).
  fold input in Hb', He', Hb, He.
  rewrite Hb in Hb'. injection Hb' as <-.
  rewrite He in He'. injection He' as <-.
  exists d. fold input in Heq. rewrite Hil in Heq. auto.
Qed.

End General.

End DecodeInfoProtocolFacts.

(** * The scenarios of the specification, run on the embedding

    All of them with [stable_std_sort] as [std::sort]. *)

Module Scenarios.
Import Arr Huffman Spec Inputs SortingFacts.

(** "abracadabra": frequencies c:1 d:1 b:2 r:2 a:5, nine tree nodes; too
    short to pay for the table, so stored raw. *)
Example abracadabra_list :
  map (fun n => (value n, freq n)) (build_node_list abracadabra) =
  [(99, 1); (100, 1); (98, 2); (114, 2); (97, 5)].
Proof. vm_compute. reflexivity. Qed.

Example abracadabra_tree :
  option_map (@length node) (build_node_tree abracadabra) = Some 9%nat /\
  bytes_saved abracadabra = Some 0 /\
  huffman_compressor.decode_all abracadabra = Some (map byte_val abracadabra).
Proof. repeat split; vm_compute; reflexivity. Qed.

(** Six copies of it are stored compressed: 18 bytes of payload, 27 of
    table.  The decoder of [huffman_compressor] gives the input back, the
    loop over [decode_info] of [huffman_compress] gives 65 of the 66
    bytes. *)
Example abracadabra6_compressed :
  compressed_size_info abracadabra6 = Some (18, 2) /\
  bytes_saved abracadabra6 = Some 21 /\
  huffman_compressor.size abracadabra6 = Some 45 /\
  huffman_compressor.decode_all abracadabra6 = Some (map byte_val abracadabra6) /\
  huffman_compress.decode_all (abracadabra6 ++ [x00]) 66 =
    Some (map byte_val (firstn 65 abracadabra6)).
Proof. repeat split; vm_compute; reflexivity. Qed.

(** One symbol: the working list is padded to two nodes, the tree has
    three, and the decoder stops after the one byte. *)
Example single_byte :
  build_node_tree a1 =
    Some [mk_node 256 1 (-1) 97 0; mk_node 0 0 0 (-1) (-1); mk_node 97 1 0 (-1) (-1)] /\
  huffman_compressor.decode_all a1 = Some [97].
Proof. split; vm_compute; reflexivity. Qed.

Example twelve_a_compressor :
  bytes_saved a12 = Some 1 /\
  huffman_compressor.decode_all a12 = Some (repeat 97 12).
Proof. split; vm_compute; reflexivity. Qed.

(** All 256 byte values once: 511 tree nodes, stored raw. *)
Example all_bytes_raw :
  tree_count all_bytes = 511%nat /\ bytes_saved all_bytes = Some 0 /\
  huffman_compressor.decode_all all_bytes = Some (map byte_val all_bytes).
Proof. repeat split; vm_compute; reflexivity. Qed.

(** Arrays the class [huffman_compress] does not take: "ab" without
    terminator has no default length; an array that starts with a zero has
    the default length 0; the byte 0x80 is a negative index; a length of 4
    reaches behind the three elements of the literal "ab".  The literal
    "\x80\x80" is no argument for [operator ""_huffman] either. *)
Example compress_rejected_arrays :
  huffman_compress.construct ab 2 = NotConstant /\
  huffman_compress.construct (x00 :: ab_literal) 3 = IllFormed /\
  huffman_compress.construct [x80; x80; x00] 2 = NotConstant /\
  huffman_compress.construct ab_literal 4 = NotConstant /\
  Literal.literal_huffman [x80; x80] = NotConstant.
Proof. repeat split; vm_compute; reflexivity. Qed.

(** A length that is not the default: the object is built, and the loop
    over it is not well typed.  The same in the earlier revision, where
    the class itself needs no terminator. *)
Example compress_explicit_length :
  (exists o, huffman_compress.construct a12_literal 6 = Constructed o) /\
  huffman_compress.decode_all a12_literal 6 = None /\
  (exists o, huffman_compress_earlier.construct abracadabra 11 = Constructed o) /\
  huffman_compress_earlier.decode_all abracadabra 11 = None /\
  huffman_compress_earlier.decode_all (Literal.array_of abracadabra) 11 =
    Some (map byte_val (firstn 10 abracadabra)).
Proof.
  split; [eexists; vm_compute; reflexivity|].
  split; [vm_compute; reflexivity|].
  split; [eexists; vm_compute; reflexivity|].
  split; vm_compute; reflexivity.
Qed.

End Scenarios.

(** * The claims *)

Import Arr Huffman Spec Inputs SortingFacts.

(** ** C9: empty input *)

(** C9.  Construction fails with [EmptyInput] exactly when the input length
    is 0, for both class templates, and a failed construction carries no
    object.  A non-empty input of [huffman_compressor] (a container of
    [unsigned char]) always yields an object.  A non-empty input of
    [huffman_compress] (an array of plain [char]) yields one exactly
    when the class can be formed and its constructor evaluated: the input
    lies inside the array, the array holds a C string that is not empty
    (the class names [huffman_compress<data>], whose length is the length
    of that string), and no input byte is negative as a plain [char].  The
    array whose string is empty is the one the compiler refuses with
    [IllFormed]. *)
Theorem C9_empty_input_iff `{StdSort} :
  (forall raw_data,
     huffman_compressor.construct raw_data = EmptyInput <-> length raw_data = 0%nat) /\
  (forall data data_length,
     huffman_compress.construct data data_length = EmptyInput <-> data_length = 0%nat) /\
  (forall raw_data mem,
     huffman_compressor.construct raw_data = EmptyInput ->
     huffman_compressor.construct raw_data <> Constructed mem) /\
  (forall data data_length o,
     huffman_compress.construct data data_length = EmptyInput ->
     huffman_compress.construct data data_length <> Constructed o) /\
  (forall raw_data,
     (0 < length raw_data)%nat ->
     exists mem, huffman_compressor.construct raw_data = Constructed mem) /\
  (forall data data_length,
     (0 < data_length)%nat ->
     ((exists o, huffman_compress.construct data data_length = Constructed o) <->
      (data_length <= length data)%nat /\
      (exists n, char_traits_length data = Some n /\ (0 < n)%nat) /\
      forallb indexable (huffman_compress.input data data_length) = true)) /\
  (forall data data_length,
     huffman_compress.construct data data_length = IllFormed <->
     (0 < data_length)%nat /\ char_traits_length data = Some 0%nat).
Proof.
  split; [|split; [|split; [|split; [|split; [|split]]]]].
  - intros raw_data. unfold huffman_compressor.construct.
    destruct (Nat.eqb_spec (length raw_data) 0) as [E|E]; [tauto|].
    split; [|contradiction].
    match goal with |- match ?m with _ => _ end = _ -> _ => destruct m end; discriminate.
  - intros data data_length. unfold huffman_compress.construct.
    destruct (Nat.eqb_spec data_length 0) as [E|E]; [tauto|].
    split; [|contradiction].
    destruct (char_traits_length data) as [[|n]|]; try discriminate.
    destruct (length data <? data_length)%nat; [discriminate|].
    destruct (negb (forallb indexable (huffman_compress.input data data_length)));
      [discriminate|].
    match goal with |- match ?m with _ => _ end = _ -> _ => destruct m end; discriminate.
  - intros raw_data mem ->. discriminate.
  - intros data data_length o ->. discriminate.
  - intros raw_data. apply ConstructFacts.compressor_construct_total.
  - intros data data_length Hpos. split.
    + intros (o & Ho).
      destruct (ConstructFacts.compress_construct_needs data data_length o Ho)
        as (Hl & (n & Hn) & Hidx).
      split; [lia|]. split; [|exact Hidx].
      exists (S n). split; [exact Hn|lia].
    + intros (Hl & (n & Hn & Hnpos) & Hidx).
      apply (ConstructFacts.compress_construct_total data data_length n); auto; lia.
  - intros data data_length. unfold huffman_compress.construct.
    destruct (Nat.eqb_spec data_length 0) as [E|E].
    { split; [discriminate|]. intros (Hpos & _). lia. }
    destruct (char_traits_length data) as [[|n]|].
    + split; [intros _; split; [lia|reflexivity]|reflexivity].
    + split; [|intros (_ & Hn); discriminate].
      destruct (length data <? data_length)%nat; [discriminate|].
      destruct (negb (forallb indexable (huffman_compress.input data data_length)));
        [discriminate|].
      match goal with |- match ?m with _ => _ end = _ -> _ => destruct m end; discriminate.
    + split; [discriminate|]. intros (_ & Hn). discriminate.
Qed.

(** ** C6: the frequency table builder *)

(** C6, as the code has it.  The builder returns the occurring symbols with
    their counts, ascending by frequency, in the order [std::sort] left
    symbols of equal frequency; when fewer than two symbols occur the list
    is filled up to two entries with default nodes (value 0, frequency 0)
    at its end. *)
Theorem C6_node_list_sorted `{StdSort} (data : list byte) :
  exists occ,
    Permutation occ (occurring data) /\ ascending occ /\
    build_node_list data = occ ++ repeat node_default (2 - length occ).
Proof. apply NodeListFacts.build_node_list_spec. Qed.

(** C6 as stated fails: for the input "a" the list ends with a placeholder
    of frequency 0 behind the symbol of frequency 1, and a [std::sort] that
    leaves ties in reverse order gives "ab" the list b, a. *)
Lemma C6_counterexample :
  @build_node_list stable_std_sort a1 <> spec_node_list a1 /\
  @build_node_list reverse_tie_std_sort ab <> spec_node_list ab.
Proof. split; vm_compute; discriminate. Qed.

(** ** C4: the shape of the tree *)

(** C4.  The tree arena has [2L-1] nodes, [L] the number of distinct symbols
    floored to 2; index 0 holds the root, the only node without parent, and
    every other node has its parent at a smaller index; the root's
    frequency is the input length; every internal node (value 256 or more)
    has exactly two children, the nodes its [left] and [right] fields name,
    and its frequency is the sum of theirs; a leaf has no children. *)
Theorem C4_tree_shape `{StdSort} (data : list byte) :
  exists tree root,
    build_node_tree data = Some tree /\
    length tree = (2 * distinct_symbols data - 1)%nat /\
    nth_error tree 0 = Some root /\ parent root = -1 /\ 256 <= value root /\
    freq root = Z.of_nat (length data) /\
    (forall j n, nth_error tree j = Some n -> (0 < j)%nat -> 0 <= parent n < Z.of_nat j) /\
    (forall i n, nth_error tree i = Some n -> 256 <= value n ->
       exists k b a,
         children tree i = [k; S k] /\ (i < k)%nat /\
         nth_error tree k = Some b /\ nth_error tree (S k) = Some a /\
         left n = value a /\ right n = value b /\ freq n = freq a + freq b) /\
    (forall i n, nth_error tree i = Some n -> value n < 256 ->
       children tree i = [] /\ left n = -1 /\ right n = -1).
Proof.
  destruct (BuildTreeFacts.build_node_tree_ok data) as (tree & Ht & Hok).
  destruct (ok_root _ _ Hok) as (root & Hr & Hp & Hf & Hv).
  exists tree, root. repeat split; try assumption.
  - apply (ok_length _ _ Hok).
  - eapply (ok_parent _ _ Hok); eauto.
  - eapply (ok_parent _ _ Hok); eauto.
  - apply (ok_internal _ _ Hok).
  - eapply (ok_leaf _ _ Hok); eauto.
  - eapply (ok_leaf _ _ Hok); eauto.
  - eapply (ok_leaf _ _ Hok); eauto.
Qed.

(** ** C3: the size calculator *)

(** C3, as the code has it.  The size calculator returns
    [(total_bits / 8 + 1, total_bits mod 8)], where [total_bits] sums, over
    the input bytes, the parent links between the byte's leaf and the root:
    the byte count is one more than the number of full bytes. *)
Theorem C3_size_info `{StdSort} (data : list byte) :
  exists tree,
    build_node_tree data = Some tree /\
    (forall c, In c data ->
       exists n, nth_error tree (leaf_of tree c) = Some n /\ value n = byte_val c) /\
    (forall i n, nth_error tree i = Some n ->
       edges_to_root tree i =
       if parent n =? -1 then 0 else 1 + edges_to_root tree (Z.to_nat (parent n))) /\
    compressed_size_info data =
    Some (total_bits tree data / 8 + 1, total_bits tree data mod 8).
Proof.
  destruct (SizeFacts.compressed_size_info_spec data) as (tree & Ht & Hok & Hinfo).
  exists tree. split; [exact Ht|]. split; [|split; [|exact Hinfo]].
  - intros c Hc. eapply SizeFacts.tree_ok_leaf_of; eauto.
  - intros i n Hn. apply SizeFacts.edges_to_root_step; [|exact Hn].
    eapply SizeFacts.tree_ok_decreasing; eauto.
Qed.

(** C3 as stated fails: "aaaaaaaa" needs 8 bits, one byte rounded up, and
    the size calculator returns 2 bytes. *)
Lemma C3_counterexample :
  exists tree,
    build_node_tree a8 = Some tree /\ total_bits tree a8 = 8 /\
    compressed_size_info a8 = Some (2, 0) /\
    compressed_size_info a8 <>
    Some (ceil_div8 (total_bits tree a8), total_bits tree a8 mod 8).
Proof.
  eexists. split; [vm_compute; reflexivity|].
  split; [vm_compute; reflexivity|]. split; [vm_compute; reflexivity|].
  vm_compute. discriminate.
Qed.

(** ** C2: the fallback policy *)

(** C2.  With [first] the payload size and [L] the number of distinct
    symbols (at least 2), the constructor compares [first + 3 * (2L - 1)]
    with the input length.  Where it is strictly smaller the object is the
    compressed form: an array of exactly that many bytes, shorter than the
    input, which starts with the codes of the input bytes; [size()] is its
    length and [data()] the array.  Otherwise, and only then, the object
    is the input verbatim; [size()] is the input length, [data()] the raw
    bytes, a decoder step hands out the stored byte under the cursor, and
    the loop from [begin()] to [end()] yields the input. *)
Theorem C2_fallback_policy `{StdSort} (raw_data : list byte) :
  (0 < length raw_data)%nat ->
  Z.of_nat (length raw_data) < 2 ^ 56 ->
  exists first bits saved mem,
    compressed_size_info raw_data = Some (first, bits) /\
    bytes_saved raw_data = Some saved /\
    huffman_compressor.construct raw_data = Constructed mem /\
    ((saved >? 0) = false <->
     ~ first + 3 * (2 * Z.of_nat (distinct_symbols raw_data) - 1)
       < Z.of_nat (length raw_data)) /\
    (mem = map byte_val raw_data <->
     ~ first + 3 * (2 * Z.of_nat (distinct_symbols raw_data) - 1)
       < Z.of_nat (length raw_data)) /\
    (first + 3 * (2 * Z.of_nat (distinct_symbols raw_data) - 1)
       < Z.of_nat (length raw_data) ->
     Z.of_nat (length mem) =
       first + 3 * (2 * Z.of_nat (distinct_symbols raw_data) - 1) /\
     huffman_compressor.size raw_data =
       Some (first + 3 * (2 * Z.of_nat (distinct_symbols raw_data) - 1)) /\
     huffman_compressor.data raw_data mem = Some mem /\
     exists tree,
       build_node_tree raw_data = Some tree /\
       forall x, 0 <= x < 8 * first ->
         Codec.bit_at mem x = nth (Z.to_nat x) (Codec.stream tree raw_data) false) /\
    (~ first + 3 * (2 * Z.of_nat (distinct_symbols raw_data) - 1)
       < Z.of_nat (length raw_data) ->
     huffman_compressor.construct raw_data = Constructed (map byte_val raw_data) /\
     huffman_compressor.size raw_data = Some (Z.of_nat (length raw_data)) /\
     huffman_compressor.data raw_data (map byte_val raw_data) =
       Some (map byte_val raw_data) /\
     (forall k bit cur x,
        nth_error (map byte_val raw_data) k = Some x ->
        huffman_compressor.get_next raw_data saved (first, bits) (map byte_val raw_data)
          (huffman_compressor.mk_decoder k (Some (Z.to_nat first)) bit cur) =
        Some (huffman_compressor.mk_decoder (S k) (Some (Z.to_nat first)) bit x)) /\
     huffman_compressor.decode_all raw_data = Some (map byte_val raw_data)).
Proof.
  intros Hlen Hbound.
  destruct (ObjectFacts.sizes_spec raw_data Hbound) as (first & bits & Hinfo & Hfirst & Hsize & Hsaved).
  pose proof (NodeListFacts.tree_count_spec raw_data) as Htc.
  pose proof (ObjectFacts.distinct_symbols_range raw_data) as Hd.
  set (c := first + 3 * Z.of_nat (tree_count raw_data)) in *.
  assert (Hc : c = first + 3 * (2 * Z.of_nat (distinct_symbols raw_data) - 1)).
  { subst c. rewrite Htc. lia. }
  set (saved := Z.max 0 (Z.of_nat (length raw_data) - c)) in *.
  assert (Hpolicy : (saved >? 0) = false <-> ~ c < Z.of_nat (length raw_data)).
  { subst saved.
    destruct (Z.gtb_spec (Z.max 0 (Z.of_nat (length raw_data) - c)) 0); split;
      intros; try discriminate; try reflexivity; lia. }
  destruct (saved >? 0) eqn:Hmode.
  - (* compressed *)
    assert (Hlt : c < Z.of_nat (length raw_data)).
    { destruct (Z.lt_ge_cases c (Z.of_nat (length raw_data))) as [Hlt|Hge]; [exact Hlt|].
      assert (E : true = false) by (apply Hpolicy; lia). discriminate. }
    destruct (BuildTreeFacts.build_node_tree_ok raw_data) as (tree & Ht & Hok).
    destruct (LayoutFacts.compressed_construct raw_data tree first bits saved
                Ht Hinfo Hsaved Hmode Hlen) as (mem & Hcon & Hl & _ & Hbits).
    fold c in Hl.
    exists first, bits, saved, mem. rewrite <- Hc.
    split; [exact Hinfo|]. split; [exact Hsaved|]. split; [exact Hcon|].
    split; [rewrite Hmode; exact Hpolicy|]. split; [|split].
    + split; [|intros Hn; contradiction].
      intros ->. rewrite length_map in Hl. lia.
    + intros _. split; [lia|]. split; [|split].
      * unfold huffman_compressor.size. now rewrite Hsaved, Hmode.
      * unfold huffman_compressor.data. now rewrite Hsaved, Hmode.
      * exists tree. split; [exact Ht|exact Hbits].
    + intros Hn. contradiction.
  - (* raw *)
    assert (Hge : ~ c < Z.of_nat (length raw_data)) by now apply Hpolicy.
    assert (Hcon : huffman_compressor.construct raw_data = Constructed (map byte_val raw_data)).
    { unfold huffman_compressor.construct.
      destruct (Nat.eqb_spec (length raw_data) 0); [lia|].
      rewrite Hsaved, Hinfo, Hmode.
      rewrite <- (length_map byte_val raw_data), ConstructFacts.copy_exact. reflexivity. }
    exists first, bits, saved, (map byte_val raw_data). rewrite <- Hc.
    split; [exact Hinfo|]. split; [exact Hsaved|]. split; [exact Hcon|].
    split; [rewrite Hmode; exact Hpolicy|]. split; [tauto|]. split; [intros Hlt; contradiction|].
    intros _.
    split; [exact Hcon|]. split; [|split; [|split]].
    + unfold huffman_compressor.size. now rewrite Hsaved, Hmode.
    + unfold huffman_compressor.data. now rewrite Hsaved, Hmode.
    + intros k bit cur x Hx. now apply ConstructFacts.fallback_get_next.
    + unfold huffman_compressor.decode_all. rewrite Hsaved, Hinfo, Hcon.
      now apply ConstructFacts.fallback_iterate.
Qed.

(** The policy at six copies of "abracadabra", 66 bytes: 18 bytes of
    payload and 27 of table are fewer, and the object is not the input. *)
Lemma C2_witness :
  (0 < length abracadabra6)%nat /\ Z.of_nat (length abracadabra6) < 2 ^ 56 /\
  exists mem,
    huffman_compressor.construct abracadabra6 = Constructed mem /\
    Z.of_nat (length mem) = 45 /\ mem <> map byte_val abracadabra6.
Proof.
  assert (H1 : (0 < length abracadabra6)%nat) by (vm_compute; lia).
  assert (H2 : Z.of_nat (length abracadabra6) < 2 ^ 56) by (vm_compute; reflexivity).
  split; [exact H1|]. split; [exact H2|].
  destruct (@C2_fallback_policy stable_std_sort abracadabra6 H1 H2)
    as (first & bits & saved & mem & Hi & _ & Hc & _ & Hraw & Hcomp & _).
  assert (E : compressed_size_info abracadabra6 = Some (18, 2)) by (vm_compute; reflexivity).
  rewrite E in Hi. injection Hi as <- <-.
  assert (Hlt : 18 + 3 * (2 * Z.of_nat (distinct_symbols abracadabra6) - 1)
                < Z.of_nat (length abracadabra6)) by (vm_compute; reflexivity).
  exists mem. split; [exact Hc|]. split.
  - destruct (Hcomp Hlt) as (Hl & _). rewrite Hl. vm_compute. reflexivity.
  - intros Heq. apply (proj1 Hraw Heq). exact Hlt.
Defined.

(** ** C5: the width of the offsets *)

(** C5 fails on the code for the input [wide].  Its tree has 347 nodes,
    more than an offset of one byte can span.  Construction reports
    nothing: it yields an object, in compressed mode.  Node 88 names as
    [left] the node at index 344, 256 entries further on, and the offset
    written into its table entry is 256 cut to a byte, 0. *)
Theorem C5_offset_truncated_silently :
  exists mem tree n,
    huffman_compressor.construct wide = Constructed mem /\
    bytes_saved wide = Some 249 /\
    compressed_size_info wide = Some (555, 7) /\
    build_node_tree wide = Some tree /\ tree_count wide = 347%nat /\
    nth_error tree 88 = Some n /\
    find_child (347 - 89) tree (left n) 89 = Some 344%nat /\
    Z.of_nat 344 - Z.of_nat 88 = 256 /\
    offset_byte 347 88 344 = 0 /\
    nth_error mem (555 + 88 * 3 + 1) = Some 0.
Proof.
  do 3 eexists.
  split; [vm_compute; reflexivity|]. split; [vm_compute; reflexivity|].
  split; [vm_compute; reflexivity|]. split; [vm_compute; reflexivity|].
  split; [vm_compute; reflexivity|]. split; [vm_compute; reflexivity|].
  split; [vm_compute; reflexivity|]. split; [reflexivity|].
  split; vm_compute; reflexivity.
Qed.
(** ** C1, C7, C8 and C10: where the code leaves the specification

    The evaluations below run the code with [stable_std_sort] as
    [std::sort]. *)

(** C1 fails on the code, in compressed mode, in both revisions.
    [huffman_compress] (the string literal "aaaaaaaaaaaa", length 12): the
    loop from [begin()] to [end()] yields 11 bytes, the last one is lost.
    [huffman_compressor] (the input [wide], 1845 bytes): the loop yields
    1847 bytes, the first of them 0 where the input starts with 3. *)
Theorem C1_round_trip_broken :
  bytes_saved a12 = Some 1 /\
  huffman_compress.decode_all a12_literal 12 = Some (repeat 97 11) /\
  map byte_val (firstn 12 a12_literal) = repeat 97 12 /\
  bytes_saved wide = Some 249 /\
  exists out,
    huffman_compressor.decode_all wide = Some out /\
    length out = 1847%nat /\ length wide = 1845%nat /\
    nth_error out 0 = Some 0 /\ nth_error (map byte_val wide) 0 = Some 3.
Proof.
  split; [vm_compute; reflexivity|]. split; [vm_compute; reflexivity|].
  split; [vm_compute; reflexivity|]. split; [vm_compute; reflexivity|].
  eexists. split; [vm_compute; reflexivity|].
  split; [vm_compute; reflexivity|]. split; [vm_compute; reflexivity|].
  split; vm_compute; reflexivity.
Qed.

(** C7 fails on [decode_info] of [huffman_compress], whose [get_next] has
    no test for the end.  For the string literal "ab" (stored raw): after
    both bytes were produced, the next advance hands out the terminating
    zero and puts the cursor on the end cursor; the advance after that
    reads outside the array.  It fails on [decoder] of [huffman_compressor]
    for the input [wide]: after 1845 bytes were produced the next advance
    produces one more byte, and the end sentinel comes two advances
    later. *)
Theorem C7_advance_past_end :
  (exists o b e,
     huffman_compress.construct ab_literal 2 = Constructed o /\
     bytes_saved (huffman_compress.input ab_literal 2) = Some 0 /\
     compressed_size_info (huffman_compress.input ab_literal 2) = Some (1, 2) /\
     huffman_compress.begin ab_literal 0 o = Some b /\
     huffman_compress.end_ ab_literal 2 0 (1, 2) o = Some e /\
     huffman_compress.m_current b = 97 /\
     advance_n (huffman_compress.get_next ab_literal 0 o) 1 b =
       Some (huffman_compress.mk_decode_info 2 0x80 98) /\
     advance_n (huffman_compress.get_next ab_literal 0 o) 2 b =
       Some (huffman_compress.mk_decode_info 3 0x80 0) /\
     huffman_compress.decode_info_eq (huffman_compress.mk_decode_info 3 0x80 0) e = true /\
     advance_n (huffman_compress.get_next ab_literal 0 o) 3 b = None) /\
  (exists mem b,
     huffman_compressor.construct wide = Constructed mem /\
     bytes_saved wide = Some 249 /\
     compressed_size_info wide = Some (555, 7) /\
     length wide = 1845%nat /\
     huffman_compressor.begin wide 249 (555, 7) mem = Some b /\
     advance_n (huffman_compressor.get_next wide 249 (555, 7) mem) 1845 b =
       Some (huffman_compressor.mk_decoder 554 (Some 555%nat) 2 0) /\
     advance_n (huffman_compressor.get_next wide 249 (555, 7) mem) 1847 b =
       Some (huffman_compressor.mk_decoder 554 (Some 555%nat) 1 (-1))).
Proof.
  split.
  - do 3 eexists.
    split; [vm_compute; reflexivity|]. split; [vm_compute; reflexivity|].
    split; [vm_compute; reflexivity|]. split; [vm_compute; reflexivity|].
    split; [vm_compute; reflexivity|]. split; [vm_compute; reflexivity|].
    split; [vm_compute; reflexivity|]. split; [vm_compute; reflexivity|].
    split; vm_compute; reflexivity.
  - do 2 eexists.
    split; [vm_compute; reflexivity|]. split; [vm_compute; reflexivity|].
    split; [vm_compute; reflexivity|]. split; [vm_compute; reflexivity|].
    split; [vm_compute; reflexivity|]. split; vm_compute; reflexivity.
Qed.

(** C8 fails on the code for the input [wide] (compressed mode): node 88 of
    the tree is internal, with children at the indices 343 and 344, and its
    table entry has left offset 0 and right offset 255. *)
Theorem C8_internal_entry_with_zero_left_offset :
  exists mem tree n,
    huffman_compressor.construct wide = Constructed mem /\
    bytes_saved wide = Some 249 /\
    compressed_size_info wide = Some (555, 7) /\
    build_node_tree wide = Some tree /\
    nth_error tree 88 = Some n /\ value n = 257 /\ children tree 88 = [343; 344]%nat /\
    nth_error mem (555 + 88 * 3 + 1) = Some 0 /\
    nth_error mem (555 + 88 * 3 + 2) = Some 255.
Proof.
  do 3 eexists.
  split; [vm_compute; reflexivity|]. split; [vm_compute; reflexivity|].
  split; [vm_compute; reflexivity|]. split; [vm_compute; reflexivity|].
  split; [vm_compute; reflexivity|]. split; [vm_compute; reflexivity|].
  split; [vm_compute; reflexivity|]. split; vm_compute; reflexivity.
Qed.

(** C10 fails on the code for the input [wide] (compressed mode): the first
    decoder step ends after 7 bit reads on table entry 88, an internal node
    whose stored left offset is 0, and hands out the byte 0; the leaf of the
    first input byte, 3, is node 344, 8 edges below the root. *)
Theorem C10_decoder_stops_inside_the_tree :
  exists mem tree n,
    huffman_compressor.construct wide = Constructed mem /\
    bytes_saved wide = Some 249 /\
    compressed_size_info wide = Some (555, 7) /\
    build_node_tree wide = Some tree /\
    nth_error mem 0 = Some 80 /\
    huffman_compressor.decode_walk (8 * length mem + 8) mem 555 80 0x80 0 =
      Some ((555 + 88 * 3)%nat, 1, 0%nat) /\
    nth_error tree 88 = Some n /\ value n = 257 /\ children tree 88 = [343; 344]%nat /\
    huffman_compressor.begin wide 249 (555, 7) mem =
      Some (huffman_compressor.mk_decoder 0 (Some 555%nat) 1 0) /\
    nth_error wide 0 = Some x03 /\
    leaf_of tree x03 = 344%nat /\ edges_to_root tree 344 = 8.
Proof.
  do 3 eexists.
  split; [vm_compute; reflexivity|]. split; [vm_compute; reflexivity|].
  split; [vm_compute; reflexivity|]. split; [vm_compute; reflexivity|].
  split; [vm_compute; reflexivity|]. split; [vm_compute; reflexivity|].
  split; [vm_compute; reflexivity|]. split; [vm_compute; reflexivity|].
  split; [vm_compute; reflexivity|]. split; [vm_compute; reflexivity|].
  split; [vm_compute; reflexivity|]. split; vm_compute; reflexivity.
Qed.

(** * Further properties of the code *)

Import Codec Literal.

(** ** The decoder of [huffman_compressor] *)

(** X1.  Round trip of the newest revision: for a non-empty input whose
    tree has at most 256 nodes (at most 128 distinct byte values), the
    range-based loop from [begin()] to [end()] over the object yields
    exactly the input bytes, whether the object stores them compressed or
    raw. *)
Theorem X1_compressor_round_trip `{StdSort} (raw_data : list byte) :
  (0 < length raw_data)%nat -> (tree_count raw_data <= 256)%nat ->
  huffman_compressor.decode_all raw_data = Some (map byte_val raw_data).
Proof. apply CompressorFacts.compressor_round_trip. Qed.

(** Six copies of "abracadabra", stored compressed. *)
Lemma X1_witness :
  (0 < length abracadabra6)%nat /\ (tree_count abracadabra6 <= 256)%nat /\
  huffman_compressor.decode_all abracadabra6 = Some (map byte_val abracadabra6).
Proof.
  assert (H1 : (0 < length abracadabra6)%nat) by (vm_compute; lia).
  assert (H2 : (tree_count abracadabra6 <= 256)%nat) by (vm_compute; lia).
  split; [exact H1|]. split; [exact H2|].
  exact (@X1_compressor_round_trip stable_std_sort abracadabra6 H1 H2).
Defined.

(** X2.  The iterator protocol of the newest revision, under the same
    conditions: [k] increments of [begin()] never fail; after them the
    decoder holds input byte [k] or, once [k] has reached the input
    length, the end sentinel [-1]; and it compares equal to [end()]
    exactly from then on, however often it is incremented. *)
Theorem X2_compressor_increments `{StdSort} (raw_data : list byte) :
  (0 < length raw_data)%nat -> (tree_count raw_data <= 256)%nat ->
  exists mem saved size_info b,
    huffman_compressor.construct raw_data = Constructed mem /\
    bytes_saved raw_data = Some saved /\
    compressed_size_info raw_data = Some size_info /\
    huffman_compressor.begin raw_data saved size_info mem = Some b /\
    forall k, exists d,
      advance_n (huffman_compressor.get_next raw_data saved size_info mem) k b = Some d /\
      huffman_compressor.m_current d = nth k (map byte_val raw_data) (-1) /\
      huffman_compressor.decoder_eq d (huffman_compressor.end_ raw_data saved size_info) =
        (length raw_data <=? k)%nat.
Proof. apply IncrementFacts.compressor_increments. Qed.

Lemma X2_witness :
  (0 < length abracadabra6)%nat /\ (tree_count abracadabra6 <= 256)%nat /\
  exists mem saved size_info b,
    huffman_compressor.construct abracadabra6 = Constructed mem /\
    bytes_saved abracadabra6 = Some saved /\
    compressed_size_info abracadabra6 = Some size_info /\
    huffman_compressor.begin abracadabra6 saved size_info mem = Some b.
Proof.
  assert (H1 : (0 < length abracadabra6)%nat) by (vm_compute; lia).
  assert (H2 : (tree_count abracadabra6 <= 256)%nat) by (vm_compute; lia).
  split; [exact H1|]. split; [exact H2|].
  destruct (@X2_compressor_increments stable_std_sort abracadabra6 H1 H2)
    as (mem & saved & size_info & b & Hc & Hs & Hi & Hb & _).
  exists mem, saved, size_info, b. auto.
Defined.

(** ** The decoder of [huffman_compress] *)

(** X3.  In the revision [consteval_huffman.hpp], with [data_length] the
    length of the C string in the array (the class for which [begin()] and
    [end()] are well typed) and input bytes that are not negative as plain
    [char], the loop over a compressed object yields the input without
    its last byte: when the last byte has been decoded the cursor is the
    cursor of [end()], and [operator==] compares cursors only. *)
Theorem X3_compress_loop_drops_last_byte `{StdSort} (data : list byte) (data_length : nat)
    (saved : Z) :
  char_traits_length data = Some data_length -> (0 < data_length)%nat ->
  forallb indexable (huffman_compress.input data data_length) = true ->
  bytes_saved (huffman_compress.input data data_length) = Some saved ->
  (saved >? 0) = true ->
  huffman_compress.decode_all data data_length =
  Some (removelast (map byte_val (huffman_compress.input data data_length))).
Proof.
  intros Hdefault Hpos Hidx Hsaved Hmode.
  destruct (DecodeInfoFacts.compress_decode_all data data_length Hdefault Hpos Hidx)
    as (saved' & Hsaved' & Hdec).
  assert (saved' = saved) by congruence. subst saved'.
  rewrite Hdec, Hmode. reflexivity.
Qed.

(** The string literal "aaaaaaaaaaaa". *)
Lemma X3_witness :
  char_traits_length a12_literal = Some 12%nat /\ (0 < 12)%nat /\
  forallb indexable (huffman_compress.input a12_literal 12) = true /\
  bytes_saved (huffman_compress.input a12_literal 12) = Some 1 /\
  huffman_compress.decode_all a12_literal 12 =
  Some (removelast (map byte_val (huffman_compress.input a12_literal 12))).
Proof.
  assert (H1 : char_traits_length a12_literal = Some 12%nat) by (vm_compute; reflexivity).
  assert (H2 : (0 < 12)%nat) by lia.
  assert (H3 : forallb indexable (huffman_compress.input a12_literal 12) = true)
    by (vm_compute; reflexivity).
  assert (H4 : bytes_saved (huffman_compress.input a12_literal 12) = Some 1)
    by (vm_compute; reflexivity).
  split; [exact H1|]. split; [exact H2|]. split; [exact H3|]. split; [exact H4|].
  exact (@X3_compress_loop_drops_last_byte stable_std_sort a12_literal 12 1
           H1 H2 H3 H4 eq_refl).
Defined.

(** X4.  In the revision [consteval_huffman.hpp], under the same
    conditions, the loop over an object that stores the raw bytes reads
    the template argument [data], not the object, and yields the input.
    It reads one element more than it yields: the increment that reaches
    the cursor of [end()], [data_length + 1], has read the terminating
    zero and holds it. *)
Theorem X4_compress_raw_loop `{StdSort} (data : list byte) (data_length : nat) (saved : Z) :
  char_traits_length data = Some data_length -> (0 < data_length)%nat ->
  forallb indexable (huffman_compress.input data data_length) = true ->
  bytes_saved (huffman_compress.input data data_length) = Some saved ->
  (saved >? 0) = false ->
  huffman_compress.decode_all data data_length =
    Some (map byte_val (huffman_compress.input data data_length)) /\
  exists o b,
    huffman_compress.construct data data_length = Constructed o /\
    huffman_compress.begin data saved o = Some b /\
    advance_n (huffman_compress.get_next data saved o) data_length b =
      Some (huffman_compress.mk_decode_info (data_length + 1) 0x80 0).
Proof. apply LiteralFacts.compress_decode_raw. Qed.

(** The string literal "ab". *)
Lemma X4_witness :
  char_traits_length ab_literal = Some 2%nat /\ (0 < 2)%nat /\
  forallb indexable (huffman_compress.input ab_literal 2) = true /\
  bytes_saved (huffman_compress.input ab_literal 2) = Some 0 /\
  huffman_compress.decode_all ab_literal 2 =
    Some (map byte_val (huffman_compress.input ab_literal 2)).
Proof.
  assert (H1 : char_traits_length ab_literal = Some 2%nat) by (vm_compute; reflexivity).
  assert (H2 : (0 < 2)%nat) by lia.
  assert (H3 : forallb indexable (huffman_compress.input ab_literal 2) = true)
    by (vm_compute; reflexivity).
  assert (H4 : bytes_saved (huffman_compress.input ab_literal 2) = Some 0)
    by (vm_compute; reflexivity).
  split; [exact H1|]. split; [exact H2|]. split; [exact H3|]. split; [exact H4|].
  exact (proj1 (@X4_compress_raw_loop stable_std_sort ab_literal 2 0 H1 H2 H3 H4 eq_refl)).
Defined.

(** X5.  With the second template argument of [huffman_compress] left to
    its default, [std::char_traits<char>::length(data)], and characters
    that are not negative as plain [char], the loop stays inside the
    array: the element it reads behind the input is the terminating zero.
    It yields the characters in raw mode and all but the last of them in
    compressed mode. *)
Theorem X5_default_length_loop `{StdSort} (data : list byte) (n : nat) :
  char_traits_length data = Some n -> (0 < n)%nat ->
  forallb indexable (huffman_compress.input data n) = true ->
  exists saved,
    bytes_saved (huffman_compress.input data n) = Some saved /\
    default_length_decode_all data =
    Some (if saved >? 0
          then removelast (map byte_val (huffman_compress.input data n))
          else map byte_val (huffman_compress.input data n)).
Proof. apply LiteralFacts.default_length_decode. Qed.

Lemma X5_witness :
  char_traits_length ab_literal = Some 2%nat /\ (0 < 2)%nat /\
  forallb indexable (huffman_compress.input ab_literal 2) = true /\
  exists saved,
    bytes_saved (huffman_compress.input ab_literal 2) = Some saved /\
    default_length_decode_all ab_literal =
    Some (if saved >? 0
          then removelast (map byte_val (huffman_compress.input ab_literal 2))
          else map byte_val (huffman_compress.input ab_literal 2)).
Proof.
  assert (H1 : char_traits_length ab_literal = Some 2%nat) by (vm_compute; reflexivity).
  assert (H2 : (0 < 2)%nat) by lia.
  assert (H3 : forallb indexable (huffman_compress.input ab_literal 2) = true)
    by (vm_compute; reflexivity).
  split; [exact H1|]. split; [exact H2|]. split; [exact H3|].
  exact (@X5_default_length_loop stable_std_sort ab_literal 2 H1 H2 H3).
Defined.

(** ** String literals *)

(** X6.  [operator ""_huffman] hands the array of the literal, a container
    of plain [char] with the terminator included, to [huffman_compressor].
    When no character is negative as a plain [char], construction
    succeeds (never for want of input, the terminator being part of it)
    and the loop over the object yields the characters of the literal
    followed by a zero byte.  When one is, the counting loop indexes the
    counters with a negative value and there is no object. *)
Theorem X6_literal_operator `{StdSort} (chars : list byte) :
  if forallb indexable chars
  then (exists mem, literal_huffman chars = Constructed mem) /\
       literal_decode_all chars = Some (map byte_val chars ++ [0])
  else literal_huffman chars = NotConstant /\ literal_decode_all chars = None.
Proof.
  destruct (forallb indexable chars) eqn:Hidx.
  - now apply LiteralFacts.literal_round_trip.
  - now apply LiteralFacts.literal_not_indexable.
Qed.

(** The literals "ab" and "\x80\x80". *)
Lemma X6_witness :
  literal_decode_all ab = Some (map byte_val ab ++ [0]) /\
  literal_huffman [x80; x80] = NotConstant.
Proof.
  split.
  - exact (proj2 (@X6_literal_operator stable_std_sort ab)).
  - exact (proj1 (@X6_literal_operator stable_std_sort [x80; x80])).
Defined.

(** ** The object in compressed mode *)

(** X7.  Layout of a compressed [huffman_compressor] object.  The array
    has [first + 3 * tree_count()] bytes, [first] the byte count of the
    size calculator.  Read most significant bit first, its first [first]
    bytes are the codes of the input bytes in input order, followed by
    zero bits; a code is the way from the root to the leaf, one bit per
    edge, set when the edge leads to the node the parent names as
    [right].  Behind them lies the decode table of the tree. *)
Theorem X7_compressed_object_layout `{StdSort} (raw_data : list byte) (saved : Z) :
  (0 < length raw_data)%nat ->
  bytes_saved raw_data = Some saved -> (saved >? 0) = true ->
  exists tree first bits mem,
    build_node_tree raw_data = Some tree /\
    compressed_size_info raw_data = Some (first, bits) /\
    huffman_compressor.construct raw_data = Constructed mem /\
    length mem = Z.to_nat (first + 3 * Z.of_nat (tree_count raw_data)) /\
    (forall x, 0 <= x < 8 * first ->
       bit_at mem x = nth (Z.to_nat x) (stream tree raw_data) false) /\
    (forall i n, nth_error tree i = Some n ->
       code tree i =
       if parent n =? -1 then []
       else match nth_error tree (Z.to_nat (parent n)) with
            | Some p => code tree (Z.to_nat (parent n)) ++ [right p =? value n]
            | None => []
            end) /\
    holds_table tree (Z.to_nat first) mem.
Proof.
  intros Hne Hsaved Hmode.
  destruct (BuildTreeFacts.build_node_tree_ok raw_data) as (tree & Ht & Hok).
  destruct (ObjectFacts.sizes_defined raw_data) as (first & bits & saved' & Hinfo & _ & _).
  destruct (LayoutFacts.compressed_construct raw_data tree first bits saved
              Ht Hinfo Hsaved Hmode Hne) as (mem & Hc & Hl & Htab & Hbits).
  exists tree, first, bits, mem. repeat (split; [assumption|]).
  split; [|exact Htab].
  intros i n Hn. apply CodeFacts.code_step; [|exact Hn].
  eapply SizeFacts.tree_ok_decreasing; eauto.
Qed.

Lemma X7_witness :
  (0 < length abracadabra6)%nat /\ bytes_saved abracadabra6 = Some 21 /\
  exists mem,
    huffman_compressor.construct abracadabra6 = Constructed mem /\ length mem = 45%nat.
Proof.
  assert (H1 : (0 < length abracadabra6)%nat) by (vm_compute; lia).
  assert (H2 : bytes_saved abracadabra6 = Some 21) by (vm_compute; reflexivity).
  split; [exact H1|]. split; [exact H2|].
  destruct (@X7_compressed_object_layout stable_std_sort abracadabra6 21 H1 H2 eq_refl)
    as (tree & first & bits & mem & _ & Hinfo & Hc & Hl & _).
  exists mem. split; [exact Hc|].
  assert (E : compressed_size_info abracadabra6 = Some (18, 2)) by (vm_compute; reflexivity).
  rewrite E in Hinfo. injection Hinfo as <- <-. exact Hl.
Defined.

(** X8.  The decode table of a tree of at most 256 nodes, three bytes per
    node: the entry of a leaf holds the byte value and two zero offsets;
    the entry of a parent holds 0 and two offsets between 1 and 255 that
    lead to the entries of the nodes it names as [left] and [right].  So
    the left offset is 0 exactly for leaves, which is the test the
    decoders use. *)
Theorem X8_table_entries `{StdSort} (data : list byte) (base : nat) (a : list Z) :
  (tree_count data <= 256)%nat -> (base + 3 * tree_count data <= length a)%nat ->
  exists tree a',
    build_node_tree data = Some tree /\
    build_decode_tree data base a = Some a' /\ length a' = length a /\
    forall i n, nth_error tree i = Some n ->
      exists v l r,
        nth_error a' (base + i * 3) = Some v /\
        nth_error a' (base + i * 3 + 1) = Some l /\
        nth_error a' (base + i * 3 + 2) = Some r /\
        (l =? 0) = (value n <? 256) /\
        (value n < 256 -> v = value n /\ l = 0 /\ r = 0) /\
        (256 <= value n ->
           v = 0 /\ 0 < l < 256 /\ 0 < r < 256 /\
           exists nl nr,
             nth_error tree (i + Z.to_nat l) = Some nl /\ value nl = left n /\
             nth_error tree (i + Z.to_nat r) = Some nr /\ value nr = right n).
Proof.
  intros Hsmall Hroom.
  destruct (BuildTreeFacts.build_node_tree_ok data) as (tree & Ht & Hok).
  destruct (EncoderFacts.build_decode_tree_ok data base a Hroom) as (a' & Ha' & Hl).
  exists tree, a'. split; [exact Ht|]. split; [exact Ha'|]. split; [exact Hl|].
  intros i n Hn.
  exact (LayoutFacts.build_decode_tree_entries data tree base a a' i n Ht Hsmall Hroom Ha' Hn).
Qed.

Lemma X8_witness :
  (tree_count ab <= 256)%nat /\ (0 + 3 * tree_count ab <= length (repeat 0 9))%nat /\
  exists a', build_decode_tree ab 0 (repeat 0 9) = Some a' /\ length a' = 9%nat.
Proof.
  assert (H1 : (tree_count ab <= 256)%nat) by (vm_compute; lia).
  assert (H2 : (0 + 3 * tree_count ab <= length (repeat 0 9))%nat) by (vm_compute; lia).
  split; [exact H1|]. split; [exact H2|].
  destruct (@X8_table_entries stable_std_sort ab 0 (repeat 0 9) H1 H2)
    as (tree & a' & _ & Ha' & Hl & _).
  exists a'. split; [exact Ha'|exact Hl].
Defined.

(** ** Sizes *)

(** X9.  What compression can save.  The payload takes at least one bit
    per input byte and one byte more, the table at least nine bytes; so
    [bytes_saved()] is at most the input length less an eighth of it less
    ten, and an input of fewer than 12 bytes is always stored raw. *)
Theorem X9_saving_bound `{StdSort} (raw_data : list byte) :
  (0 < length raw_data)%nat -> Z.of_nat (length raw_data) < 2 ^ 56 ->
  exists saved,
    bytes_saved raw_data = Some saved /\
    0 <= saved <=
      Z.max 0 (Z.of_nat (length raw_data) - Z.of_nat (length raw_data) / 8 - 10) /\
    ((length raw_data < 12)%nat ->
     saved = 0 /\
     huffman_compressor.construct raw_data = Constructed (map byte_val raw_data)).
Proof.
  intros Hne Hbound.
  destruct (ObjectFacts.sizes_defined raw_data) as (first & bits & saved & _ & _ & Hsaved).
  exists saved. split; [exact Hsaved|].
  split; [now apply SavingFacts.bytes_saved_upper_bound|].
  intros Hshort.
  destruct (SavingFacts.short_input_raw raw_data ltac:(lia)) as (Hs & Hc & _).
  split; [congruence|exact Hc].
Qed.

Lemma X9_witness :
  (0 < length abracadabra)%nat /\ Z.of_nat (length abracadabra) < 2 ^ 56 /\
  exists saved, bytes_saved abracadabra = Some saved /\ saved = 0.
Proof.
  assert (H1 : (0 < length abracadabra)%nat) by (vm_compute; lia).
  assert (H2 : Z.of_nat (length abracadabra) < 2 ^ 56) by (vm_compute; reflexivity).
  split; [exact H1|]. split; [exact H2|].
  destruct (@X9_saving_bound stable_std_sort abracadabra H1 H2) as (saved & Hs & _ & Hshort).
  exists saved. split; [exact Hs|].
  apply Hshort. vm_compute. lia.
Defined.

(** X10.  [size()] is the length of the array the object owns and
    [data()] is that array, in either mode; the object is as long as the
    input less [bytes_saved()], so never longer than the input. *)
Theorem X10_size_is_array_length `{StdSort} (raw_data : list byte) :
  (0 < length raw_data)%nat -> Z.of_nat (length raw_data) < 2 ^ 56 ->
  exists mem saved,
    huffman_compressor.construct raw_data = Constructed mem /\
    bytes_saved raw_data = Some saved /\
    huffman_compressor.size raw_data = Some (Z.of_nat (length mem)) /\
    huffman_compressor.data raw_data mem = Some mem /\
    Z.of_nat (length mem) = Z.of_nat (length raw_data) - saved /\ 0 <= saved.
Proof. apply SavingFacts.compressor_size_is_length. Qed.

Lemma X10_witness :
  (0 < length abracadabra6)%nat /\ Z.of_nat (length abracadabra6) < 2 ^ 56 /\
  exists mem,
    huffman_compressor.construct abracadabra6 = Constructed mem /\
    huffman_compressor.size abracadabra6 = Some (Z.of_nat (length mem)).
Proof.
  assert (H1 : (0 < length abracadabra6)%nat) by (vm_compute; lia).
  assert (H2 : Z.of_nat (length abracadabra6) < 2 ^ 56) by (vm_compute; reflexivity).
  split; [exact H1|]. split; [exact H2|].
  destruct (@X10_size_is_array_length stable_std_sort abracadabra6 H1 H2)
    as (mem & saved & Hc & _ & Hs & _).
  exists mem. split; [exact Hc|exact Hs].
Defined.

(** ** Code lengths *)

(** X11.  Of two bytes of the input, the one that occurs more often never
    has the longer code. *)
Theorem X11_frequent_bytes_have_shorter_codes `{StdSort} (data : list byte) (c1 c2 : byte) :
  In c1 data -> In c2 data ->
  occurrences (byte_val c2) data < occurrences (byte_val c1) data ->
  exists tree,
    build_node_tree data = Some tree /\
    edges_to_root tree (leaf_of tree c1) <= edges_to_root tree (leaf_of tree c2).
Proof. apply DepthFacts.frequent_symbols_shorter. Qed.

(** 'a' and 'b' in "abracadabra". *)
Lemma X11_witness :
  In x61 abracadabra /\ In x62 abracadabra /\
  occurrences (byte_val x62) abracadabra < occurrences (byte_val x61) abracadabra /\
  exists tree,
    build_node_tree abracadabra = Some tree /\
    edges_to_root tree (leaf_of tree x61) <= edges_to_root tree (leaf_of tree x62).
Proof.
  assert (H1 : In x61 abracadabra) by (simpl; auto).
  assert (H2 : In x62 abracadabra) by (simpl; auto).
  assert (H3 : occurrences (byte_val x62) abracadabra < occurrences (byte_val x61) abracadabra)
    by (vm_compute; reflexivity).
  split; [exact H1|]. split; [exact H2|]. split; [exact H3|].
  exact (@X11_frequent_bytes_have_shorter_codes stable_std_sort abracadabra x61 x62 H1 H2 H3).
Defined.

(** X12.  The code of an input byte has at least one bit and at most
    [L - 1] bits, [L] the number of distinct byte values floored to 2. *)
Theorem X12_code_length_bound `{StdSort} (data : list byte) (c : byte) :
  In c data ->
  exists tree,
    build_node_tree data = Some tree /\
    1 <= edges_to_root tree (leaf_of tree c) <= Z.of_nat (distinct_symbols data) - 1.
Proof. apply DepthFacts.code_length_bound. Qed.

Lemma X12_witness :
  In x61 abracadabra /\
  exists tree,
    build_node_tree abracadabra = Some tree /\
    1 <= edges_to_root tree (leaf_of tree x61) <= Z.of_nat (distinct_symbols abracadabra) - 1.
Proof.
  assert (H1 : In x61 abracadabra) by (simpl; auto).
  split; [exact H1|].
  exact (@X12_code_length_bound stable_std_sort abracadabra x61 H1).
Defined.

(** ** The tree array *)

(** X13.  With two or more distinct byte values in the input, the tree
    array is ordered: no two nodes share a value, frequencies never grow
    from one index to the next (the root first, the two nodes merged first
    last), the value of a parent is larger than the values it names as
    children, and the leaf of an input byte carries the number of
    occurrences of the byte. *)
Theorem X13_tree_array_order `{StdSort} (data : list byte) :
  (2 <= length (occurring data))%nat ->
  exists tree,
    build_node_tree data = Some tree /\
    NoDup (map value tree) /\
    (forall i j ni nj, (i <= j)%nat ->
       nth_error tree i = Some ni -> nth_error tree j = Some nj -> freq nj <= freq ni) /\
    (forall n, In n tree -> left n < value n /\ right n < value n) /\
    (forall c, In c data ->
       exists n, nth_error tree (leaf_of tree c) = Some n /\
                 value n = byte_val c /\ freq n = occurrences (byte_val c) data).
Proof.
  intros Htwo.
  destruct (OrderFacts.build_node_tree_ordered data Htwo)
    as (tree & Ht & Hok & Hnd & Hdesc & Hval & Hleaf).
  exists tree. split; [exact Ht|]. split; [exact Hnd|]. split; [exact Hdesc|].
  split; [intros n Hn; apply (Hval n Hn)|].
  intros c Hc. destruct (Hleaf c Hc) as (n & Hn & Hf).
  destruct (SizeFacts.tree_ok_leaf_of _ _ c Hok Hc) as (n' & Hn' & Hv).
  rewrite Hn in Hn'. injection Hn' as <-. exists n. auto.
Qed.

Lemma X13_witness :
  (2 <= length (occurring abracadabra))%nat /\
  exists tree, build_node_tree abracadabra = Some tree /\ NoDup (map value tree).
Proof.
  assert (H1 : (2 <= length (occurring abracadabra))%nat) by (vm_compute; lia).
  split; [exact H1|].
  destruct (@X13_tree_array_order stable_std_sort abracadabra H1) as (tree & Ht & Hnd & _).
  exists tree. split; [exact Ht|exact Hnd].
Defined.

(** ** The earlier revision with [get_decoder()] *)

(** X14.  For an input inside the array, of two or more distinct byte
    values none of which is negative as a plain [char], the earlier
    revision, which keeps its working list in the 256-entry table and ends
    it with a node of frequency 0, computes what the later revisions
    compute: the same tree, tree size, payload size, payload and decode
    table. *)
Theorem X14_earlier_pipeline_agrees `{StdSort} (data : list byte) (data_length : nat) :
  (data_length <= length data)%nat ->
  forallb indexable (huffman_compress_earlier.input data data_length) = true ->
  (2 <= length (occurring (huffman_compress_earlier.input data data_length)))%nat ->
  Z.of_nat (length (huffman_compress_earlier.input data data_length)) < 2 ^ 64 ->
  huffman_compress_earlier.build_node_tree data data_length =
    build_node_tree (huffman_compress_earlier.input data data_length) /\
  huffman_compress_earlier.tree_count data data_length =
    Some (Z.of_nat (tree_count (huffman_compress_earlier.input data data_length))) /\
  huffman_compress_earlier.output_size data data_length =
    compressed_size_info (huffman_compress_earlier.input data data_length) /\
  (forall a, huffman_compress_earlier.compress data data_length a =
             compress (huffman_compress_earlier.input data data_length) a) /\
  (forall a, huffman_compress_earlier.build_decode_tree data data_length a =
             build_decode_tree (huffman_compress_earlier.input data data_length) 0 a).
Proof.
  intros Hin Hidx Hn2 Hsize.
  assert (Hn : (2 <= length (occurring (huffman_compress_earlier.input data data_length))
                < 256)%nat).
  { pose proof (CharFacts.indexable_occurring _ Hidx). lia. }
  split; [now apply EarlierTreeFacts.build_node_tree_agrees|].
  split.
  { rewrite (EarlierTreeFacts.earlier_tree_count data data_length Hin Hidx),
            EarlierTreeFacts.later_tree_count by lia.
    reflexivity. }
  split; [now apply EarlierTreeFacts.output_size_agrees|].
  split; intros a.
  - now apply EarlierTreeFacts.compress_agrees.
  - now apply EarlierTreeFacts.build_decode_tree_agrees.
Qed.

(** The string literal "abracadabra". *)
Lemma X14_witness :
  (11 <= length (array_of abracadabra))%nat /\
  forallb indexable (huffman_compress_earlier.input (array_of abracadabra) 11) = true /\
  (2 <= length (occurring (huffman_compress_earlier.input (array_of abracadabra) 11)))%nat /\
  Z.of_nat (length (huffman_compress_earlier.input (array_of abracadabra) 11)) < 2 ^ 64 /\
  huffman_compress_earlier.build_node_tree (array_of abracadabra) 11 =
    build_node_tree (huffman_compress_earlier.input (array_of abracadabra) 11).
Proof.
  assert (H1 : (11 <= length (array_of abracadabra))%nat) by (vm_compute; lia).
  assert (H2 : forallb indexable
                 (huffman_compress_earlier.input (array_of abracadabra) 11) = true)
    by (vm_compute; reflexivity).
  assert (H3 : (2 <= length (occurring
                   (huffman_compress_earlier.input (array_of abracadabra) 11)))%nat)
    by (vm_compute; lia).
  assert (H4 : Z.of_nat (length (huffman_compress_earlier.input (array_of abracadabra) 11))
               < 2 ^ 64)
    by (vm_compute; reflexivity).
  split; [exact H1|]. split; [exact H2|]. split; [exact H3|]. split; [exact H4|].
  exact (proj1 (@X14_earlier_pipeline_agrees stable_std_sort (array_of abracadabra) 11
                  H1 H2 H3 H4)).
Defined.

(** X15.  The loop the documentation of the earlier revision gives,
    [for (auto decode = get_decoder(); decode; ++decode)], yields the
    input without its last byte: once the last byte is decoded no bit is
    left, and [operator bool] ends the loop before that byte is handed
    out.  Here [data_length] is the length of the C string in the array,
    the class in which [get_decoder()] is well typed, and the string has
    two or more distinct characters, none negative as a plain [char]. *)
Theorem X15_earlier_loop_drops_last_byte `{StdSort} (data : list byte) (data_length : nat) :
  (2 <= length (occurring (huffman_compress_earlier.input data data_length)))%nat ->
  char_traits_length data = Some data_length ->
  forallb indexable (huffman_compress_earlier.input data data_length) = true ->
  Z.of_nat data_length < 2 ^ 56 ->
  huffman_compress_earlier.decode_all data data_length =
  Some (removelast (map byte_val (huffman_compress_earlier.input data data_length))).
Proof. apply EarlierObjectFacts.earlier_decode_all. Qed.

(** The string literal "abracadabra". *)
Lemma X15_witness :
  (2 <= length (occurring (huffman_compress_earlier.input (array_of abracadabra) 11)))%nat /\
  char_traits_length (array_of abracadabra) = Some 11%nat /\
  forallb indexable (huffman_compress_earlier.input (array_of abracadabra) 11) = true /\
  Z.of_nat 11 < 2 ^ 56 /\
  huffman_compress_earlier.decode_all (array_of abracadabra) 11 =
  Some (removelast (map byte_val (huffman_compress_earlier.input (array_of abracadabra) 11))).
Proof.
  assert (H1 : (2 <= length (occurring
                   (huffman_compress_earlier.input (array_of abracadabra) 11)))%nat)
    by (vm_compute; lia).
  assert (H2 : char_traits_length (array_of abracadabra) = Some 11%nat)
    by (vm_compute; reflexivity).
  assert (H3 : forallb indexable
                 (huffman_compress_earlier.input (array_of abracadabra) 11) = true)
    by (vm_compute; reflexivity).
  assert (H4 : Z.of_nat 11 < 2 ^ 56) by (vm_compute; reflexivity).
  split; [exact H1|]. split; [exact H2|]. split; [exact H3|]. split; [exact H4|].
  exact (@X15_earlier_loop_drops_last_byte stable_std_sort (array_of abracadabra) 11
           H1 H2 H3 H4).
Defined.



(** X17.  The earlier revision has no [requires] clause: for a length of
    0 the node count is 0, [tree_count] wraps around to [2^64 - 1], and no
    object is built. *)
Theorem X17_earlier_empty_input `{StdSort} (data : list byte) :
  huffman_compress_earlier.tree_count data 0 = Some (2 ^ 64 - 1) /\
  huffman_compress_earlier.construct data 0 = NotConstant.
Proof. now apply EarlierObjectFacts.earlier_empty. Qed.

(** X18.  A C string of one repeated character (not negative as a plain
    [char]) in the earlier revision, [data_length] being its length: the
    tree is a single leaf, every code is empty, the object is one zero
    payload byte and one table entry, and the documented loop yields
    nothing. *)
Theorem X18_earlier_single_symbol `{StdSort} (data : list byte) (data_length : nat) :
  length (occurring (huffman_compress_earlier.input data data_length)) = 1%nat ->
  char_traits_length data = Some data_length ->
  forallb indexable (huffman_compress_earlier.input data data_length) = true ->
  exists v,
    (forall c, In c (huffman_compress_earlier.input data data_length) -> byte_val c = v) /\
    huffman_compress_earlier.output_size data data_length = Some (1, 0) /\
    huffman_compress_earlier.construct data data_length =
      Constructed (huffman_compress_earlier.mk_object [0] [v; 0; 0]) /\
    huffman_compress_earlier.decode_all data data_length = Some [].
Proof. apply EarlierObjectFacts.earlier_single_symbol. Qed.

(** The string literal "aaaaaaaa". *)
Lemma X18_witness :
  length (occurring (huffman_compress_earlier.input (array_of a8) 8)) = 1%nat /\
  char_traits_length (array_of a8) = Some 8%nat /\
  forallb indexable (huffman_compress_earlier.input (array_of a8) 8) = true /\
  huffman_compress_earlier.decode_all (array_of a8) 8 = Some [].
Proof.
  assert (H1 : length (occurring (huffman_compress_earlier.input (array_of a8) 8)) = 1%nat)
    by (vm_compute; reflexivity).
  assert (H2 : char_traits_length (array_of a8) = Some 8%nat) by (vm_compute; reflexivity).
  assert (H3 : forallb indexable (huffman_compress_earlier.input (array_of a8) 8) = true)
    by (vm_compute; reflexivity).
  split; [exact H1|]. split; [exact H2|]. split; [exact H3|].
  destruct (@X18_earlier_single_symbol stable_std_sort (array_of a8) 8 H1 H2 H3)
    as (v & _ & _ & _ & Hd).
  exact Hd.
Defined.

(** X19.  What [compressed_size()] of the earlier revision reports, for an
    input inside the array of two or more distinct byte values, none
    negative as a plain [char] ([T] the number of code bits of the input):
    the payload bytes [T / 8 + 1] plus the number [T mod 8] of bits in use
    in the last byte, the decode table left out; [bytes_saved()] is the
    unsigned difference to the input length. *)
Theorem X19_earlier_compressed_size `{StdSort} (data : list byte) (data_length : nat)
    (tree : list node) :
  (data_length <= length data)%nat ->
  forallb indexable (huffman_compress_earlier.input data data_length) = true ->
  (2 <= length (occurring (huffman_compress_earlier.input data data_length)))%nat ->
  Z.of_nat (length (huffman_compress_earlier.input data data_length)) < 2 ^ 56 ->
  build_node_tree (huffman_compress_earlier.input data data_length) = Some tree ->
  let total := total_bits tree (huffman_compress_earlier.input data data_length) in
  huffman_compress_earlier.compressed_size data data_length =
    Some (total / 8 + 1 + total mod 8) /\
  huffman_compress_earlier.bytes_saved data data_length =
    Some ((Z.of_nat data_length - (total / 8 + 1 + total mod 8)) mod 2 ^ 64).
Proof.
  intros Hin Hidx Hn Hsize Ht total.
  pose proof (EarlierObjectFacts.earlier_compressed_size data data_length tree
                Hn Hin Hidx Hsize Ht) as Hc.
  split; [exact Hc|].
  unfold huffman_compress_earlier.bytes_saved. rewrite Hc. reflexivity.
Qed.

(** The string literal "abracadabra": 23 code bits, reported as 3 + 7 = 10
    bytes. *)
Lemma X19_witness :
  exists tree,
    (11 <= length (array_of abracadabra))%nat /\
    forallb indexable (huffman_compress_earlier.input (array_of abracadabra) 11) = true /\
    (2 <= length (occurring (huffman_compress_earlier.input (array_of abracadabra) 11)))%nat /\
    Z.of_nat (length (huffman_compress_earlier.input (array_of abracadabra) 11)) < 2 ^ 56 /\
    build_node_tree (huffman_compress_earlier.input (array_of abracadabra) 11) = Some tree /\
    huffman_compress_earlier.compressed_size (array_of abracadabra) 11 = Some 10.
Proof.
  destruct (build_node_tree (huffman_compress_earlier.input (array_of abracadabra) 11))
    as [tree|] eqn:Ht; [|vm_compute in Ht; discriminate].
  exists tree.
  assert (H1 : (11 <= length (array_of abracadabra))%nat) by (vm_compute; lia).
  assert (H2 : forallb indexable
                 (huffman_compress_earlier.input (array_of abracadabra) 11) = true)
    by (vm_compute; reflexivity).
  assert (H3 : (2 <= length (occurring
                   (huffman_compress_earlier.input (array_of abracadabra) 11)))%nat)
    by (vm_compute; lia).
  assert (H4 : Z.of_nat (length (huffman_compress_earlier.input (array_of abracadabra) 11))
               < 2 ^ 56)
    by (vm_compute; reflexivity).
  split; [exact H1|]. split; [exact H2|]. split; [exact H3|]. split; [exact H4|].
  split; [reflexivity|].
  destruct (@X19_earlier_compressed_size stable_std_sort (array_of abracadabra) 11 tree
              H1 H2 H3 H4 Ht) as (Hc & _).
  rewrite Hc. vm_compute in Ht. injection Ht as <-. vm_compute. reflexivity.
Defined.

(** X20.  The protocol of the decoder of the earlier revision, for the
    class whose [data_length] is the length of the C string in the array
    (two or more distinct characters, none negative as a plain [char]):
    [get_decoder()] followed by [k] increments never fails for [k] below
    the input length and leaves the decoder holding input byte [k], the
    last byte included; [operator bool] is true exactly while a further
    byte follows. *)
Theorem X20_earlier_decoder_protocol `{StdSort} (data : list byte) (data_length : nat) :
  (2 <= length (occurring (huffman_compress_earlier.input data data_length)))%nat ->
  char_traits_length data = Some data_length ->
  forallb indexable (huffman_compress_earlier.input data data_length) = true ->
  Z.of_nat data_length < 2 ^ 56 ->
  exists o size_info,
    huffman_compress_earlier.construct data data_length = Constructed o /\
    huffman_compress_earlier.output_size data data_length = Some size_info /\
    forall k c, nth_error (huffman_compress_earlier.input data data_length) k = Some c ->
      exists d0 d,
        huffman_compress_earlier.get_decoder data o = Some d0 /\
        advance_n (huffman_compress_earlier.get_next o) k d0 = Some d /\
        huffman_compress_earlier.m_current d = byte_val c /\
        huffman_compress_earlier.has_more size_info d = (S k <? data_length)%nat.
Proof. apply EarlierObjectFacts.earlier_protocol. Qed.

(** The string literal "abracadabra": the decoder reaches the last
    character, and [operator bool] is false there. *)
Lemma X20_witness :
  (2 <= length (occurring (huffman_compress_earlier.input (array_of abracadabra) 11)))%nat /\
  char_traits_length (array_of abracadabra) = Some 11%nat /\
  forallb indexable (huffman_compress_earlier.input (array_of abracadabra) 11) = true /\
  Z.of_nat 11 < 2 ^ 56 /\
  exists o size_info d0 d,
    huffman_compress_earlier.construct (array_of abracadabra) 11 = Constructed o /\
    huffman_compress_earlier.output_size (array_of abracadabra) 11 = Some size_info /\
    huffman_compress_earlier.get_decoder (array_of abracadabra) o = Some d0 /\
    advance_n (huffman_compress_earlier.get_next o) 10 d0 = Some d /\
    huffman_compress_earlier.m_current d = 97 /\
    huffman_compress_earlier.has_more size_info d = false.
Proof.
  assert (H1 : (2 <= length (occurring
                   (huffman_compress_earlier.input (array_of abracadabra) 11)))%nat)
    by (vm_compute; lia).
  assert (H2 : char_traits_length (array_of abracadabra) = Some 11%nat)
    by (vm_compute; reflexivity).
  assert (H3 : forallb indexable
                 (huffman_compress_earlier.input (array_of abracadabra) 11) = true)
    by (vm_compute; reflexivity).
  assert (H4 : Z.of_nat 11 < 2 ^ 56) by (vm_compute; reflexivity).
  split; [exact H1|]. split; [exact H2|]. split; [exact H3|]. split; [exact H4|].
  destruct (@X20_earlier_decoder_protocol stable_std_sort (array_of abracadabra) 11
              H1 H2 H3 H4) as (o & size_info & Hc & Hs & Hk).
  destruct (Hk 10%nat x61 eq_refl) as (d0 & d & H0 & Hd & Hcur & Hmore).
  exists o, size_info, d0, d. auto 7.
Defined.

(** ** The object of [huffman_compress] *)

(** X21.  The two arrays of a [huffman_compress] object
    ([consteval_huffman.hpp]), built when the input lies inside the array,
    the array holds a C string that is not empty, and no input byte is
    negative as a plain [char].  The table array always has
    [3 * tree_count()] bytes.  In compressed mode the other array is the
    payload (the codes of the input bytes, most significant bit first) and
    the table array holds the decode table, three bytes per tree node: the
    byte value and two zeros for a leaf, 0 and the distances to the nodes
    named [left] and [right] for a parent.  In raw mode the other array is
    the input bytes and the table array stays zeroed: the object carries a
    table it does not use. *)
Theorem X21_compress_object_layout `{StdSort} (data : list byte) (data_length n : nat) :
  (0 < data_length <= length data)%nat ->
  char_traits_length data = Some n -> (0 < n)%nat ->
  forallb indexable (huffman_compress.input data data_length) = true ->
  exists tree first bits saved o,
    build_node_tree (huffman_compress.input data data_length) = Some tree /\
    compressed_size_info (huffman_compress.input data data_length) = Some (first, bits) /\
    bytes_saved (huffman_compress.input data data_length) = Some saved /\
    huffman_compress.construct data data_length = Constructed o /\
    length (huffman_compress.decode_tree o) =
      (3 * tree_count (huffman_compress.input data data_length))%nat /\
    if saved >? 0
    then length (huffman_compress.compressed_data o) = Z.to_nat first /\
         (forall x, 0 <= x < 8 * first ->
            bit_at (huffman_compress.compressed_data o) x =
            nth (Z.to_nat x) (stream tree (huffman_compress.input data data_length)) false) /\
         (forall i ti, nth_error tree i = Some ti ->
            exists v l r,
              nth_error (huffman_compress.decode_tree o) (i * 3) = Some v /\
              nth_error (huffman_compress.decode_tree o) (i * 3 + 1) = Some l /\
              nth_error (huffman_compress.decode_tree o) (i * 3 + 2) = Some r /\
              (value ti < 256 -> v = value ti /\ l = 0 /\ r = 0) /\
              (256 <= value ti ->
                 v = 0 /\ 0 < l < 256 /\ 0 < r < 256 /\
                 exists nl nr,
                   nth_error tree (i + Z.to_nat l) = Some nl /\ value nl = left ti /\
                   nth_error tree (i + Z.to_nat r) = Some nr /\ value nr = right ti))
    else huffman_compress.compressed_data o = map byte_val (huffman_compress.input data data_length) /\
         huffman_compress.decode_tree o =
           repeat 0 (3 * tree_count (huffman_compress.input data data_length)).
Proof.
  intros Hlen Hstr Hpos Hidx.
  destruct (CompressObjectFacts.compress_object_layout data data_length n Hlen Hstr Hpos Hidx)
    as (tree & first & bits & saved & o & Ht & Hinfo & Hsaved & Hcon & Hl & Hmode).
  exists tree, first, bits, saved, o.
  split; [exact Ht|]. split; [exact Hinfo|]. split; [exact Hsaved|]. split; [exact Hcon|].
  split; [exact Hl|].
  destruct (saved >? 0); [|exact Hmode].
  destruct Hmode as (Hlo & _ & Hrun & Hbits).
  split; [exact Hlo|]. split; [exact Hbits|].
  intros i ti Hti.
  pose proof (ConstructFacts.indexable_tree_count _ Hidx) as Hsmall.
  assert (Hroom : (0 + 3 * tree_count (huffman_compress.input data data_length) <=
                   length (repeat 0%Z (3 * tree_count (huffman_compress.input data data_length))))%nat)
    by (rewrite repeat_length; lia).
  destruct (LayoutFacts.build_decode_tree_entries _ tree 0 _ _ i ti Ht
              (Nat.le_trans _ _ _ Hsmall (Nat.le_succ_diag_r 255)) Hroom Hrun Hti)
    as (v & l & r & Hv & Hl' & Hr & _ & Hleaf & Hparent).
  cbn [Nat.add] in Hv, Hl', Hr.
  exists v, l, r. auto.
Qed.

(** The string literal "aaaaaaaaaaaa", kept compressed: two payload bytes
    and nine table bytes. *)
Lemma X21_witness :
  (0 < 12 <= length a12_literal)%nat /\
  char_traits_length a12_literal = Some 12%nat /\ (0 < 12)%nat /\
  forallb indexable (huffman_compress.input a12_literal 12) = true /\
  exists o,
    huffman_compress.construct a12_literal 12 = Constructed o /\
    length (huffman_compress.compressed_data o) = 2%nat /\
    length (huffman_compress.decode_tree o) = 9%nat.
Proof.
  assert (H1 : (0 < 12 <= length a12_literal)%nat) by (vm_compute; lia).
  assert (H2 : char_traits_length a12_literal = Some 12%nat) by (vm_compute; reflexivity).
  assert (H3 : (0 < 12)%nat) by lia.
  assert (H4 : forallb indexable (huffman_compress.input a12_literal 12) = true)
    by (vm_compute; reflexivity).
  split; [exact H1|]. split; [exact H2|]. split; [exact H3|]. split; [exact H4|].
  destruct (@X21_compress_object_layout stable_std_sort a12_literal 12 12 H1 H2 H3 H4)
    as (tree & first & bits & saved & o & _ & Hi & Hs & Hc & Hl & Hmode).
  vm_compute in Hs. injection Hs as <-.
  vm_compute in Hi. injection Hi as <- <-.
  change (1 >? 0) with true in Hmode. cbv iota in Hmode.
  destruct Hmode as (Hlo & _).
  exists o. split; [exact Hc|]. split; [exact Hlo|].
  rewrite Hl. vm_compute. reflexivity.
Defined.

(** X22.  The protocol of [decode_info] over a compressed
    [huffman_compress] object, for the class whose [data_length] is the
    length of the C string in the array (no character negative as a plain
    [char]): [begin()] followed by [k] increments never fails for [k]
    below the input length and leaves the decoder holding input byte [k],
    the last byte included; the decoder compares equal to [end()] exactly
    when it holds the last byte. *)
Theorem X22_compress_decoder_protocol `{StdSort} (data : list byte) (data_length : nat)
    (saved : Z) :
  char_traits_length data = Some data_length -> (0 < data_length)%nat ->
  forallb indexable (huffman_compress.input data data_length) = true ->
  bytes_saved (huffman_compress.input data data_length) = Some saved ->
  (saved >? 0) = true ->
  exists o size_info b e,
    huffman_compress.construct data data_length = Constructed o /\
    compressed_size_info (huffman_compress.input data data_length) = Some size_info /\
    huffman_compress.begin data saved o = Some b /\
    huffman_compress.end_ data data_length saved size_info o = Some e /\
    forall k c, nth_error (huffman_compress.input data data_length) k = Some c ->
      exists d,
        advance_n (huffman_compress.get_next data saved o) k b = Some d /\
        huffman_compress.m_current d = byte_val c /\
        huffman_compress.decode_info_eq d e = (S k =? data_length)%nat.
Proof. apply DecodeInfoProtocolFacts.compress_protocol. Qed.

(** The string literal "aaaaaaaaaaaa". *)
Lemma X22_witness :
  char_traits_length a12_literal = Some 12%nat /\ (0 < 12)%nat /\
  forallb indexable (huffman_compress.input a12_literal 12) = true /\
  bytes_saved (huffman_compress.input a12_literal 12) = Some 1 /\
  exists o b e,
    huffman_compress.construct a12_literal 12 = Constructed o /\
    huffman_compress.begin a12_literal 1 o = Some b /\
    huffman_compress.decode_info_eq b e = false.
Proof.
  assert (H1 : char_traits_length a12_literal = Some 12%nat) by (vm_compute; reflexivity).
  assert (H2 : (0 < 12)%nat) by lia.
  assert (H3 : forallb indexable (huffman_compress.input a12_literal 12) = true)
    by (vm_compute; reflexivity).
  assert (H4 : bytes_saved (huffman_compress.input a12_literal 12) = Some 1)
    by (vm_compute; reflexivity).
  split; [exact H1|]. split; [exact H2|]. split; [exact H3|]. split; [exact H4|].
  destruct (@X22_compress_decoder_protocol stable_std_sort a12_literal 12 1 H1 H2 H3 H4 eq_refl)
    as (o & size_info & b & e & Hc & _ & Hb & _ & Hk).
  destruct (Hk O x61 eq_refl) as (d & Hd & _ & Heq).
  cbn [advance_n] in Hd. injection Hd as <-.
  exists o, b, e. split; [exact Hc|]. split; [exact Hb|exact Heq].
Defined.
